(** * ODE simulator bridge of Choreonoid: kinematic model <-> rigid-body solver

    Shallow embedding of [src/ODEPlugin] (the ODE simulator item and the
    nailed-object registry).  C++ [double] values are read as real numbers:
    the statements below are the algebraic content of the code, i.e. what it
    computes in exact arithmetic.  Handles of the solver ([dBodyID],
    [dJointID], [dGeomID]) are natural numbers, [0] being the null handle. *)

From Stdlib Require Import Reals Lra Lia ZArith List String.
From stdpp Require Import base option list gmap.
Import ListNotations.

(* ===================================================================== *)
(** * Part I.  Definitions                                                *)
(* ===================================================================== *)

(** ** Linear algebra as the code uses it (Eigen's fixed-size types) *)

Open Scope R_scope.

Record Vector3 : Type := mkVector3 { vx : R; vy : R; vz : R }.

Record Matrix3 : Type := mkMatrix3 {
  m00 : R; m01 : R; m02 : R;
  m10 : R; m11 : R; m12 : R;
  m20 : R; m21 : R; m22 : R }.

(** [Position] is Eigen's [Affine3]: a linear part and a translation. *)
Record Position : Type := mkPosition { linear : Matrix3; translation : Vector3 }.

Definition Vector3_Zero : Vector3 := mkVector3 0 0 0.

Definition Matrix3_Identity : Matrix3 := mkMatrix3 1 0 0 0 1 0 0 0 1.

Definition Position_Identity : Position := mkPosition Matrix3_Identity Vector3_Zero.

Definition vadd (a b : Vector3) : Vector3 :=
  mkVector3 (vx a + vx b) (vy a + vy b) (vz a + vz b).

Definition vsub (a b : Vector3) : Vector3 :=
  mkVector3 (vx a - vx b) (vy a - vy b) (vz a - vz b).

Definition vscale (k : R) (a : Vector3) : Vector3 :=
  mkVector3 (k * vx a) (k * vy a) (k * vz a).

Definition vdiv (a : Vector3) (k : R) : Vector3 :=
  mkVector3 (vx a / k) (vy a / k) (vz a / k).

Definition dot (a b : Vector3) : R := vx a * vx b + vy a * vy b + vz a * vz b.

Definition cross (a b : Vector3) : Vector3 :=
  mkVector3 (vy a * vz b - vz a * vy b)
            (vz a * vx b - vx a * vz b)
            (vx a * vy b - vy a * vx b).

Definition norm (a : Vector3) : R := sqrt (dot a a).

(** [v.normalize()]: division by the norm. *)
Definition normalize (a : Vector3) : Vector3 := vdiv a (norm a).

Definition mulMV (M : Matrix3) (v : Vector3) : Vector3 :=
  mkVector3 (m00 M * vx v + m01 M * vy v + m02 M * vz v)
            (m10 M * vx v + m11 M * vy v + m12 M * vz v)
            (m20 M * vx v + m21 M * vy v + m22 M * vz v).

Definition mulMM (A B : Matrix3) : Matrix3 :=
  mkMatrix3
    (m00 A * m00 B + m01 A * m10 B + m02 A * m20 B)
    (m00 A * m01 B + m01 A * m11 B + m02 A * m21 B)
    (m00 A * m02 B + m01 A * m12 B + m02 A * m22 B)
    (m10 A * m00 B + m11 A * m10 B + m12 A * m20 B)
    (m10 A * m01 B + m11 A * m11 B + m12 A * m21 B)
    (m10 A * m02 B + m11 A * m12 B + m12 A * m22 B)
    (m20 A * m00 B + m21 A * m10 B + m22 A * m20 B)
    (m20 A * m01 B + m21 A * m11 B + m22 A * m21 B)
    (m20 A * m02 B + m21 A * m12 B + m22 A * m22 B).

Definition transpose (M : Matrix3) : Matrix3 :=
  mkMatrix3 (m00 M) (m10 M) (m20 M)
            (m01 M) (m11 M) (m21 M)
            (m02 M) (m12 M) (m22 M).

(** Product of two affine transforms, [T * offset]. *)
Definition mulPP (A B : Position) : Position :=
  mkPosition (mulMM (linear A) (linear B))
             (vadd (mulMV (linear A) (translation B)) (translation A)).

(** [AngleAxis(angle, axis).toRotationMatrix()], entry by entry as Eigen
    computes it (Rodrigues' formula; the axis is not normalised there). *)
Definition AngleAxis_toRotationMatrix (angle : R) (axis : Vector3) : Matrix3 :=
  let sin_axis := vscale (sin angle) axis in
  let c := cos angle in
  let cos1_axis := vscale (1 - c) axis in
  let t01 := vx cos1_axis * vy axis in
  let t02 := vx cos1_axis * vz axis in
  let t12 := vy cos1_axis * vz axis in
  mkMatrix3
    (vx cos1_axis * vx axis + c) (t01 - vz sin_axis) (t02 + vy sin_axis)
    (t01 + vz sin_axis) (vy cos1_axis * vy axis + c) (t12 - vx sin_axis)
    (t02 - vy sin_axis) (t12 + vx sin_axis) (vz cos1_axis * vz axis + c).

(** Quaternions, [Quat(w, x, y, z)]. *)
Record Quat : Type := mkQuat { qw : R; qx : R; qy : R; qz : R }.

(** [Quat(AngleAxis(angle, axis))]. *)
Definition Quat_of_AngleAxis (angle : R) (axis : Vector3) : Quat :=
  let s := sin (angle / 2) in
  mkQuat (cos (angle / 2)) (s * vx axis) (s * vy axis) (s * vz axis).

(** Hamilton product [a * b]. *)
Definition qmul (a b : Quat) : Quat :=
  mkQuat
    (qw a * qw b - qx a * qx b - qy a * qy b - qz a * qz b)
    (qw a * qx b + qx a * qw b + qy a * qz b - qz a * qy b)
    (qw a * qy b + qy a * qw b + qz a * qx b - qx a * qz b)
    (qw a * qz b + qz a * qw b + qx a * qy b - qy a * qx b).

Definition qsquaredNorm (a : Quat) : R :=
  qw a * qw a + qx a * qx a + qy a * qy a + qz a * qz a.

Definition qnorm (a : Quat) : R := sqrt (qsquaredNorm a).

(** [q.normalize()]: the four coefficients divided by the norm. *)
Definition qnormalize (a : Quat) : Quat :=
  mkQuat (qw a / qnorm a) (qx a / qnorm a) (qy a / qnorm a) (qz a / qnorm a).

Definition qconjugate (a : Quat) : Quat :=
  mkQuat (qw a) (- qx a) (- qy a) (- qz a).

(** [q.inverse()]: the conjugate over the squared norm, the zero quaternion
    when the squared norm is not positive. *)
Definition qinverse (a : Quat) : Quat :=
  let n2 := qsquaredNorm a in
  if Rlt_dec 0 n2
  then mkQuat (qw a / n2) (- qx a / n2) (- qy a / n2) (- qz a / n2)
  else mkQuat 0 0 0 0.

(** [PI_2] of the model library's utility header. *)
Definition PI_2 : R := PI / 2.

(** ** The two axis conventions *)

(** [makeInternal]: in place, z := -y and y := old z. *)
Definition makeInternal (v : Vector3) : Vector3 :=
  let a := vz v in
  mkVector3 (vx v) a (- vy v).

(** [toInternal(v, out_v)]: out_v << v.x(), v.z(), -v.y(). *)
Definition toInternal (v : Vector3) : Vector3 :=
  mkVector3 (vx v) (vz v) (- vy v).

Close Scope R_scope.

(** ** The kinematic model: links and bodies

    [cnoid::Link] objects live on the heap and are shared by pointer between
    the body, the link adapters and the crawler registry.  A [LinkPtr] is an
    address; [LinkHeap] is the memory holding the link objects. *)

Abbreviation LinkPtr := nat (only parsing).

Inductive JointType : Type :=
| ROTATIONAL_JOINT
| SLIDE_JOINT
| FREE_JOINT
| FIXED_JOINT
| CRAWLER_JOINT
| PSEUDO_CONTINUOUS_TRACK.

#[global] Instance JointType_eq_dec : EqDecision JointType.
Proof. solve_decision. Defined.

Record Link : Type := mkLink {
  link_index : nat;
  link_name : string;
  link_jointType : JointType;
  (* T(): linear part R() and translation p() *)
  link_R : Matrix3;
  link_p : Vector3;
  link_v : Vector3;
  link_w : Vector3;
  link_dv : Vector3;
  link_dw : Vector3;
  (* centre of mass, joint axes and offset from the parent, all constant *)
  link_c : Vector3;
  link_a : Vector3;
  link_d : Vector3;
  link_b : Vector3;
  (* joint displacement, velocity, acceleration and commanded torque *)
  link_q : R;
  link_dq : R;
  link_ddq : R;
  link_u : R;
  link_f_ext : Vector3;
  link_tau_ext : Vector3;
  (* the constant rotation between R() and attitude() *)
  link_Rs : Matrix3 }.

Definition link_T (l : Link) : Position := mkPosition (link_R l) (link_p l).

(** [attitude()]: R() * Rs. *)
Definition link_attitude (l : Link) : Matrix3 := mulMM (link_R l) (link_Rs l).

Definition isRotationalJoint (l : Link) : bool :=
  bool_decide (link_jointType l = ROTATIONAL_JOINT).

Definition isSlideJoint (l : Link) : bool :=
  bool_decide (link_jointType l = SLIDE_JOINT).

(** Assignments through a [Link*]. *)
Definition set_index (i : nat) (l : Link) : Link :=
  mkLink i (link_name l) (link_jointType l) (link_R l) (link_p l)
    (link_v l) (link_w l) (link_dv l) (link_dw l) (link_c l) (link_a l) (link_d l)
    (link_b l) (link_q l) (link_dq l) (link_ddq l) (link_u l) (link_f_ext l)
    (link_tau_ext l) (link_Rs l).

Definition set_R (M : Matrix3) (l : Link) : Link :=
  mkLink (link_index l) (link_name l) (link_jointType l) M (link_p l)
    (link_v l) (link_w l) (link_dv l) (link_dw l) (link_c l) (link_a l) (link_d l)
    (link_b l) (link_q l) (link_dq l) (link_ddq l) (link_u l) (link_f_ext l)
    (link_tau_ext l) (link_Rs l).

Definition set_p (x : Vector3) (l : Link) : Link :=
  mkLink (link_index l) (link_name l) (link_jointType l) (link_R l) x
    (link_v l) (link_w l) (link_dv l) (link_dw l) (link_c l) (link_a l) (link_d l)
    (link_b l) (link_q l) (link_dq l) (link_ddq l) (link_u l) (link_f_ext l)
    (link_tau_ext l) (link_Rs l).

Definition set_v (x : Vector3) (l : Link) : Link :=
  mkLink (link_index l) (link_name l) (link_jointType l) (link_R l)
    (link_p l) x (link_w l) (link_dv l) (link_dw l) (link_c l) (link_a l) (link_d l)
    (link_b l) (link_q l) (link_dq l) (link_ddq l) (link_u l) (link_f_ext l)
    (link_tau_ext l) (link_Rs l).

Definition set_w (x : Vector3) (l : Link) : Link :=
  mkLink (link_index l) (link_name l) (link_jointType l) (link_R l)
    (link_p l) (link_v l) x (link_dv l) (link_dw l) (link_c l) (link_a l) (link_d l)
    (link_b l) (link_q l) (link_dq l) (link_ddq l) (link_u l) (link_f_ext l)
    (link_tau_ext l) (link_Rs l).

Definition set_dv (x : Vector3) (l : Link) : Link :=
  mkLink (link_index l) (link_name l) (link_jointType l) (link_R l)
    (link_p l) (link_v l) (link_w l) x (link_dw l) (link_c l) (link_a l) (link_d l)
    (link_b l) (link_q l) (link_dq l) (link_ddq l) (link_u l) (link_f_ext l)
    (link_tau_ext l) (link_Rs l).

Definition set_dw (x : Vector3) (l : Link) : Link :=
  mkLink (link_index l) (link_name l) (link_jointType l) (link_R l)
    (link_p l) (link_v l) (link_w l) (link_dv l) x (link_c l) (link_a l) (link_d l)
    (link_b l) (link_q l) (link_dq l) (link_ddq l) (link_u l) (link_f_ext l)
    (link_tau_ext l) (link_Rs l).

Definition set_q (x : R) (l : Link) : Link :=
  mkLink (link_index l) (link_name l) (link_jointType l) (link_R l)
    (link_p l) (link_v l) (link_w l) (link_dv l) (link_dw l) (link_c l) (link_a l)
    (link_d l) (link_b l) x (link_dq l) (link_ddq l) (link_u l) (link_f_ext l)
    (link_tau_ext l) (link_Rs l).

Definition set_dq (x : R) (l : Link) : Link :=
  mkLink (link_index l) (link_name l) (link_jointType l) (link_R l)
    (link_p l) (link_v l) (link_w l) (link_dv l) (link_dw l) (link_c l) (link_a l)
    (link_d l) (link_b l) (link_q l) x (link_ddq l) (link_u l) (link_f_ext l)
    (link_tau_ext l) (link_Rs l).

Definition set_ddq (x : R) (l : Link) : Link :=
  mkLink (link_index l) (link_name l) (link_jointType l) (link_R l)
    (link_p l) (link_v l) (link_w l) (link_dv l) (link_dw l) (link_c l) (link_a l)
    (link_d l) (link_b l) (link_q l) (link_dq l) x (link_u l) (link_f_ext l)
    (link_tau_ext l) (link_Rs l).

Definition set_u (x : R) (l : Link) : Link :=
  mkLink (link_index l) (link_name l) (link_jointType l) (link_R l)
    (link_p l) (link_v l) (link_w l) (link_dv l) (link_dw l) (link_c l) (link_a l)
    (link_d l) (link_b l) (link_q l) (link_dq l) (link_ddq l) x (link_f_ext l)
    (link_tau_ext l) (link_Rs l).

(** The tree of a body as its [child()] / [sibling()] pointers spell it:
    [LNil] is the null pointer, [LNode l c s] the link at address [l] with
    first child [c] and next sibling [s]. *)
Inductive LinkTree : Type :=
| LNil
| LNode (l : LinkPtr) (child : LinkTree) (sibling : LinkTree).

Definition tree_link (t : LinkTree) : option LinkPtr :=
  match t with LNil => None | LNode l _ _ => Some l end.

Inductive ExtraJointType : Type := EJ_PISTON | EJ_BALL.

Record ExtraJoint : Type := mkExtraJoint {
  ej_type : ExtraJointType;
  ej_axis : Vector3;
  ej_link : LinkPtr * LinkPtr;
  ej_point : Vector3 * Vector3 }.

(** One node of the body's "mecanumWheelSetting" mapping: a listing entry is a
    scalar or something else ([toString] and [toDouble] throw on the latter,
    [toDouble] also on a scalar that is no number). *)
Inductive ValueNode : Type :=
| ScalarString (s : string)
| ScalarNumber (s : string) (d : R)
| NotScalar.

Record MecanumInfo : Type := mkMecanumInfo {
  mi_links : option (list ValueNode);
  mi_barrelAngles : option (list ValueNode) }.

Record Body : Type := mkBody {
  body_name : string;
  (* rootLink() with the tree below it; the root's own sibling is null *)
  body_tree : LinkTree;
  (* joint(i): the link of joint id i; numJoints() is the length *)
  body_joints : list LinkPtr;
  isStaticModel : bool;
  body_extraJoints : list ExtraJoint;
  (* info()->findMapping("mecanumWheelSetting"), None when not valid *)
  body_mecanumWheelSetting : option MecanumInfo }.

Abbreviation LinkHeap := (gmap nat Link) (only parsing).

(** ** The solver's memory (ODE), as far as the adapter reads and writes it *)

Abbreviation dBodyID := nat (only parsing).
Abbreviation dJointID := nat (only parsing).
Abbreviation dGeomID := nat (only parsing).

Open Scope R_scope.

(** [dMatrix3]: three rows of four reals, the fourth being padding. *)
Record dMatrix3 : Type := mkdMatrix3 {
  d0 : R; d1 : R; d2 : R; d3 : R;
  d4 : R; d5 : R; d6 : R; d7 : R;
  d8 : R; d9 : R; d10 : R; d11 : R }.

Definition identity : dMatrix3 :=
  mkdMatrix3 1 0 0 0
             0 1 0 0
             0 0 1 0.

Definition flippedIdentity : dMatrix3 :=
  mkdMatrix3 1 0 0 0
             0 0 1 0
             0 (-1) 0 0.

Close Scope R_scope.

Record dxBody : Type := mkdxBody {
  posr_pos : Vector3;
  posr_R : dMatrix3;
  body_q : Quat;
  lvel : Vector3;
  avel : Vector3;
  body_data : LinkPtr;
  body_kinematic : bool }.

Record dxGeom : Type := mkdxGeom {
  geom_body : dBodyID;
  geom_pos : Vector3;
  geom_R : dMatrix3 }.

Inductive dJointType : Type :=
| dJointTypeHinge
| dJointTypeSlider
| dJointTypeFixed
| dJointTypePlane2D
| dJointTypePiston
| dJointTypeBall.

Record dxJoint : Type := mkdxJoint {
  joint_type : dJointType;
  joint_body1 : dBodyID;
  joint_body2 : dBodyID;
  joint_anchor : option Vector3;
  joint_axis : option Vector3 }.

(** Contact data.  A [dContact] on the stack starts uninitialised; a field the
    callback never assigns is [None]. *)
Record dContactGeom : Type := mkdContactGeom {
  cg_pos : Vector3;
  cg_normal : Vector3;
  cg_depth : R }.

Record dSurfaceParameters : Type := mkdSurfaceParameters {
  surf_mode : option Z;
  surf_mu : option R;
  surf_mu2 : option R;
  surf_motion1 : option R }.

Record dContact : Type := mkdContact {
  surface : dSurfaceParameters;
  geom : dContactGeom;
  fdir1 : option Vector3 }.

(** A contact joint of the transient group: [dJointCreateContact] copies the
    contact, [dJointAttach] names the two bodies. *)
Record ContactJoint : Type := mkContactJoint {
  cj_contact : dContact;
  cj_body1 : dBodyID;
  cj_body2 : dBodyID }.

(** Contact mode flags of the solver's [contact.h]. *)
Definition dContactMu2 : Z := 0x001.
Definition dContactFDir1 : Z := 0x002.
Definition dContactMotion1 : Z := 0x020.
Definition dContactApprox1_1 : Z := 0x1000.
Definition dContactApprox1_2 : Z := 0x2000.
Definition dContactApprox1 : Z := 0x3000.

(** What the adapter asks of a joint for the coming step. *)
Inductive JointCommand : Type :=
| HingeTorque (u : R)
| SliderForce (u : R)
| HingeVel (v : R)
| SliderVel (v : R).

Record dxWorld : Type := mkdxWorld {
  bodies : gmap dBodyID dxBody;
  geoms : gmap dGeomID dxGeom;
  joints : gmap dJointID dxJoint;
  (* the torques, forces and target velocities given since the last step *)
  commands : list (dJointID * JointCommand);
  (* the allocator: every handle handed out so far is at most [last_handle] *)
  last_handle : nat }.

Definition with_bodies (f : gmap dBodyID dxBody -> gmap dBodyID dxBody) (W : dxWorld) : dxWorld :=
  mkdxWorld (f (bodies W)) (geoms W) (joints W) (commands W) (last_handle W).

Definition with_geoms (f : gmap dGeomID dxGeom -> gmap dGeomID dxGeom) (W : dxWorld) : dxWorld :=
  mkdxWorld (bodies W) (f (geoms W)) (joints W) (commands W) (last_handle W).

Definition with_command (j : dJointID) (c : JointCommand) (W : dxWorld) : dxWorld :=
  mkdxWorld (bodies W) (geoms W) (joints W) (commands W ++ [(j, c)]) (last_handle W).

(** What the solver does on its own, behind the calls of the adapter: the
    conversions between its two orientation fields, the joint read-outs, the
    integrators and the collision tests.  The adapter only calls them. *)
Class Solver : Type := {
  dQfromR : dMatrix3 -> Quat;
  dRfromQ : Quat -> dMatrix3;
  dJointGetHingeAngle : dxWorld -> dJointID -> R;
  dJointGetHingeAngleRate : dxWorld -> dJointID -> R;
  dJointGetSliderPosition : dxWorld -> dJointID -> R;
  dJointGetSliderPositionRate : dxWorld -> dJointID -> R;
  dJointGetFeedback_f1 : dxWorld -> dJointID -> Vector3;
  dWorldQuickStep : list ContactJoint -> R -> dxWorld -> dxWorld;
  dWorldStep : list ContactJoint -> R -> dxWorld -> dxWorld;
  (* the leaf pairs [dSpaceCollide] calls back with, each with what [dCollide]
     reports for it *)
  dSpaceCollide : nat -> dxWorld -> list (dGeomID * dGeomID * list dContactGeom) }.

Section SolverCalls.
Context `{Solver}.

Definition dBodySetRotation (b : dBodyID) (M : dMatrix3) : dxWorld -> dxWorld :=
  with_bodies (alter (fun B =>
    mkdxBody (posr_pos B) M (dQfromR M) (lvel B) (avel B) (body_data B) (body_kinematic B)) b).

Definition dBodySetQuaternion (b : dBodyID) (q : Quat) : dxWorld -> dxWorld :=
  with_bodies (alter (fun B =>
    mkdxBody (posr_pos B) (dRfromQ q) q (lvel B) (avel B) (body_data B) (body_kinematic B)) b).

Definition dBodySetPosition (b : dBodyID) (x y z : R) : dxWorld -> dxWorld :=
  with_bodies (alter (fun B =>
    mkdxBody (mkVector3 x y z) (posr_R B) (body_q B) (lvel B) (avel B) (body_data B)
      (body_kinematic B)) b).

Definition dBodySetLinearVel (b : dBodyID) (x y z : R) : dxWorld -> dxWorld :=
  with_bodies (alter (fun B =>
    mkdxBody (posr_pos B) (posr_R B) (body_q B) (mkVector3 x y z) (avel B) (body_data B)
      (body_kinematic B)) b).

Definition dBodySetAngularVel (b : dBodyID) (x y z : R) : dxWorld -> dxWorld :=
  with_bodies (alter (fun B =>
    mkdxBody (posr_pos B) (posr_R B) (body_q B) (lvel B) (mkVector3 x y z) (body_data B)
      (body_kinematic B)) b).

Definition dBodySetKinematic (b : dBodyID) : dxWorld -> dxWorld :=
  with_bodies (alter (fun B =>
    mkdxBody (posr_pos B) (posr_R B) (body_q B) (lvel B) (avel B) (body_data B) true) b).

(** The getters dereference the handle: no result on a handle that names no
    body (the null handle among them). *)
Definition dBodyGetRotation (W : dxWorld) (b : dBodyID) : option dMatrix3 :=
  posr_R <$> bodies W !! b.

Definition dBodyGetQuaternion (W : dxWorld) (b : dBodyID) : option Quat :=
  body_q <$> bodies W !! b.

Definition dBodyGetPosition (W : dxWorld) (b : dBodyID) : option Vector3 :=
  posr_pos <$> bodies W !! b.

Definition dBodyGetLinearVel (W : dxWorld) (b : dBodyID) : option Vector3 :=
  lvel <$> bodies W !! b.

Definition dBodyGetAngularVel (W : dxWorld) (b : dBodyID) : option Vector3 :=
  avel <$> bodies W !! b.

Definition dGeomSetPosition (g : dGeomID) (x y z : R) : dxWorld -> dxWorld :=
  with_geoms (alter (fun G => mkdxGeom (geom_body G) (mkVector3 x y z) (geom_R G)) g).

Definition dGeomSetRotation (g : dGeomID) (M : dMatrix3) : dxWorld -> dxWorld :=
  with_geoms (alter (fun G => mkdxGeom (geom_body G) (geom_pos G) M) g).

(** [dBodyCreate] followed by [dBodySetData]: a fresh, non-null handle. *)
Definition dBodyCreate (data : LinkPtr) (W : dxWorld) : dBodyID * dxWorld :=
  let b := S (last_handle W) in
  (b, mkdxWorld
        (<[b := mkdxBody Vector3_Zero identity (mkQuat 1 0 0 0) Vector3_Zero Vector3_Zero
                  data false]> (bodies W))
        (geoms W) (joints W) (commands W) b).

(** [dJointCreate...] followed by [dJointAttach] and the anchor and axis
    setters. *)
Definition dJointCreate (j : dxJoint) (W : dxWorld) : dJointID * dxWorld :=
  let id := S (last_handle W) in
  (id, mkdxWorld (bodies W) (geoms W) (<[id := j]> (joints W)) (commands W) id).

(** A new geometry in a space, [dGeomSetBody] done. *)
Definition dGeomCreate (g : dxGeom) (W : dxWorld) : dGeomID * dxWorld :=
  let id := S (last_handle W) in
  (id, mkdxWorld (bodies W) (<[id := g]> (geoms W)) (joints W) (commands W) id).

(** [dHashSpaceCreate]. *)
Definition dHashSpaceCreate (W : dxWorld) : nat * dxWorld :=
  let id := S (last_handle W) in
  (id, mkdxWorld (bodies W) (geoms W) (joints W) (commands W) id).

(** The actuation calls: [dJointAddHingeTorque], [dJointAddSliderForce] and
    [dJointSet...Param(dParamVel)]. *)
Definition dJointAddHingeTorque (j : dJointID) (u : R) : dxWorld -> dxWorld :=
  with_command j (HingeTorque u).

Definition dJointAddSliderForce (j : dJointID) (u : R) : dxWorld -> dxWorld :=
  with_command j (SliderForce u).

Definition dJointSetHingeParam_Vel (j : dJointID) (v : R) : dxWorld -> dxWorld :=
  with_command j (HingeVel v).

Definition dJointSetSliderParam_Vel (j : dJointID) (v : R) : dxWorld -> dxWorld :=
  with_command j (SliderVel v).

End SolverCalls.

(** ** Link adapters ([ODELink]) and body adapters ([ODEBody]) *)

Record ODELink : Type := mkODELink {
  link : LinkPtr;
  bodyID : dBodyID;
  jointID : dJointID;
  geomID : list dGeomID;
  offsetMap : gmap dGeomID Position;
  motorID : dJointID }.

Record ODEBody : Type := mkODEBody {
  body : Body;
  odeLinks : list ODELink;
  ob_worldID : nat;
  ob_spaceID : nat;
  geometryId : nat }.

(** [ODEBody::ODEBody(orgBody)]. *)
Definition ODEBody_new (orgBody : Body) : ODEBody := mkODEBody orgBody [] 0 0 0.

Definition set_odeLinks (v : list ODELink) (ob : ODEBody) : ODEBody :=
  mkODEBody (body ob) v (ob_worldID ob) (ob_spaceID ob) (geometryId ob).

Section KinematicState.
Context `{Solver}.

(** The upper-left 3x3 block of a transform as a [dMatrix3]. *)
Definition dMatrix3_of (T : Position) : dMatrix3 :=
  let M := linear T in
  mkdMatrix3 (m00 M) (m01 M) (m02 M) 0
             (m10 M) (m11 M) (m12 M) 0
             (m20 M) (m21 M) (m22 M) 0.

(** [ODELink::setKinematicStateToODE], on the link object [l] that
    [link] points to. *)
Definition setKinematicStateToODE (ol : ODELink) (l : Link) (W : dxWorld) : dxWorld :=
  let T := link_T l in
  if bool_decide (bodyID ol <> 0%nat) then
    let R2 := dMatrix3_of T in
    let W := dBodySetRotation (bodyID ol) R2 W in
    let lc := mulMV (link_R l) (link_c l) in
    let c := vadd (link_p l) lc in
    let W := dBodySetPosition (bodyID ol) (vx c) (vy c) (vz c) W in
    let w := link_w l in
    let v := vadd (link_v l) (cross w lc) in
    let W := dBodySetLinearVel (bodyID ol) (vx v) (vy v) (vz v) W in
    dBodySetAngularVel (bodyID ol) (vx w) (vy w) (vz w) W
  else
    foldl (fun W it =>
             let offset := default Position_Identity (offsetMap ol !! it) in
             let T_ := mulPP T offset in
             let p := vadd (translation T_) (link_c l) in
             let R2 := dMatrix3_of T_ in
             dGeomSetRotation it R2 (dGeomSetPosition it (vx p) (vy p) (vz p) W))
          W (geomID ol).

(** [ODELink::setKinematicStateToODEflip]. *)
Definition setKinematicStateToODEflip (ol : ODELink) (l : Link) (W : dxWorld) : dxWorld :=
  let T := linear (link_T l) in
  let R2 := mkdMatrix3 (m00 T) (m01 T) (m02 T) 0
                       (m20 T) (m21 T) (m22 T) 0
                       (- m10 T) (- m11 T) (- m12 T) 0 in
  if bool_decide (bodyID ol <> 0%nat) then
    let W := dBodySetRotation (bodyID ol) R2 W in
    let lc := mulMV (link_R l) (link_c l) in
    let c := vadd (link_p l) lc in
    let W := dBodySetPosition (bodyID ol) (vx c) (vz c) (- vy c) W in
    let w := link_w l in
    let v := vadd (link_v l) (cross w lc) in
    let W := dBodySetLinearVel (bodyID ol) (vx v) (vz v) (- vy v) W in
    dBodySetAngularVel (bodyID ol) (vx w) (vz w) (- vy w) W
  else
    let c := vadd (link_p l) (mulMV (link_R l) (link_c l)) in
    foldl (fun W it =>
             dGeomSetRotation it R2 (dGeomSetPosition it (vx c) (vy c) (- vz c) W))
          W (geomID ol).

(** The joint read-out shared by the two pull functions. *)
Definition getJointStateFromODE (ol : ODELink) (W : dxWorld) (l : Link) : Link :=
  if bool_decide (jointID ol <> 0%nat) then
    if isRotationalJoint l then
      set_dq (dJointGetHingeAngleRate W (jointID ol))
        (set_q (dJointGetHingeAngle W (jointID ol)) l)
    else if isSlideJoint l then
      set_dq (dJointGetSliderPositionRate W (jointID ol))
        (set_q (dJointGetSliderPosition W (jointID ol)) l)
    else l
  else l.

(** [ODELink::getKinematicStateFromODE].  "This method must not be called for
    a static body": without a solver body there is no result. *)
Definition getKinematicStateFromODE (ol : ODELink) (W : dxWorld) (l : Link) : option Link :=
  let l := getJointStateFromODE ol W l in
  R ← dBodyGetRotation W (bodyID ol);
  let l := set_R (mkMatrix3 (d0 R) (d1 R) (d2 R)
                            (d4 R) (d5 R) (d6 R)
                            (d8 R) (d9 R) (d10 R)) l in
  let c := mulMV (link_R l) (link_c l) in
  pos ← dBodyGetPosition W (bodyID ol);
  let l := set_p (vsub pos c) l in
  w ← dBodyGetAngularVel W (bodyID ol);
  let l := set_w w l in
  lv ← dBodyGetLinearVel W (bodyID ol);
  Some (set_v (vsub lv (cross (link_w l) c)) l).

(** [ODELink::getKinematicStateFromODEflip]. *)
Definition getKinematicStateFromODEflip (ol : ODELink) (W : dxWorld) (l : Link) : option Link :=
  let l := getJointStateFromODE ol W l in
  R ← dBodyGetRotation W (bodyID ol);
  let l := set_R (mkMatrix3 (d0 R) (d1 R) (d2 R)
                            (- d8 R) (- d9 R) (- d10 R)
                            (d4 R) (d5 R) (d6 R)) l in
  let c := toInternal (mulMV (link_R l) (link_c l)) in
  pos ← dBodyGetPosition W (bodyID ol);
  let p := vsub pos c in
  w ← dBodyGetAngularVel W (bodyID ol);
  lv ← dBodyGetLinearVel W (bodyID ol);
  let v := vsub lv (cross w c) in
  let l := set_p (mkVector3 (vx p) (- vz p) (vy p)) l in
  let l := set_w (mkVector3 (vx w) (- vz w) (vy w)) l in
  Some (set_v (mkVector3 (vx v) (- vz v) (vy v)) l).

(** The two conventions, as [ODEBody] selects between them. *)
Definition pushLink (flipYZ : bool) (ol : ODELink) (l : Link) (W : dxWorld) : dxWorld :=
  if negb flipYZ then setKinematicStateToODE ol l W else setKinematicStateToODEflip ol l W.

Definition pullLink (flipYZ : bool) (ol : ODELink) (W : dxWorld) (l : Link) : option Link :=
  if negb flipYZ then getKinematicStateFromODE ol W l else getKinematicStateFromODEflip ol W l.

(** [ODEBody::setKinematicStateToODE(flipYZ)]: every adapter in vector order,
    each through its [link] pointer. *)
Fixpoint pushLinks (flipYZ : bool) (ols : list ODELink) (heap : LinkHeap) (W : dxWorld)
  : option dxWorld :=
  match ols with
  | [] => Some W
  | ol :: rest =>
      l ← heap !! link ol;
      pushLinks flipYZ rest heap (pushLink flipYZ ol l W)
  end.

Definition ODEBody_setKinematicStateToODE (flipYZ : bool) (ob : ODEBody)
    (heap : LinkHeap) (W : dxWorld) : option dxWorld :=
  pushLinks flipYZ (odeLinks ob) heap W.

(** [ODEBody::getKinematicStateFromODE(flipYZ)]. *)
Fixpoint pullLinks (flipYZ : bool) (ols : list ODELink) (W : dxWorld) (heap : LinkHeap)
  : option LinkHeap :=
  match ols with
  | [] => Some heap
  | ol :: rest =>
      l ← heap !! link ol;
      l' ← pullLink flipYZ ol W l;
      pullLinks flipYZ rest W (<[link ol := l']> heap)
  end.

Definition ODEBody_getKinematicStateFromODE (flipYZ : bool) (ob : ODEBody)
    (W : dxWorld) (heap : LinkHeap) : option LinkHeap :=
  pullLinks flipYZ (odeLinks ob) W heap.

(** The solver body a push leaves behind, in one piece: what the four setters
    of either push function write, over the body [B] found there. *)
Definition pushed (flipYZ : bool) (l : Link) (B : dxBody) : dxBody :=
  let lc := mulMV (link_R l) (link_c l) in
  let c := vadd (link_p l) lc in
  let w := link_w l in
  let v := vadd (link_v l) (cross w lc) in
  let T := link_R l in
  if flipYZ then
    let R2 := mkdMatrix3 (m00 T) (m01 T) (m02 T) 0
                         (m20 T) (m21 T) (m22 T) 0
                         (- m10 T) (- m11 T) (- m12 T) 0 in
    mkdxBody (toInternal c) R2 (dQfromR R2) (toInternal v) (toInternal w)
      (body_data B) (body_kinematic B)
  else
    let R2 := dMatrix3_of (link_T l) in
    mkdxBody c R2 (dQfromR R2) v (mkVector3 (vx w) (vy w) (vz w))
      (body_data B) (body_kinematic B).

End KinematicState.

(** ** The nailed-object registry ([NailedObjectManager]) *)

Record NailedObject : Type := mkNailedObject {
  no_bodyID : dBodyID;
  no_jointID : dJointID;
  no_n : Vector3;
  no_maxFasteningForce : R }.

Definition getBodyID (obj : NailedObject) : dBodyID := no_bodyID obj.

(** [NailedObjectPtr] is a counted pointer: [None] is the null pointer. *)
Abbreviation NailedObjectPtr := (option NailedObject) (only parsing).

Abbreviation NailedObjectMap := (gmap nat (option NailedObject)) (only parsing).

Record NailedObjectManager : Type := mkNailedObjectManager {
  objectMap : NailedObjectMap }.

(** [std::map::insert]: the element is added only when the key is free. *)
Definition map_insert {V : Type} (k : nat) (v : V) (m : gmap nat V) : gmap nat V :=
  match m !! k with
  | Some _ => m
  | None => <[k := v]> m
  end.

(** The constructor leaves the map empty. *)
Definition NailedObjectManager_new : NailedObjectManager := mkNailedObjectManager ∅.

Definition NailedObjectManager_clear (M : NailedObjectManager) : NailedObjectManager := M.

(** [addObject] dereferences its argument ([obj->getBodyID()]): no result on
    the null pointer. *)
Definition addObject (obj : NailedObjectPtr) (M : NailedObjectManager)
  : option NailedObjectManager :=
  o ← obj;
  Some (mkNailedObjectManager (map_insert (getBodyID o) obj (objectMap M))).

(** The member functions are not [const]: each returns its result together
    with the manager it leaves behind. *)
Definition NailedObjectManager_find (bodyID : dBodyID) (M : NailedObjectManager)
  : bool * NailedObjectManager :=
  let p := objectMap M !! bodyID in
  match p with
  | Some _ => (true, M)
  | None => (false, M)
  end.

Definition NailedObjectManager_get (bodyID : dBodyID) (M : NailedObjectManager)
  : NailedObjectPtr * NailedObjectManager :=
  let p := objectMap M !! bodyID in
  match p with
  | Some second => (second, M)
  | None => (None, M)
  end.

(** ** The simulator item ([ODESimulatorItemImpl]) *)

Inductive StepMode : Type := STEP_ITERATIVE | STEP_BIG_MATRIX.

(** Devices the near-phase hooks drive; their classes belong to other plugins,
    so their member functions are an interface here. *)
Class Devices : Type := {
  VacuumGripper : Type;
  vg_on : VacuumGripper -> bool;
  vg_isGripping : VacuumGripper -> bool;
  vg_isGrippingBody : VacuumGripper -> dBodyID -> bool;
  vg_checkContact : VacuumGripper -> list dContactGeom -> R -> R -> Z;
  vg_grip : nat -> dBodyID -> VacuumGripper * dxWorld -> VacuumGripper * dxWorld;
  vg_limitCheck : VacuumGripper -> R -> bool;
  vg_release : VacuumGripper * dxWorld -> VacuumGripper * dxWorld;
  NailDriver : Type;
  nd_contact : NailDriver -> NailDriver;
  nd_checkContact : NailDriver -> list dContactGeom -> R -> R -> Z;
  nd_ready : NailDriver -> bool;
  nd_fire : NailedObject -> NailDriver -> dxWorld -> NailedObject * NailDriver * dxWorld;
  nd_distantCheck : nat -> NailDriver -> NailDriver;
  NailedObject_new : nat -> dBodyID -> dxWorld -> NailedObject * dxWorld;
  (* the devices of a body, each with the link it is mounted on *)
  body_vacuumGrippers : Body -> list (LinkPtr * VacuumGripper);
  body_nailDrivers : Body -> list (LinkPtr * NailDriver);
  vg_set_gripper : dBodyID -> VacuumGripper -> VacuumGripper }.

Record ODESimulatorItemImpl `{Devices} : Type := mkImpl {
  flipYZ : bool;
  worldID : nat;
  spaceID : nat;
  timeStep : R;
  stepMode : StepMode;
  friction : R;
  is2Dmode : bool;
  useWorldCollision : bool;
  velocityMode : bool;
  (* the joints of [contactJointGroupID], oldest first *)
  contactJointGroup : list ContactJoint;
  crawlerLinks : gmap dBodyID LinkPtr;
  (* [vector<ODELink*>]: a null entry is [None] *)
  geometryIdToLink : list (option ODELink);
  mecanumWheelSetting : gmap dBodyID R;
  vacuumGripperDevs : gmap dBodyID VacuumGripper;
  vacuumGripperDot : R;
  vacuumGripperDistance : R;
  nailDriverDevs : gmap dBodyID NailDriver;
  nailDriverDot : R;
  nailDriverDistance : R;
  nailDriverDistantCheckCount : nat;
  (* [self->currentTime()] *)
  currentTime : R;
  (* geometries registered with the external collision detector so far *)
  numGeometries : nat }.

Section ImplUpdates.
Context `{Devices}.

Definition set_contactJointGroup (g : list ContactJoint) (s : ODESimulatorItemImpl)
  : ODESimulatorItemImpl :=
  mkImpl _ (flipYZ s) (worldID s) (spaceID s) (timeStep s) (stepMode s) (friction s)
    (is2Dmode s) (useWorldCollision s) (velocityMode s) g (crawlerLinks s)
    (geometryIdToLink s) (mecanumWheelSetting s) (vacuumGripperDevs s)
    (vacuumGripperDot s) (vacuumGripperDistance s) (nailDriverDevs s) (nailDriverDot s)
    (nailDriverDistance s) (nailDriverDistantCheckCount s) (currentTime s) (numGeometries s).

Definition set_crawlerLinks (m : gmap dBodyID LinkPtr) (s : ODESimulatorItemImpl)
  : ODESimulatorItemImpl :=
  mkImpl _ (flipYZ s) (worldID s) (spaceID s) (timeStep s) (stepMode s) (friction s)
    (is2Dmode s) (useWorldCollision s) (velocityMode s) (contactJointGroup s) m
    (geometryIdToLink s) (mecanumWheelSetting s) (vacuumGripperDevs s)
    (vacuumGripperDot s) (vacuumGripperDistance s) (nailDriverDevs s) (nailDriverDot s)
    (nailDriverDistance s) (nailDriverDistantCheckCount s) (currentTime s) (numGeometries s).

Definition set_geometryIdToLink (v : list (option ODELink)) (n : nat)
    (s : ODESimulatorItemImpl) : ODESimulatorItemImpl :=
  mkImpl _ (flipYZ s) (worldID s) (spaceID s) (timeStep s) (stepMode s) (friction s)
    (is2Dmode s) (useWorldCollision s) (velocityMode s) (contactJointGroup s)
    (crawlerLinks s) v (mecanumWheelSetting s) (vacuumGripperDevs s)
    (vacuumGripperDot s) (vacuumGripperDistance s) (nailDriverDevs s) (nailDriverDot s)
    (nailDriverDistance s) (nailDriverDistantCheckCount s) (currentTime s) n.

Definition set_mecanumWheelSetting (m : gmap dBodyID R) (s : ODESimulatorItemImpl)
  : ODESimulatorItemImpl :=
  mkImpl _ (flipYZ s) (worldID s) (spaceID s) (timeStep s) (stepMode s) (friction s)
    (is2Dmode s) (useWorldCollision s) (velocityMode s) (contactJointGroup s)
    (crawlerLinks s) (geometryIdToLink s) m (vacuumGripperDevs s)
    (vacuumGripperDot s) (vacuumGripperDistance s) (nailDriverDevs s) (nailDriverDot s)
    (nailDriverDistance s) (nailDriverDistantCheckCount s) (currentTime s) (numGeometries s).

Definition set_vacuumGripperDevs (m : gmap dBodyID VacuumGripper) (s : ODESimulatorItemImpl)
  : ODESimulatorItemImpl :=
  mkImpl _ (flipYZ s) (worldID s) (spaceID s) (timeStep s) (stepMode s) (friction s)
    (is2Dmode s) (useWorldCollision s) (velocityMode s) (contactJointGroup s)
    (crawlerLinks s) (geometryIdToLink s) (mecanumWheelSetting s) m
    (vacuumGripperDot s) (vacuumGripperDistance s) (nailDriverDevs s) (nailDriverDot s)
    (nailDriverDistance s) (nailDriverDistantCheckCount s) (currentTime s) (numGeometries s).

Definition set_nailDriverDevs (m : gmap dBodyID NailDriver) (s : ODESimulatorItemImpl)
  : ODESimulatorItemImpl :=
  mkImpl _ (flipYZ s) (worldID s) (spaceID s) (timeStep s) (stepMode s) (friction s)
    (is2Dmode s) (useWorldCollision s) (velocityMode s) (contactJointGroup s)
    (crawlerLinks s) (geometryIdToLink s) (mecanumWheelSetting s) (vacuumGripperDevs s)
    (vacuumGripperDot s) (vacuumGripperDistance s) m (nailDriverDot s)
    (nailDriverDistance s) (nailDriverDistantCheckCount s) (currentTime s) (numGeometries s).

End ImplUpdates.

(** A mesh of a link's shape graph as [addMesh] meets it: one that becomes a
    native primitive (box, sphere or cylinder) placed by the transform [T_],
    or one whose [numVertices] vertices go to the adapter's vertex buffer. *)
Inductive Shape : Type :=
| Primitive (T_ : Position)
| Mesh (numVertices : nat).

(** What the kinematic-model side does on its own: virtual joint forces,
    external-force reset, forward kinematics, the look-up of a link by name
    ([Body::link(name)]), and the flattening of a link's shape graph into the
    geometries the adapter creates for it, in the order it creates them. *)
Class Model : Type := {
  Body_link : Body -> LinkHeap -> string -> option LinkPtr;
  setVirtualJointForces : Body -> LinkHeap -> LinkHeap;
  clearExternalForces : Body -> LinkHeap -> LinkHeap;
  calcForwardKinematics : bool -> bool -> Body -> LinkHeap -> LinkHeap;
  extractShapes : Link -> list Shape }.

Section Construction.
Context `{Solver} `{Devices} `{Model}.

(** [ODELink::createLinkBody] (the build against plain ODE; mass parameters,
    joint stops and the velocity-servo parameters configure the solver's own
    objects and are not kept here). *)
Definition createLinkBody (simImpl : ODESimulatorItemImpl) (parent : option ODELink)
    (origin : Vector3) (this : ODELink) (l : Link) (W : dxWorld)
  : ODELink * ODESimulatorItemImpl * dxWorld :=
  let '(newBodyID, W) := dBodyCreate (link this) W in
  let c := if negb (flipYZ simImpl) then link_c l else toInternal (link_c l) in
  let o := if negb (flipYZ simImpl) then origin else toInternal origin in
  let a := if negb (flipYZ simImpl) then link_a l else toInternal (link_a l) in
  let d := if negb (flipYZ simImpl) then link_d l else toInternal (link_d l) in
  let W := dBodySetRotation newBodyID
             (if negb (flipYZ simImpl) then identity else flippedIdentity) W in
  let p := vadd o c in
  let W := dBodySetPosition newBodyID (vx p) (vy p) (vz p) W in
  let parentBodyID := match parent with Some par => bodyID par | None => 0%nat end in
  let attached newJointID :=
    mkODELink (link this) newBodyID newJointID (geomID this) (offsetMap this)
      (motorID this) in
  match link_jointType l with
  | ROTATIONAL_JOINT =>
      let '(newJointID, W) :=
        dJointCreate (mkdxJoint dJointTypeHinge newBodyID parentBodyID (Some o) (Some a)) W in
      (attached newJointID, simImpl, W)
  | SLIDE_JOINT =>
      let '(newJointID, W) :=
        dJointCreate (mkdxJoint dJointTypeSlider newBodyID parentBodyID None (Some d)) W in
      (attached newJointID, simImpl, W)
  | FREE_JOINT => (attached 0%nat, simImpl, W)
  | FIXED_JOINT | CRAWLER_JOINT | PSEUDO_CONTINUOUS_TRACK =>
      if bool_decide (parentBodyID <> 0%nat) then
        let '(newJointID, W) :=
          dJointCreate (mkdxJoint dJointTypeFixed newBodyID parentBodyID None None) W in
        let simImpl :=
          if bool_decide (link_jointType l = PSEUDO_CONTINUOUS_TRACK)
             || bool_decide (link_jointType l = CRAWLER_JOINT)
          then set_crawlerLinks (map_insert newBodyID (link this) (crawlerLinks simImpl))
                 simImpl
          else simImpl in
        (attached newJointID, simImpl, W)
      else
        (attached 0%nat, simImpl, dBodySetKinematic newBodyID W)
  end.

(** [ODELink::addMesh]: a primitive becomes a geometry at once, attached to
    the body of the adapter; with a body it gets its offset from the centre
    of mass, without one its transform is kept in [offsetMap].  Any other
    mesh only appends its vertices to the buffer. *)
Definition addMesh (l : Link) (sh : Shape) (acc : ODELink * dxWorld) : ODELink * dxWorld :=
  let '(this, W) := acc in
  match sh with
  | Primitive T_ =>
      let p := vsub (translation T_) (link_c l) in
      let '(geomId, W) :=
        dGeomCreate
          (if bool_decide (bodyID this <> 0%nat)
           then mkdxGeom (bodyID this) p (dMatrix3_of T_)
           else mkdxGeom (bodyID this) Vector3_Zero identity) W in
      (mkODELink (link this) (bodyID this) (jointID this) (geomID this ++ [geomId])
         (if bool_decide (bodyID this <> 0%nat) then offsetMap this
          else map_insert geomId T_ (offsetMap this))
         (motorID this), W)
  | Mesh _ => (this, W)
  end.

(** The size of the vertex buffer after the meshes [shapes]. *)
Definition vertices_size (shapes : list Shape) : nat :=
  foldr (fun sh n => match sh with Primitive _ => n | Mesh k => (k + n)%nat end)
    0%nat shapes.

(** [ODELink::createGeometry]: [addMesh] for every mesh of the link's shape,
    then one triangle-mesh geometry when the vertex buffer is not empty. *)
Definition createGeometry (odeBody : ODEBody) (this : ODELink) (l : Link) (W : dxWorld)
  : ODELink * dxWorld :=
  let '(this, W) := foldl (fun acc sh => addMesh l sh acc) (this, W) (extractShapes l) in
  if bool_decide (vertices_size (extractShapes l) <> 0%nat) then
    let '(gId, W) := dGeomCreate (mkdxGeom (bodyID this) Vector3_Zero identity) W in
    (mkODELink (link this) (bodyID this) (jointID this) (geomID this ++ [gId])
       (offsetMap this) (motorID this), W)
  else (this, W).

(** What a running construction holds: the simulator item, the body adapter
    under construction and the solver's memory. *)
Record Build : Type := mkBuild {
  b_impl : ODESimulatorItemImpl;
  b_body : ODEBody;
  b_ode : dxWorld }.

(** The steps of the constructor [ODELink::ODELink] for the adapter at place
    [this] of [odeLinks] (an adapter is addressed by its place in the vector):
    [push_back(this)] with the fields zeroed, *)
Definition ODELink_push_back (lp : LinkPtr) (st : Build) : Build :=
  mkBuild (b_impl st)
    (set_odeLinks (odeLinks (b_body st) ++ [mkODELink lp 0 0 [] ∅ 0]) (b_body st))
    (b_ode st).

(** the solver body when the body adapter has a world, *)
Definition ODELink_createLinkBody (this : nat) (parent : option nat) (o : Vector3)
    (l : Link) (st : Build) : option Build :=
  if bool_decide (ob_worldID (b_body st) <> 0%nat) then
    me ← odeLinks (b_body st) !! this;
    par ← match parent with
           | Some i => Some <$> (odeLinks (b_body st) !! i)
           | None => Some None
           end;
    let '(me, simImpl, W) := createLinkBody (b_impl st) par o me l (b_ode st) in
    Some (mkBuild simImpl
            (set_odeLinks (<[this := me]> (odeLinks (b_body st))) (b_body st)) W)
  else Some st.

(** and the geometry unless the external collision detector is in use. *)
Definition ODELink_createGeometry (this : nat) (l : Link) (st : Build) : option Build :=
  if negb (useWorldCollision (b_impl st)) then
    me ← odeLinks (b_body st) !! this;
    let '(me, W) := createGeometry (b_body st) me l (b_ode st) in
    Some (mkBuild (b_impl st)
            (set_odeLinks (<[this := me]> (odeLinks (b_body st))) (b_body st)) W)
  else Some st.

(** The constructor run over a chain of siblings: for each link of the chain
    in turn, the three steps above, then the same for its children with
    [this] as their parent. *)
Fixpoint ODELink_chain (heap : LinkHeap) (t : LinkTree) (parent : option nat)
    (parentOrigin : Vector3) (st : Build) : option Build :=
  match t with
  | LNil => Some st
  | LNode lp child sibling =>
      let this := length (odeLinks (b_body st)) in
      let st := ODELink_push_back lp st in
      l ← heap !! lp;
      let o := vadd parentOrigin (link_b l) in
      st ← ODELink_createLinkBody this parent o l st;
      st ← ODELink_createGeometry this l st;
      st ← ODELink_chain heap child (Some this) o st;
      ODELink_chain heap sibling parent parentOrigin st
  end.

(** [new ODELink(simImpl, odeBody, parent, parentOrigin, link)] for the link at
    the top of [t]: the link and its descendants, not its siblings. *)
Definition ODELink_new (heap : LinkHeap) (t : LinkTree) (parent : option nat)
    (parentOrigin : Vector3) (st : Build) : option Build :=
  match t with
  | LNil => None
  | LNode lp child _ => ODELink_chain heap (LNode lp child LNil) parent parentOrigin st
  end.

(** [ODELink::setTorqueToODE] and [ODELink::setVelocityToODE]. *)
Definition setTorqueToODE (ol : ODELink) (l : Link) (W : dxWorld) : dxWorld :=
  if isRotationalJoint l then dJointAddHingeTorque (jointID ol) (link_u l) W
  else if isSlideJoint l then dJointAddSliderForce (jointID ol) (link_u l) W
  else W.

Definition setVelocityToODE (ol : ODELink) (l : Link) (W : dxWorld) : dxWorld :=
  if isRotationalJoint l then
    let v := link_dq l in dJointSetHingeParam_Vel (jointID ol) v W
  else if isSlideJoint l then
    let v := link_dq l in dJointSetSliderParam_Vel (jointID ol) v W
  else W.

Fixpoint actuateLinks (f : ODELink -> Link -> dxWorld -> dxWorld) (ols : list ODELink)
    (heap : LinkHeap) (W : dxWorld) : option dxWorld :=
  match ols with
  | [] => Some W
  | ol :: rest => l ← heap !! link ol; actuateLinks f rest heap (f ol l W)
  end.

(** [ODEBody::setTorqueToODE] and [ODEBody::setVelocityToODE] skip the root
    link: the loops start at index 1. *)
Definition ODEBody_setTorqueToODE (ob : ODEBody) (heap : LinkHeap) (W : dxWorld)
  : option dxWorld :=
  actuateLinks setTorqueToODE (drop 1 (odeLinks ob)) heap W.

Definition ODEBody_setVelocityToODE (ob : ODEBody) (heap : LinkHeap) (W : dxWorld)
  : option dxWorld :=
  actuateLinks setVelocityToODE (drop 1 (odeLinks ob)) heap W.

(** One turn of the inner loop of [setExtraJoints]: the adapter found at the
    link's index ([odeLink]) and the entry of [odeLinkPair] it gives. *)
Definition extraJointLink (ols : list ODELink) (heap : LinkHeap) (lp : LinkPtr)
  : option (option ODELink * option ODELink) :=
  l ← heap !! lp;
  if bool_decide (link_index l < length ols)%nat then
    odeLink ← ols !! link_index l;
    Some (Some odeLink, if bool_decide (link odeLink = lp) then Some odeLink else None)
  else Some (None, None).

(** [ODEBody::setExtraJoints]. *)
Definition setExtraJoint (flipYZ : bool) (ob : ODEBody) (heap : LinkHeap)
    (extraJoint : ExtraJoint) (W : dxWorld) : option dxWorld :=
  first ← extraJointLink (odeLinks ob) heap (fst (ej_link extraJoint));
  second ← match fst first with
            | Some _ => extraJointLink (odeLinks ob) heap (snd (ej_link extraJoint))
            | None => Some (None, None)
            end;
  match snd second with
  | Some pair1 =>
      pair0 ← snd first;
      l ← heap !! link pair0;
      let p := vadd (mulMV (link_attitude l) (fst (ej_point extraJoint))) (link_p l) in
      let a := mulMV (link_attitude l) (ej_axis extraJoint) in
      let p := if flipYZ then makeInternal p else p in
      let a := if flipYZ then makeInternal a else a in
      match ej_type extraJoint with
      | EJ_PISTON =>
          Some (snd (dJointCreate
                  (mkdxJoint dJointTypePiston (bodyID pair0) (bodyID pair1) (Some p) (Some a)) W))
      | EJ_BALL =>
          Some (snd (dJointCreate
                  (mkdxJoint dJointTypeBall (bodyID pair0) (bodyID pair1) (Some p) None) W))
      end
  | None => Some W
  end.

Fixpoint setExtraJoints_from (flipYZ : bool) (ob : ODEBody) (heap : LinkHeap)
    (ejs : list ExtraJoint) (W : dxWorld) : option dxWorld :=
  match ejs with
  | [] => Some W
  | ej :: rest =>
      W ← setExtraJoint flipYZ ob heap ej W;
      setExtraJoints_from flipYZ ob heap rest W
  end.

Definition setExtraJoints (flipYZ : bool) (ob : ODEBody) (heap : LinkHeap) (W : dxWorld)
  : option dxWorld :=
  setExtraJoints_from flipYZ ob heap (body_extraJoints (body ob)) W.

(** The links of a tree in the order the constructor meets them. *)
Fixpoint tree_links (t : LinkTree) : list LinkPtr :=
  match t with
  | LNil => []
  | LNode l child sibling => l :: tree_links child ++ tree_links sibling
  end.

(** The links of a body: the root and what hangs below it. *)
Definition body_links (b : Body) : list LinkPtr :=
  match body_tree b with
  | LNil => []
  | LNode l child _ => l :: tree_links child
  end.

Definition numLinks (b : Body) : nat := length (body_links b).

(** The loop of [createBody] that enters the adapters in
    [geometryIdToLink], each at [geometryId + index]. *)
Fixpoint registerGeometryIds (geometryId : nat) (ols : list ODELink) (heap : LinkHeap)
    (v : list (option ODELink)) : option (list (option ODELink)) :=
  match ols with
  | [] => Some v
  | odeLink :: rest =>
      l ← heap !! link odeLink;
      let index := link_index l in
      registerGeometryIds geometryId rest heap (<[(geometryId + index)%nat := Some odeLink]> v)
  end.

(** [vector::resize]. *)
Definition resize_vec {A : Type} (n : nat) (x : A) (v : list A) : list A :=
  take n v ++ replicate (n - length v) x.

(** The steps of [ODEBody::createBody] after the adapters are built: the
    entries of [geometryIdToLink] when the external collision detector is in
    use, *)
Definition enterGeometryIds (simImpl : ODESimulatorItemImpl) (ob : ODEBody)
    (heap : LinkHeap) : option ODESimulatorItemImpl :=
  if useWorldCollision simImpl then
    let numLinks := length (odeLinks ob) in
    v ← registerGeometryIds (geometryId ob) (odeLinks ob) heap
          (resize_vec (geometryId ob + numLinks) None (geometryIdToLink simImpl));
    Some (set_geometryIdToLink v (numGeometries simImpl) simImpl)
  else Some simImpl.

(** and the plane constraint on the root body in 2D mode. *)
Definition attachPlane2D (simImpl : ODESimulatorItemImpl) (ob : ODEBody) (rootLink : nat)
    (W : dxWorld) : option dxWorld :=
  if is2Dmode simImpl && bool_decide (ob_worldID ob <> 0%nat) then
    root ← odeLinks ob !! rootLink;
    Some (snd (dJointCreate (mkdxJoint dJointTypePlane2D (bodyID root) 0%nat None None) W))
  else Some W.

(** [ODEBody::createBody].  With the external collision detector the body's
    links are registered there first, one geometry per link, and the
    identifier of the first is kept; otherwise the body gets a space of its
    own.  The wiring of force-sensor feedback buffers touches sensor devices
    only, which the model does not hold. *)
Definition createBody (simImpl : ODESimulatorItemImpl) (ob : ODEBody) (heap : LinkHeap)
    (W : dxWorld) : option (ODESimulatorItemImpl * ODEBody * dxWorld) :=
  let worldID' := if isStaticModel (body ob) then 0%nat else worldID simImpl in
  let geometryId' :=
    if useWorldCollision simImpl then numGeometries simImpl else geometryId ob in
  let spaceID' :=
    if useWorldCollision simImpl then ob_spaceID ob else fst (dHashSpaceCreate W) in
  let W := if useWorldCollision simImpl then W else snd (dHashSpaceCreate W) in
  let simImpl :=
    if useWorldCollision simImpl
    then set_geometryIdToLink (geometryIdToLink simImpl)
           (numGeometries simImpl + numLinks (body ob)) simImpl
    else simImpl in
  let ob := mkODEBody (body ob) (odeLinks ob) worldID' spaceID' geometryId' in
  let rootLink := length (odeLinks ob) in
  st ← ODELink_new heap (body_tree (body ob)) None Vector3_Zero (mkBuild simImpl ob W);
  let simImpl := b_impl st in
  let ob := b_body st in
  W ← ODEBody_setKinematicStateToODE (flipYZ simImpl) ob heap (b_ode st);
  simImpl ← enterGeometryIds simImpl ob heap;
  W ← setExtraJoints (flipYZ simImpl) ob heap W;
  W ← attachPlane2D simImpl ob rootLink W;
  W ← ODEBody_setTorqueToODE ob heap W;
  Some (simImpl, ob, W).

End Construction.

(** Modelled from the spec: the numbering of the links, done by the
    kinematic-model collaborator when a body is put together (its code is not
    part of these sources).  The data model gives every link a unique index
    and keeps the adapters, built pre-order and depth-first, index-aligned
    with the tree: a link's index is its place in that traversal, the root
    being link 0. *)
Fixpoint number_links (t : LinkTree) (k : nat) (heap : LinkHeap) : nat * LinkHeap :=
  match t with
  | LNil => (k, heap)
  | LNode l child sibling =>
      let heap := alter (set_index k) l heap in
      let '(k, heap) := number_links child (S k) heap in
      number_links sibling k heap
  end.

Definition updateLinkTree (b : Body) (heap : LinkHeap) : LinkHeap :=
  match body_tree b with
  | LNil => heap
  | LNode l child _ => snd (number_links (LNode l child LNil) 0 heap)
  end.

(** ** Mecanum-wheel settings *)

(** [ValueNode::toString] and [ValueNode::toDouble]; [None] is the exception
    each throws. *)
Definition toString (v : ValueNode) : option string :=
  match v with
  | ScalarString s => Some s
  | ScalarNumber s _ => Some s
  | NotScalar => None
  end.

Definition toDouble (v : ValueNode) : option R :=
  match v with
  | ScalarNumber _ d => Some d
  | ScalarString _ => None
  | NotScalar => None
  end.

Open Scope R_scope.

(** The value [d] that [preserveMecanumWheelSetting] keeps for the link at
    place [i] of the "links" listing, from the "barrelAngles" listing;
    [None] when [toDouble] throws. *)
Definition barrelAngleSetting (angles : option (list ValueNode)) (i : nat) : option R :=
  let d := 0 in
  match angles with
  | Some angles =>
      if bool_decide (i < length angles)%nat then
        node ← angles !! i;
        d2 ← toDouble node;
        Some (if Req_dec_T d2 0 then PI_2
              else if Rlt_dec (Rabs (PI_2 - d2)) 0.00001 then 0 else d2)
      else Some d
  | None => Some d
  end.

Close Scope R_scope.

(** The first adapter of the vector that wraps the link [p]. *)
Fixpoint findODELink (p : LinkPtr) (ols : list ODELink) : option ODELink :=
  match ols with
  | [] => None
  | ol :: rest => if bool_decide (p = link ol) then Some ol else findODELink p rest
  end.

Section Mecanum.
Context `{Devices} `{Model}.

(** One turn of the loop of [preserveMecanumWheelSetting], the [try] block
    and its handlers included: an exception leaves the map as it is. *)
Definition preserveMecanumWheel (odeBody : ODEBody) (heap : LinkHeap)
    (angles : option (list ValueNode)) (i : nat) (node : ValueNode)
    (setting : gmap dBodyID R) : gmap dBodyID R :=
  match toString node with
  | None => setting
  | Some s =>
      match Body_link (body odeBody) heap s with
      | None => setting
      | Some p =>
          match heap !! p with
          | None => setting
          | Some pl =>
              if bool_decide (link_jointType pl <> CRAWLER_JOINT) then setting
              else
                match barrelAngleSetting angles i with
                | None => setting
                | Some d =>
                    match findODELink p (odeLinks odeBody) with
                    | Some ol => map_insert (bodyID ol) d setting
                    | None => setting
                    end
                end
          end
      end
  end.

Fixpoint preserveMecanumWheels (odeBody : ODEBody) (heap : LinkHeap)
    (angles : option (list ValueNode)) (i : nat) (links : list ValueNode)
    (setting : gmap dBodyID R) : gmap dBodyID R :=
  match links with
  | [] => setting
  | node :: rest =>
      preserveMecanumWheels odeBody heap angles (S i) rest
        (preserveMecanumWheel odeBody heap angles i node setting)
  end.

(** [ODESimulatorItemImpl::preserveMecanumWheelSetting]. *)
Definition preserveMecanumWheelSetting (odeBody : ODEBody) (heap : LinkHeap)
    (simImpl : ODESimulatorItemImpl) : ODESimulatorItemImpl :=
  match body_mecanumWheelSetting (body odeBody) with
  | None => simImpl
  | Some m =>
      match mi_links m with
      | None => simImpl
      | Some links =>
          if bool_decide (length links < 1)%nat then simImpl
          else set_mecanumWheelSetting
                 (preserveMecanumWheels odeBody heap (mi_barrelAngles m) 0 links
                    (mecanumWheelSetting simImpl))
                 simImpl
      end
  end.

(** [ODESimulatorItemImpl::getMecanumWheelSetting], called with a non-null
    [angle]: the return value and what is left in [*angle]. *)
Definition getMecanumWheelSetting (simImpl : ODESimulatorItemImpl) (dBdyId : dBodyID)
  : bool * R :=
  match mecanumWheelSetting simImpl !! dBdyId with
  | Some second => (true, second)
  | None => (false, 0%R)
  end.

End Mecanum.

(** ** Contact resolution *)

(** What one callback works on: the simulator item, the solver's memory, the
    link objects and the process-wide nailed-object registry. *)
Record Machine `{Devices} : Type := mkMachine {
  impl : ODESimulatorItemImpl;
  ode : dxWorld;
  heap : LinkHeap;
  nailedObjects : NailedObjectManager }.

(** A contact as [dCollide] leaves it: the geometry filled in, the rest not
    yet written. *)
Definition dContact_of (g : dContactGeom) : dContact :=
  mkdContact (mkdSurfaceParameters None None None None) g None.

Definition set_mode (m : Z) (c : dContact) : dContact :=
  mkdContact (mkdSurfaceParameters (Some m) (surf_mu (surface c)) (surf_mu2 (surface c))
                (surf_motion1 (surface c)))
    (geom c) (fdir1 c).

Definition set_mu (x : R) (c : dContact) : dContact :=
  mkdContact (mkdSurfaceParameters (surf_mode (surface c)) (Some x) (surf_mu2 (surface c))
                (surf_motion1 (surface c)))
    (geom c) (fdir1 c).

Definition set_mu2 (x : R) (c : dContact) : dContact :=
  mkdContact (mkdSurfaceParameters (surf_mode (surface c)) (surf_mu (surface c)) (Some x)
                (surf_motion1 (surface c)))
    (geom c) (fdir1 c).

Definition set_motion1 (x : R) (c : dContact) : dContact :=
  mkdContact (mkdSurfaceParameters (surf_mode (surface c)) (surf_mu (surface c))
                (surf_mu2 (surface c)) (Some x))
    (geom c) (fdir1 c).

Definition set_fdir1 (v : Vector3) (c : dContact) : dContact :=
  mkdContact (surface c) (geom c) (Some v).

Definition anisotropicMode : Z :=
  Z.lor (Z.lor (Z.lor (Z.lor dContactFDir1 dContactMotion1) dContactMu2)
           dContactApprox1_2) dContactApprox1_1.

(** The tracked link of a pair and the sign of its rolling direction, as both
    callbacks find them: the second body wins over the first. *)
Definition findCrawlerLink (crawlerLinks : gmap dBodyID LinkPtr) (body1ID body2ID : dBodyID)
  : option LinkPtr * R :=
  let crawlerlink := None in
  let sign := 1%R in
  if bool_decide (crawlerLinks <> ∅) then
    let crawlerlink :=
      match crawlerLinks !! body1ID with Some second => Some second | None => crawlerlink end in
    match crawlerLinks !! body2ID with
    | Some second => (Some second, (-1)%R)
    | None => (crawlerlink, sign)
    end
  else (crawlerlink, sign).

Section Contacts.
Context `{Solver} `{Devices} `{Model}.

Open Scope R_scope.

(** The body of the contact loop of [nearCallback]: the contact as handed to
    [dJointCreateContact], or nothing when the loop moves on ([continue]).
    The outer [option] is the dereference of [crawlerlink]. *)
Definition nearCallback_contact (friction : R) (heap : LinkHeap)
    (crawlerlink : option LinkPtr) (sign : R) (isMecanumWheel : bool) (barrelAngle : R)
    (contact : dContact) : option (option dContact) :=
  match crawlerlink with
  | None => Some (Some (set_mu friction (set_mode dContactApprox1 contact)))
  | Some p =>
      if Rgt_dec (cg_depth (geom contact)) 0.001 then Some None
      else
        let contact := set_mode anisotropicMode contact in
        cl ← heap !! p;
        let axis := mulMV (link_R cl) (link_a cl) in
        let n := cg_normal (geom contact) in
        let dir := cross axis n in
        let dir :=
          if isMecanumWheel then
            let mwdir := mulMV (transpose (AngleAxis_toRotationMatrix barrelAngle n)) dir in
            mwdir
          else dir in
        if Rlt_dec (norm dir) 1.0e-5 then
          Some (Some (set_mu friction (set_mode dContactApprox1 contact)))
        else
          let dir := vscale sign dir in
          let dir := normalize dir in
          let contact := set_fdir1 dir contact in
          let contact :=
            if bool_decide (link_jointType cl = PSEUDO_CONTINUOUS_TRACK)
            then set_motion1 (link_dq cl) contact
            else set_motion1 (link_u cl) contact in
          Some (Some (set_mu2 0.5 (set_mu friction contact)))
  end.

(** The body of the contact loop of [collisionCallback]. *)
Definition collisionCallback_contact (friction : R) (heap : LinkHeap)
    (crawlerlink : option LinkPtr) (sign : R) (contact : dContact)
  : option (option dContact) :=
  match crawlerlink with
  | None => Some (Some (set_mu friction (set_mode dContactApprox1 contact)))
  | Some p =>
      if Rgt_dec (cg_depth (geom contact)) 0.001 then Some None
      else
        let contact := set_mode anisotropicMode contact in
        cl ← heap !! p;
        let axis := mulMV (link_R cl) (link_a cl) in
        let n := cg_normal (geom contact) in
        let dir := cross axis n in
        if Rlt_dec (norm dir) 1.0e-5 then
          Some (Some (set_mu friction (set_mode dContactApprox1 contact)))
        else
          let dir := vscale sign dir in
          let dir := normalize dir in
          let contact := set_fdir1 dir contact in
          let contact := set_motion1 (link_u cl) contact in
          Some (Some (set_mu2 0.5 (set_mu friction contact)))
  end.

Close Scope R_scope.

(** The contact loop: [dJointCreateContact] into the contact group and
    [dJointAttach], for every contact the loop body does not skip. *)
Fixpoint createContactJoints (process : dContact -> option (option dContact))
    (body1ID body2ID : dBodyID) (contacts : list dContact) (group : list ContactJoint)
  : option (list ContactJoint) :=
  match contacts with
  | [] => Some group
  | contact :: rest =>
      r ← process contact;
      createContactJoints process body1ID body2ID rest
        (match r with
         | Some c => group ++ [mkContactJoint c body1ID body2ID]
         | None => group
         end)
  end.

(** [ODESimulatorItemImpl::isVacuumGripper] and [isNailDriver]: the key the
    device is kept under stands for the pointer. *)
Definition isVacuumGripper (simImpl : ODESimulatorItemImpl) (b : dBodyID)
  : option VacuumGripper := vacuumGripperDevs simImpl !! b.

Definition isNailDriver (simImpl : ODESimulatorItemImpl) (b : dBodyID)
  : option NailDriver := nailDriverDevs simImpl !! b.

(** [ODESimulatorItemImpl::vacuumGripperNearCallback]: what it leaves in
    [*isContactProcessingSkip], and the machine after it. *)
Definition vacuumGripperNearCallback (M : Machine) (body1ID body2ID : dBodyID)
    (contacts : list dContact) : bool * Machine :=
  if bool_decide (body1ID = 0%nat) || bool_decide (body2ID = 0%nat) then (false, M)
  else if bool_decide (vacuumGripperDevs (impl M) = ∅) then (false, M)
  else
    let found :=
      match isVacuumGripper (impl M) body1ID with
      | Some vg => Some (body1ID, vg, body2ID)
      | None =>
          match isVacuumGripper (impl M) body2ID with
          | Some vg => Some (body2ID, vg, body1ID)
          | None => None
          end
      end in
    match found with
    | None => (false, M)
    | Some (key, vg, objId) =>
        let put r :=
          mkMachine _ (set_vacuumGripperDevs (<[key := fst r]> (vacuumGripperDevs (impl M)))
                         (impl M))
            (snd r) (heap M) (nailedObjects M) in
        if negb (vg_on vg) then
          if vg_isGripping vg then (false, put (vg_release (vg, ode M))) else (false, M)
        else if negb (vg_isGripping vg) then
          let n := vg_checkContact vg (geom <$> contacts) (vacuumGripperDot (impl M))
                     (vacuumGripperDistance (impl M)) in
          if (0 <? n)%Z then (false, put (vg_grip (worldID (impl M)) objId (vg, ode M)))
          else (false, M)
        else if vg_isGrippingBody vg objId && vg_limitCheck vg (currentTime (impl M))
        then (true, put (vg_release (vg, ode M)))
        else (true, M)
    end.

(** [ODESimulatorItemImpl::nailDriverNearCallback].  The registry hands out
    pointers: what [fire] does to the object is seen through the registry. *)
Definition nailDriverNearCallback (M : Machine) (body1ID body2ID : dBodyID)
    (contacts : list dContact) : option Machine :=
  if bool_decide (body1ID = 0%nat) || bool_decide (body2ID = 0%nat)
     || bool_decide (nailDriverDevs (impl M) = ∅) then Some M
  else
    let found :=
      match isNailDriver (impl M) body1ID with
      | Some nd => Some (body1ID, nd, body2ID)
      | None =>
          match isNailDriver (impl M) body2ID with
          | Some nd => Some (body2ID, nd, body1ID)
          | None => None
          end
      end in
    match found with
    | None => Some M
    | Some (key, nd, objId) =>
        let nd := nd_contact nd in
        let n := nd_checkContact nd (geom <$> contacts) (nailDriverDot (impl M))
                   (nailDriverDistance (impl M)) in
        let put nd W reg :=
          mkMachine _ (set_nailDriverDevs (<[key := nd]> (nailDriverDevs (impl M))) (impl M))
            W (heap M) reg in
        if (0 <? n)%Z && nd_ready nd then
          let '(p, reg) := NailedObjectManager_get objId (nailedObjects M) in
          match p with
          | None =>
              let '(obj, W) := NailedObject_new (worldID (impl M)) objId (ode M) in
              let '(obj, nd, W) := nd_fire obj nd W in
              reg ← addObject (Some obj) reg;
              Some (put nd W reg)
          | Some obj =>
              let '(obj, nd, W) := nd_fire obj nd (ode M) in
              Some (put nd W (mkNailedObjectManager (<[objId := Some obj]> (objectMap reg))))
          end
        else Some (put nd (ode M) (nailedObjects M))
    end.

(** The mecanum-wheel setting of a pair, looked up where [nearCallback] looks
    up the tracked link: for each body found in [crawlerLinks], the second
    after the first. *)
Definition findMecanumWheel (simImpl : ODESimulatorItemImpl) (body1ID body2ID : dBodyID)
  : bool * R :=
  let isMecanumWheel := false in
  let barrelAngle := 0%R in
  if bool_decide (crawlerLinks simImpl <> ∅) then
    let '(isMecanumWheel, barrelAngle) :=
      match crawlerLinks simImpl !! body1ID with
      | Some _ => getMecanumWheelSetting simImpl body1ID
      | None => (isMecanumWheel, barrelAngle)
      end in
    match crawlerLinks simImpl !! body2ID with
    | Some _ => getMecanumWheelSetting simImpl body2ID
    | None => (isMecanumWheel, barrelAngle)
    end
  else (isMecanumWheel, barrelAngle).

Definition MaxNumContacts : nat := 100.

(** [nearCallback] on two geometries that are not spaces, [contacts] being
    what [dCollide] reports for them (the solver walks the spaces and calls
    back with such pairs). *)
Definition nearCallback (data : Machine) (g1 g2 : dGeomID) (collided : list dContactGeom)
  : option Machine :=
  let contacts := dContact_of <$> take MaxNumContacts collided in
  let numContacts := length contacts in
  if bool_decide (0 < numContacts)%nat then
    body1ID ← geom_body <$> geoms (ode data) !! g1;
    body2ID ← geom_body <$> geoms (ode data) !! g2;
    let '(crawlerlink, sign) := findCrawlerLink (crawlerLinks (impl data)) body1ID body2ID in
    let '(isMecanumWheel, barrelAngle) := findMecanumWheel (impl data) body1ID body2ID in
    let '(isContactProcessingSkip, data) :=
      vacuumGripperNearCallback data body1ID body2ID contacts in
    if isContactProcessingSkip then Some data
    else
      data ← nailDriverNearCallback data body1ID body2ID contacts;
      group ← createContactJoints
                 (nearCallback_contact (friction (impl data)) (heap data) crawlerlink sign
                    isMecanumWheel barrelAngle)
                 body1ID body2ID contacts (contactJointGroup (impl data));
      Some (mkMachine _ (set_contactJointGroup group (impl data)) (ode data) (heap data)
              (nailedObjects data))
  else Some data.

(** A pair reported by the external collision detector. *)
Record Collision : Type := mkCollision {
  col_point : Vector3;
  col_normal : Vector3;
  col_depth : R }.

Record CollisionPair : Type := mkCollisionPair {
  cp_geometryId : nat * nat;
  collisions : list Collision }.

Definition contact_of_collision (c : Collision) : dContact :=
  dContact_of (mkdContactGeom (col_point c)
                 (mkVector3 (- vx (col_normal c)) (- vy (col_normal c)) (- vz (col_normal c)))
                 (col_depth c)).

(** [ODESimulatorItemImpl::collisionCallback]. *)
Definition collisionCallback (M : Machine) (collisionPair : CollisionPair) : option Machine :=
  link1 ← mjoin (geometryIdToLink (impl M) !! fst (cp_geometryId collisionPair));
  link2 ← mjoin (geometryIdToLink (impl M) !! snd (cp_geometryId collisionPair));
  let body1ID := bodyID link1 in
  let body2ID := bodyID link2 in
  let '(crawlerlink, sign) := findCrawlerLink (crawlerLinks (impl M)) body1ID body2ID in
  group ← createContactJoints
             (collisionCallback_contact (friction (impl M)) (heap M) crawlerlink sign)
             body1ID body2ID (contact_of_collision <$> collisions collisionPair)
             (contactJointGroup (impl M));
  Some (mkMachine _ (set_contactJointGroup group (impl M)) (ode M) (heap M)
          (nailedObjects M)).

End Contacts.

(** ** Adding a body *)

Section AddBody.
Context `{Solver} `{Devices} `{Model}.

Definition resetRootLink (l : Link) : Link :=
  set_dw Vector3_Zero (set_w Vector3_Zero (set_dv Vector3_Zero (set_v Vector3_Zero l))).

Definition resetJoint (l : Link) : Link := set_ddq 0 (set_dq 0 (set_u 0 l)).

(** The loop over [body.joint(i)], [i < body.numJoints()]. *)
Fixpoint resetJoints (joints : list LinkPtr) (heap : LinkHeap) : option LinkHeap :=
  match joints with
  | [] => Some heap
  | joint :: rest =>
      l ← heap !! joint;
      resetJoints rest (<[joint := resetJoint l]> heap)
  end.

(** The first lines of [addBody]: the model's state before anything is
    recomputed from it. *)
Definition resetActuation (b : Body) (heap : LinkHeap) : option LinkHeap :=
  rootLink ← tree_link (body_tree b);
  root ← heap !! rootLink;
  resetJoints (body_joints b) (<[rootLink := resetRootLink root]> heap).

(** The device loops at the end of [addBody]. *)
Definition registerVacuumGrippers (odeBody : ODEBody) (simImpl : ODESimulatorItemImpl)
  : ODESimulatorItemImpl :=
  foldl (fun simImpl odeLink =>
           foldl (fun simImpl dev =>
                    if bool_decide (link odeLink = fst dev)
                    then set_vacuumGripperDevs
                           (map_insert (bodyID odeLink)
                              (vg_set_gripper (bodyID odeLink) (snd dev))
                              (vacuumGripperDevs simImpl)) simImpl
                    else simImpl)
                 simImpl (body_vacuumGrippers (body odeBody)))
        simImpl (odeLinks odeBody).

Definition registerNailDrivers (odeBody : ODEBody) (simImpl : ODESimulatorItemImpl)
  : ODESimulatorItemImpl :=
  foldl (fun simImpl odeLink =>
           foldl (fun simImpl dev =>
                    if bool_decide (link odeLink = fst dev)
                    then set_nailDriverDevs
                           (map_insert (bodyID odeLink) (snd dev) (nailDriverDevs simImpl))
                           simImpl
                    else simImpl)
                 simImpl (body_nailDrivers (body odeBody)))
        simImpl (odeLinks odeBody).

(** [ODESimulatorItemImpl::addBody]. *)
Definition addBody (simImpl : ODESimulatorItemImpl) (odeBody : ODEBody) (heap : LinkHeap)
    (W : dxWorld) : option (ODESimulatorItemImpl * ODEBody * LinkHeap * dxWorld) :=
  heap ← resetActuation (body odeBody) heap;
  let heap := clearExternalForces (body odeBody) heap in
  let heap := calcForwardKinematics true true (body odeBody) heap in
  '(simImpl, odeBody, W) ← createBody simImpl odeBody heap W;
  let simImpl := preserveMecanumWheelSetting odeBody heap simImpl in
  let simImpl := registerNailDrivers odeBody (registerVacuumGrippers odeBody simImpl) in
  Some (simImpl, odeBody, heap, W).

End AddBody.

(** ** One simulation step *)

Section Step.
Context `{Solver} `{Devices} `{Model}.

(** What the external collision detector reports once the geometry poses are
    brought up to date. *)
Variable detectCollisions : list (nat * Position) -> list CollisionPair.

Open Scope R_scope.

(** The [static const Quat r] of [alignToZAxisIn2Dmode]: a quarter turn
    about the x axis. *)
Definition alignToZAxis_r : Quat := Quat_of_AngleAxis (PI / 2) (mkVector3 1 0 0).

(** The orientation [alignToZAxisIn2Dmode] writes back for the orientation
    [q] it reads. *)
Definition alignQuat (q : Quat) : Quat :=
  let r := alignToZAxis_r in
  let q2 := qmul r q in
  let q2 := mkQuat (qw q2) 0 (qy q2) 0 in
  let q2 := qnormalize q2 in
  qmul (qinverse r) q2.

(** [ODEBody::alignToZAxisIn2Dmode]. *)
Definition alignToZAxisIn2Dmode (ob : ODEBody) (W : dxWorld) : option dxWorld :=
  front ← head (odeLinks ob);
  q ← dBodyGetQuaternion W (bodyID front);
  let q3 := alignQuat q in
  let W := dBodySetQuaternion (bodyID front) q3 W in
  w ← dBodyGetAngularVel W (bodyID front);
  Some (dBodySetAngularVel (bodyID front) 0 0 (vz w) W).

Close Scope R_scope.

(** [dJointGroupEmpty(contactJointGroupID)]. *)
Definition dJointGroupEmpty (M : Machine) : Machine :=
  mkMachine _ (set_contactJointGroup [] (impl M)) (ode M) (heap M) (nailedObjects M).

(** The first loop of [stepSimulation]: every active body is actuated. *)
Fixpoint actuate (activeSimBodies : list ODEBody) (M : Machine) : option Machine :=
  match activeSimBodies with
  | [] => Some M
  | odeBody :: rest =>
      let heap := setVirtualJointForces (body odeBody) (heap M) in
      W ← (if velocityMode (impl M) then ODEBody_setVelocityToODE odeBody heap (ode M)
           else ODEBody_setTorqueToODE odeBody heap (ode M));
      actuate rest (mkMachine _ (impl M) W heap (nailedObjects M))
  end.

(** The poses handed to the external detector: for every active body and
    every [j] below its number of adapters, [k = geometryId + j] with the pose
    of the link entered at [k]. *)
Definition geometryPose (M : Machine) (k : nat) : option (nat * Position) :=
  odeLink ← mjoin (geometryIdToLink (impl M) !! k);
  l ← heap M !! link odeLink;
  Some (k, link_T l).

Definition geometryPoses (M : Machine) (activeSimBodies : list ODEBody)
  : option (list (nat * Position)) :=
  mapM (geometryPose M)
    (odeBody ← activeSimBodies;
     (fun j => (geometryId odeBody + j)%nat) <$> seq 0 (length (odeLinks odeBody))).

Fixpoint forEachM {A S : Type} (f : S -> A -> option S) (l : list A) (s : S) : option S :=
  match l with
  | [] => Some s
  | x :: rest => s ← f s x; forEachM f rest s
  end.

(** The collision phase, with either backend. *)
Definition collide (activeSimBodies : list ODEBody) (M : Machine) : option Machine :=
  if useWorldCollision (impl M) then
    poses ← geometryPoses M activeSimBodies;
    forEachM collisionCallback (detectCollisions poses) M
  else
    forEachM (fun M pair => nearCallback M (fst (fst pair)) (snd (fst pair)) (snd pair))
      (dSpaceCollide (spaceID (impl M)) (ode M)) M.

Definition integrate (M : Machine) : Machine :=
  mkMachine _ (impl M)
    (match stepMode (impl M) with
     | STEP_ITERATIVE =>
         dWorldQuickStep (contactJointGroup (impl M)) (timeStep (impl M)) (ode M)
     | STEP_BIG_MATRIX =>
         dWorldStep (contactJointGroup (impl M)) (timeStep (impl M)) (ode M)
     end)
    (heap M) (nailedObjects M).

(** One turn of the last loop of [stepSimulation] (the force, gyroscope and
    acceleration sensors it refreshes are devices the model does not hold). *)
Definition postStep (M : Machine) (odeBody : ODEBody) : option Machine :=
  W ← (if is2Dmode (impl M) then alignToZAxisIn2Dmode odeBody (ode M) else Some (ode M));
  heap ← ODEBody_getKinematicStateFromODE (flipYZ (impl M)) odeBody W (heap M);
  Some (mkMachine _ (impl M) W heap (nailedObjects M)).

(** The machine as the collision phase finds it. *)
Definition beforeCollision (activeSimBodies : list ODEBody) (M : Machine) : option Machine :=
  dJointGroupEmpty <$> actuate activeSimBodies M.

(** [ODESimulatorItemImpl::stepSimulation]. *)
Definition stepSimulation (M : Machine) (activeSimBodies : list ODEBody)
  : option (bool * Machine) :=
  M ← beforeCollision activeSimBodies M;
  M ← collide activeSimBodies M;
  let M := integrate M in
  M ← forEachM postStep activeSimBodies M;
  Some (true, M).

End Step.

(** ** Post-dynamics checks of the nail driver *)

Section NailChecks.
Context `{Solver} `{Devices}.

(** [NailedObject::isLimited]. *)
Definition isLimited (W : dxWorld) (obj : NailedObject) : bool :=
  let f := dJointGetFeedback_f1 W (no_jointID obj) in
  let fasteningForce := dot (no_n obj) f in
  if Rgt_dec fasteningForce (no_maxFasteningForce obj) then true else false.

(** [ODESimulatorItemImpl::nailedObjectGripCheck]. *)
Definition nailedObjectGripCheck (simImpl : ODESimulatorItemImpl) (nobj : NailedObject)
  : bool :=
  existsb (fun p => vg_isGrippingBody (snd p) (getBodyID nobj))
    (map_to_list (vacuumGripperDevs simImpl)).

(** [ODESimulatorItemImpl::nailedObjectLimitCheck]: the entries of the
    registry over the limit and not held by a gripper are erased. *)
Definition nailedObjectLimitCheck (simImpl : ODESimulatorItemImpl) (W : dxWorld)
    (reg : NailedObjectManager) : option NailedObjectManager :=
  foldr (fun kv acc =>
           reg ← acc;
           nobj ← snd kv;
           if isLimited W nobj && negb (nailedObjectGripCheck simImpl nobj)
           then Some (mkNailedObjectManager (delete (fst kv) (objectMap reg)))
           else Some reg)
        (Some reg) (map_to_list (objectMap reg)).

(** [ODESimulatorItemImpl::nailDriverCheck]. *)
Definition nailDriverCheck (simImpl : ODESimulatorItemImpl) : ODESimulatorItemImpl :=
  set_nailDriverDevs
    (nd_distantCheck (nailDriverDistantCheckCount simImpl) <$> nailDriverDevs simImpl)
    simImpl.

End NailChecks.

(** ** Vocabulary of the statements *)

(** The registries the program can reach: the one the constructor makes, and
    from a reachable one, what [addObject] leaves, what the erasure of
    [nailedObjectLimitCheck] leaves, and what a nail driver's [fire] leaves
    of an object already registered. *)
Inductive registry_reachable : NailedObjectManager -> Prop :=
| reach_new : registry_reachable NailedObjectManager_new
| reach_addObject (obj : NailedObjectPtr) (M M' : NailedObjectManager) :
    registry_reachable M -> addObject obj M = Some M' -> registry_reachable M'
| reach_erase (b : dBodyID) (M : NailedObjectManager) :
    registry_reachable M ->
    registry_reachable (mkNailedObjectManager (delete b (objectMap M)))
| reach_fire (b : dBodyID) (obj : NailedObject) (M : NailedObjectManager) :
    registry_reachable M -> is_Some (objectMap M !! b) ->
    registry_reachable (mkNailedObjectManager (<[b := Some obj]> (objectMap M))).

(** The joint the contact loop creates for one contact, if any. *)
Definition created_joint (process : dContact -> option (option dContact))
    (body1ID body2ID : dBodyID) (contact : dContact) : option ContactJoint :=
  match process contact with
  | Some (Some c) => Some (mkContactJoint c body1ID body2ID)
  | _ => None
  end.

(** The rolling direction of a tracked link at a contact with normal [n]:
    track axis in world coordinates, crossed with the normal. *)
Definition rollingDirection (cl : Link) (n : Vector3) : Vector3 :=
  cross (mulMV (link_R cl) (link_a cl)) n.

(** The same, turned about the normal by the barrel angle of a mecanum wheel. *)
Definition barrelDirection (barrelAngle : R) (cl : Link) (n : Vector3) : Vector3 :=
  mulMV (transpose (AngleAxis_toRotationMatrix barrelAngle n)) (rollingDirection cl n).

(** The commanded rate of a track. *)
Definition commandedRate (cl : Link) : R :=
  if bool_decide (link_jointType cl = PSEUDO_CONTINUOUS_TRACK) then link_dq cl else link_u cl.

(** A contact with isotropic friction [mu] and nothing else written. *)
Definition isotropic (mu : R) (c : dContact) : Prop :=
  surf_mode (surface c) = Some dContactApprox1
  /\ surf_mu (surface c) = Some mu
  /\ surf_mu2 (surface c) = None
  /\ surf_motion1 (surface c) = None
  /\ fdir1 c = None.

(** A contact with anisotropic friction: first direction [dir] with
    coefficient [mu1] and slip speed [motion], coefficient [mu2] across. *)
Definition anisotropic (mu1 mu2 motion : R) (dir : Vector3) (c : dContact) : Prop :=
  surf_mode (surface c) = Some anisotropicMode
  /\ surf_mu (surface c) = Some mu1
  /\ surf_mu2 (surface c) = Some mu2
  /\ surf_motion1 (surface c) = Some motion
  /\ fdir1 c = Some dir.

(** What the device hooks of the near callback leave alone. *)
Definition same_contact_view `{Devices} (M M' : Machine) : Prop :=
  contactJointGroup (impl M') = contactJointGroup (impl M)
  /\ friction (impl M') = friction (impl M)
  /\ crawlerLinks (impl M') = crawlerLinks (impl M)
  /\ mecanumWheelSetting (impl M') = mecanumWheelSetting (impl M)
  /\ heap M' = heap M.

(** A link whose actuation is reset: no torque, joint velocity or joint
    acceleration. *)
Definition joint_at_rest (l : Link) : Prop :=
  link_u l = 0%R /\ link_dq l = 0%R /\ link_ddq l = 0%R.

(** A link that neither moves nor accelerates. *)
Definition link_at_rest (l : Link) : Prop :=
  link_v l = Vector3_Zero /\ link_dv l = Vector3_Zero
  /\ link_w l = Vector3_Zero /\ link_dw l = Vector3_Zero.

(** The machine with other joints in its contact group. *)
Definition with_contactJointGroup `{Devices} (g : list ContactJoint) (M : Machine)
  : Machine :=
  mkMachine _ (set_contactJointGroup g (impl M)) (ode M) (heap M) (nailedObjects M).

Section ConstructionVocabulary.
Context `{Devices}.

(** The settings of the simulator item that a construction never writes. *)
Definition same_settings (s s' : ODESimulatorItemImpl) : Prop :=
  flipYZ s' = flipYZ s /\ worldID s' = worldID s /\ is2Dmode s' = is2Dmode s
  /\ useWorldCollision s' = useWorldCollision s
  /\ geometryIdToLink s' = geometryIdToLink s /\ numGeometries s' = numGeometries s.

(** What the construction keeps of the body adapter it fills. *)
Definition same_body (ob ob' : ODEBody) : Prop :=
  body ob' = body ob /\ ob_worldID ob' = ob_worldID ob
  /\ ob_spaceID ob' = ob_spaceID ob /\ geometryId ob' = geometryId ob.

(** Each step after [push_back] rewrites the adapter at place [this] and
    keeps the link it wraps. *)
Definition step_keeps (this : nat) (lp : LinkPtr) (st st' : Build) : Prop :=
  (exists ols0 x x', length ols0 = this /\ link x = lp /\ link x' = lp
     /\ odeLinks (b_body st) = ols0 ++ [x] /\ odeLinks (b_body st') = ols0 ++ [x'])
  /\ same_body (b_body st) (b_body st')
  /\ same_settings (b_impl st) (b_impl st').

End ConstructionVocabulary.

(** The adapters are index-aligned with the links on the heap. *)
Definition index_aligned (ols : list ODELink) (heap : LinkHeap) : Prop :=
  forall i ol, ols !! i = Some ol ->
    exists l, heap !! link ol = Some l /\ link_index l = i.

(** A body as the kinematic model hands it over: it has a root, no link
    object sits at two places of the tree, every link object is on the heap,
    and the loop-closure joints name links of the body. *)
Definition Body_wf (B : Body) (heap : LinkHeap) : Prop :=
  body_tree B <> LNil
  /\ NoDup (body_links B)
  /\ (forall p, p ∈ body_links B -> is_Some (heap !! p))
  /\ Forall (fun ej => fst (ej_link ej) ∈ body_links B /\ snd (ej_link ej) ∈ body_links B)
       (body_extraJoints B).

(** The solver keeps the bodies it has, and its handles only grow. *)
Definition world_grows (W W' : dxWorld) : Prop :=
  (last_handle W <= last_handle W')%nat
  /\ forall b, is_Some (bodies W !! b) -> is_Some (bodies W' !! b).

(** Adapters of a body that is not static: each owns a solver body and wraps
    a link object, and no two share either. *)
Definition adapters_own_bodies (ols : list ODELink) (heap : LinkHeap) (W : dxWorld) : Prop :=
  Forall (fun ol => bodyID ol <> 0%nat
                    /\ is_Some (bodies W !! bodyID ol)
                    /\ is_Some (heap !! link ol)) ols
  /\ NoDup (bodyID <$> ols)
  /\ NoDup (link <$> ols).

(** A link that drives a track: a crawler joint or a pseudo continuous
    track. *)
Definition isTrack (l : Link) : bool :=
  bool_decide (link_jointType l = PSEUDO_CONTINUOUS_TRACK)
  || bool_decide (link_jointType l = CRAWLER_JOINT).

(** The entry an adapter with a parent body leaves in [crawlerLinks]. *)
Definition registerTrack (heap : LinkHeap) (m : gmap dBodyID LinkPtr) (ol : ODELink)
  : gmap dBodyID LinkPtr :=
  match heap !! link ol with
  | Some l => if isTrack l then map_insert (bodyID ol) (link ol) m else m
  | None => m
  end.

(** The geometries [gs] are live, attached to the body [b] and were created
    after the handle [lo]. *)
Definition geoms_attached (lo : nat) (W : dxWorld) (b : dBodyID) (gs : list dGeomID) : Prop :=
  Forall (fun g => (lo < g <= last_handle W)%nat
                   /\ exists G, geoms W !! g = Some G /\ geom_body G = b) gs.

(** Steps that neither remove a geometry nor move it to another body. *)
Definition geoms_kept (W W' : dxWorld) : Prop :=
  (last_handle W <= last_handle W')%nat
  /\ forall g G, geoms W !! g = Some G ->
       exists G', geoms W' !! g = Some G' /\ geom_body G' = geom_body G.

(** The command an adapter's link calls for in torque mode and in velocity
    mode, if any. *)
Definition torqueCommand (heap : LinkHeap) (ol : ODELink) : option (dJointID * JointCommand) :=
  l ← heap !! link ol;
  if isRotationalJoint l then Some (jointID ol, HingeTorque (link_u l))
  else if isSlideJoint l then Some (jointID ol, SliderForce (link_u l))
  else None.

Definition velocityCommand (heap : LinkHeap) (ol : ODELink) : option (dJointID * JointCommand) :=
  l ← heap !! link ol;
  if isRotationalJoint l then Some (jointID ol, HingeVel (link_dq l))
  else if isSlideJoint l then Some (jointID ol, SliderVel (link_dq l))
  else None.

(** What a pull never writes of a link: everything but the pose, the two
    velocities and the joint displacement and velocity. *)
Definition pull_keeps (l l' : Link) : Prop :=
  link_index l' = link_index l /\ link_name l' = link_name l
  /\ link_jointType l' = link_jointType l
  /\ link_dv l' = link_dv l /\ link_dw l' = link_dw l
  /\ link_c l' = link_c l /\ link_a l' = link_a l /\ link_d l' = link_d l
  /\ link_b l' = link_b l
  /\ link_ddq l' = link_ddq l /\ link_u l' = link_u l
  /\ link_f_ext l' = link_f_ext l /\ link_tau_ext l' = link_tau_ext l
  /\ link_Rs l' = link_Rs l.

(** What [preserveMecanumWheelSetting] may do to the mecanum-wheel map: the
    entries of [old] stay, and an entry of [new] was in [old] or belongs to
    an adapter of the body whose link is a crawler joint. *)
Definition mecanum_entries_of (odeBody : ODEBody) (heap : LinkHeap)
    (old new : gmap dBodyID R) : Prop :=
  (forall b d, old !! b = Some d -> new !! b = Some d)
  /\ (forall b d, new !! b = Some d ->
        old !! b = Some d
        \/ exists ol pl, ol ∈ odeLinks odeBody /\ bodyID ol = b
             /\ heap !! link ol = Some pl /\ link_jointType pl = CRAWLER_JOINT).


(** The machine with other tracks registered. *)
Definition with_crawlerLinks `{Devices} (m : gmap dBodyID LinkPtr) (M : Machine) : Machine :=
  mkMachine _ (set_crawlerLinks m (impl M)) (ode M) (heap M) (nailedObjects M).

(** What a simulation step keeps of the simulator item: everything but the
    contact group and the states of the registered devices. *)
Definition same_configuration `{Devices} (s s' : ODESimulatorItemImpl) : Prop :=
  s' = set_contactJointGroup (contactJointGroup s')
         (set_vacuumGripperDevs (vacuumGripperDevs s')
            (set_nailDriverDevs (nailDriverDevs s') s)).

(** The same devices are registered, under the same body handles. *)
Definition same_devices `{Devices} (s s' : ODESimulatorItemImpl) : Prop :=
  (forall b, is_Some (vacuumGripperDevs s' !! b) <-> is_Some (vacuumGripperDevs s !! b))
  /\ (forall b, is_Some (nailDriverDevs s' !! b) <-> is_Some (nailDriverDevs s !! b)).

(** The simulator item across a step: configuration and registered devices
    kept. *)
Definition impl_kept `{Devices} (s s' : ODESimulatorItemImpl) : Prop :=
  same_configuration s s' /\ same_devices s s'.

(** The solver keeps the joints it has: handles only grow, and no joint
    under a handle given out so far is replaced. *)
Definition joints_kept (W W' : dxWorld) : Prop :=
  (last_handle W <= last_handle W')%nat
  /\ forall id, (id <= last_handle W)%nat -> joints W' !! id = joints W !! id.

(** The solver joint a link of the given joint type is driven through, if
    any. *)
Definition joint_type_of (jt : JointType) : option dJointType :=
  match jt with
  | ROTATIONAL_JOINT => Some dJointTypeHinge
  | SLIDE_JOINT => Some dJointTypeSlider
  | FREE_JOINT => None
  | _ => Some dJointTypeFixed
  end.

(** The joint of an adapter in the solver [W]: a free link has none; any
    other link has a joint of the type of its link, which holds the body of
    the adapter and, on the other side, one of [others]; only a link fixed to
    nothing may be left without a joint. *)
Definition link_joint (heap : LinkHeap) (W : dxWorld) (others : list dBodyID)
    (ol : ODELink) : Prop :=
  exists l, heap !! link ol = Some l
    /\ (jointID ol <= last_handle W)%nat
    /\ match joint_type_of (link_jointType l) with
       | None => jointID ol = 0%nat
       | Some ty =>
           (jointID ol = 0%nat /\ ty = dJointTypeFixed)
           \/ (jointID ol <> 0%nat
               /\ exists J, joints W !! jointID ol = Some J
                    /\ joint_type J = ty /\ joint_body1 J = bodyID ol
                    /\ joint_body2 J ∈ others)
       end.

(** ** A small world for the examples

    A two-link cart: a free root link and a crawler track hanging on it, with
    one solver body and one geometry each; a solver that leaves everything as
    it is, no devices, and a kinematic model without forces. *)

Definition idleSolver : Solver := {|
  dQfromR := fun _ => mkQuat 1 0 0 0;
  dRfromQ := fun _ => identity;
  dJointGetHingeAngle := fun _ _ => 0%R;
  dJointGetHingeAngleRate := fun _ _ => 0%R;
  dJointGetSliderPosition := fun _ _ => 0%R;
  dJointGetSliderPositionRate := fun _ _ => 0%R;
  dJointGetFeedback_f1 := fun _ _ => Vector3_Zero;
  dWorldQuickStep := fun _ _ W => W;
  dWorldStep := fun _ _ W => W;
  dSpaceCollide := fun _ _ => [] |}.

Definition noDevices : Devices := {|
  VacuumGripper := unit;
  vg_on := fun _ => false;
  vg_isGripping := fun _ => false;
  vg_isGrippingBody := fun _ _ => false;
  vg_checkContact := fun _ _ _ _ => 0%Z;
  vg_grip := fun _ _ s => s;
  vg_limitCheck := fun _ _ => false;
  vg_release := fun s => s;
  NailDriver := unit;
  nd_contact := fun d => d;
  nd_checkContact := fun _ _ _ _ => 0%Z;
  nd_ready := fun _ => false;
  nd_fire := fun obj d W => (obj, d, W);
  nd_distantCheck := fun _ d => d;
  NailedObject_new := fun _ b W => (mkNailedObject b 0 Vector3_Zero 0, W);
  body_vacuumGrippers := fun _ => [];
  body_nailDrivers := fun _ => [];
  vg_set_gripper := fun _ d => d |}.

Definition plainModel : Model := {|
  Body_link := fun _ _ _ => None;
  setVirtualJointForces := fun _ h => h;
  clearExternalForces := fun _ h => h;
  calcForwardKinematics := fun _ _ _ h => h;
  extractShapes := fun _ => [Mesh 8] |}.

(** A link at the origin, at rest, with joint axis [a]. *)
Definition Link_at_origin (index : nat) (name : string) (jt : JointType) (a : Vector3)
  : Link :=
  mkLink index name jt Matrix3_Identity Vector3_Zero Vector3_Zero Vector3_Zero
    Vector3_Zero Vector3_Zero Vector3_Zero a a Vector3_Zero 0 0 0 0
    Vector3_Zero Vector3_Zero Matrix3_Identity.

Definition cartRoot : Link := Link_at_origin 0 "cart" FREE_JOINT (mkVector3 0 0 1).

Definition cartTrack : Link := Link_at_origin 1 "track" CRAWLER_JOINT (mkVector3 0 1 0).

Definition cartHeap : gmap nat Link := <[10%nat := cartRoot]> (<[11%nat := cartTrack]> ∅).

Definition cartTree : LinkTree := LNode 10 (LNode 11 LNil LNil) LNil.

Definition cart : Body := mkBody "cart" cartTree [11%nat] false [] None.

Definition cartAdapters : list ODELink :=
  [mkODELink 10 1 0 [1%nat] ∅ 0; mkODELink 11 2 3 [2%nat] ∅ 0].

Definition cartODEBody : ODEBody := mkODEBody cart cartAdapters 1 4 0.

Definition restingBody (data : nat) : dxBody :=
  mkdxBody Vector3_Zero identity (mkQuat 1 0 0 0) Vector3_Zero Vector3_Zero data false.

Definition cartWorld : dxWorld :=
  mkdxWorld (<[1%nat := restingBody 10]> (<[2%nat := restingBody 11]> ∅))
    (<[1%nat := mkdxGeom 1 Vector3_Zero identity]>
       (<[2%nat := mkdxGeom 2 Vector3_Zero identity]> ∅))
    (<[3%nat := mkdxJoint dJointTypeFixed 2 1 None None]> ∅)
    [] 4.

(** The simulator item of the example, in 2D mode or not, with the given
    mecanum-wheel settings. *)
Definition cartImpl (mode2D : bool) (wheels : gmap nat R) : @ODESimulatorItemImpl noDevices :=
  @mkImpl noDevices mode2D 1 4 (1 / 1000) STEP_ITERATIVE 1 mode2D false false
    [] (<[2%nat := 11%nat]> ∅) [Some (mkODELink 10 1 0 [] ∅ 0); Some (mkODELink 11 2 3 [] ∅ 0)]
    wheels ∅ 0 0 ∅ 0 0 0 0 2.

Definition cartMachine (mode2D : bool) (wheels : gmap nat R) : @Machine noDevices :=
  @mkMachine noDevices (cartImpl mode2D wheels) cartWorld cartHeap NailedObjectManager_new.

(** What the external detector reports for the contacts below. *)
Definition cartCollisionPair (c : Collision) : CollisionPair := mkCollisionPair (0%nat, 1%nat) [c].

Definition collisionAcross : Collision :=
  mkCollision Vector3_Zero (mkVector3 0 0 (-1)) (1 / 2000).

Definition collisionAlong : Collision :=
  mkCollision Vector3_Zero (mkVector3 0 (-1) 0) (1 / 2000).

Definition collisionDeep : Collision :=
  mkCollision Vector3_Zero (mkVector3 0 (-1) 0) (1 / 500).

(** A registry with one nailed object. *)
Definition nailedBoard : NailedObject := mkNailedObject 2 5 (mkVector3 0 0 1) 100.

Definition oneNail : NailedObjectManager :=
  mkNailedObjectManager (<[2%nat := Some nailedBoard]> ∅).

(** Contacts between the ground (body 1) and the track (body 2): a shallow
    one with the normal across the track axis, a shallow one with the normal
    along it, and a deep one. *)
Definition contactAcross : dContactGeom :=
  mkdContactGeom Vector3_Zero (mkVector3 0 0 1) (1 / 2000).

Definition contactAlong : dContactGeom :=
  mkdContactGeom Vector3_Zero (mkVector3 0 1 0) (1 / 2000).

Definition contactDeep : dContactGeom :=
  mkdContactGeom Vector3_Zero (mkVector3 0 1 0) (1 / 500).

(** A static body of one fixed link. *)
Definition wallLink : Link := Link_at_origin 0 "wall" FIXED_JOINT (mkVector3 0 0 1).

Definition wall : Body := mkBody "wall" (LNode 20 LNil LNil) [] true [] None.

Definition wallHeap : gmap nat Link := <[20%nat := wallLink]> ∅.

(** Devices at work: a vacuum gripper that is switched on and holds
    something, and a nail driver that is ready and reports one contact. *)
Definition busyDevices : Devices := {|
  VacuumGripper := unit;
  vg_on := fun _ => true;
  vg_isGripping := fun _ => true;
  vg_isGrippingBody := fun _ _ => false;
  vg_checkContact := fun _ _ _ _ => 0%Z;
  vg_grip := fun _ _ s => s;
  vg_limitCheck := fun _ _ => false;
  vg_release := fun s => s;
  NailDriver := unit;
  nd_contact := fun d => d;
  nd_checkContact := fun _ _ _ _ => 1%Z;
  nd_ready := fun _ => true;
  nd_fire := fun obj d W => (obj, d, W);
  nd_distantCheck := fun _ d => d;
  NailedObject_new := fun _ b W => (mkNailedObject b 0 Vector3_Zero 0, W);
  body_vacuumGrippers := fun _ => [];
  body_nailDrivers := fun _ => [];
  vg_set_gripper := fun _ d => d |}.

(** The cart with the track (body 2) carrying a vacuum gripper, or a nail
    driver. *)
Definition busyMachine (grippers drivers : gmap nat unit) : @Machine busyDevices :=
  @mkMachine busyDevices
    (@mkImpl busyDevices false 1 4 (1 / 1000) STEP_ITERATIVE 1 false false false
       [] ∅ [] ∅ grippers 0 0 drivers 0 0 0 0 2)
    cartWorld cartHeap NailedObjectManager_new.

(** The adapter of the wall: no solver body, and the cart's first geometry
    with an offset of its own. *)
Definition wallAdapter : ODELink :=
  mkODELink 20 0 0 [1%nat] (<[1%nat := mkPosition Matrix3_Identity (mkVector3 1 0 0)]> ∅) 0.

(** The cart with a ball joint closing a loop between its two links. *)
Definition loopCart : Body :=
  mkBody "cart" cartTree [11%nat] false
    [mkExtraJoint EJ_BALL (mkVector3 0 0 1) (10%nat, 11%nat) (Vector3_Zero, Vector3_Zero)]
    None.

Definition loopODEBody : ODEBody := mkODEBody loopCart cartAdapters 1 4 0.

(** A simulator item that uses the external collision detector, with nothing
    registered yet. *)
Definition detectorImpl : @ODESimulatorItemImpl noDevices :=
  @mkImpl noDevices false 1 0 (1 / 1000) STEP_ITERATIVE 1 false true false
    [] ∅ [] ∅ ∅ 0 0 ∅ 0 0 0 0 0.

(* ===================================================================== *)
(** * Part II.  Theorems                                                  *)
(* ===================================================================== *)

(** ** Pushing and pulling the kinematic state *)

Section KinematicStateFacts.
Context `{Solver}.

Open Scope R_scope.

Lemma Vector3_eta (v : Vector3) : mkVector3 (vx v) (vy v) (vz v) = v.
Proof. destruct v; reflexivity. Qed.

Lemma Matrix3_eta (M : Matrix3) :
  mkMatrix3 (m00 M) (m01 M) (m02 M) (m10 M) (m11 M) (m12 M) (m20 M) (m21 M) (m22 M) = M.
Proof. destruct M; reflexivity. Qed.

Lemma Vector3_eq (a b : Vector3) :
  vx a = vx b -> vy a = vy b -> vz a = vz b -> a = b.
Proof. destruct a, b; simpl; intros; subst; reflexivity. Qed.

(** The basis change of the flipped convention is a rotation: it commutes
    with the cross product. *)
Lemma toInternal_cross (a b : Vector3) :
  cross (toInternal a) (toInternal b) = toInternal (cross a b).
Proof. apply Vector3_eq; simpl; ring. Qed.

Lemma pushLink_bodies (flipYZ : bool) (ol : ODELink) (l : Link) (W : dxWorld) :
  bodyID ol <> 0%nat ->
  bodies (pushLink flipYZ ol l W) = alter (pushed flipYZ l) (bodyID ol) (bodies W).
Proof.
  intros Hb. unfold pushLink, setKinematicStateToODEflip, setKinematicStateToODE.
  destruct flipYZ; simpl;
    rewrite !bool_decide_eq_true_2 by done;
    unfold dBodySetAngularVel, dBodySetLinearVel, dBodySetPosition, dBodySetRotation,
      with_bodies; simpl;
    rewrite !alter_alter_eq; apply alter_ext; intros B _; reflexivity.
Qed.

(** Pulling from a solver body that holds the pushed state of [l] gives back
    the pose and the velocities of [l], whatever link object [l0] with the
    same centre of mass receives them. *)
Lemma pullLink_pushed (flipYZ : bool) (ol : ODELink) (l l0 : Link) (W : dxWorld) (B : dxBody) :
  bodies W !! bodyID ol = Some (pushed flipYZ l B) ->
  link_c l0 = link_c l ->
  exists l', pullLink flipYZ ol W l0 = Some l'
    /\ link_R l' = link_R l /\ link_p l' = link_p l
    /\ link_v l' = link_v l /\ link_w l' = link_w l
    /\ link_c l' = link_c l /\ link_index l' = link_index l0.
Proof.
  intros HB Hc.
  assert (Hj : link_c (getJointStateFromODE ol W l0) = link_c l0
               /\ link_index (getJointStateFromODE ol W l0) = link_index l0).
  { unfold getJointStateFromODE.
    repeat match goal with |- context [if ?b then _ else _] => destruct b end;
      simpl; auto. }
  destruct Hj as [Hj1 Hj2].
  unfold pullLink, getKinematicStateFromODEflip, getKinematicStateFromODE,
    dBodyGetRotation, dBodyGetPosition, dBodyGetAngularVel, dBodyGetLinearVel.
  destruct flipYZ; rewrite HB; simpl; rewrite Hj1, Hc;
    (eexists; split; [reflexivity|]); simpl; rewrite Hj1, Hj2, Hc;
    destruct (link_R l) as [a00 a01 a02 a10 a11 a12 a20 a21 a22] eqn:ER;
    destruct (link_c l) as [cx cy cz]; destruct (link_p l) as [px py pz];
    destruct (link_v l) as [ux uy uz]; destruct (link_w l) as [wx wy wz]; simpl;
    repeat split; try reflexivity;
    unfold vsub, vadd, cross, mulMV, toInternal; simpl; f_equal; ring.
Qed.

Close Scope R_scope.

Lemma pushLink_bodies_ne (flipYZ : bool) (ol : ODELink) (l : Link) (W : dxWorld) (b : dBodyID) :
  bodyID ol <> 0%nat -> b <> bodyID ol ->
  bodies (pushLink flipYZ ol l W) !! b = bodies W !! b.
Proof.
  intros Hb Hne. rewrite pushLink_bodies by done. apply lookup_alter_ne. congruence.
Qed.

(** A push of a whole body writes, into the solver body of every adapter, the
    pushed state of its link, and touches no other solver body. *)
Lemma pushLinks_spec (flipYZ : bool) (ols : list ODELink) (heap : LinkHeap) :
  forall W : dxWorld,
  Forall (fun ol => bodyID ol <> 0%nat /\ is_Some (heap !! link ol)) ols ->
  NoDup (bodyID <$> ols) ->
  exists W', pushLinks flipYZ ols heap W = Some W'
    /\ (forall ol l B, ol ∈ ols -> heap !! link ol = Some l ->
          bodies W !! bodyID ol = Some B ->
          bodies W' !! bodyID ol = Some (pushed flipYZ l B))
    /\ (forall b, b ∉ bodyID <$> ols -> bodies W' !! b = bodies W !! b).
Proof.
  induction ols as [|ol rest IH]; intros W Hall Hnd.
  - exists W. split; [reflexivity|]. split; [|done].
    intros ol l B Hin. by apply elem_of_nil in Hin.
  - apply Forall_cons in Hall as [[Hb [l0 Hl0]] Hall].
    rewrite fmap_cons in Hnd. apply NoDup_cons in Hnd as [Hnotin Hnd].
    destruct (IH (pushLink flipYZ ol l0 W) Hall Hnd) as (W' & Hrun & Hin' & Hout).
    exists W'. split; [simpl; rewrite Hl0; exact Hrun|]. split.
    + intros ol' l B Hin Hl HB. apply elem_of_cons in Hin as [->|Hin].
      * rewrite Hout by done. rewrite pushLink_bodies by done.
        rewrite lookup_alter_eq, HB. simpl. congruence.
      * assert (bodyID ol' <> bodyID ol).
        { intros E. apply Hnotin. rewrite <- E. apply list_elem_of_fmap. eauto. }
        apply Hin'; [done..|]. rewrite pushLink_bodies_ne by done. exact HB.
    + intros b Hb'. rewrite fmap_cons in Hb'. apply not_elem_of_cons in Hb' as [? ?].
      rewrite Hout by done. by apply pushLink_bodies_ne.
Qed.


End KinematicStateFacts.


(** ** Building the adapters of a body *)

Section ConstructionFacts.
Context `{Solver} `{Devices} `{Model}.

Lemma same_settings_refl (s : ODESimulatorItemImpl) : same_settings s s.
Proof. repeat split. Qed.

Lemma same_settings_trans (s1 s2 s3 : ODESimulatorItemImpl) :
  same_settings s1 s2 -> same_settings s2 s3 -> same_settings s1 s3.
Proof.
  unfold same_settings. intros (?&?&?&?&?&?) (?&?&?&?&?&?). repeat split; congruence.
Qed.

Lemma createLinkBody_spec (simImpl : ODESimulatorItemImpl) (parent : option ODELink)
    (origin : Vector3) (this : ODELink) (l : Link) (W : dxWorld) :
  forall me simImpl' W',
  createLinkBody simImpl parent origin this l W = (me, simImpl', W') ->
  link me = link this /\ bodyID me = S (last_handle W) /\ same_settings simImpl simImpl'.
Proof.
  intros me simImpl' W'. unfold createLinkBody, dBodyCreate, dJointCreate. simpl.
  destruct (link_jointType l); simpl;
    repeat match goal with |- context [if ?b then _ else _] => destruct b end; simpl;
    intros [= <- <- <-]; repeat split.
Qed.

Lemma addMesh_spec (l : Link) (sh : Shape) (acc : ODELink * dxWorld) :
  link (addMesh l sh acc).1 = link acc.1
  /\ bodyID (addMesh l sh acc).1 = bodyID acc.1
  /\ jointID (addMesh l sh acc).1 = jointID acc.1
  /\ bodies (addMesh l sh acc).2 = bodies acc.2
  /\ joints (addMesh l sh acc).2 = joints acc.2
  /\ commands (addMesh l sh acc).2 = commands acc.2
  /\ (last_handle acc.2 <= last_handle (addMesh l sh acc).2)%nat.
Proof.
  destruct acc as [this W]. unfold addMesh, dGeomCreate.
  destruct sh; simpl; repeat split; lia.
Qed.

Lemma addMeshes_spec (l : Link) (shapes : list Shape) :
  forall acc : ODELink * dxWorld,
  let r := foldl (fun acc sh => addMesh l sh acc) acc shapes in
  link r.1 = link acc.1 /\ bodyID r.1 = bodyID acc.1 /\ jointID r.1 = jointID acc.1
  /\ bodies r.2 = bodies acc.2 /\ joints r.2 = joints acc.2
  /\ commands r.2 = commands acc.2
  /\ (last_handle acc.2 <= last_handle r.2)%nat.
Proof.
  induction shapes as [|sh shapes IH]; intros acc; simpl.
  - repeat split; lia.
  - specialize (IH (addMesh l sh acc)). simpl in IH.
    pose proof (addMesh_spec l sh acc) as Hs.
    destruct IH as (-> & -> & -> & -> & -> & -> & Hle).
    destruct Hs as (-> & -> & -> & -> & -> & -> & Hle').
    repeat split; lia.
Qed.

(** The geometry of a link leaves the adapter's link, body and joint, and the
    solver's bodies, joints and commands, as they were; handles only grow. *)
Lemma createGeometry_keeps (odeBody : ODEBody) (this : ODELink) (l : Link) (W : dxWorld) :
  forall me W', createGeometry odeBody this l W = (me, W') ->
  link me = link this /\ bodyID me = bodyID this /\ jointID me = jointID this
  /\ bodies W' = bodies W /\ joints W' = joints W /\ commands W' = commands W
  /\ (last_handle W <= last_handle W')%nat.
Proof.
  intros me W'. unfold createGeometry.
  pose proof (addMeshes_spec l (extractShapes l) (this, W)) as Hs.
  destruct (foldl _ _ _) as [this1 W1]. simpl in Hs.
  destruct Hs as (Hl & Hb & Hj & HB & HJ & HC & Hle).
  case_bool_decide; unfold dGeomCreate; intros [= <- <-]; simpl;
    rewrite ?Hl, ?Hb, ?Hj, ?HB, ?HJ, ?HC; repeat split; lia.
Qed.

Lemma createGeometry_spec (odeBody : ODEBody) (this : ODELink) (l : Link) (W : dxWorld) :
  forall me W', createGeometry odeBody this l W = (me, W') ->
  link me = link this /\ bodyID me = bodyID this.
Proof.
  intros me W' Hc. apply createGeometry_keeps in Hc. tauto.
Qed.

Lemma same_body_refl (ob : ODEBody) : same_body ob ob.
Proof. repeat split. Qed.

Lemma ODELink_createLinkBody_spec (this : nat) (parent : option nat) (o : Vector3)
    (l : Link) (st : Build) (ols0 : list ODELink) (x : ODELink) :
  odeLinks (b_body st) = ols0 ++ [x] -> length ols0 = this ->
  (forall i, parent = Some i -> (i < this)%nat) ->
  exists st', ODELink_createLinkBody this parent o l st = Some st'
    /\ step_keeps this (link x) st st'.
Proof.
  intros Hols Hlen Hparent. unfold ODELink_createLinkBody.
  case_bool_decide.
  - rewrite Hols. rewrite lookup_app_r by lia.
    replace (this - length ols0)%nat with 0%nat by lia. simpl.
    assert (Hpar : exists par,
      match parent with
      | Some i => Some <$> ((ols0 ++ [x]) !! i)
      | None => Some None
      end = Some par).
    { destruct parent as [i|]; [|eauto].
      destruct (lookup_lt_is_Some_2 (ols0 ++ [x]) i) as [y Hy].
      { rewrite length_app. specialize (Hparent i eq_refl). lia. }
      rewrite Hy. simpl. eauto. }
    destruct Hpar as [par ->]. simpl.
    destruct (createLinkBody _ _ _ _ _ _) as [[me1 impl1] W1] eqn:E.
    apply createLinkBody_spec in E as (E1 & _ & E3).
    eexists. split; [reflexivity|]. split; [|split; [repeat split|exact E3]].
    exists ols0, x, me1. simpl. repeat split; try done.
    rewrite insert_app_r_alt by lia.
    replace (this - length ols0)%nat with 0%nat by lia. done.
  - exists st. split; [done|]. split; [|split; [apply same_body_refl|apply same_settings_refl]].
    exists ols0, x, x. done.
Qed.

Lemma ODELink_createGeometry_spec (this : nat) (l : Link) (st : Build)
    (ols0 : list ODELink) (x : ODELink) :
  odeLinks (b_body st) = ols0 ++ [x] -> length ols0 = this ->
  exists st', ODELink_createGeometry this l st = Some st'
    /\ step_keeps this (link x) st st'.
Proof.
  intros Hols Hlen. unfold ODELink_createGeometry.
  destruct (useWorldCollision (b_impl st)); simpl.
  - exists st. split; [done|]. split; [|split; [apply same_body_refl|apply same_settings_refl]].
    exists ols0, x, x. done.
  - rewrite Hols. rewrite lookup_app_r by lia.
    replace (this - length ols0)%nat with 0%nat by lia. simpl.
    destruct (createGeometry _ _ _ _) as [me2 W2] eqn:E.
    apply createGeometry_spec in E as [E1 _].
    eexists. split; [reflexivity|].
    split; [|split; [repeat split|apply same_settings_refl]].
    exists ols0, x, me2. simpl. repeat split; try done.
    rewrite insert_app_r_alt by lia.
    replace (this - length ols0)%nat with 0%nat by lia. done.
Qed.

(** The constructor, run over a chain of siblings whose links are all on the
    heap, ends and appends one adapter per link, in the order of
    [tree_links]. *)
Lemma ODELink_chain_spec (heap : LinkHeap) (t : LinkTree) :
  forall (parent : option nat) (parentOrigin : Vector3) (st : Build),
  (forall p, p ∈ tree_links t -> is_Some (heap !! p)) ->
  (forall i, parent = Some i -> (i < length (odeLinks (b_body st)))%nat) ->
  exists st' ols,
    ODELink_chain heap t parent parentOrigin st = Some st'
    /\ odeLinks (b_body st') = odeLinks (b_body st) ++ ols
    /\ link <$> ols = tree_links t
    /\ same_body (b_body st) (b_body st')
    /\ same_settings (b_impl st) (b_impl st').
Proof.
  induction t as [|lp child IHc sibling IHs]; intros parent parentOrigin st Hheap Hparent.
  - exists st, []. simpl. rewrite app_nil_r. repeat split.
  - destruct (Hheap lp) as [l Hl]; [simpl; apply elem_of_cons; auto|].
    simpl. rewrite Hl. simpl.
    set (ols0 := odeLinks (b_body st)).
    set (new := mkODELink lp 0 0 [] ∅ 0).
    destruct (ODELink_createLinkBody_spec (length ols0) parent
                (vadd parentOrigin (link_b l)) l (ODELink_push_back lp st) ols0 new)
      as (st1 & -> & ((o1 & x1 & x1' & Hl1 & _ & Hx1 & Ho1 & Ho1') & Hb1 & Hs1));
      [done|done|exact Hparent|].
    simpl in Ho1. apply app_inj_2 in Ho1 as [<- _]; [|done].
    simpl.
    destruct (ODELink_createGeometry_spec (length ols0) l st1 ols0 x1' Ho1' eq_refl)
      as (st2 & -> & ((o2 & x2 & x2' & Hl2 & _ & Hx2 & Ho2 & Ho2') & Hb2 & Hs2)).
    rewrite Ho1' in Ho2. apply app_inj_2 in Ho2 as [<- _]; [|done].
    simpl.
    destruct (IHc (Some (length ols0)) (vadd parentOrigin (link_b l)) st2)
      as (st3 & olsc & -> & Hc1 & Hc2 & Hc3 & Hc4).
    { intros p Hp. apply Hheap. simpl. apply elem_of_cons. right.
      apply elem_of_app. auto. }
    { intros i [= <-]. rewrite Ho2', length_app. simpl. lia. }
    simpl.
    destruct (IHs parent parentOrigin st3) as (st4 & olss & -> & Hs3 & Hs4 & Hs5 & Hs6).
    { intros p Hp. apply Hheap. simpl. apply elem_of_cons. right.
      apply elem_of_app. auto. }
    { intros i Hi. rewrite Hc1, Ho2', !length_app.
      specialize (Hparent i Hi). fold ols0 in Hparent. lia. }
    exists st4, (x2' :: olsc ++ olss). split; [done|].
    split; [|split; [|split]].
    + rewrite Hs3, Hc1, Ho2'. by rewrite <- !app_assoc.
    + simpl. rewrite fmap_app. simpl in Hx1, Hx2. congruence.
    + destruct Hb1 as (?&?&?&?), Hb2 as (?&?&?&?), Hc3 as (?&?&?&?), Hs5 as (?&?&?&?).
      simpl in *. repeat split; congruence.
    + eapply same_settings_trans; [exact Hs1|].
      eapply same_settings_trans; [exact Hs2|].
      eapply same_settings_trans; [exact Hc4|exact Hs6].
Qed.

(** The numbering gives the link at place [j] of the traversal the index
    [k + j], keeps every link object on the heap and touches no other. *)
Lemma number_links_spec (t : LinkTree) :
  forall (k : nat) (heap : LinkHeap),
  NoDup (tree_links t) ->
  (forall p, p ∈ tree_links t -> is_Some (heap !! p)) ->
  fst (number_links t k heap) = (k + length (tree_links t))%nat
  /\ (forall j p, tree_links t !! j = Some p ->
        exists l, snd (number_links t k heap) !! p = Some l /\ link_index l = (k + j)%nat)
  /\ (forall p, p ∉ tree_links t -> snd (number_links t k heap) !! p = heap !! p)
  /\ (forall p, is_Some (heap !! p) -> is_Some (snd (number_links t k heap) !! p)).
Proof.
  induction t as [|lp child IHc sibling IHs]; intros k heap Hnd Hheap.
  - simpl. split; [lia|]. split; [|done]. intros j p Hj. by rewrite lookup_nil in Hj.
  - simpl in Hnd. apply NoDup_cons in Hnd as [Hlp Hnd].
    apply NoDup_app in Hnd as (Hndc & Hdisj & Hnds).
    apply not_elem_of_app in Hlp as [Hlpc Hlps].
    set (heap1 := alter (set_index k) lp heap).
    assert (Hdom1 : forall p, is_Some (heap !! p) -> is_Some (heap1 !! p)).
    { intros p Hp. unfold heap1. by apply lookup_alter_is_Some. }
    destruct (IHc (S k) heap1 Hndc) as (Hc1 & Hc2 & Hc3 & Hc4).
    { intros p Hp. apply Hdom1, Hheap. simpl. apply elem_of_cons. right.
      apply elem_of_app. auto. }
    simpl. fold heap1.
    destruct (number_links child (S k) heap1) as [k1 heap2] eqn:Ec. simpl in *.
    destruct (IHs k1 heap2 Hnds) as (Hs1 & Hs2 & Hs3 & Hs4).
    { intros p Hp. apply Hc4, Hdom1, Hheap. simpl. apply elem_of_cons. right.
      apply elem_of_app. auto. }
    split; [rewrite Hs1, Hc1, length_app; lia|]. split; [|split].
    + intros j p Hj. destruct j as [|j]; simpl in Hj.
      * injection Hj as <-. rewrite Hs3, Hc3 by done.
        destruct (Hheap lp) as [l Hl]; [apply elem_of_cons; auto|].
        exists (set_index k l). unfold heap1. rewrite lookup_alter_eq, Hl. simpl.
        split; [done|lia].
      * destruct (decide (j < length (tree_links child))%nat) as [Hlt|Hge].
        -- rewrite lookup_app_l in Hj by done.
           destruct (Hc2 j p Hj) as (l & Hl & Hi).
           exists l. rewrite Hs3; [split; [done|lia]|].
           intros Hin. apply (Hdisj p); [|done]. by eapply list_elem_of_lookup_2.
        -- rewrite lookup_app_r in Hj by lia.
           destruct (Hs2 _ p Hj) as (l & Hl & Hi).
           exists l. split; [done|]. rewrite Hi, Hc1. lia.
    + intros p Hp. apply not_elem_of_cons in Hp as [Hne Hp].
      apply not_elem_of_app in Hp as [Hpc Hps].
      rewrite Hs3, Hc3 by done. unfold heap1. by rewrite lookup_alter_ne.
    + intros p Hp. by apply Hs4, Hc4, Hdom1.
Qed.

Lemma pushLinks_total (flipYZ : bool) (ols : list ODELink) (heap : LinkHeap) :
  forall W : dxWorld,
  Forall (fun ol => is_Some (heap !! link ol)) ols ->
  is_Some (pushLinks flipYZ ols heap W).
Proof.
  induction ols as [|ol rest IH]; intros W Hall; [by eexists|].
  apply Forall_cons in Hall as [[l Hl] Hall]. simpl. rewrite Hl. simpl. by apply IH.
Qed.

Lemma actuateLinks_total (f : ODELink -> Link -> dxWorld -> dxWorld)
    (ols : list ODELink) (heap : LinkHeap) :
  forall W : dxWorld,
  Forall (fun ol => is_Some (heap !! link ol)) ols ->
  is_Some (actuateLinks f ols heap W).
Proof.
  induction ols as [|ol rest IH]; intros W Hall; [by eexists|].
  apply Forall_cons in Hall as [[l Hl] Hall]. simpl. rewrite Hl. simpl. by apply IH.
Qed.

Lemma registerGeometryIds_total (gid : nat) (ols : list ODELink) (heap : LinkHeap) :
  forall v : list (option ODELink),
  Forall (fun ol => is_Some (heap !! link ol)) ols ->
  is_Some (registerGeometryIds gid ols heap v).
Proof.
  induction ols as [|ol rest IH]; intros v Hall; [by eexists|].
  apply Forall_cons in Hall as [[l Hl] Hall]. simpl. rewrite Hl. simpl. by apply IH.
Qed.

Lemma extraJointLink_aligned (ols : list ODELink) (heap : LinkHeap) (lp : LinkPtr) :
  index_aligned ols heap -> lp ∈ link <$> ols ->
  NoDup (link <$> ols) ->
  exists ol, extraJointLink ols heap lp = Some (Some ol, Some ol) /\ link ol = lp
    /\ is_Some (heap !! link ol).
Proof.
  intros Hal Hin Hnd. apply list_elem_of_fmap in Hin as (ol & -> & Hin).
  apply list_elem_of_lookup in Hin as [i Hi].
  destruct (Hal i ol Hi) as (l & Hl & Hidx).
  exists ol. unfold extraJointLink. rewrite Hl. simpl. rewrite Hidx.
  rewrite bool_decide_eq_true_2 by (by eapply lookup_lt_Some).
  rewrite Hi. simpl. rewrite bool_decide_eq_true_2 by done. eauto.
Qed.

Lemma setExtraJoints_total (flipYZ : bool) (ob : ODEBody) (heap : LinkHeap)
    (ejs : list ExtraJoint) :
  forall W : dxWorld,
  index_aligned (odeLinks ob) heap -> NoDup (link <$> odeLinks ob) ->
  Forall (fun ej => fst (ej_link ej) ∈ link <$> odeLinks ob
                    /\ snd (ej_link ej) ∈ link <$> odeLinks ob) ejs ->
  is_Some (setExtraJoints_from flipYZ ob heap ejs W).
Proof.
  intros W Hal Hnd Hall. revert W.
  induction ejs as [|ej rest IH]; intros W; [by eexists|].
  apply Forall_cons in Hall as [[Hfst Hsnd] Hall]. simpl.
  assert (Hone : is_Some (setExtraJoint flipYZ ob heap ej W)).
  { unfold setExtraJoint.
    destruct (extraJointLink_aligned _ _ _ Hal Hfst Hnd) as (ol1 & -> & _ & [l1 Hl1]).
    destruct (extraJointLink_aligned _ _ _ Hal Hsnd Hnd) as (ol2 & -> & _ & _).
    simpl. rewrite Hl1. simpl. destruct (ej_type ej); by eexists. }
  destruct Hone as [W1 ->]. simpl. by apply IH.
Qed.

Lemma updateLinkTree_spec (B : Body) (heap : LinkHeap) :
  Body_wf B heap ->
  (forall j p, body_links B !! j = Some p ->
     exists l, updateLinkTree B heap !! p = Some l /\ link_index l = j)
  /\ (forall p, is_Some (heap !! p) -> is_Some (updateLinkTree B heap !! p)).
Proof.
  intros (Hroot & Hnd & Hheap & _). unfold updateLinkTree, body_links in *.
  destruct (body_tree B) as [|root child sib]; [done|].
  destruct (number_links_spec (LNode root child LNil) 0 heap) as (_ & Hidx & _ & Hdom).
  { simpl. by rewrite app_nil_r. }
  { simpl. rewrite app_nil_r. exact Hheap. }
  split; [|exact Hdom].
  intros j p Hj. apply (Hidx j p). simpl. by rewrite app_nil_r.
Qed.

(** C6.  For every kinematic tree handed to body creation (numbered as the
    kinematic model numbers its links), [createBody] ends, the adapter vector
    it leaves has exactly one entry per link of the tree, and the adapter at
    place [i] wraps the link whose index is [i]. *)
Theorem createBody_adapters_index_aligned (simImpl : ODESimulatorItemImpl) (B : Body)
    (heap0 : LinkHeap) (W : dxWorld) :
  Body_wf B heap0 ->
  exists simImpl' ob' W',
    createBody simImpl (ODEBody_new B) (updateLinkTree B heap0) W = Some (simImpl', ob', W')
    /\ length (odeLinks ob') = numLinks B
    /\ forall i ol, odeLinks ob' !! i = Some ol ->
         exists l, updateLinkTree B heap0 !! link ol = Some l /\ link_index l = i.
Proof.
  intros Hwf. destruct (updateLinkTree_spec B heap0 Hwf) as [Hidx Hdom].
  destruct Hwf as (Hroot & Hnd & Hheap & Hej).
  set (heap := updateLinkTree B heap0) in *.
  unfold createBody. cbn [body odeLinks ODEBody_new geometryId ob_spaceID].
  set (ob0 := mkODEBody B [] _ _ _).
  set (W0 := if useWorldCollision simImpl then W else _).
  set (impl0 := if useWorldCollision simImpl then _ else simImpl).
  assert (Hlinks : body_links B = match body_tree B with
                                  | LNil => []
                                  | LNode l child _ => tree_links (LNode l child LNil)
                                  end).
  { unfold body_links. destruct (body_tree B); simpl; [done|]. by rewrite app_nil_r. }
  unfold ODELink_new. destruct (body_tree B) as [|root child sib] eqn:Htree; [done|].
  destruct (ODELink_chain_spec heap (LNode root child LNil) None Vector3_Zero
              (mkBuild impl0 ob0 W0))
    as (st & ols & -> & Hols & Hlk & (Hb1 & Hb2 & Hb3 & Hb4) & Hset).
  { intros p Hp. apply Hdom, Hheap. by rewrite Hlinks. }
  { done. }
  simpl in Hols. rewrite <- Hlinks in Hlk.
  assert (Hal : index_aligned (odeLinks (b_body st)) heap).
  { intros i ol Hi. rewrite Hols in Hi. apply Hidx. rewrite <- Hlk.
    by rewrite list_lookup_fmap, Hi. }
  assert (Hall : Forall (fun ol => is_Some (heap !! link ol)) (odeLinks (b_body st))).
  { apply Forall_forall. intros ol Hin. apply list_elem_of_lookup in Hin as [i Hi].
    destruct (Hal i ol Hi) as (l & Hl & _). by eexists. }
  cbn [mbind option_bind].
  unfold ODEBody_setKinematicStateToODE.
  destruct (pushLinks_total (flipYZ (b_impl st)) _ heap (b_ode st) Hall) as [W1 ->].
  cbn [mbind option_bind].
  assert (Hreg : is_Some (enterGeometryIds (b_impl st) (b_body st) heap)).
  { unfold enterGeometryIds. destruct (useWorldCollision (b_impl st)); [|by eexists].
    destruct (registerGeometryIds_total (geometryId (b_body st)) _ heap
                (resize_vec (geometryId (b_body st) + length (odeLinks (b_body st))) None
                   (geometryIdToLink (b_impl st))) Hall) as [v ->].
    by eexists. }
  destruct Hreg as [impl1 ->]. cbn [mbind option_bind].
  unfold setExtraJoints.
  destruct (setExtraJoints_total (flipYZ impl1) (b_body st) heap
              (body_extraJoints (body (b_body st))) W1 Hal) as [W2 ->].
  { rewrite Hols, Hlk. exact Hnd. }
  { rewrite Hb1, Hols, Hlk. exact Hej. }
  cbn [mbind option_bind].
  assert (Hplane : forall k, k = 0%nat -> is_Some (attachPlane2D impl1 (b_body st) k W2)).
  { intros k ->. unfold attachPlane2D. destruct (is2Dmode impl1 && _); [|by eexists].
    rewrite Hols. destruct ols as [|o ols']; [rewrite Hlinks in Hlk; done|].
    by eexists. }
  match goal with
  | |- context [attachPlane2D impl1 (b_body st) ?k W2] =>
      specialize (Hplane k eq_refl)
  end.
  destruct Hplane as [W3 ->]. cbn [mbind option_bind].
  unfold ODEBody_setTorqueToODE.
  destruct (actuateLinks_total setTorqueToODE (drop 1 (odeLinks (b_body st))) heap W3)
    as [W4 ->].
  { by apply Forall_drop. }
  cbn [mbind option_bind]. eexists _, _, _. split; [reflexivity|]. split.
  - unfold numLinks. rewrite <- Hlk, Hols. by rewrite length_fmap.
  - exact Hal.
Qed.


(** ** The adapters of a body that is not static own their solver bodies *)

Lemma world_grows_refl (W : dxWorld) : world_grows W W.
Proof. split; [lia|done]. Qed.

Lemma world_grows_trans (W1 W2 W3 : dxWorld) :
  world_grows W1 W2 -> world_grows W2 W3 -> world_grows W1 W3.
Proof. intros [? ?] [? ?]. split; [lia|auto]. Qed.

(** [createLinkBody] gives the adapter a body of its own under a fresh
    handle. *)
Lemma createLinkBody_bodies (simImpl : ODESimulatorItemImpl) (parent : option ODELink)
    (origin : Vector3) (this : ODELink) (l : Link) (W : dxWorld) :
  forall me simImpl' W',
  createLinkBody simImpl parent origin this l W = (me, simImpl', W') ->
  is_Some (bodies W' !! S (last_handle W))
  /\ world_grows W W' /\ (S (last_handle W) <= last_handle W')%nat.
Proof.
  intros me simImpl' W'.
  unfold createLinkBody, dBodyCreate, dJointCreate, dBodySetKinematic, dBodySetPosition,
    dBodySetRotation, with_bodies. simpl.
  destruct (link_jointType l); simpl;
    repeat match goal with |- context [if ?b then _ else _] => destruct b end; simpl;
    intros [= <- <- <-]; simpl;
    (split; [rewrite ?lookup_alter_is_Some, lookup_insert_eq; by eexists|]);
    (split; [|lia]);
    (split; [simpl; lia|]); simpl; intros b Hb;
    rewrite ?lookup_alter_is_Some, lookup_insert_is_Some'; auto.
Qed.

Lemma ODELink_createLinkBody_bodies (this : nat) (parent : option nat) (o : Vector3)
    (l : Link) (st st' : Build) (ols0 : list ODELink) (x : ODELink) :
  odeLinks (b_body st) = ols0 ++ [x] -> length ols0 = this ->
  ob_worldID (b_body st) <> 0%nat ->
  ODELink_createLinkBody this parent o l st = Some st' ->
  exists x', odeLinks (b_body st') = ols0 ++ [x']
    /\ ob_worldID (b_body st') = ob_worldID (b_body st)
    /\ useWorldCollision (b_impl st') = useWorldCollision (b_impl st)
    /\ link x' = link x
    /\ bodyID x' = S (last_handle (b_ode st))
    /\ is_Some (bodies (b_ode st') !! bodyID x')
    /\ world_grows (b_ode st) (b_ode st')
    /\ (S (last_handle (b_ode st)) <= last_handle (b_ode st'))%nat.
Proof.
  intros Hols Hlen Hw. unfold ODELink_createLinkBody.
  rewrite bool_decide_eq_true_2 by done.
  rewrite Hols. rewrite lookup_app_r by lia.
  replace (this - length ols0)%nat with 0%nat by lia. simpl.
  destruct (match parent with
            | Some i => Some <$> (ols0 ++ [x]) !! i
            | None => Some None
            end) as [par|]; simpl; [|done].
  destruct (createLinkBody _ _ _ _ _ _) as [[me1 impl1] W1] eqn:E.
  intros [= <-]. simpl.
  pose proof (createLinkBody_spec _ _ _ _ _ _ _ _ _ E) as (E1 & E2 & E3).
  pose proof (createLinkBody_bodies _ _ _ _ _ _ _ _ _ E) as (E4 & E5 & E6).
  exists me1. rewrite E2.
  split; [|destruct E3 as (?&?&?&?&?&?); done].
  rewrite insert_app_r_alt by lia.
  replace (this - length ols0)%nat with 0%nat by lia. done.
Qed.

Lemma ODELink_createGeometry_bodies (this : nat) (l : Link) (st st' : Build)
    (ols0 : list ODELink) (x : ODELink) :
  odeLinks (b_body st) = ols0 ++ [x] -> length ols0 = this ->
  ODELink_createGeometry this l st = Some st' ->
  exists x', odeLinks (b_body st') = ols0 ++ [x']
    /\ ob_worldID (b_body st') = ob_worldID (b_body st)
    /\ useWorldCollision (b_impl st') = useWorldCollision (b_impl st)
    /\ link x' = link x
    /\ bodyID x' = bodyID x
    /\ bodies (b_ode st') = bodies (b_ode st)
    /\ (last_handle (b_ode st) <= last_handle (b_ode st'))%nat.
Proof.
  intros Hols Hlen. unfold ODELink_createGeometry.
  destruct (useWorldCollision (b_impl st)) eqn:Hu; simpl.
  - intros [= <-]. exists x. rewrite Hu. repeat split; try done. 
  - rewrite Hols. rewrite lookup_app_r by lia.
    replace (this - length ols0)%nat with 0%nat by lia. simpl.
    destruct (createGeometry _ _ _ _) as [me2 W2] eqn:E.
    apply createGeometry_keeps in E as (E1 & E2 & _ & E4 & _ & _ & E7).
    intros [= <-]. simpl. exists me2. rewrite Hu. repeat split; try done.
    rewrite insert_app_r_alt by lia.
    replace (this - length ols0)%nat with 0%nat by lia. done.
Qed.

(** The adapters the constructor appends for a chain of siblings, when the
    body adapter has a world: one per link, each on a solver body created in
    the run, no two on the same. *)
Lemma ODELink_chain_bodies (heap : LinkHeap) (t : LinkTree) :
  forall (parent : option nat) (parentOrigin : Vector3) (st st' : Build),
  ob_worldID (b_body st) <> 0%nat ->
  ODELink_chain heap t parent parentOrigin st = Some st' ->
  exists ols,
    odeLinks (b_body st') = odeLinks (b_body st) ++ ols
    /\ ob_worldID (b_body st') = ob_worldID (b_body st)
    /\ link <$> ols = tree_links t
    /\ Forall (fun ol => is_Some (heap !! link ol)) ols
    /\ world_grows (b_ode st) (b_ode st')
    /\ Forall (fun ol => (last_handle (b_ode st) < bodyID ol <= last_handle (b_ode st'))%nat
                         /\ is_Some (bodies (b_ode st') !! bodyID ol)) ols
    /\ NoDup (bodyID <$> ols).
Proof.
  induction t as [|lp child IHc sibling IHs]; intros parent parentOrigin st st' Hw.
  - simpl. intros [= <-]. exists []. rewrite app_nil_r.
    repeat split; try done; try apply world_grows_refl; try constructor.
  - simpl. destruct (heap !! lp) as [l|] eqn:Hl; simpl; [|done].
    set (ols0 := odeLinks (b_body st)).
    set (new := mkODELink lp 0 0 [] ∅ 0).
    destruct (ODELink_createLinkBody _ _ _ _ _) as [st1|] eqn:E1; simpl; [|done].
    destruct (ODELink_createGeometry _ _ _) as [st2|] eqn:E2; simpl; [|done].
    destruct (ODELink_chain heap child _ _ st2) as [st3|] eqn:E3; simpl; [|done].
    intros E4.
    apply (ODELink_createLinkBody_bodies _ _ _ _ _ _ ols0 new) in E1
      as (x1 & Ho1 & Hw1 & _ & Hx1 & Hb1 & Hin1 & Hg1 & Hle1); [|done|done|exact Hw].
    apply (ODELink_createGeometry_bodies _ _ _ _ ols0 x1 Ho1 eq_refl) in E2
      as (x2 & Ho2 & Hw2 & _ & Hx2 & Hb2 & HB2 & Hle2).
    simpl in Hw1, Hb1, Hg1, Hle1, Hx1.
    apply IHc in E3 as (olsc & Hoc & Hwc & Hlc & Hhc & Hgc & Hfc & Hnc); [|congruence].
    apply IHs in E4 as (olss & Hos & Hws & Hls & Hhs & Hgs & Hfs & Hns); [|congruence].
    exists (x2 :: olsc ++ olss).
    assert (Hg2 : world_grows (b_ode st) (b_ode st2)).
    { destruct Hg1 as [? Hk]. split; [lia|]. intros b Hb. rewrite HB2. auto. }
    split; [rewrite Hos, Hoc, Ho2; by rewrite <- !app_assoc|].
    split; [congruence|].
    split; [simpl; rewrite fmap_app; congruence|].
    split.
    { constructor; [rewrite Hx2, Hx1; simpl; by eexists|].
      apply Forall_app. done. }
    split.
    { eapply world_grows_trans; [exact Hg2|].
      eapply world_grows_trans; [exact Hgc|exact Hgs]. }
    destruct Hgc as [Hlec Hkc], Hgs as [Hles Hks].
    split.
    { constructor.
      - rewrite Hb2, Hb1. split; [lia|]. apply Hks, Hkc. rewrite HB2.
        rewrite Hb1 in Hin1. exact Hin1.
      - apply Forall_app. split.
        + eapply Forall_impl; [exact Hfc|]. cbv beta. intros ol [Hr Hi].
          split; [lia|auto].
        + eapply Forall_impl; [exact Hfs|]. cbv beta. intros ol [Hr Hi].
          split; [lia|auto]. }
    simpl. apply NoDup_cons. split.
    + rewrite fmap_app, elem_of_app, !list_elem_of_fmap.
      intros [(ol & Heq & Hin)|(ol & Heq & Hin)].
      * apply (proj1 (Forall_forall _ _) Hfc) in Hin as [Hr _]. lia.
      * apply (proj1 (Forall_forall _ _) Hfs) in Hin as [Hr _]. lia.
    + rewrite fmap_app. apply NoDup_app. split; [done|]. split; [|done].
      intros b. rewrite !list_elem_of_fmap.
      intros (ol & -> & Hin) (ol' & Heq & Hin').
      apply (proj1 (Forall_forall _ _) Hfc) in Hin as [Hr _].
      apply (proj1 (Forall_forall _ _) Hfs) in Hin' as [Hr' _]. lia.
Qed.


Lemma pushLink_keeps (flipYZ : bool) (ol : ODELink) (l : Link) (W : dxWorld) (b : dBodyID) :
  is_Some (bodies W !! b) -> is_Some (bodies (pushLink flipYZ ol l W) !! b).
Proof.
  intros Hb. unfold pushLink, setKinematicStateToODEflip, setKinematicStateToODE.
  assert (Hgeoms : forall (f : dxWorld -> dGeomID -> dxWorld) (gs : list dGeomID),
            (forall W0 g, bodies (f W0 g) = bodies W0) ->
            forall W0, bodies (foldl f W0 gs) = bodies W0).
  { intros f gs Hf. induction gs as [|g gs IH]; intros W0; simpl; [done|].
    by rewrite IH, Hf. }
  destruct flipYZ; simpl; case_bool_decide;
    try (rewrite Hgeoms; [done|intros W0 g; reflexivity]);
    unfold dBodySetAngularVel, dBodySetLinearVel, dBodySetPosition, dBodySetRotation,
      with_bodies; simpl; by rewrite !lookup_alter_is_Some.
Qed.

Lemma pushLinks_keeps (flipYZ : bool) (ols : list ODELink) (heap : LinkHeap) :
  forall W W' : dxWorld,
  pushLinks flipYZ ols heap W = Some W' ->
  forall b, is_Some (bodies W !! b) -> is_Some (bodies W' !! b).
Proof.
  induction ols as [|ol rest IH]; intros W W'; simpl.
  - by intros [= <-].
  - destruct (heap !! link ol) as [l|]; simpl; [|done].
    intros Hp b Hb. eapply IH; [exact Hp|]. by apply pushLink_keeps.
Qed.

Lemma setExtraJoints_from_bodies (flipYZ : bool) (ob : ODEBody) (heap : LinkHeap)
    (ejs : list ExtraJoint) :
  forall W W' : dxWorld,
  setExtraJoints_from flipYZ ob heap ejs W = Some W' -> bodies W' = bodies W.
Proof.
  induction ejs as [|ej rest IH]; intros W W'; simpl.
  - by intros [= <-].
  - destruct (setExtraJoint flipYZ ob heap ej W) as [W1|] eqn:E; simpl; [|done].
    intros Hr. rewrite (IH _ _ Hr). clear Hr IH.
    unfold setExtraJoint in E.
    destruct (extraJointLink (odeLinks ob) heap (ej_link ej).1) as [first|];
      cbn [mbind option_bind] in E; [|done].
    destruct (match first.1 with Some _ => _ | None => _ end) as [second|];
      cbn [mbind option_bind] in E; [|done].
    destruct (second.2); [|by injection E as <-].
    destruct (first.2) as [pair0|]; cbn [mbind option_bind] in E; [|done].
    destruct (heap !! link pair0); cbn [mbind option_bind] in E; [|done].
    destruct (ej_type ej); by injection E as <-.
Qed.

Lemma attachPlane2D_bodies (simImpl : ODESimulatorItemImpl) (ob : ODEBody) (rootLink : nat)
    (W W' : dxWorld) :
  attachPlane2D simImpl ob rootLink W = Some W' -> bodies W' = bodies W.
Proof.
  unfold attachPlane2D. destruct (is2Dmode simImpl && _); [|by intros [= <-]].
  destruct (odeLinks ob !! rootLink); simpl; [|done]. by intros [= <-].
Qed.

Lemma setTorqueToODE_bodies (ols : list ODELink) (heap : LinkHeap) :
  forall W W' : dxWorld,
  actuateLinks setTorqueToODE ols heap W = Some W' -> bodies W' = bodies W.
Proof.
  induction ols as [|ol rest IH]; intros W W'; simpl.
  - by intros [= <-].
  - destruct (heap !! link ol) as [l|]; simpl; [|done].
    intros Hr. rewrite (IH _ _ Hr). unfold setTorqueToODE.
    destruct (isRotationalJoint l); [done|]. by destruct (isSlideJoint l).
Qed.

(** X1.  What [createBody] leaves for a body that is not static, in a
    simulation that has a world: every adapter has a non-null body handle
    that names a live solver body, no two adapters share a body, and every
    adapter wraps a link object of its own that is on the heap. *)
Lemma createBody_nonstatic_adapters (simImpl simImpl' : ODESimulatorItemImpl) (B : Body)
    (ob' : ODEBody) (heap : LinkHeap) (W W' : dxWorld) :
  isStaticModel B = false -> worldID simImpl <> 0%nat -> NoDup (body_links B) ->
  createBody simImpl (ODEBody_new B) heap W = Some (simImpl', ob', W') ->
  adapters_own_bodies (odeLinks ob') heap W'.
Proof.
  intros Hstatic Hworld Hnd. unfold createBody.
  cbn [body odeLinks ODEBody_new geometryId ob_spaceID]. rewrite Hstatic.
  set (ob0 := mkODEBody B [] _ _ _).
  set (W0 := if useWorldCollision simImpl then W else _).
  set (impl0 := if useWorldCollision simImpl then _ else simImpl).
  unfold ODELink_new, body_links in *.
  destruct (body_tree B) as [|root child sib] eqn:Htree; [done|].
  destruct (ODELink_chain heap _ None Vector3_Zero _) as [st|] eqn:Ech;
    cbn [mbind option_bind]; [|done].
  apply ODELink_chain_bodies in Ech as (ols & Hols & _ & Hlk & Hheap & _ & Hown & Hndb);
    [|done].
  simpl in Hols, Hlk. rewrite app_nil_r in Hlk.
  destruct (ODEBody_setKinematicStateToODE _ _ _ _) as [W1|] eqn:E1;
    cbn [mbind option_bind]; [|done].
  destruct (enterGeometryIds _ _ _) as [impl1|]; cbn [mbind option_bind]; [|done].
  destruct (setExtraJoints _ _ _ _) as [W2|] eqn:E2; cbn [mbind option_bind]; [|done].
  destruct (attachPlane2D _ _ _ _) as [W3|] eqn:E3; cbn [mbind option_bind]; [|done].
  destruct (ODEBody_setTorqueToODE _ _ _) as [W4|] eqn:E4; cbn [mbind option_bind]; [|done].
  intros [= <- <- <-].
  apply setTorqueToODE_bodies in E4. apply attachPlane2D_bodies in E3.
  apply setExtraJoints_from_bodies in E2.
  rewrite Hols. split; [|split; [done|by rewrite Hlk]].
  apply Forall_forall. intros ol Hin.
  destruct (proj1 (Forall_forall _ _) Hown ol Hin) as [Hr Hb].
  split; [lia|]. split; [|exact (proj1 (Forall_forall _ _) Hheap ol Hin)].
  rewrite E4, E3, E2. eapply pushLinks_keeps; [exact E1|exact Hb].
Qed.

End ConstructionFacts.

(** ** The nailed-object registry *)

(** No reachable registry holds a null pointer. *)
Lemma registry_no_null (M : NailedObjectManager) :
  registry_reachable M ->
  forall (b : dBodyID) (p : NailedObjectPtr), objectMap M !! b = Some p -> is_Some p.
Proof.
  induction 1 as [|obj M M' _ IH Hadd|b' M _ IH|b' obj M _ IH _]; intros b p Hb; simpl in *.
  - by rewrite lookup_empty in Hb.
  - unfold addObject in Hadd. destruct obj as [o|]; [|done]. simpl in Hadd.
    injection Hadd as <-. simpl in Hb. unfold map_insert in Hb.
    destruct (objectMap M !! getBodyID o) eqn:E; [by eapply IH|].
    rewrite lookup_insert in Hb. case_decide.
    + injection Hb as <-. by eexists.
    + by eapply IH.
  - apply lookup_delete_Some in Hb as [_ Hb]. by eapply IH.
  - destruct (decide (b' = b)) as [->|Hne].
    + rewrite lookup_insert_eq in Hb. injection Hb as <-. by eexists.
    + rewrite lookup_insert_ne in Hb by done. by eapply IH.
Qed.

(** C9.  On every registry the program can reach (a step and the limit check
    keep a registry reachable: [stepSimulation_reachable],
    [nailedObjectLimitCheck_reachable]) and for every body handle,
    [find] answers true exactly when [get] hands out a non-null object, [get]
    hands out the null pointer exactly when nothing is registered under the
    handle, and neither call changes the registry. *)
Theorem find_iff_get (M : NailedObjectManager) (b : dBodyID) :
  registry_reachable M ->
  (fst (NailedObjectManager_find b M) = true <-> is_Some (fst (NailedObjectManager_get b M)))
  /\ (fst (NailedObjectManager_get b M) = None <-> objectMap M !! b = None)
  /\ snd (NailedObjectManager_find b M) = M
  /\ snd (NailedObjectManager_get b M) = M.
Proof.
  intros Hreach. pose proof (registry_no_null M Hreach b) as Hnn.
  unfold NailedObjectManager_find, NailedObjectManager_get.
  destruct (objectMap M !! b) as [p|] eqn:E; simpl.
  - destruct (Hnn p eq_refl) as [o ->]. repeat split; done.
  - repeat split; done.
Qed.

(** ** Contact resolution *)

Section ContactFacts.
Context `{Solver} `{Devices} `{Model}.

Lemma createContactJoints_inv (process : dContact -> option (option dContact))
    (body1ID body2ID : dBodyID) (contacts : list dContact) :
  forall group group' : list ContactJoint,
  createContactJoints process body1ID body2ID contacts group = Some group' ->
  group' = group ++ omap (created_joint process body1ID body2ID) contacts.
Proof.
  induction contacts as [|c rest IH]; intros group group' Hrun; simpl in *.
  - injection Hrun as <-. by rewrite app_nil_r.
  - unfold created_joint at 1. destruct (process c) as [[c'|]|]; simpl in *; [| |done].
    + rewrite (IH _ _ Hrun). by rewrite <- app_assoc.
    + by rewrite (IH _ _ Hrun).
Qed.

Lemma createContactJoints_total (process : dContact -> option (option dContact))
    (body1ID body2ID : dBodyID) (contacts : list dContact) :
  forall group : list ContactJoint,
  Forall (fun c => is_Some (process c)) contacts ->
  is_Some (createContactJoints process body1ID body2ID contacts group).
Proof.
  induction contacts as [|c rest IH]; intros group Hall; simpl; [by eexists|].
  apply Forall_cons in Hall as [[r ->] Hall]. simpl. by apply IH.
Qed.

Lemma same_contact_view_refl (M : Machine) : same_contact_view M M.
Proof. repeat split. Qed.

Lemma vacuumGripperNearCallback_keeps (M : Machine) (body1ID body2ID : dBodyID)
    (contacts : list dContact) :
  same_contact_view M (snd (vacuumGripperNearCallback M body1ID body2ID contacts)).
Proof.
  unfold vacuumGripperNearCallback.
  repeat match goal with
         | |- context [if ?b then _ else _] => destruct b
         | |- context [match ?x with Some _ => _ | None => _ end] => destruct x
         | |- context [let '(_, _) := ?x in _] => destruct x
         end; simpl; repeat split.
Qed.

Lemma nailDriverNearCallback_keeps (M : Machine) (body1ID body2ID : dBodyID)
    (contacts : list dContact) :
  exists M', nailDriverNearCallback M body1ID body2ID contacts = Some M'
    /\ same_contact_view M M'.
Proof.
  unfold nailDriverNearCallback, NailedObjectManager_get, addObject.
  repeat match goal with
         | |- context [if ?b then _ else _] => destruct b
         | |- context [match ?x with Some _ => _ | None => _ end] => destruct x
         | |- context [let '(_, _) := ?x in _] => destruct x
         end; simpl; eexists; (split; [reflexivity|]); repeat split.
Qed.

(** The loop body of either callback leaves the geometry of a contact as it
    found it. *)
Lemma set_surface_geom (c : dContact) (m : Z) (x : R) (v : Vector3) :
  geom (set_mode m c) = geom c /\ geom (set_mu x c) = geom c
  /\ geom (set_mu2 x c) = geom c /\ geom (set_motion1 x c) = geom c
  /\ geom (set_fdir1 v c) = geom c.
Proof. repeat split. Qed.

Open Scope R_scope.

(** The loop body of [nearCallback] on a contact of a tracked link, case by
    case. *)
Lemma nearCallback_contact_tracked (mu : R) (heap : LinkHeap) (p : LinkPtr) (cl : Link)
    (sign : R) (isMecanumWheel : bool) (barrelAngle : R) (contact : dContact) :
  heap !! p = Some cl ->
  let n := cg_normal (geom contact) in
  let dir := if isMecanumWheel then barrelDirection barrelAngle cl n
             else rollingDirection cl n in
  nearCallback_contact mu heap (Some p) sign isMecanumWheel barrelAngle contact =
  Some (if Rgt_dec (cg_depth (geom contact)) 0.001 then None
        else if Rlt_dec (norm dir) 1.0e-5
             then Some (set_mu mu (set_mode dContactApprox1
                                     (set_mode anisotropicMode contact)))
             else Some (set_mu2 0.5
                          (set_mu mu
                             (set_motion1 (commandedRate cl)
                                (set_fdir1 (normalize (vscale sign dir))
                                   (set_mode anisotropicMode contact)))))).
Proof.
  intros Hcl n dir. unfold nearCallback_contact.
  destruct (Rgt_dec _ _); [done|]. rewrite Hcl. simpl.
  fold n. unfold dir, barrelDirection, rollingDirection, commandedRate.
  destruct isMecanumWheel; destruct (Rlt_dec _ _); try done;
    destruct (bool_decide _); done.
Qed.

(** The loop body of [collisionCallback] on a contact of a tracked link. *)
Lemma collisionCallback_contact_tracked (mu : R) (heap : LinkHeap) (p : LinkPtr)
    (cl : Link) (sign : R) (contact : dContact) :
  heap !! p = Some cl ->
  let dir := rollingDirection cl (cg_normal (geom contact)) in
  collisionCallback_contact mu heap (Some p) sign contact =
  Some (if Rgt_dec (cg_depth (geom contact)) 0.001 then None
        else if Rlt_dec (norm dir) 1.0e-5
             then Some (set_mu mu (set_mode dContactApprox1
                                     (set_mode anisotropicMode contact)))
             else Some (set_mu2 0.5
                          (set_mu mu
                             (set_motion1 (link_u cl)
                                (set_fdir1 (normalize (vscale sign dir))
                                   (set_mode anisotropicMode contact)))))).
Proof.
  intros Hcl dir. unfold collisionCallback_contact.
  destruct (Rgt_dec _ _); [done|]. rewrite Hcl. simpl.
  unfold dir, rollingDirection. destruct (Rlt_dec _ _); done.
Qed.

(** A joint made for a contact of a tracked link: the contact is not deeper
    than 0.001, and the joint carries its geometry. *)
Lemma nearCallback_contact_created (mu : R) (heap : LinkHeap) (p : LinkPtr) (sign : R)
    (isMecanumWheel : bool) (barrelAngle : R) (contact c : dContact) :
  nearCallback_contact mu heap (Some p) sign isMecanumWheel barrelAngle contact
    = Some (Some c) ->
  ~ cg_depth (geom contact) > 0.001 /\ geom c = geom contact.
Proof.
  unfold nearCallback_contact. destruct (Rgt_dec _ _); [done|].
  destruct (heap !! p) as [cl|]; [|done]. simpl.
  destruct (Rlt_dec _ _); [intros [= <-]; done|].
  destruct (bool_decide _); intros [= <-]; done.
Qed.

Lemma collisionCallback_contact_created (mu : R) (heap : LinkHeap) (p : LinkPtr)
    (sign : R) (contact c : dContact) :
  collisionCallback_contact mu heap (Some p) sign contact = Some (Some c) ->
  ~ cg_depth (geom contact) > 0.001 /\ geom c = geom contact.
Proof.
  unfold collisionCallback_contact. destruct (Rgt_dec _ _); [done|].
  destruct (heap !! p) as [cl|]; [|done]. simpl.
  destruct (Rlt_dec _ _); intros [= <-]; done.
Qed.

Close Scope R_scope.

(** The tracked link of a pair is found exactly when one of the two bodies is
    registered as a track. *)
Lemma findCrawlerLink_Some (m : gmap nat nat) (body1ID body2ID : dBodyID) :
  is_Some (fst (findCrawlerLink m body1ID body2ID))
  <-> is_Some (m !! body1ID) \/ is_Some (m !! body2ID).
Proof.
  unfold findCrawlerLink. case_bool_decide as Hne.
  - destruct (m !! body2ID), (m !! body1ID); simpl; split; eauto;
      intros [[? ?]|[? ?]]; done.
  - assert (m = ∅) as -> by (destruct (decide (m = ∅)); [done|by destruct Hne]).
    rewrite !lookup_empty. simpl. split; [intros [? ?]|intros [[? ?]|[? ?]]]; done.
Qed.

(** [nearCallback], when it ends, appends to the contact group the joints of
    its contact loop, or nothing at all. *)
Lemma nearCallback_inv (data data' : Machine) (g1 g2 : dGeomID)
    (collided : list dContactGeom) (G1 G2 : dxGeom) :
  nearCallback data g1 g2 collided = Some data' ->
  geoms (ode data) !! g1 = Some G1 -> geoms (ode data) !! g2 = Some G2 ->
  let body1ID := geom_body G1 in
  let body2ID := geom_body G2 in
  let found := findCrawlerLink (crawlerLinks (impl data)) body1ID body2ID in
  let wheel := findMecanumWheel (impl data) body1ID body2ID in
  let contacts := dContact_of <$> take MaxNumContacts collided in
  let joints := omap (created_joint
                        (nearCallback_contact (friction (impl data)) (heap data)
                           (fst found) (snd found) (fst wheel) (snd wheel))
                        body1ID body2ID) contacts in
  contactJointGroup (impl data') = contactJointGroup (impl data)
  \/ (fst (vacuumGripperNearCallback data body1ID body2ID contacts) = false
      /\ contactJointGroup (impl data') = contactJointGroup (impl data) ++ joints).
Proof.
  intros Hrun HG1 HG2 body1ID body2ID found wheel contacts joints.
  unfold nearCallback in Hrun. fold contacts in Hrun.
  case_bool_decide; [|injection Hrun as <-; by left].
  rewrite HG1, HG2 in Hrun. simpl in Hrun.
  fold body1ID body2ID found wheel in Hrun.
  destruct found as [crawlerlink sign] eqn:Ef. destruct wheel as [isM angle] eqn:Ew.
  pose proof (vacuumGripperNearCallback_keeps data body1ID body2ID contacts) as Hv.
  destruct (vacuumGripperNearCallback data body1ID body2ID contacts) as [skip data1].
  simpl in Hv. destruct Hv as (Hv1 & Hv2 & Hv3 & Hv4 & Hv5).
  destruct skip; [injection Hrun as <-; by left|].
  destruct (nailDriverNearCallback_keeps data1 body1ID body2ID contacts)
    as (data2 & Hn & (Hn1 & Hn2 & Hn3 & Hn4 & Hn5)).
  rewrite Hn in Hrun. simpl in Hrun.
  destruct (createContactJoints _ _ _ _ _) as [group|] eqn:Eg; [|done].
  injection Hrun as <-. simpl. right. split; [done|].
  apply createContactJoints_inv in Eg. rewrite Eg.
  rewrite Hn1, Hv1, Hn2, Hv2, Hn5, Hv5. done.
Qed.

(** When no gripper claims the pair and the tracked link, if any, is on the
    heap, [nearCallback] ends and appends the joints of its contact loop. *)
Lemma nearCallback_spec (data : Machine) (g1 g2 : dGeomID)
    (collided : list dContactGeom) (G1 G2 : dxGeom) :
  geoms (ode data) !! g1 = Some G1 -> geoms (ode data) !! g2 = Some G2 ->
  let body1ID := geom_body G1 in
  let body2ID := geom_body G2 in
  let found := findCrawlerLink (crawlerLinks (impl data)) body1ID body2ID in
  let wheel := findMecanumWheel (impl data) body1ID body2ID in
  let contacts := dContact_of <$> take MaxNumContacts collided in
  let joints := omap (created_joint
                        (nearCallback_contact (friction (impl data)) (heap data)
                           (fst found) (snd found) (fst wheel) (snd wheel))
                        body1ID body2ID) contacts in
  fst (vacuumGripperNearCallback data body1ID body2ID contacts) = false ->
  (forall p, fst found = Some p -> is_Some (heap data !! p)) ->
  exists data', nearCallback data g1 g2 collided = Some data'
    /\ contactJointGroup (impl data') = contactJointGroup (impl data) ++ joints.
Proof.
  intros HG1 HG2 body1ID body2ID found wheel contacts joints Hskip Hheap.
  assert (Htotal : is_Some (nearCallback data g1 g2 collided)).
  { unfold nearCallback. fold contacts. case_bool_decide; [|by eexists].
    rewrite HG1, HG2. simpl. fold body1ID body2ID found wheel.
    destruct found as [crawlerlink sign] eqn:Ef. destruct wheel as [isM angle] eqn:Ew.
    pose proof (vacuumGripperNearCallback_keeps data body1ID body2ID contacts) as Hv.
    destruct (vacuumGripperNearCallback data body1ID body2ID contacts) as [skip data1].
    simpl in Hv, Hskip. subst skip. destruct Hv as (Hv1 & Hv2 & Hv3 & Hv4 & Hv5).
    destruct (nailDriverNearCallback_keeps data1 body1ID body2ID contacts)
      as (data2 & -> & (Hn1 & Hn2 & Hn3 & Hn4 & Hn5)).
    simpl.
    destruct (createContactJoints_total
                (nearCallback_contact (friction (impl data2)) (heap data2) crawlerlink
                   sign isM angle) body1ID body2ID contacts
                (contactJointGroup (impl data2))) as [group ->]; [|by eexists].
    apply Forall_forall. intros c _. rewrite Hn5, Hv5.
    destruct crawlerlink as [p|]; [|by eexists].
    destruct (Hheap p eq_refl) as [cl Hcl].
    rewrite (nearCallback_contact_tracked _ _ _ cl) by done. by eexists. }
  destruct Htotal as [data' Hrun]. exists data'. split; [done|].
  destruct (nearCallback_inv _ _ _ _ _ _ _ Hrun HG1 HG2) as [Hsame|[_ Hgrp]]; [|done].
  (* nothing appended: then the loop made nothing *)
  unfold nearCallback in Hrun. fold contacts in Hrun.
  case_bool_decide as Hlen.
  - rewrite HG1, HG2 in Hrun. simpl in Hrun.
    fold body1ID body2ID found wheel in Hrun.
    destruct found as [crawlerlink sign] eqn:Ef. destruct wheel as [isM angle] eqn:Ew.
    pose proof (vacuumGripperNearCallback_keeps data body1ID body2ID contacts) as Hv.
    destruct (vacuumGripperNearCallback data body1ID body2ID contacts) as [skip data1].
    simpl in Hv, Hskip. subst skip. destruct Hv as (Hv1 & Hv2 & Hv3 & Hv4 & Hv5).
    destruct (nailDriverNearCallback_keeps data1 body1ID body2ID contacts)
      as (data2 & Hn & (Hn1 & Hn2 & Hn3 & Hn4 & Hn5)).
    rewrite Hn in Hrun. simpl in Hrun.
    destruct (createContactJoints _ _ _ _ _) as [group|] eqn:Eg; [|done].
    injection Hrun as <-. simpl.
    apply createContactJoints_inv in Eg. rewrite Eg.
    rewrite Hn1, Hv1, Hn2, Hv2, Hn5, Hv5. done.
  - injection Hrun as <-.
    assert (contacts = []) as Hnil.
    { destruct contacts; [done|]. simpl in Hlen. lia. }
    subst joints. rewrite Hnil. simpl. by rewrite app_nil_r.
Qed.

(** [collisionCallback] likewise, for a pair whose two geometries are
    entered in [geometryIdToLink]. *)
Lemma collisionCallback_inv (M M' : Machine) (collisionPair : CollisionPair)
    (link1 link2 : ODELink) :
  collisionCallback M collisionPair = Some M' ->
  geometryIdToLink (impl M) !! fst (cp_geometryId collisionPair) = Some (Some link1) ->
  geometryIdToLink (impl M) !! snd (cp_geometryId collisionPair) = Some (Some link2) ->
  let found := findCrawlerLink (crawlerLinks (impl M)) (bodyID link1) (bodyID link2) in
  contactJointGroup (impl M') =
  contactJointGroup (impl M)
  ++ omap (created_joint
             (collisionCallback_contact (friction (impl M)) (heap M) (fst found) (snd found))
             (bodyID link1) (bodyID link2))
          (contact_of_collision <$> collisions collisionPair).
Proof.
  intros Hrun H1' H2' found. unfold collisionCallback in Hrun.
  rewrite H1', H2' in Hrun. simpl in Hrun. fold found in Hrun.
  destruct found as [crawlerlink sign].
  destruct (createContactJoints _ _ _ _ _) as [group|] eqn:Eg; [|done].
  injection Hrun as <-. simpl. by apply createContactJoints_inv in Eg.
Qed.

Lemma collisionCallback_total (M : Machine) (collisionPair : CollisionPair)
    (link1 link2 : ODELink) :
  geometryIdToLink (impl M) !! fst (cp_geometryId collisionPair) = Some (Some link1) ->
  geometryIdToLink (impl M) !! snd (cp_geometryId collisionPair) = Some (Some link2) ->
  (forall p, fst (findCrawlerLink (crawlerLinks (impl M)) (bodyID link1) (bodyID link2))
             = Some p -> is_Some (heap M !! p)) ->
  is_Some (collisionCallback M collisionPair).
Proof.
  intros H1' H2' Hheap. unfold collisionCallback. rewrite H1', H2'. simpl.
  destruct (findCrawlerLink _ _ _) as [crawlerlink sign]. simpl in Hheap.
  destruct (createContactJoints_total
              (collisionCallback_contact (friction (impl M)) (heap M) crawlerlink sign)
              (bodyID link1) (bodyID link2)
              (contact_of_collision <$> collisions collisionPair)
              (contactJointGroup (impl M))) as [group ->]; [|by eexists].
  apply Forall_forall. intros c _. destruct crawlerlink as [p|]; [|by eexists].
  destruct (Hheap p eq_refl) as [cl Hcl].
  rewrite (collisionCallback_contact_tracked _ _ _ cl) by done. by eexists.
Qed.

(** Every joint the contact loop makes for a tracked link comes from a
    contact of the list that is not deeper than 0.001. *)
Lemma tracked_joints_shallow (process : dContact -> option (option dContact))
    (body1ID body2ID : dBodyID) (contacts : list dContact) :
  (forall contact c, process contact = Some (Some c) ->
     ~ (cg_depth (geom contact) > 0.001)%R /\ geom c = geom contact) ->
  Forall (fun j => ~ (cg_depth (geom (cj_contact j)) > 0.001)%R
                   /\ geom (cj_contact j) ∈ geom <$> contacts)
    (omap (created_joint process body1ID body2ID) contacts).
Proof.
  intros Hp. apply Forall_forall. intros j Hj.
  apply list_elem_of_omap in Hj as (contact & Hin & Hj).
  unfold created_joint in Hj.
  destruct (process contact) as [[c|]|] eqn:E; try done. injection Hj as <-. simpl.
  destruct (Hp _ _ E) as [Hd ->]. split; [done|]. apply list_elem_of_fmap. eauto.
Qed.

(** C4.  A contact of a pair that involves a tracked link and whose
    penetration depth exceeds 0.001 gets no contact joint, in the built-in
    near callback and in the callback of the external collision detector:
    every joint either callback adds to the contact group comes from a
    reported contact that is not deeper than 0.001. *)
Theorem deep_tracked_contact_discarded :
  (forall (data data' : Machine) (g1 g2 : dGeomID) (collided : list dContactGeom)
          (G1 G2 : dxGeom),
     nearCallback data g1 g2 collided = Some data' ->
     geoms (ode data) !! g1 = Some G1 -> geoms (ode data) !! g2 = Some G2 ->
     is_Some (crawlerLinks (impl data) !! geom_body G1)
     \/ is_Some (crawlerLinks (impl data) !! geom_body G2) ->
     exists joints,
       contactJointGroup (impl data') = contactJointGroup (impl data) ++ joints
       /\ Forall (fun j => ~ (cg_depth (geom (cj_contact j)) > 0.001)%R
                           /\ geom (cj_contact j) ∈ collided) joints)
  /\ (forall (M M' : Machine) (collisionPair : CollisionPair) (link1 link2 : ODELink),
        collisionCallback M collisionPair = Some M' ->
        geometryIdToLink (impl M) !! fst (cp_geometryId collisionPair) = Some (Some link1) ->
        geometryIdToLink (impl M) !! snd (cp_geometryId collisionPair) = Some (Some link2) ->
        is_Some (crawlerLinks (impl M) !! bodyID link1)
        \/ is_Some (crawlerLinks (impl M) !! bodyID link2) ->
        exists joints,
          contactJointGroup (impl M') = contactJointGroup (impl M) ++ joints
          /\ Forall (fun j => ~ (cg_depth (geom (cj_contact j)) > 0.001)%R
                              /\ geom (cj_contact j)
                                 ∈ geom ∘ contact_of_collision <$> collisions collisionPair)
               joints).
Proof.
  split.
  - intros data data' g1 g2 collided G1 G2 Hrun HG1 HG2 Htracked.
    apply findCrawlerLink_Some in Htracked as [p Hp].
    destruct (nearCallback_inv _ _ _ _ _ _ _ Hrun HG1 HG2) as [Hsame|[_ Hgrp]].
    + exists []. rewrite app_nil_r. done.
    + eexists. split; [exact Hgrp|]. rewrite Hp.
      eapply Forall_impl.
      * apply tracked_joints_shallow. intros contact c. apply nearCallback_contact_created.
      * intros j [Hd Hg]. split; [done|]. simpl in Hg.
        rewrite <- list_fmap_compose in Hg.
        apply list_elem_of_fmap in Hg as (g & -> & Hin). simpl.
        apply elem_of_take in Hin as (i & Hi & _). by eapply list_elem_of_lookup_2.
  - intros M M' collisionPair link1 link2 Hrun Hl1 Hl2 Htracked.
    apply findCrawlerLink_Some in Htracked as [p Hp].
    pose proof (collisionCallback_inv _ _ _ _ _ Hrun Hl1 Hl2) as Hgrp. simpl in Hgrp.
    eexists. split; [exact Hgrp|]. rewrite Hp.
    eapply Forall_impl.
    + apply tracked_joints_shallow. intros contact c. apply collisionCallback_contact_created.
    + intros j [Hd Hg]. split; [done|]. by rewrite <- list_fmap_compose in Hg.
Qed.

Open Scope R_scope.

Lemma norm_unit_dot (n : Vector3) : norm n = 1 -> dot n n = 1.
Proof.
  unfold norm. intros Hn.
  assert (0 <= dot n n) as Hpos.
  { unfold dot. nra. }
  rewrite <- (sqrt_sqrt (dot n n)) by done. rewrite Hn. ring.
Qed.

(** Turning the rolling direction about a unit normal keeps its length. *)
Lemma barrelDirection_norm (barrelAngle : R) (cl : Link) (n : Vector3) :
  norm n = 1 -> norm (barrelDirection barrelAngle cl n) = norm (rollingDirection cl n).
Proof.
  intros Hn. apply norm_unit_dot in Hn.
  unfold norm. f_equal.
  unfold barrelDirection, rollingDirection.
  generalize (mulMV (link_R cl) (link_a cl)). intros [ax ay az].
  pose proof (sin2_cos2 barrelAngle) as Hsc. unfold Rsqr in Hsc.
  unfold AngleAxis_toRotationMatrix.
  generalize dependent (sin barrelAngle). generalize (cos barrelAngle).
  intros c s Hsc. destruct n as [nx ny nz]. unfold dot in *. simpl in *.
  match goal with |- ?P = ?D =>
    replace P with (D + D * (s * s + c * c - 1)
                    + D * (s * s) * (nx * nx + ny * ny + nz * nz - 1)) by ring
  end.
  rewrite Hsc, Hn. ring.
Qed.

(** With a zero barrel angle the turn is the identity. *)
Lemma barrelDirection_0 (cl : Link) (n : Vector3) :
  barrelDirection 0 cl n = rollingDirection cl n.
Proof.
  unfold barrelDirection, AngleAxis_toRotationMatrix. rewrite sin_0, cos_0.
  destruct (rollingDirection cl n) as [dx dy dz]. destruct n as [nx ny nz].
  unfold mulMV, transpose, vscale. simpl. f_equal; ring.
Qed.

Close Scope R_scope.

(** The sign the callbacks give the rolling direction: negative exactly when
    the second body of the pair is registered as a track. *)
Lemma findCrawlerLink_sign (m : gmap nat nat) (body1ID body2ID : dBodyID) :
  snd (findCrawlerLink m body1ID body2ID)
  = match m !! body2ID with Some _ => (-1)%R | None => 1%R end.
Proof.
  unfold findCrawlerLink. case_bool_decide as Hne.
  - destruct (m !! body2ID); done.
  - assert (m = ∅) as -> by (destruct (decide (m = ∅)); [done|by destruct Hne]).
    by rewrite lookup_empty.
Qed.

(** With exactly one body of the pair registered, the link found is the
    link registered for it. *)
Lemma findCrawlerLink_one (m : gmap nat nat) (body1ID body2ID : dBodyID) (p : LinkPtr) :
  (m !! body1ID = Some p /\ m !! body2ID = None)
  \/ (m !! body1ID = None /\ m !! body2ID = Some p) ->
  fst (findCrawlerLink m body1ID body2ID) = Some p.
Proof.
  intros Hone. unfold findCrawlerLink.
  rewrite bool_decide_eq_true_2.
  - destruct Hone as [[-> ->]|[-> ->]]; done.
  - intros ->. rewrite !lookup_empty in Hone. destruct Hone as [[? _]|[_ ?]]; done.
Qed.

(** The joint of one reported contact, in the group after [nearCallback]. *)
Lemma nearCallback_joint (data : Machine) (g1 g2 : dGeomID)
    (collided : list dContactGeom) (G1 G2 : dxGeom) (g : dContactGeom) (c : dContact) :
  geoms (ode data) !! g1 = Some G1 -> geoms (ode data) !! g2 = Some G2 ->
  let body1ID := geom_body G1 in
  let body2ID := geom_body G2 in
  let found := findCrawlerLink (crawlerLinks (impl data)) body1ID body2ID in
  let wheel := findMecanumWheel (impl data) body1ID body2ID in
  fst (vacuumGripperNearCallback data body1ID body2ID
         (dContact_of <$> take MaxNumContacts collided)) = false ->
  (forall p, fst found = Some p -> is_Some (heap data !! p)) ->
  g ∈ take MaxNumContacts collided ->
  nearCallback_contact (friction (impl data)) (heap data) (fst found) (snd found)
    (fst wheel) (snd wheel) (dContact_of g) = Some (Some c) ->
  exists data', nearCallback data g1 g2 collided = Some data'
    /\ mkContactJoint c body1ID body2ID ∈ contactJointGroup (impl data').
Proof.
  intros HG1 HG2 body1ID body2ID found wheel Hskip Hheap Hg Hc.
  destruct (nearCallback_spec data g1 g2 collided G1 G2 HG1 HG2 Hskip Hheap)
    as (data' & Hrun & Hgrp).
  exists data'. split; [done|]. rewrite Hgrp. apply elem_of_app. right.
  apply list_elem_of_omap. exists (dContact_of g). split.
  - apply list_elem_of_fmap. eauto.
  - unfold created_joint. fold body1ID body2ID found wheel. by rewrite Hc.
Qed.

(** The same for [collisionCallback]. *)
Lemma collisionCallback_joint (M : Machine) (collisionPair : CollisionPair)
    (link1 link2 : ODELink) (col : Collision) (c : dContact) :
  geometryIdToLink (impl M) !! fst (cp_geometryId collisionPair) = Some (Some link1) ->
  geometryIdToLink (impl M) !! snd (cp_geometryId collisionPair) = Some (Some link2) ->
  let found := findCrawlerLink (crawlerLinks (impl M)) (bodyID link1) (bodyID link2) in
  (forall p, fst found = Some p -> is_Some (heap M !! p)) ->
  col ∈ collisions collisionPair ->
  collisionCallback_contact (friction (impl M)) (heap M) (fst found) (snd found)
    (contact_of_collision col) = Some (Some c) ->
  exists M', collisionCallback M collisionPair = Some M'
    /\ mkContactJoint c (bodyID link1) (bodyID link2) ∈ contactJointGroup (impl M').
Proof.
  intros Hl1 Hl2 found Hheap Hcol Hc.
  destruct (collisionCallback_total M collisionPair link1 link2 Hl1 Hl2 Hheap)
    as [M' Hrun].
  exists M'. split; [done|].
  rewrite (collisionCallback_inv _ _ _ _ _ Hrun Hl1 Hl2).
  apply elem_of_app. right.
  apply list_elem_of_omap. exists (contact_of_collision col). split.
  - apply list_elem_of_fmap. eauto.
  - unfold created_joint. fold found. by rewrite Hc.
Qed.

(** C5 (as the code has it).  A contact of a tracked link that is not deeper
    than 0.001 and whose rolling direction, track axis x contact normal, is
    shorter than 1.0e-5 gets a joint with isotropic friction, the global
    coefficient, and no slip speed: in the near callback when no vacuum
    gripper claims the pair (the normal being a unit vector where the link
    has a mecanum setting), and in the callback of the external detector. *)
Theorem parallel_tracked_contact_isotropic :
  (forall (data : Machine) (g1 g2 : dGeomID) (collided : list dContactGeom)
          (G1 G2 : dxGeom) (p : LinkPtr) (cl : Link) (g : dContactGeom),
     geoms (ode data) !! g1 = Some G1 -> geoms (ode data) !! g2 = Some G2 ->
     fst (findCrawlerLink (crawlerLinks (impl data)) (geom_body G1) (geom_body G2)) = Some p ->
     heap data !! p = Some cl ->
     fst (vacuumGripperNearCallback data (geom_body G1) (geom_body G2)
            (dContact_of <$> take MaxNumContacts collided)) = false ->
     g ∈ take MaxNumContacts collided ->
     ~ (cg_depth g > 0.001)%R ->
     (fst (findMecanumWheel (impl data) (geom_body G1) (geom_body G2)) = true ->
      norm (cg_normal g) = 1%R) ->
     (norm (rollingDirection cl (cg_normal g)) < 1.0e-5)%R ->
     exists data' c,
       nearCallback data g1 g2 collided = Some data'
       /\ mkContactJoint c (geom_body G1) (geom_body G2) ∈ contactJointGroup (impl data')
       /\ geom c = g
       /\ isotropic (friction (impl data)) c)
  /\ (forall (M : Machine) (collisionPair : CollisionPair) (link1 link2 : ODELink)
             (p : LinkPtr) (cl : Link) (col : Collision),
        geometryIdToLink (impl M) !! fst (cp_geometryId collisionPair) = Some (Some link1) ->
        geometryIdToLink (impl M) !! snd (cp_geometryId collisionPair) = Some (Some link2) ->
        fst (findCrawlerLink (crawlerLinks (impl M)) (bodyID link1) (bodyID link2)) = Some p ->
        heap M !! p = Some cl ->
        col ∈ collisions collisionPair ->
        ~ (col_depth col > 0.001)%R ->
        (norm (rollingDirection cl (cg_normal (geom (contact_of_collision col)))) < 1.0e-5)%R ->
        exists M' c,
          collisionCallback M collisionPair = Some M'
          /\ mkContactJoint c (bodyID link1) (bodyID link2) ∈ contactJointGroup (impl M')
          /\ geom c = geom (contact_of_collision col)
          /\ isotropic (friction (impl M)) c).
Proof.
  split.
  - intros data g1 g2 collided G1 G2 p cl g HG1 HG2 Hp Hcl Hskip Hg Hdepth Hunit Hdir.
    destruct (nearCallback_joint data g1 g2 collided G1 G2 g
                (set_mu (friction (impl data))
                   (set_mode dContactApprox1 (set_mode anisotropicMode (dContact_of g))))
                HG1 HG2 Hskip) as (data' & Hrun & Hin); try done.
    + intros p' Hp'. rewrite Hp in Hp'. injection Hp' as <-. by eexists.
    + rewrite Hp. rewrite (nearCallback_contact_tracked _ _ _ cl) by done. simpl.
      destruct (Rgt_dec _ _); [done|].
      destruct (fst (findMecanumWheel _ _ _)) eqn:Ew.
      * rewrite barrelDirection_norm by auto. destruct (Rlt_dec _ _); done.
      * destruct (Rlt_dec _ _); done.
    + exists data'. eexists. split; [done|]. split; [exact Hin|]. repeat split.
  - intros M collisionPair link1 link2 p cl col Hl1 Hl2 Hp Hcl Hcol Hdepth Hdir.
    destruct (collisionCallback_joint M collisionPair link1 link2 col
                (set_mu (friction (impl M))
                   (set_mode dContactApprox1
                      (set_mode anisotropicMode (contact_of_collision col))))
                Hl1 Hl2) as (M' & Hrun & Hin); try done.
    + intros p' Hp'. rewrite Hp in Hp'. injection Hp' as <-. by eexists.
    + rewrite Hp. rewrite (collisionCallback_contact_tracked _ _ _ cl) by done.
      destruct (Rgt_dec _ _); [done|]. destruct (Rlt_dec _ _); done.
    + exists M'. eexists. split; [done|]. split; [exact Hin|]. repeat split.
Qed.

(** C3 (as the code has it).  For a contact of a pair in which exactly one
    body is a tracked link, that is not deeper than 0.001 and whose rolling
    direction, track axis x contact normal, is not shorter than 1.0e-5, the
    joint made is anisotropic with the global friction coefficient along the
    track and 0.5 across.  Its friction direction is the rolling direction,
    turned about the normal by the stored barrel angle when the tracked body
    has a mecanum setting, with the sign negated exactly when the second body
    is the tracked one, then normalised.  In the near callback (no vacuum
    gripper claiming the pair) the slip speed is the commanded rate of the
    track, [dq] for a pseudo-continuous track and [u] otherwise; in the
    callback of the external detector the direction is never turned and the
    slip speed of a track that is not pseudo-continuous is [u]. *)
Theorem tracked_contact_anisotropic :
  (forall (data : Machine) (g1 g2 : dGeomID) (collided : list dContactGeom)
          (G1 G2 : dxGeom) (p : LinkPtr) (cl : Link) (g : dContactGeom),
     geoms (ode data) !! g1 = Some G1 -> geoms (ode data) !! g2 = Some G2 ->
     (crawlerLinks (impl data) !! geom_body G1 = Some p
      /\ crawlerLinks (impl data) !! geom_body G2 = None)
     \/ (crawlerLinks (impl data) !! geom_body G1 = None
         /\ crawlerLinks (impl data) !! geom_body G2 = Some p) ->
     heap data !! p = Some cl ->
     fst (vacuumGripperNearCallback data (geom_body G1) (geom_body G2)
            (dContact_of <$> take MaxNumContacts collided)) = false ->
     g ∈ take MaxNumContacts collided ->
     ~ (cg_depth g > 0.001)%R ->
     (fst (findMecanumWheel (impl data) (geom_body G1) (geom_body G2)) = true ->
      norm (cg_normal g) = 1%R) ->
     ~ (norm (rollingDirection cl (cg_normal g)) < 1.0e-5)%R ->
     let sign := match crawlerLinks (impl data) !! geom_body G2 with
                 | Some _ => (-1)%R
                 | None => 1%R
                 end in
     let wheel := findMecanumWheel (impl data) (geom_body G1) (geom_body G2) in
     let dir := if fst wheel then barrelDirection (snd wheel) cl (cg_normal g)
                else rollingDirection cl (cg_normal g) in
     exists data' c,
       nearCallback data g1 g2 collided = Some data'
       /\ mkContactJoint c (geom_body G1) (geom_body G2) ∈ contactJointGroup (impl data')
       /\ geom c = g
       /\ anisotropic (friction (impl data)) 0.5 (commandedRate cl)
            (normalize (vscale sign dir)) c)
  /\ (forall (M : Machine) (collisionPair : CollisionPair) (link1 link2 : ODELink)
             (p : LinkPtr) (cl : Link) (col : Collision),
        geometryIdToLink (impl M) !! fst (cp_geometryId collisionPair) = Some (Some link1) ->
        geometryIdToLink (impl M) !! snd (cp_geometryId collisionPair) = Some (Some link2) ->
        (crawlerLinks (impl M) !! bodyID link1 = Some p
         /\ crawlerLinks (impl M) !! bodyID link2 = None)
        \/ (crawlerLinks (impl M) !! bodyID link1 = None
            /\ crawlerLinks (impl M) !! bodyID link2 = Some p) ->
        heap M !! p = Some cl ->
        col ∈ collisions collisionPair ->
        ~ (col_depth col > 0.001)%R ->
        let n := cg_normal (geom (contact_of_collision col)) in
        ~ (norm (rollingDirection cl n) < 1.0e-5)%R ->
        let sign := match crawlerLinks (impl M) !! bodyID link2 with
                    | Some _ => (-1)%R
                    | None => 1%R
                    end in
        exists M' c motion,
          collisionCallback M collisionPair = Some M'
          /\ mkContactJoint c (bodyID link1) (bodyID link2) ∈ contactJointGroup (impl M')
          /\ geom c = geom (contact_of_collision col)
          /\ anisotropic (friction (impl M)) 0.5 motion
               (normalize (vscale sign (rollingDirection cl n))) c
          /\ (link_jointType cl <> PSEUDO_CONTINUOUS_TRACK -> motion = commandedRate cl)).
Proof.
  split.
  - intros data g1 g2 collided G1 G2 p cl g HG1 HG2 Hone Hcl Hskip Hg Hdepth Hunit Hdir
      sign wheel dir.
    pose proof (findCrawlerLink_one _ _ _ _ Hone) as Hp.
    pose proof (findCrawlerLink_sign (crawlerLinks (impl data)) (geom_body G1)
                  (geom_body G2)) as Hsign.
    fold sign in Hsign.
    destruct (nearCallback_joint data g1 g2 collided G1 G2 g
                (set_mu2 0.5
                   (set_mu (friction (impl data))
                      (set_motion1 (commandedRate cl)
                         (set_fdir1 (normalize (vscale sign dir))
                            (set_mode anisotropicMode (dContact_of g))))))
                HG1 HG2 Hskip) as (data' & Hrun & Hin); try done.
    + intros p' Hp'. rewrite Hp in Hp'. injection Hp' as <-. by eexists.
    + rewrite Hp, Hsign. rewrite (nearCallback_contact_tracked _ _ _ cl) by done. simpl.
      destruct (Rgt_dec _ _); [done|]. fold wheel. fold dir.
      assert (norm dir = norm (rollingDirection cl (cg_normal g))) as Hn.
      { unfold dir. destruct (fst wheel) eqn:Ew; [|done].
        apply barrelDirection_norm. by apply Hunit. }
      rewrite Hn. destruct (Rlt_dec _ _); done.
    + exists data'. eexists. split; [done|]. split; [exact Hin|]. repeat split.
  - intros M collisionPair link1 link2 p cl col Hl1 Hl2 Hone Hcl Hcol Hdepth n Hdir sign.
    pose proof (findCrawlerLink_one _ _ _ _ Hone) as Hp.
    pose proof (findCrawlerLink_sign (crawlerLinks (impl M)) (bodyID link1)
                  (bodyID link2)) as Hsign.
    fold sign in Hsign.
    destruct (collisionCallback_joint M collisionPair link1 link2 col
                (set_mu2 0.5
                   (set_mu (friction (impl M))
                      (set_motion1 (link_u cl)
                         (set_fdir1 (normalize (vscale sign (rollingDirection cl n)))
                            (set_mode anisotropicMode (contact_of_collision col))))))
                Hl1 Hl2) as (M' & Hrun & Hin); try done.
    + intros p' Hp'. rewrite Hp in Hp'. injection Hp' as <-. by eexists.
    + rewrite Hp, Hsign. rewrite (collisionCallback_contact_tracked _ _ _ cl) by done.
      destruct (Rgt_dec _ _); [done|]. fold n. destruct (Rlt_dec _ _); done.
    + exists M'. eexists. exists (link_u cl). split; [done|]. split; [exact Hin|].
      split; [done|]. split; [repeat split|].
      intros Hjt. unfold commandedRate. by rewrite bool_decide_eq_false_2.
Qed.

End ContactFacts.

(** ** Adding a body *)

Section AddBodyFacts.
Context `{Solver} `{Devices} `{Model}.

Lemma resetJoint_rest (l : Link) :
  joint_at_rest (resetJoint l) /\ (link_at_rest l -> link_at_rest (resetJoint l)).
Proof. split; [repeat split|]. intros (?&?&?&?). repeat split; done. Qed.

(** The joint loop ends when the joints are on the heap; it leaves every
    joint at rest, keeps every link object, and keeps at rest what was. *)
Lemma resetJoints_spec (joints : list LinkPtr) :
  forall heap : LinkHeap,
  (forall j, j ∈ joints -> is_Some (heap !! j)) ->
  exists heap', resetJoints joints heap = Some heap'
    /\ (forall j, j ∈ joints -> exists l, heap' !! j = Some l /\ joint_at_rest l)
    /\ (forall p l, heap !! p = Some l ->
          exists l', heap' !! p = Some l'
            /\ (joint_at_rest l -> joint_at_rest l')
            /\ (link_at_rest l -> link_at_rest l')).
Proof.
  induction joints as [|j rest IH]; intros heap Hheap.
  - exists heap. split; [done|]. split; [intros j Hj; by apply elem_of_nil in Hj|].
    intros p l Hp. exists l. done.
  - destruct (Hheap j) as [l Hl]; [apply elem_of_cons; auto|].
    destruct (IH (<[j := resetJoint l]> heap)) as (heap' & Hrun & Hjoints & Hkeep).
    { intros j' Hj'. rewrite lookup_insert. case_decide; [by eexists|].
      apply Hheap, elem_of_cons. auto. }
    exists heap'. split; [simpl; rewrite Hl; exact Hrun|]. split.
    + intros j' Hj'. apply elem_of_cons in Hj' as [->|Hj']; [|by apply Hjoints].
      destruct (Hkeep j (resetJoint l)) as (l' & Hl' & Hrest & _);
        [by rewrite lookup_insert_eq|].
      exists l'. split; [done|]. apply Hrest, resetJoint_rest.
    + intros p l0 Hp. destruct (decide (j = p)) as [->|Hne].
      * rewrite Hl in Hp. injection Hp as <-.
        destruct (Hkeep p (resetJoint l)) as (l' & Hl' & Hr1 & Hr2);
          [by rewrite lookup_insert_eq|].
        exists l'. split; [done|]. split.
        -- intros _. apply Hr1, resetJoint_rest.
        -- intros Hq. by apply Hr2, resetJoint_rest.
      * apply Hkeep. by rewrite lookup_insert_ne.
Qed.

(** C10.  [addBody] resets the actuation state of the model before anything
    else: for a body whose root and joints are on the heap, the reset ends;
    it leaves the root link with zero linear and angular velocity and
    acceleration and every joint with zero torque, velocity and
    acceleration; and the external-force reset, the forward kinematics and
    the construction of the solver body all run, in this order, on the state
    so reset. *)
Theorem addBody_resets_first (simImpl : ODESimulatorItemImpl) (odeBody : ODEBody)
    (heap : LinkHeap) (W : dxWorld) (rootLink : LinkPtr) :
  tree_link (body_tree (body odeBody)) = Some rootLink ->
  is_Some (heap !! rootLink) ->
  (forall j, j ∈ body_joints (body odeBody) -> is_Some (heap !! j)) ->
  exists reset,
    resetActuation (body odeBody) heap = Some reset
    /\ (exists root, reset !! rootLink = Some root /\ link_at_rest root)
    /\ (forall j, j ∈ body_joints (body odeBody) ->
          exists l, reset !! j = Some l /\ joint_at_rest l)
    /\ addBody simImpl odeBody heap W =
       (let fk := calcForwardKinematics true true (body odeBody)
                    (clearExternalForces (body odeBody) reset) in
        '(simImpl', odeBody', W') ← createBody simImpl odeBody fk W;
        Some (registerNailDrivers odeBody'
                (registerVacuumGrippers odeBody'
                   (preserveMecanumWheelSetting odeBody' fk simImpl')),
              odeBody', fk, W')).
Proof.
  intros Hroot [root Hr] Hjoints.
  destruct (resetJoints_spec (body_joints (body odeBody))
              (<[rootLink := resetRootLink root]> heap)) as (reset & Hrun & Hj & Hkeep).
  { intros j Hjin. rewrite lookup_insert. case_decide; [by eexists|]. by apply Hjoints. }
  assert (Hreset : resetActuation (body odeBody) heap = Some reset).
  { unfold resetActuation. rewrite Hroot. simpl. rewrite Hr. simpl. exact Hrun. }
  exists reset. split; [done|]. split; [|split; [done|]].
  - destruct (Hkeep rootLink (resetRootLink root)) as (root' & Hroot' & _ & Hrest);
      [by rewrite lookup_insert_eq|].
    exists root'. split; [done|]. apply Hrest. repeat split.
  - unfold addBody. rewrite Hreset. simpl.
    destruct (createBody _ _ _ _) as [[[simImpl' odeBody'] W']|]; done.
Qed.

End AddBodyFacts.

(** ** One simulation step *)

Section StepFacts.
Context `{Solver} `{Devices} `{Model}.
Variable detectCollisions : list (nat * Position) -> list CollisionPair.

(** The actuation loop neither reads nor writes the contact group. *)
Lemma actuate_group (activeSimBodies : list ODEBody) (g : list ContactJoint) :
  forall M : Machine,
  actuate activeSimBodies (with_contactJointGroup g M)
  = with_contactJointGroup g <$> actuate activeSimBodies M.
Proof.
  induction activeSimBodies as [|odeBody rest IH]; intros M; [done|].
  simpl. destruct (velocityMode (impl M));
    match goal with |- context [mbind _ ?x] => destruct x as [W|] end; simpl; try done;
    apply (IH (mkMachine _ (impl M) W _ (nailedObjects M))).
Qed.

Lemma dJointGroupEmpty_group (g : list ContactJoint) (M : Machine) :
  dJointGroupEmpty (with_contactJointGroup g M) = dJointGroupEmpty M.
Proof. reflexivity. Qed.

Lemma beforeCollision_group (activeSimBodies : list ODEBody) (g : list ContactJoint)
    (M : Machine) :
  beforeCollision activeSimBodies (with_contactJointGroup g M)
  = beforeCollision activeSimBodies M.
Proof.
  unfold beforeCollision. rewrite actuate_group.
  destruct (actuate activeSimBodies M); done.
Qed.

(** The last loop of a step leaves the simulator item as it is. *)
Lemma postStep_impl (M M' : Machine) (odeBody : ODEBody) :
  postStep M odeBody = Some M' -> impl M' = impl M.
Proof.
  unfold postStep. intros Hpost.
  apply bind_Some in Hpost as (W & _ & Hpost).
  apply bind_Some in Hpost as (h & _ & Hpost).
  by injection Hpost as <-.
Qed.

Lemma forEachM_postStep_impl (bs : list ODEBody) :
  forall M M' : Machine, forEachM postStep bs M = Some M' -> impl M' = impl M.
Proof.
  induction bs as [|b rest IH]; intros M M' Hrun; simpl in Hrun.
  - by injection Hrun as <-.
  - apply bind_Some in Hrun as (M1 & Hone & Hrest).
    rewrite (IH _ _ Hrest). by eapply postStep_impl.
Qed.

(** C7.  In every step that reaches its collision phase, the contact group is
    empty when that phase begins, whatever it held before the step; what the
    step leaves in the group is what its own collision phase put there,
    starting from the empty group; and the whole step does not depend on the
    joints the group held on entry. *)
Theorem contact_group_empty_before_collision (M M2 : Machine)
    (activeSimBodies : list ODEBody) :
  beforeCollision activeSimBodies M = Some M2 ->
  contactJointGroup (impl M2) = []
  /\ (forall g, beforeCollision activeSimBodies (with_contactJointGroup g M) = Some M2)
  /\ (forall g, stepSimulation detectCollisions (with_contactJointGroup g M) activeSimBodies
                = stepSimulation detectCollisions M activeSimBodies)
  /\ (forall M', stepSimulation detectCollisions M activeSimBodies = Some (true, M') ->
        exists M3, collide detectCollisions activeSimBodies M2 = Some M3
          /\ contactJointGroup (impl M') = contactJointGroup (impl M3)).
Proof.
  intros Hbefore. split; [|split; [|split]].
  - unfold beforeCollision in Hbefore.
    destruct (actuate activeSimBodies M); [|done]. simpl in Hbefore.
    injection Hbefore as <-. done.
  - intros g. by rewrite beforeCollision_group.
  - intros g. unfold stepSimulation. by rewrite beforeCollision_group.
  - intros M' Hstep. unfold stepSimulation in Hstep. rewrite Hbefore in Hstep.
    simpl in Hstep.
    destruct (collide detectCollisions activeSimBodies M2) as [M3|]; [|done].
    simpl in Hstep. exists M3. split; [done|].
    destruct (forEachM postStep activeSimBodies (integrate M3)) as [M4|] eqn:Epost; [|done].
    injection Hstep as <-.
    by rewrite (forEachM_postStep_impl _ _ _ Epost).
Qed.

End StepFacts.

(** ** The registry through a step

    Every registry met while the simulation runs is a reachable one: the
    callbacks of the collision phase, the step as a whole and the
    post-dynamics limit check each take a reachable registry to a reachable
    one. *)

Section RegistryFacts.
Context `{Solver} `{Devices} `{Model}.
Variable detectCollisions : list (nat * Position) -> list CollisionPair.

Lemma vacuumGripperNearCallback_registry (M : Machine) (body1ID body2ID : dBodyID)
    (contacts : list dContact) :
  nailedObjects (snd (vacuumGripperNearCallback M body1ID body2ID contacts))
  = nailedObjects M.
Proof.
  unfold vacuumGripperNearCallback.
  repeat match goal with
         | |- context [if ?b then _ else _] => destruct b
         | |- context [match ?x with Some _ => _ | None => _ end] => destruct x
         | |- context [let '(_, _) := ?x in _] => destruct x
         end; reflexivity.
Qed.

Lemma nailDriverNearCallback_reachable (M M' : Machine) (body1ID body2ID : dBodyID)
    (contacts : list dContact) :
  registry_reachable (nailedObjects M) ->
  nailDriverNearCallback M body1ID body2ID contacts = Some M' ->
  registry_reachable (nailedObjects M').
Proof.
  intros Hreach. unfold nailDriverNearCallback.
  destruct (_ || _ || _); [by intros [= <-]|].
  match goal with
  | |- context [match ?found with Some _ => _ | None => _ end = Some M'] =>
      destruct found as [[[key nd] objId]|]
  end; [|by intros [= <-]].
  destruct (_ && _); [|by intros [= <-]].
  unfold NailedObjectManager_get.
  destruct (objectMap (nailedObjects M) !! objId) as [[obj|]|] eqn:Eget; simpl.
  - destruct (nd_fire _ _ _) as [[obj' nd'] W']. intros [= <-]. simpl.
    apply reach_fire; [done|]. by rewrite Eget.
  - destruct (NailedObject_new _ _ _) as [obj W0].
    destruct (nd_fire _ _ _) as [[obj' nd'] W']. simpl. intros [= <-]. simpl.
    by eapply (reach_addObject (Some obj')).
  - destruct (NailedObject_new _ _ _) as [obj W0].
    destruct (nd_fire _ _ _) as [[obj' nd'] W']. simpl. intros [= <-]. simpl.
    by eapply (reach_addObject (Some obj')).
Qed.

Lemma nearCallback_reachable (data data' : Machine) (g1 g2 : dGeomID)
    (collided : list dContactGeom) :
  registry_reachable (nailedObjects data) ->
  nearCallback data g1 g2 collided = Some data' ->
  registry_reachable (nailedObjects data').
Proof.
  intros Hreach. unfold nearCallback.
  case_bool_decide; [|by intros [= <-]].
  destruct (geoms (ode data) !! g1) as [G1|]; simpl; [|done].
  destruct (geoms (ode data) !! g2) as [G2|]; simpl; [|done].
  destruct (findCrawlerLink _ _ _) as [crawlerlink sign].
  destruct (findMecanumWheel _ _ _) as [isM angle].
  pose proof (vacuumGripperNearCallback_registry data (geom_body G1) (geom_body G2)
                (dContact_of <$> take MaxNumContacts collided)) as Hv.
  destruct (vacuumGripperNearCallback _ _ _ _) as [skip data1]. simpl in Hv.
  rewrite <- Hv in Hreach.
  destruct skip; [by intros [= <-]|].
  destruct (nailDriverNearCallback _ _ _ _) as [data2|] eqn:End; simpl; [|done].
  destruct (createContactJoints _ _ _ _ _) as [group|]; simpl; [|done].
  intros [= <-]. simpl. by eapply nailDriverNearCallback_reachable.
Qed.

Lemma collisionCallback_registry (M M' : Machine) (collisionPair : CollisionPair) :
  collisionCallback M collisionPair = Some M' -> nailedObjects M' = nailedObjects M.
Proof.
  unfold collisionCallback. intros Hrun.
  apply bind_Some in Hrun as (link1 & _ & Hrun).
  apply bind_Some in Hrun as (link2 & _ & Hrun).
  destruct (findCrawlerLink _ _ _) as [crawlerlink sign].
  apply bind_Some in Hrun as (group & _ & Hrun). by injection Hrun as <-.
Qed.

Lemma forEachM_invariant {A S : Type} (P : S -> Prop) (f : S -> A -> option S) :
  (forall s x s', P s -> f s x = Some s' -> P s') ->
  forall (l : list A) (s s' : S), P s -> forEachM f l s = Some s' -> P s'.
Proof.
  intros Hstep l. induction l as [|x rest IH]; intros s s' Hs; simpl.
  - by intros [= <-].
  - intros Hrun. apply bind_Some in Hrun as (s1 & Hone & Hrest). eauto.
Qed.

Lemma actuate_registry (activeSimBodies : list ODEBody) :
  forall M M' : Machine,
  actuate activeSimBodies M = Some M' -> nailedObjects M' = nailedObjects M.
Proof.
  induction activeSimBodies as [|odeBody rest IH]; intros M M'; simpl.
  - by intros [= <-].
  - intros Hrun. apply bind_Some in Hrun as (W & _ & Hrun).
    by rewrite (IH _ _ Hrun).
Qed.

Lemma postStep_registry (M M' : Machine) (odeBody : ODEBody) :
  postStep M odeBody = Some M' -> nailedObjects M' = nailedObjects M.
Proof.
  unfold postStep. intros Hpost.
  apply bind_Some in Hpost as (W & _ & Hpost).
  apply bind_Some in Hpost as (h & _ & Hpost).
  by injection Hpost as <-.
Qed.

(** A step takes a reachable registry to a reachable one. *)
Lemma stepSimulation_reachable (M M' : Machine) (activeSimBodies : list ODEBody) (r : bool) :
  registry_reachable (nailedObjects M) ->
  stepSimulation detectCollisions M activeSimBodies = Some (r, M') ->
  registry_reachable (nailedObjects M').
Proof.
  intros Hreach. unfold stepSimulation, beforeCollision. intros Hstep.
  apply bind_Some in Hstep as (M1 & Hbefore & Hstep).
  apply bind_Some in Hstep as (M2 & Hcollide & Hstep).
  apply bind_Some in Hstep as (M3 & Hpost & Hstep).
  injection Hstep as _ <-.
  apply fmap_Some in Hbefore as (M0 & Hact & ->).
  apply actuate_registry in Hact.
  assert (H2 : registry_reachable (nailedObjects M2)).
  { unfold collide in Hcollide. destruct (useWorldCollision _).
    - apply bind_Some in Hcollide as (poses & _ & Hcollide).
      revert Hcollide.
      apply (forEachM_invariant (fun M => registry_reachable (nailedObjects M))).
      + intros s x s' Hs Hx. by rewrite (collisionCallback_registry _ _ _ Hx).
      + simpl. by rewrite Hact.
    - revert Hcollide.
      apply (forEachM_invariant (fun M => registry_reachable (nailedObjects M))).
      + intros s x s' Hs Hx. by eapply nearCallback_reachable.
      + simpl. by rewrite Hact. }
  revert Hpost.
  apply (forEachM_invariant (fun M => registry_reachable (nailedObjects M))).
  - intros s x s' Hs Hx. by rewrite (postStep_registry _ _ _ Hx).
  - exact H2.
Qed.

(** X11.  A whole simulation step, with either collision backend, takes a
    registry the program can reach to one it can reach: whatever the nail
    drivers met in the collision phase do, no entry of the registry holds a
    null pointer afterwards, so [find] and [get] keep agreeing.  A step that
    ends reports success. *)
Theorem stepSimulation_keeps_registry (M M' : Machine) (activeSimBodies : list ODEBody)
    (r : bool) :
  registry_reachable (nailedObjects M) ->
  stepSimulation detectCollisions M activeSimBodies = Some (r, M') ->
  r = true
  /\ registry_reachable (nailedObjects M')
  /\ forall b p, objectMap (nailedObjects M') !! b = Some p -> is_Some p.
Proof.
  intros Hreach Hstep.
  pose proof (stepSimulation_reachable M M' activeSimBodies r Hreach Hstep) as Hreach'.
  split; [|split; [exact Hreach'|by apply registry_no_null]].
  unfold stepSimulation in Hstep.
  apply bind_Some in Hstep as (M1 & _ & Hstep).
  apply bind_Some in Hstep as (M2 & _ & Hstep).
  apply bind_Some in Hstep as (M3 & _ & Hstep).
  by injection Hstep as <- _.
Qed.

(** The limit check only erases entries. *)
Lemma nailedObjectLimitCheck_reachable (simImpl : ODESimulatorItemImpl) (W : dxWorld)
    (reg reg' : NailedObjectManager) :
  registry_reachable reg ->
  nailedObjectLimitCheck simImpl W reg = Some reg' ->
  registry_reachable reg'.
Proof.
  intros Hreach. unfold nailedObjectLimitCheck.
  generalize (map_to_list (objectMap reg)). intros kvs. revert reg'.
  induction kvs as [|kv kvs IH]; intros reg'; simpl.
  - by intros [= <-].
  - intros Hrun. apply bind_Some in Hrun as (reg1 & Hrest & Hrun).
    apply bind_Some in Hrun as (nobj & _ & Hrun).
    specialize (IH _ Hrest).
    destruct (_ && _); injection Hrun as <-; [by apply reach_erase|done].
Qed.

End RegistryFacts.

(** ** Realignment in 2D mode *)

Section AlignFacts.
Context `{Solver} `{Devices} `{Model}.

Open Scope R_scope.

Lemma alignToZAxis_r_unit : qsquaredNorm alignToZAxis_r = 1.
Proof.
  unfold alignToZAxis_r, Quat_of_AngleAxis, qsquaredNorm. simpl.
  pose proof (sin2_cos2 (PI / 2 / 2)) as Hsc. unfold Rsqr in Hsc. nra.
Qed.


Lemma qinverse_unit (a : Quat) : qsquaredNorm a = 1 -> qinverse a = qconjugate a.
Proof.
  intros Ha. unfold qinverse, qconjugate. rewrite Ha.
  destruct (Rlt_dec 0 1); [|lra]. f_equal; field.
Qed.

(** Rotating back and forth with a unit quaternion changes nothing. *)
Lemma qmul_qinverse_unit (a x : Quat) :
  qsquaredNorm a = 1 -> qmul a (qmul (qinverse a) x) = x.
Proof.
  intros Ha. rewrite qinverse_unit by done.
  destruct a as [aw ax ay az], x as [xw xx xy xz].
  unfold qsquaredNorm in Ha. unfold qmul, qconjugate. simpl in *.
  f_equal.
  - transitivity (xw * (aw * aw + ax * ax + ay * ay + az * az)); [ring|rewrite Ha; ring].
  - transitivity (xx * (aw * aw + ax * ax + ay * ay + az * az)); [ring|rewrite Ha; ring].
  - transitivity (xy * (aw * aw + ax * ax + ay * ay + az * az)); [ring|rewrite Ha; ring].
  - transitivity (xz * (aw * aw + ax * ax + ay * ay + az * az)); [ring|rewrite Ha; ring].
Qed.

(** Normalising a quaternion that is not zero gives a unit quaternion. *)
Lemma qnormalize_unit (a : Quat) : 0 < qsquaredNorm a -> qsquaredNorm (qnormalize a) = 1.
Proof.
  intros Ha. unfold qnormalize, qnorm.
  assert (Hs : sqrt (qsquaredNorm a) * sqrt (qsquaredNorm a) = qsquaredNorm a)
    by (apply sqrt_sqrt; lra).
  assert (Hn : sqrt (qsquaredNorm a) <> 0).
  { intros E. rewrite E in Hs. lra. }
  set (n := sqrt (qsquaredNorm a)) in *.
  unfold qsquaredNorm at 1. simpl.
  replace (qw a / n * (qw a / n) + qx a / n * (qx a / n) + qy a / n * (qy a / n)
           + qz a / n * (qz a / n))
    with (qsquaredNorm a / (n * n)) by (unfold qsquaredNorm; field; done).
  rewrite Hs. field. lra.
Qed.


Close Scope R_scope.

End AlignFacts.

(** ** Mecanum-wheel settings *)

Section MecanumFacts.
Context `{Devices} `{Model}.

Open Scope R_scope.

(** A quarter turn about the normal sends the rolling direction [d] to
    [d x n]. *)
Lemma barrelDirection_PI_2 (cl : Link) (n : Vector3) :
  barrelDirection PI_2 cl n = cross (rollingDirection cl n) n.
Proof.
  unfold barrelDirection, rollingDirection, AngleAxis_toRotationMatrix, PI_2.
  rewrite sin_PI2, cos_PI2.
  destruct (mulMV (link_R cl) (link_a cl)) as [ax ay az]. destruct n as [nx ny nz].
  unfold mulMV, transpose, vscale, cross. simpl. f_equal; ring.
Qed.

Lemma cross_fixed_zero (d n : Vector3) : cross d n = d -> d = Vector3_Zero.
Proof.
  intros E. assert (dot d d = 0) as Hd.
  { rewrite <- E at 1. destruct d, n. unfold dot, cross. simpl. ring. }
  destruct d as [dx dy dz]. unfold dot in Hd. simpl in Hd.
  assert (dx = 0) by nra. assert (dy = 0) by nra. assert (dz = 0) by nra.
  subst. reflexivity.
Qed.

(** What one turn of the loop of [preserveMecanumWheelSetting] stores for a
    crawler link found by name, with an adapter and no setting yet, is what
    [getMecanumWheelSetting] hands to the near callback as barrel angle. *)
Lemma preserveMecanumWheel_stored (odeBody : ODEBody) (heap : LinkHeap)
    (angles : option (list ValueNode)) (i : nat) (node : ValueNode) (s : string)
    (p : LinkPtr) (pl : Link) (ol : ODELink) (d : R) (simImpl : ODESimulatorItemImpl) :
  toString node = Some s ->
  Body_link (body odeBody) heap s = Some p ->
  heap !! p = Some pl ->
  link_jointType pl = CRAWLER_JOINT ->
  findODELink p (odeLinks odeBody) = Some ol ->
  mecanumWheelSetting simImpl !! bodyID ol = None ->
  barrelAngleSetting angles i = Some d ->
  getMecanumWheelSetting
    (set_mecanumWheelSetting
       (preserveMecanumWheel odeBody heap angles i node (mecanumWheelSetting simImpl))
       simImpl) (bodyID ol) = (true, d).
Proof.
  intros Hs Hp Hpl Hjt Hol Hfree Hd.
  unfold getMecanumWheelSetting, preserveMecanumWheel. simpl.
  rewrite Hs, Hp, Hpl, Hjt, Hd, Hol.
  rewrite bool_decide_eq_false_2 by (intros E; by apply E).
  unfold map_insert. rewrite Hfree. by rewrite lookup_insert_eq.
Qed.

(** C2 (as the code has it).  A barrel angle left unconfigured (no listing,
    or a listing too short) and a barrel angle configured as pi/2 both store
    the angle 0, with which the rotation of the near callback is the identity
    and gives the plain-track rolling direction.  A barrel angle configured
    as 0 stores pi/2: the rotation is then a quarter turn about the contact
    normal, which sends the rolling direction [d] to [d x n], a direction
    other than [d] unless [d] is zero. *)
Theorem barrel_angle_settings :
  (forall i, barrelAngleSetting None i = Some 0)
  /\ (forall angles i, (length angles <= i)%nat -> barrelAngleSetting (Some angles) i = Some 0)
  /\ (forall angles i s, angles !! i = Some (ScalarNumber s PI_2) ->
        barrelAngleSetting (Some angles) i = Some 0)
  /\ (forall angles i s, angles !! i = Some (ScalarNumber s 0) ->
        barrelAngleSetting (Some angles) i = Some PI_2)
  /\ (forall cl n, barrelDirection 0 cl n = rollingDirection cl n)
  /\ (forall cl n, barrelDirection PI_2 cl n = cross (rollingDirection cl n) n)
  /\ (forall cl n, rollingDirection cl n <> Vector3_Zero ->
        barrelDirection PI_2 cl n <> rollingDirection cl n).
Proof.
  assert (HPI : PI_2 <> 0).
  { unfold PI_2. pose proof PI_RGT_0. lra. }
  split; [done|]. split; [|split; [|split; [|split; [|split]]]].
  - intros angles i Hlen. unfold barrelAngleSetting.
    rewrite bool_decide_eq_false_2 by lia. done.
  - intros angles i s Hi. unfold barrelAngleSetting.
    rewrite bool_decide_eq_true_2 by (by eapply lookup_lt_Some).
    rewrite Hi. simpl. destruct (Req_dec_T PI_2 0); [done|].
    replace (PI_2 - PI_2) with 0 by ring. rewrite Rabs_R0.
    destruct (Rlt_dec 0 0.00001); [done|lra].
  - intros angles i s Hi. unfold barrelAngleSetting.
    rewrite bool_decide_eq_true_2 by (by eapply lookup_lt_Some).
    rewrite Hi. simpl. destruct (Req_dec_T 0 0); done.
  - apply barrelDirection_0.
  - apply barrelDirection_PI_2.
  - intros cl n Hd E. rewrite barrelDirection_PI_2 in E. by apply cross_fixed_zero in E.
Qed.

Close Scope R_scope.

End MecanumFacts.

(** ** Bodies without a solver body: static models *)

Section StaticConstructionFacts.
Context `{Solver} `{Devices} `{Model}.

(** Without a world the constructor skips [createLinkBody]. *)
Lemma ODELink_createLinkBody_static (this : nat) (parent : option nat) (o : Vector3)
    (l : Link) (st : Build) :
  ob_worldID (b_body st) = 0%nat ->
  ODELink_createLinkBody this parent o l st = Some st.
Proof.
  intros Hw. unfold ODELink_createLinkBody. by rewrite bool_decide_eq_false_2 by lia.
Qed.

Lemma ODELink_createGeometry_frame (this : nat) (l : Link) (st st' : Build)
    (ols0 : list ODELink) (x : ODELink) :
  odeLinks (b_body st) = ols0 ++ [x] -> length ols0 = this ->
  ODELink_createGeometry this l st = Some st' ->
  b_impl st' = b_impl st
  /\ joints (b_ode st') = joints (b_ode st)
  /\ commands (b_ode st') = commands (b_ode st)
  /\ exists x', odeLinks (b_body st') = ols0 ++ [x'] /\ jointID x' = jointID x.
Proof.
  intros Hols Hlen. unfold ODELink_createGeometry.
  destruct (useWorldCollision (b_impl st)); simpl.
  - intros [= <-]. repeat split. by exists x.
  - rewrite Hols. rewrite lookup_app_r by lia.
    replace (this - length ols0)%nat with 0%nat by lia. simpl.
    destruct (createGeometry _ _ _ _) as [me2 W2] eqn:E.
    apply createGeometry_keeps in E as (_ & _ & E3 & _ & E5 & E6 & _).
    intros [= <-]. simpl. repeat split; try done. exists me2. split; [|done].
    rewrite insert_app_r_alt by lia.
    replace (this - length ols0)%nat with 0%nat by lia. done.
Qed.

(** The adapters of a chain built without a world have neither a solver body
    nor a joint, and the run leaves the solver's bodies and joints and the
    simulator item as they were. *)
Lemma ODELink_chain_static (heap : LinkHeap) (t : LinkTree) :
  forall (parent : option nat) (parentOrigin : Vector3) (st st' : Build),
  ob_worldID (b_body st) = 0%nat ->
  ODELink_chain heap t parent parentOrigin st = Some st' ->
  exists ols,
    odeLinks (b_body st') = odeLinks (b_body st) ++ ols
    /\ ob_worldID (b_body st') = 0%nat
    /\ Forall (fun ol => bodyID ol = 0%nat /\ jointID ol = 0%nat) ols
    /\ b_impl st' = b_impl st
    /\ bodies (b_ode st') = bodies (b_ode st)
    /\ joints (b_ode st') = joints (b_ode st)
    /\ commands (b_ode st') = commands (b_ode st).
Proof.
  induction t as [|lp child IHc sibling IHs]; intros parent parentOrigin st st' Hw.
  - simpl. intros [= <-]. exists []. rewrite app_nil_r. repeat split; done.
  - simpl. destruct (heap !! lp) as [l|] eqn:Hl; simpl; [|done].
    set (ols0 := odeLinks (b_body st)).
    set (new := mkODELink lp 0 0 [] ∅ 0).
    rewrite ODELink_createLinkBody_static by exact Hw. simpl.
    destruct (ODELink_createGeometry _ _ _) as [st2|] eqn:E2; simpl; [|done].
    destruct (ODELink_chain heap child _ _ st2) as [st3|] eqn:E3; simpl; [|done].
    intros E4.
    pose proof (ODELink_createGeometry_bodies (length ols0) l (ODELink_push_back lp st) st2
                  ols0 new eq_refl eq_refl E2)
      as (x2 & Ho2 & Hw2 & _ & _ & Hb2 & HB2 & _).
    pose proof (ODELink_createGeometry_frame (length ols0) l (ODELink_push_back lp st) st2
                  ols0 new eq_refl eq_refl E2)
      as (Hi2 & HJ2 & HC2 & x2' & Ho2' & Hj2).
    rewrite Ho2 in Ho2'. apply app_inj_2 in Ho2' as [_ [= <-]]; [|done].
    simpl in Hw2, Hb2, Hj2, HB2, HJ2, HC2, Hi2.
    apply IHc in E3 as (olsc & Hoc & Hwc & Hfc & Hic & HBc & HJc & HCc); [|congruence].
    apply IHs in E4 as (olss & Hos & Hws & Hfs & His & HBs & HJs & HCs); [|congruence].
    exists (x2 :: olsc ++ olss).
    split; [rewrite Hos, Hoc, Ho2; by rewrite <- !app_assoc|].
    split; [done|].
    split; [constructor; [done|by apply Forall_app]|].
    repeat split; congruence.
Qed.

Lemma pushLink_static (flipYZ : bool) (ol : ODELink) (l : Link) (W : dxWorld) :
  bodyID ol = 0%nat ->
  bodies (pushLink flipYZ ol l W) = bodies W
  /\ joints (pushLink flipYZ ol l W) = joints W
  /\ commands (pushLink flipYZ ol l W) = commands W.
Proof.
  intros Hb. unfold pushLink, setKinematicStateToODEflip, setKinematicStateToODE.
  assert (Hgeoms : forall (f : dxWorld -> dGeomID -> dxWorld) (gs : list dGeomID),
            (forall W0 g, bodies (f W0 g) = bodies W0 /\ joints (f W0 g) = joints W0
                          /\ commands (f W0 g) = commands W0) ->
            forall W0, bodies (foldl f W0 gs) = bodies W0
                       /\ joints (foldl f W0 gs) = joints W0
                       /\ commands (foldl f W0 gs) = commands W0).
  { intros f gs Hf. induction gs as [|g gs IH]; intros W0; simpl; [done|].
    destruct (IH (f W0 g)) as (-> & -> & ->). apply Hf. }
  destruct flipYZ; simpl; rewrite bool_decide_eq_false_2 by lia;
    apply Hgeoms; intros W0 g; done.
Qed.

Lemma pushLinks_static (flipYZ : bool) (ols : list ODELink) (heap : LinkHeap) :
  forall W W' : dxWorld,
  Forall (fun ol => bodyID ol = 0%nat) ols ->
  pushLinks flipYZ ols heap W = Some W' ->
  bodies W' = bodies W /\ joints W' = joints W /\ commands W' = commands W.
Proof.
  induction ols as [|ol rest IH]; intros W W' Hall; simpl.
  - by intros [= <-].
  - apply Forall_cons in Hall as [Hb Hall].
    destruct (heap !! link ol) as [l|]; simpl; [|done].
    intros Hp. destruct (IH _ _ Hall Hp) as (-> & -> & ->). by apply pushLink_static.
Qed.

End StaticConstructionFacts.

Section StaticBodyFacts.
Context `{Solver} `{Devices} `{Model}.

(** X2.  A static model gets no solver body: after [createBody] no adapter
    has a body or a joint handle, the body adapter has no world, and the
    solver's bodies and the registered tracks are as they were. *)
Theorem createBody_static (simImpl simImpl' : ODESimulatorItemImpl) (B : Body)
    (ob' : ODEBody) (heap : LinkHeap) (W W' : dxWorld) :
  isStaticModel B = true ->
  createBody simImpl (ODEBody_new B) heap W = Some (simImpl', ob', W') ->
  Forall (fun ol => bodyID ol = 0%nat /\ jointID ol = 0%nat) (odeLinks ob')
  /\ ob_worldID ob' = 0%nat
  /\ bodies W' = bodies W
  /\ crawlerLinks simImpl' = crawlerLinks simImpl.
Proof.
  intros Hstatic. unfold createBody.
  cbn [body odeLinks ODEBody_new geometryId ob_spaceID]. rewrite Hstatic.
  set (ob0 := mkODEBody B [] _ _ _).
  set (W0 := if useWorldCollision simImpl then W else _).
  set (impl0 := if useWorldCollision simImpl then _ else simImpl).
  assert (HW0 : bodies W0 = bodies W).
  { unfold W0. by destruct (useWorldCollision simImpl). }
  assert (Hi0 : crawlerLinks impl0 = crawlerLinks simImpl).
  { unfold impl0. by destruct (useWorldCollision simImpl). }
  unfold ODELink_new.
  destruct (body_tree B) as [|root child sib] eqn:Htree; [done|].
  destruct (ODELink_chain heap _ None Vector3_Zero _) as [st|] eqn:Ech;
    cbn [mbind option_bind]; [|done].
  apply ODELink_chain_static in Ech as (ols & Hols & Hw & Hall & Himpl & HB & _); [|done].
  simpl in Hols, Himpl, HB.
  destruct (ODEBody_setKinematicStateToODE _ _ _ _) as [W1|] eqn:E1;
    cbn [mbind option_bind]; [|done].
  destruct (enterGeometryIds _ _ _) as [impl1|] eqn:Eg; cbn [mbind option_bind]; [|done].
  destruct (setExtraJoints _ _ _ _) as [W2|] eqn:E2; cbn [mbind option_bind]; [|done].
  destruct (attachPlane2D _ _ _ _) as [W3|] eqn:E3; cbn [mbind option_bind]; [|done].
  destruct (ODEBody_setTorqueToODE _ _ _) as [W4|] eqn:E4; cbn [mbind option_bind]; [|done].
  intros [= <- <- <-].
  apply setTorqueToODE_bodies in E4. apply attachPlane2D_bodies in E3.
  apply setExtraJoints_from_bodies in E2.
  apply pushLinks_static in E1 as (E1 & _).
  2:{ rewrite Hols. eapply Forall_impl; [exact Hall|]. by intros ol [? ?]. }
  split; [by rewrite Hols|]. split; [done|].
  split; [congruence|].
  unfold enterGeometryIds in Eg. destruct (useWorldCollision (b_impl st)).
  - apply bind_Some in Eg as (v & _ & [= <-]). simpl. congruence.
  - injection Eg as <-. congruence.
Qed.

End StaticBodyFacts.

(** ** Which links are registered as tracks *)

Section TrackRegistrationFacts.
Context `{Solver} `{Devices} `{Model}.

Lemma createLinkBody_crawlerLinks (simImpl : ODESimulatorItemImpl) (parent : option ODELink)
    (origin : Vector3) (this : ODELink) (l : Link) (W : dxWorld) :
  forall me simImpl' W',
  createLinkBody simImpl parent origin this l W = (me, simImpl', W') ->
  crawlerLinks simImpl' =
  if isTrack l && bool_decide (match parent with Some par => bodyID par | None => 0%nat end
                               <> 0%nat)
  then map_insert (bodyID me) (link this) (crawlerLinks simImpl)
  else crawlerLinks simImpl.
Proof.
  intros me simImpl' W'. unfold createLinkBody, dBodyCreate, dJointCreate, isTrack. simpl.
  destruct (link_jointType l); simpl;
    repeat match goal with |- context [if bool_decide ?b then _ else _] => 
             destruct (bool_decide b) end; simpl;
    intros [= <- <- <-]; reflexivity.
Qed.

Lemma ODELink_createLinkBody_crawlerLinks (this : nat) (parent : option nat) (o : Vector3)
    (l : Link) (st st' : Build) (ols0 : list ODELink) (x : ODELink) :
  odeLinks (b_body st) = ols0 ++ [x] -> length ols0 = this ->
  ob_worldID (b_body st) <> 0%nat ->
  (forall i, parent = Some i -> (i < this)%nat) ->
  ODELink_createLinkBody this parent o l st = Some st' ->
  crawlerLinks (b_impl st') =
  match parent ≫= (ols0 !!.) with
  | Some par =>
      if isTrack l && bool_decide (bodyID par <> 0%nat)
      then map_insert (S (last_handle (b_ode st))) (link x) (crawlerLinks (b_impl st))
      else crawlerLinks (b_impl st)
  | None => crawlerLinks (b_impl st)
  end.
Proof.
  intros Hols Hlen Hw Hparent. unfold ODELink_createLinkBody.
  rewrite bool_decide_eq_true_2 by done.
  rewrite Hols. rewrite lookup_app_r by lia.
  replace (this - length ols0)%nat with 0%nat by lia. simpl.
  destruct parent as [i|]; simpl.
  - specialize (Hparent i eq_refl).
    rewrite lookup_app_l by lia.
    destruct (ols0 !! i) as [par|] eqn:Hpar; simpl; [|done].
    destruct (createLinkBody _ _ _ _ _ _) as [[me1 impl1] W1] eqn:E.
    intros [= <-]. simpl.
    pose proof (createLinkBody_spec _ _ _ _ _ _ _ _ _ E) as (_ & E2 & _).
    apply createLinkBody_crawlerLinks in E. by rewrite E, E2.
  - destruct (createLinkBody _ _ _ _ _ _) as [[me1 impl1] W1] eqn:E.
    intros [= <-]. simpl.
    apply createLinkBody_crawlerLinks in E. rewrite E.
    by rewrite andb_false_r.
Qed.

(** Below a parent with a solver body the constructor registers exactly the
    tracks among the links it meets, each under the body of its adapter. *)
Lemma ODELink_chain_crawlerLinks (heap : LinkHeap) (t : LinkTree) :
  forall (i : nat) (parentOrigin : Vector3) (st st' : Build) (par : ODELink),
  ob_worldID (b_body st) <> 0%nat ->
  odeLinks (b_body st) !! i = Some par -> bodyID par <> 0%nat ->
  ODELink_chain heap t (Some i) parentOrigin st = Some st' ->
  exists ols,
    odeLinks (b_body st') = odeLinks (b_body st) ++ ols
    /\ crawlerLinks (b_impl st') = foldl (registerTrack heap) (crawlerLinks (b_impl st)) ols.
Proof.
  induction t as [|lp child IHc sibling IHs]; intros i parentOrigin st st' par Hw Hpar Hparb.
  - simpl. intros [= <-]. exists []. by rewrite app_nil_r.
  - simpl. destruct (heap !! lp) as [l|] eqn:Hl; simpl; [|done].
    set (ols0 := odeLinks (b_body st)).
    set (new := mkODELink lp 0 0 [] ∅ 0).
    assert (Hlt : (i < length ols0)%nat) by (by eapply lookup_lt_Some).
    destruct (ODELink_createLinkBody _ _ _ _ _) as [st1|] eqn:E1; simpl; [|done].
    destruct (ODELink_createGeometry _ _ _) as [st2|] eqn:E2; simpl; [|done].
    destruct (ODELink_chain heap child _ _ st2) as [st3|] eqn:E3; simpl; [|done].
    intros E4.
    pose proof (ODELink_createLinkBody_crawlerLinks (length ols0) (Some i)
                  (vadd parentOrigin (link_b l)) l
                  (ODELink_push_back lp st) st1 ols0 new eq_refl eq_refl Hw) as Hc1.
    specialize (Hc1 ltac:(by intros ? [= <-]) E1). simpl in Hc1.
    fold ols0 in Hpar. rewrite Hpar in Hc1.
    rewrite (bool_decide_eq_true_2 _ Hparb), andb_true_r in Hc1.
    apply (ODELink_createLinkBody_bodies _ _ _ _ _ _ ols0 new) in E1
      as (x1 & Ho1 & Hw1 & _ & Hx1 & Hb1 & _); [|done|done|exact Hw].
    pose proof (ODELink_createGeometry_frame (length ols0) l st1 st2 ols0 x1 Ho1 eq_refl E2)
      as (Hi2 & _).
    apply (ODELink_createGeometry_bodies _ _ _ _ ols0 x1 Ho1 eq_refl) in E2
      as (x2 & Ho2 & Hw2 & _ & Hx2 & Hb2 & _).
    simpl in Hw1, Hb1, Hx1.
    assert (Hw3 : ob_worldID (b_body st2) <> 0%nat) by (rewrite Hw2, Hw1; exact Hw).
    pose proof (ODELink_chain_bodies _ _ _ _ _ _ Hw3 E3) as (olsc0 & Hoc0 & Hwc & _).
    apply (IHc _ _ _ _ x2) in E3 as (olsc & Hoc & Hcc).
    2:{ exact Hw3. }
    2:{ rewrite Ho2. by rewrite lookup_app_r, Nat.sub_diag by lia. }
    2:{ rewrite Hb2, Hb1. lia. }
    apply (IHs _ _ _ _ par) in E4 as (olss & Hos & Hcs).
    2:{ by rewrite Hwc. }
    2:{ rewrite Hoc, Ho2. rewrite !lookup_app_l; [done|lia|rewrite length_app; lia]. }
    2:{ done. }
    exists (x2 :: olsc ++ olss).
    split; [rewrite Hos, Hoc, Ho2; by rewrite <- !app_assoc|].
    rewrite Hcs, Hcc, Hi2, Hc1. simpl. rewrite foldl_app. f_equal. f_equal.
    unfold registerTrack. rewrite Hx2, Hx1, Hb2, Hb1. simpl. by rewrite Hl.
Qed.

End TrackRegistrationFacts.

Section TrackRegistrationTheorem.
Context `{Solver} `{Devices} `{Model}.

Lemma map_insert_lookup {V : Type} (k k' : nat) (v : V) (m : gmap nat V) :
  map_insert k v m !! k' =
  match m !! k' with
  | Some w => Some w
  | None => if decide (k = k') then Some v else None
  end.
Proof.
  unfold map_insert. destruct (m !! k) as [w|] eqn:Hk.
  - destruct (m !! k') as [w'|] eqn:Hk'; [done|].
    destruct (decide (k = k')) as [->|]; [congruence|done].
  - rewrite lookup_insert. destruct (decide (k = k')) as [->|].
    + by rewrite Hk.
    + by destruct (m !! k').
Qed.

Lemma registerTrack_foldl (heap : LinkHeap) (ols : list ODELink) :
  NoDup (bodyID <$> ols) ->
  forall (m : gmap dBodyID LinkPtr) (b : dBodyID) (p : LinkPtr),
  foldl (registerTrack heap) m ols !! b = Some p <->
  m !! b = Some p
  \/ (m !! b = None
      /\ exists ol l, ol ∈ ols /\ bodyID ol = b /\ link ol = p
           /\ heap !! p = Some l /\ isTrack l = true).
Proof.
  induction ols as [|ol rest IH]; intros Hnd m b p; simpl.
  - split; [auto|]. intros [?|(_ & ol & l & Hin & _)]; [done|]. by apply elem_of_nil in Hin.
  - rewrite fmap_cons in Hnd. apply NoDup_cons in Hnd as [Hnotin Hnd].
    rewrite (IH Hnd). clear IH.
    assert (Hrest : forall ol', ol' ∈ rest -> bodyID ol' <> bodyID ol).
    { intros ol' Hin Heq. apply Hnotin. rewrite <- Heq. apply list_elem_of_fmap. eauto. }
    unfold registerTrack at 1 2.
    destruct (heap !! link ol) as [l0|] eqn:Hl0.
    + destruct (isTrack l0) eqn:Ht0.
      * rewrite map_insert_lookup.
        destruct (m !! b) as [w|] eqn:Hmb.
        -- split; intros [?|(? & _)]; try done; auto.
        -- destruct (decide (bodyID ol = b)) as [Heq|Hne].
           ++ split.
              ** intros [[= <-]|(? & _)]; [|done]. right. split; [done|].
                 exists ol, l0. repeat split; try done. apply elem_of_cons; auto.
              ** intros [?|(_ & ol' & l & Hin & Hb & Hp & Hl & Ht)]; [done|]. left.
                 apply elem_of_cons in Hin as [->|Hin]; [by rewrite Hp|].
                 exfalso. apply (Hrest ol' Hin). congruence.
           ++ split.
              ** intros [?|(_ & ol' & l & Hin & Hrest')]; [done|]. right. split; [done|].
                 exists ol', l. split; [apply elem_of_cons; auto|done].
              ** intros [?|(_ & ol' & l & Hin & Hb & Hrest')]; [done|]. right.
                 split; [done|]. exists ol', l.
                 apply elem_of_cons in Hin as [->|Hin]; [done|]. done.
      * split.
        -- intros [?|(Hn & ol' & l & Hin & Hrest')]; [auto|]. right. split; [done|].
           exists ol', l. split; [apply elem_of_cons; auto|done].
        -- intros [?|(Hn & ol' & l & Hin & Hb & Hp & Hl & Ht)]; [auto|]. right.
           split; [done|]. exists ol', l.
           apply elem_of_cons in Hin as [->|Hin]; [|done].
           rewrite Hp in Hl0. congruence.
    + split.
      * intros [?|(Hn & ol' & l & Hin & Hrest')]; [auto|]. right. split; [done|].
        exists ol', l. split; [apply elem_of_cons; auto|done].
      * intros [?|(Hn & ol' & l & Hin & Hb & Hp & Hl & Ht)]; [auto|]. right.
        split; [done|]. exists ol', l.
        apply elem_of_cons in Hin as [->|Hin]; [|done].
        rewrite Hp in Hl0. congruence.
Qed.

(** X3.  What [createBody] registers as tracks for a body that is not static:
    entries already in [crawlerLinks] stay, and a free body handle gets an
    entry exactly when it is the body of an adapter other than the root's
    whose link is a crawler joint or a pseudo continuous track; the entry is
    that link.  The root link is never registered. *)
Theorem createBody_registers_tracks (simImpl simImpl' : ODESimulatorItemImpl) (B : Body)
    (ob' : ODEBody) (heap : LinkHeap) (W W' : dxWorld) :
  isStaticModel B = false -> worldID simImpl <> 0%nat ->
  createBody simImpl (ODEBody_new B) heap W = Some (simImpl', ob', W') ->
  (forall b p, crawlerLinks simImpl !! b = Some p -> crawlerLinks simImpl' !! b = Some p)
  /\ (forall b p, crawlerLinks simImpl !! b = None ->
        (crawlerLinks simImpl' !! b = Some p <->
         exists i ol l, odeLinks ob' !! S i = Some ol /\ bodyID ol = b /\ link ol = p
                        /\ heap !! p = Some l /\ isTrack l = true)).
Proof.
  intros Hstatic Hworld. unfold createBody.
  cbn [body odeLinks ODEBody_new geometryId ob_spaceID]. rewrite Hstatic.
  set (ob0 := mkODEBody B [] _ _ _).
  set (W0 := if useWorldCollision simImpl then W else _).
  set (impl0 := if useWorldCollision simImpl then _ else simImpl).
  assert (Hi0 : crawlerLinks impl0 = crawlerLinks simImpl).
  { unfold impl0. by destruct (useWorldCollision simImpl). }
  unfold ODELink_new.
  destruct (body_tree B) as [|root child sib] eqn:Htree; [done|].
  destruct (ODELink_chain heap _ None Vector3_Zero _) as [st|] eqn:Ech;
    cbn [mbind option_bind]; [|done].
  destruct (ODEBody_setKinematicStateToODE _ _ _ _) as [W1|] eqn:E1;
    cbn [mbind option_bind]; [|done].
  destruct (enterGeometryIds _ _ _) as [impl1|] eqn:Eg; cbn [mbind option_bind]; [|done].
  destruct (setExtraJoints _ _ _ _) as [W2|] eqn:E2; cbn [mbind option_bind]; [|done].
  destruct (attachPlane2D _ _ _ _) as [W3|] eqn:E3; cbn [mbind option_bind]; [|done].
  destruct (ODEBody_setTorqueToODE _ _ _) as [W4|] eqn:E4; cbn [mbind option_bind]; [|done].
  intros [= <- <- <-].
  assert (Hi1 : crawlerLinks impl1 = crawlerLinks (b_impl st)).
  { unfold enterGeometryIds in Eg. destruct (useWorldCollision (b_impl st)).
    - apply bind_Some in Eg as (v & _ & [= <-]). done.
    - by injection Eg as <-. }
  clear E1 Eg E2 E3 E4.
  (* the root, then what hangs below it *)
  simpl in Ech. destruct (heap !! root) as [l|] eqn:Hl; simpl in Ech; [|done].
  set (new := mkODELink root 0 0 [] ∅ 0) in Ech.
  destruct (ODELink_createLinkBody _ _ _ _ _) as [st1|] eqn:Es1; simpl in Ech; [|done].
  destruct (ODELink_createGeometry _ _ _) as [st2|] eqn:Es2; simpl in Ech; [|done].
  destruct (ODELink_chain heap child _ _ st2) as [st3|] eqn:Es3; simpl in Ech; [|done].
  injection Ech as <-.
  assert (Hw0 : ob_worldID (b_body (ODELink_push_back root (mkBuild impl0 ob0 W0))) <> 0%nat)
    by exact Hworld.
  pose proof (ODELink_createLinkBody_crawlerLinks 0 None (vadd Vector3_Zero (link_b l)) l
                (ODELink_push_back root (mkBuild impl0 ob0 W0)) st1 [] new eq_refl eq_refl
                Hw0 ltac:(done) Es1) as Hc1.
  simpl in Hc1. rewrite Hi0 in Hc1.
  apply (ODELink_createLinkBody_bodies _ _ _ _ _ _ [] new) in Es1
    as (x1 & Ho1 & Hw1 & _ & _ & Hb1 & _); [|done|done|exact Hw0].
  pose proof (ODELink_createGeometry_frame 0 l st1 st2 [] x1 Ho1 eq_refl Es2) as (Hi2 & _).
  apply (ODELink_createGeometry_bodies _ _ _ _ [] x1 Ho1 eq_refl) in Es2
    as (x2 & Ho2 & Hw2 & _ & _ & Hb2 & _).
  assert (Hw3 : ob_worldID (b_body st2) <> 0%nat) by (rewrite Hw2, Hw1; exact Hw0).
  pose proof (ODELink_chain_bodies _ _ _ _ _ _ Hw3 Es3)
    as (ols' & Hols' & _ & _ & _ & _ & _ & Hnd).
  apply (ODELink_chain_crawlerLinks _ _ _ _ _ _ x2 Hw3) in Es3 as (ols & Hols & Hcl).
  2:{ by rewrite Ho2. }
  2:{ rewrite Hb2, Hb1. lia. }
  rewrite Hols in Hols'. apply app_inv_head in Hols' as <-.
  rewrite Hi1, Hcl, Hi2, Hc1. rewrite Hols, Ho2. simpl.
  pose proof (registerTrack_foldl heap ols Hnd (crawlerLinks simImpl)) as Hreg.
  split.
  - intros b p Hb. apply Hreg. by left.
  - intros b p Hb. rewrite Hreg. split.
    + intros [?|(_ & ol & l' & Hin & Hrest)]; [congruence|].
      apply list_elem_of_lookup in Hin as [k Hk]. by exists k, ol, l'.
    + intros (k & ol & l' & Hk & Hrest). right. split; [done|].
      exists ol, l'. split; [by eapply list_elem_of_lookup_2|done].
Qed.

End TrackRegistrationTheorem.

(** ** The geometries of the adapters *)

Section GeometryFacts.
Context `{Solver} `{Devices} `{Model}.

Lemma geoms_attached_mono (lo : nat) (W W' : dxWorld) (b : dBodyID) (gs : list dGeomID) :
  (last_handle W <= last_handle W')%nat ->
  (forall g, (g <= last_handle W)%nat -> geoms W' !! g = geoms W !! g) ->
  geoms_attached lo W b gs -> geoms_attached lo W' b gs.
Proof.
  intros Hle Hsame Hall. eapply Forall_impl; [exact Hall|]. cbv beta.
  intros g ([? ?] & G & HG & Hb). split; [lia|]. exists G. by rewrite Hsame by lia.
Qed.

Lemma addMesh_geoms (l : Link) (sh : Shape) (lo : nat) (this : ODELink) (W : dxWorld) :
  (lo <= last_handle W)%nat ->
  geoms_attached lo W (bodyID this) (geomID this) ->
  let r := addMesh l sh (this, W) in
  (last_handle W <= last_handle r.2)%nat
  /\ (forall g, (g <= last_handle W)%nat -> geoms r.2 !! g = geoms W !! g)
  /\ geoms_attached lo r.2 (bodyID r.1) (geomID r.1).
Proof.
  intros Hlo Hall. unfold addMesh, dGeomCreate. destruct sh as [T_|n]; simpl.
  - split; [lia|]. split.
    + intros g Hg. rewrite lookup_insert_ne by lia. done.
    + apply Forall_app. split.
      * eapply Forall_impl; [exact Hall|]. cbv beta.
        intros g ([? ?] & G & HG & Hb). simpl. split; [lia|].
        exists G. rewrite lookup_insert_ne by lia. done.
      * constructor; [|constructor]. simpl. split; [lia|].
        rewrite lookup_insert_eq. eexists. split; [done|].
        by case_bool_decide.
  - split; [lia|]. split; done.
Qed.

Lemma addMeshes_geoms (l : Link) (shapes : list Shape) (lo : nat) :
  forall (this : ODELink) (W : dxWorld),
  (lo <= last_handle W)%nat ->
  geoms_attached lo W (bodyID this) (geomID this) ->
  let r := foldl (fun acc sh => addMesh l sh acc) (this, W) shapes in
  (last_handle W <= last_handle r.2)%nat
  /\ (forall g, (g <= last_handle W)%nat -> geoms r.2 !! g = geoms W !! g)
  /\ geoms_attached lo r.2 (bodyID r.1) (geomID r.1).
Proof.
  induction shapes as [|sh shapes IH]; intros this W Hlo Hall; cbn [foldl].
  - split; [done|]. done.
  - pose proof (addMesh_geoms l sh lo this W Hlo Hall) as (Hle & Hsame & Hall').
    destruct (addMesh l sh (this, W)) as [this1 W1]. cbn [fst snd] in *.
    assert (Hlo1 : (lo <= last_handle W1)%nat) by lia.
    destruct (IH this1 W1 Hlo1 Hall') as (Hle2 & Hsame2 & Hall2).
    split; [etrans; [exact Hle|exact Hle2]|]. split; [|exact Hall2].
    intros g Hg. rewrite Hsame2 by lia. by apply Hsame.
Qed.

(** [createGeometry] lists, for an adapter that had no geometry, live
    geometries attached to the body of the adapter, and leaves the older
    geometries of the solver alone. *)
Lemma createGeometry_geoms (odeBody : ODEBody) (this : ODELink) (l : Link) (W : dxWorld) :
  forall me W', createGeometry odeBody this l W = (me, W') ->
  geomID this = [] ->
  (forall g, (g <= last_handle W)%nat -> geoms W' !! g = geoms W !! g)
  /\ geoms_attached (last_handle W) W' (bodyID me) (geomID me).
Proof.
  intros me W'. unfold createGeometry. intros Hc Hnil.
  pose proof (addMeshes_geoms l (extractShapes l) (last_handle W) this W (le_n _)) as Hs.
  rewrite Hnil in Hs. specialize (Hs (Forall_nil_2 _)).
  destruct (foldl _ _ _) as [this1 W1]. simpl in Hs. destruct Hs as (Hle & Hsame & Hall).
  revert Hc. case_bool_decide; unfold dGeomCreate; intros [= <- <-]; simpl; [|done].
  split.
  - intros g Hg. rewrite lookup_insert_ne by lia. by apply Hsame.
  - apply Forall_app. split.
    + eapply Forall_impl; [exact Hall|]. cbv beta.
      intros g ([? ?] & G & HG & Hb). simpl. split; [lia|].
      exists G. rewrite lookup_insert_ne by lia. done.
    + constructor; [|constructor]. simpl. split; [lia|].
      rewrite lookup_insert_eq. by eexists.
Qed.

Lemma createLinkBody_geoms (simImpl : ODESimulatorItemImpl) (parent : option ODELink)
    (origin : Vector3) (this : ODELink) (l : Link) (W : dxWorld) :
  forall me simImpl' W',
  createLinkBody simImpl parent origin this l W = (me, simImpl', W') ->
  geomID me = geomID this /\ geoms W' = geoms W
  /\ (last_handle W <= last_handle W')%nat.
Proof.
  intros me simImpl' W'. unfold createLinkBody, dBodyCreate, dJointCreate. simpl.
  destruct (link_jointType l); simpl;
    repeat match goal with |- context [if ?b then _ else _] => destruct b end; simpl;
    intros [= <- <- <-]; simpl; repeat split; lia.
Qed.

Lemma ODELink_createLinkBody_geoms (this : nat) (parent : option nat) (o : Vector3)
    (l : Link) (st st' : Build) (ols0 : list ODELink) (x : ODELink) :
  odeLinks (b_body st) = ols0 ++ [x] -> length ols0 = this ->
  ODELink_createLinkBody this parent o l st = Some st' ->
  exists x', odeLinks (b_body st') = ols0 ++ [x']
    /\ geomID x' = geomID x
    /\ geoms (b_ode st') = geoms (b_ode st)
    /\ (last_handle (b_ode st) <= last_handle (b_ode st'))%nat.
Proof.
  intros Hols Hlen. unfold ODELink_createLinkBody. case_bool_decide.
  - rewrite Hols. rewrite lookup_app_r by lia.
    replace (this - length ols0)%nat with 0%nat by lia. simpl.
    destruct (match parent with
              | Some i => Some <$> (ols0 ++ [x]) !! i
              | None => Some None
              end) as [par|]; simpl; [|done].
    destruct (createLinkBody _ _ _ _ _ _) as [[me1 impl1] W1] eqn:E.
    intros [= <-]. simpl.
    apply createLinkBody_geoms in E as (E1 & E2 & E3).
    exists me1. repeat split; try done.
    rewrite insert_app_r_alt by lia.
    replace (this - length ols0)%nat with 0%nat by lia. done.
  - intros [= <-]. exists x. repeat split; try done.
Qed.

Lemma ODELink_createGeometry_geoms (this : nat) (l : Link) (st st' : Build)
    (ols0 : list ODELink) (x : ODELink) :
  odeLinks (b_body st) = ols0 ++ [x] -> length ols0 = this ->
  geomID x = [] ->
  ODELink_createGeometry this l st = Some st' ->
  exists x', odeLinks (b_body st') = ols0 ++ [x']
    /\ (last_handle (b_ode st) <= last_handle (b_ode st'))%nat
    /\ (forall g, (g <= last_handle (b_ode st))%nat ->
          geoms (b_ode st') !! g = geoms (b_ode st) !! g)
    /\ geoms_attached (last_handle (b_ode st)) (b_ode st') (bodyID x') (geomID x').
Proof.
  intros Hols Hlen Hnil. unfold ODELink_createGeometry.
  destruct (useWorldCollision (b_impl st)); simpl.
  - intros [= <-]. exists x. rewrite Hnil. repeat split; try done. constructor.
  - rewrite Hols. rewrite lookup_app_r by lia.
    replace (this - length ols0)%nat with 0%nat by lia. simpl.
    destruct (createGeometry _ _ _ _) as [me2 W2] eqn:E.
    pose proof (createGeometry_keeps _ _ _ _ _ _ E) as (_ & _ & _ & _ & _ & _ & Hle).
    apply createGeometry_geoms in E as (E1 & E2); [|done].
    intros [= <-]. simpl. exists me2. repeat split; try done.
    rewrite insert_app_r_alt by lia.
    replace (this - length ols0)%nat with 0%nat by lia. done.
Qed.

(** The constructor, over a chain of siblings: every geometry an appended
    adapter lists is live and attached to the adapter's body. *)
Lemma ODELink_chain_geoms (heap : LinkHeap) (t : LinkTree) :
  forall (parent : option nat) (parentOrigin : Vector3) (st st' : Build),
  ODELink_chain heap t parent parentOrigin st = Some st' ->
  exists ols,
    odeLinks (b_body st') = odeLinks (b_body st) ++ ols
    /\ (last_handle (b_ode st) <= last_handle (b_ode st'))%nat
    /\ (forall g, (g <= last_handle (b_ode st))%nat ->
          geoms (b_ode st') !! g = geoms (b_ode st) !! g)
    /\ Forall (fun ol => geoms_attached (last_handle (b_ode st)) (b_ode st')
                           (bodyID ol) (geomID ol)) ols.
Proof.
  induction t as [|lp child IHc sibling IHs]; intros parent parentOrigin st st'.
  - simpl. intros [= <-]. exists []. rewrite app_nil_r. repeat split; try done. 
  - simpl. destruct (heap !! lp) as [l|] eqn:Hl; simpl; [|done].
    set (ols0 := odeLinks (b_body st)).
    set (new := mkODELink lp 0 0 [] ∅ 0).
    destruct (ODELink_createLinkBody _ _ _ _ _) as [st1|] eqn:E1; simpl; [|done].
    destruct (ODELink_createGeometry _ _ _) as [st2|] eqn:E2; simpl; [|done].
    destruct (ODELink_chain heap child _ _ st2) as [st3|] eqn:E3; simpl; [|done].
    intros E4.
    apply (ODELink_createLinkBody_geoms _ _ _ _ _ _ ols0 new) in E1
      as (x1 & Ho1 & Hg1 & HG1 & Hle1); [|done|done].
    apply (ODELink_createGeometry_geoms _ _ _ _ ols0 x1 Ho1 eq_refl Hg1) in E2
      as (x2 & Ho2 & Hle2 & Hs2 & Ha2).
    simpl in HG1, Hle1.
    apply IHc in E3 as (olsc & Hoc & Hlec & Hsc & Hac).
    apply IHs in E4 as (olss & Hos & Hles & Hss & Has).
    exists (x2 :: olsc ++ olss).
    split; [rewrite Hos, Hoc, Ho2; by rewrite <- !app_assoc|].
    split; [lia|]. split.
    { intros g Hg. rewrite Hss, Hsc, Hs2 by lia. by rewrite HG1. }
    assert (Hweak : forall lo lo' W0 b gs, (lo' <= lo)%nat ->
              geoms_attached lo W0 b gs -> geoms_attached lo' W0 b gs).
    { intros lo lo' W0 b gs Hlo Ha. eapply Forall_impl; [exact Ha|]. cbv beta.
      intros g ([? ?] & HG). split; [lia|done]. }
    constructor; [|apply Forall_app; split].
    + apply (Hweak (last_handle (b_ode st1))); [done|].
      apply (geoms_attached_mono _ (b_ode st3)); [done|done|].
      apply (geoms_attached_mono _ (b_ode st2)); [done|done|done].
    + eapply Forall_impl; [exact Hac|]. cbv beta. intros ol Ha.
      apply (Hweak (last_handle (b_ode st2))); [lia|].
      by apply (geoms_attached_mono _ (b_ode st3)).
    + eapply Forall_impl; [exact Has|]. cbv beta. intros ol Ha.
      apply (Hweak (last_handle (b_ode st3))); [lia|done].
Qed.

End GeometryFacts.

Section GeometryTheorem.
Context `{Solver} `{Devices} `{Model}.

Lemma geoms_kept_refl (W : dxWorld) : geoms_kept W W.
Proof. split; [done|]. eauto. Qed.

Lemma geoms_kept_trans (W1 W2 W3 : dxWorld) :
  geoms_kept W1 W2 -> geoms_kept W2 W3 -> geoms_kept W1 W3.
Proof.
  intros [Hle1 Hk1] [Hle2 Hk2]. split; [lia|].
  intros g G HG. destruct (Hk1 g G HG) as (G' & HG' & Hb').
  destruct (Hk2 g G' HG') as (G'' & HG'' & Hb''). exists G''. split; [done|congruence].
Qed.

Lemma geoms_kept_eq (W W' : dxWorld) :
  geoms W' = geoms W -> (last_handle W <= last_handle W')%nat -> geoms_kept W W'.
Proof. intros Hg Hle. split; [done|]. intros g G HG. exists G. by rewrite Hg. Qed.

Lemma geoms_attached_kept (lo : nat) (W W' : dxWorld) (b : dBodyID) (gs : list dGeomID) :
  geoms_kept W W' -> geoms_attached lo W b gs -> geoms_attached lo W' b gs.
Proof.
  intros [Hle Hk] Hall. eapply Forall_impl; [exact Hall|]. cbv beta.
  intros g ([? ?] & G & HG & Hb). split; [lia|].
  destruct (Hk g G HG) as (G' & HG' & Hb'). exists G'. split; [done|congruence].
Qed.

Lemma pushLink_geoms_kept (flipYZ : bool) (ol : ODELink) (l : Link) (W : dxWorld) :
  geoms_kept W (pushLink flipYZ ol l W).
Proof.
  unfold pushLink, setKinematicStateToODEflip, setKinematicStateToODE.
  assert (Hfold : forall (f : dxWorld -> dGeomID -> dxWorld) (gs : list dGeomID),
            (forall W0 g, geoms_kept W0 (f W0 g)) ->
            forall W0, geoms_kept W0 (foldl f W0 gs)).
  { intros f gs Hf. induction gs as [|g gs IH]; intros W0; simpl;
      [apply geoms_kept_refl|].
    eapply geoms_kept_trans; [apply Hf|apply IH]. }
  assert (Hset : forall W0 g x y z M,
            geoms_kept W0 (dGeomSetRotation g M (dGeomSetPosition g x y z W0))).
  { intros W0 g x y z M. split; [done|]. intros g' G HG.
    unfold dGeomSetRotation, dGeomSetPosition, with_geoms. simpl.
    destruct (decide (g = g')) as [->|Hne].
    - rewrite !lookup_alter_eq, HG. simpl. by eexists.
    - rewrite !lookup_alter_ne by done. by exists G. }
  destruct flipYZ; simpl; case_bool_decide;
    try (apply Hfold; intros W0 g; apply Hset);
    apply geoms_kept_eq; unfold dBodySetAngularVel, dBodySetLinearVel, dBodySetPosition,
      dBodySetRotation, with_bodies; simpl; done.
Qed.

Lemma pushLinks_geoms_kept (flipYZ : bool) (ols : list ODELink) (heap : LinkHeap) :
  forall W W' : dxWorld,
  pushLinks flipYZ ols heap W = Some W' -> geoms_kept W W'.
Proof.
  induction ols as [|ol rest IH]; intros W W'; simpl.
  - intros [= <-]. apply geoms_kept_refl.
  - destruct (heap !! link ol) as [l|]; simpl; [|done].
    intros Hp. eapply geoms_kept_trans; [apply pushLink_geoms_kept|by apply IH].
Qed.

Lemma setExtraJoints_from_geoms_kept (flipYZ : bool) (ob : ODEBody) (heap : LinkHeap)
    (ejs : list ExtraJoint) :
  forall W W' : dxWorld,
  setExtraJoints_from flipYZ ob heap ejs W = Some W' -> geoms_kept W W'.
Proof.
  induction ejs as [|ej rest IH]; intros W W'; simpl.
  - intros [= <-]. apply geoms_kept_refl.
  - destruct (setExtraJoint flipYZ ob heap ej W) as [W1|] eqn:E; simpl; [|done].
    intros Hr. eapply geoms_kept_trans; [|by apply IH]. clear Hr IH.
    unfold setExtraJoint in E.
    destruct (extraJointLink (odeLinks ob) heap (ej_link ej).1) as [first|];
      cbn [mbind option_bind] in E; [|done].
    destruct (match first.1 with Some _ => _ | None => _ end) as [second|];
      cbn [mbind option_bind] in E; [|done].
    destruct (second.2); [|injection E as <-; apply geoms_kept_refl].
    destruct (first.2) as [pair0|]; cbn [mbind option_bind] in E; [|done].
    destruct (heap !! link pair0); cbn [mbind option_bind] in E; [|done].
    destruct (ej_type ej); injection E as <-; apply geoms_kept_eq; simpl; (done || lia).
Qed.

Lemma attachPlane2D_geoms_kept (simImpl : ODESimulatorItemImpl) (ob : ODEBody)
    (rootLink : nat) (W W' : dxWorld) :
  attachPlane2D simImpl ob rootLink W = Some W' -> geoms_kept W W'.
Proof.
  unfold attachPlane2D. destruct (is2Dmode simImpl && _);
    [|intros [= <-]; apply geoms_kept_refl].
  destruct (odeLinks ob !! rootLink); simpl; [|done].
  intros [= <-]. apply geoms_kept_eq; simpl; (done || lia).
Qed.

Lemma actuateLinks_geoms_kept (f : ODELink -> Link -> dxWorld -> dxWorld)
    (ols : list ODELink) (heap : LinkHeap) :
  (forall ol l W, geoms_kept W (f ol l W)) ->
  forall W W' : dxWorld,
  actuateLinks f ols heap W = Some W' -> geoms_kept W W'.
Proof.
  intros Hf. induction ols as [|ol rest IH]; intros W W'; simpl.
  - intros [= <-]. apply geoms_kept_refl.
  - destruct (heap !! link ol) as [l|]; simpl; [|done].
    intros Hr. eapply geoms_kept_trans; [apply Hf|by apply IH].
Qed.

Lemma setTorqueToODE_geoms_kept (ol : ODELink) (l : Link) (W : dxWorld) :
  geoms_kept W (setTorqueToODE ol l W).
Proof.
  unfold setTorqueToODE. destruct (isRotationalJoint l); [by apply geoms_kept_eq|].
  destruct (isSlideJoint l); [by apply geoms_kept_eq|apply geoms_kept_refl].
Qed.

(** X4.  Every geometry an adapter lists after [createBody] is a live
    geometry of the solver, created by this call and attached to the body of
    that adapter (the null body for a static model). *)
Theorem createBody_geometries_attached (simImpl simImpl' : ODESimulatorItemImpl) (B : Body)
    (ob' : ODEBody) (heap : LinkHeap) (W W' : dxWorld) :
  createBody simImpl (ODEBody_new B) heap W = Some (simImpl', ob', W') ->
  Forall (fun ol => geoms_attached (last_handle W) W' (bodyID ol) (geomID ol))
    (odeLinks ob').
Proof.
  unfold createBody. cbn [body odeLinks ODEBody_new geometryId ob_spaceID].
  set (ob0 := mkODEBody B [] _ _ _).
  set (W0 := if useWorldCollision simImpl then W else _).
  set (impl0 := if useWorldCollision simImpl then _ else simImpl).
  assert (HW0 : (last_handle W <= last_handle W0)%nat).
  { unfold W0. destruct (useWorldCollision simImpl); simpl; lia. }
  unfold ODELink_new.
  destruct (body_tree B) as [|root child sib] eqn:Htree; [done|].
  destruct (ODELink_chain heap _ None Vector3_Zero _) as [st|] eqn:Ech;
    cbn [mbind option_bind]; [|done].
  apply ODELink_chain_geoms in Ech as (ols & Hols & Hle & _ & Hall).
  simpl in Hols, Hle, Hall.
  destruct (ODEBody_setKinematicStateToODE _ _ _ _) as [W1|] eqn:E1;
    cbn [mbind option_bind]; [|done].
  destruct (enterGeometryIds _ _ _) as [impl1|] eqn:Eg; cbn [mbind option_bind]; [|done].
  destruct (setExtraJoints _ _ _ _) as [W2|] eqn:E2; cbn [mbind option_bind]; [|done].
  destruct (attachPlane2D _ _ _ _) as [W3|] eqn:E3; cbn [mbind option_bind]; [|done].
  destruct (ODEBody_setTorqueToODE _ _ _) as [W4|] eqn:E4; cbn [mbind option_bind]; [|done].
  intros [= <- <- <-].
  apply pushLinks_geoms_kept in E1. apply setExtraJoints_from_geoms_kept in E2.
  apply attachPlane2D_geoms_kept in E3.
  apply (actuateLinks_geoms_kept _ _ _ setTorqueToODE_geoms_kept) in E4.
  assert (Hk : geoms_kept (b_ode st) W4).
  { eapply geoms_kept_trans; [exact E1|]. eapply geoms_kept_trans; [exact E2|].
    eapply geoms_kept_trans; [exact E3|exact E4]. }
  rewrite Hols. eapply Forall_impl; [exact Hall|]. cbv beta. intros ol Ha.
  apply (geoms_attached_kept _ _ _ _ _ Hk).
  eapply Forall_impl; [exact Ha|]. cbv beta. intros g ([? ?] & HG). split; [lia|done].
Qed.

End GeometryTheorem.

(** ** Actuation commands *)

Section ActuationFacts.
Context `{Solver} `{Devices} `{Model}.

Lemma actuateLinks_commands (f : ODELink -> Link -> dxWorld -> dxWorld)
    (cmd : LinkHeap -> ODELink -> option (dJointID * JointCommand))
    (ols : list ODELink) (heap : LinkHeap) :
  (forall ol l W, heap !! link ol = Some l ->
     bodies (f ol l W) = bodies W /\ joints (f ol l W) = joints W
     /\ geoms (f ol l W) = geoms W /\ last_handle (f ol l W) = last_handle W
     /\ commands (f ol l W) = commands W ++ from_option (fun c => [c]) [] (cmd heap ol)) ->
  forall W W' : dxWorld,
  actuateLinks f ols heap W = Some W' ->
  bodies W' = bodies W /\ joints W' = joints W /\ geoms W' = geoms W
  /\ last_handle W' = last_handle W
  /\ commands W' = commands W ++ omap (cmd heap) ols.
Proof.
  intros Hf. induction ols as [|ol rest IH]; intros W W'; simpl.
  - intros [= <-]. by rewrite app_nil_r.
  - destruct (heap !! link ol) as [l|] eqn:Hl; simpl; [|done].
    intros Hr. destruct (IH _ _ Hr) as (-> & -> & -> & -> & ->).
    destruct (Hf ol l W Hl) as (-> & -> & -> & -> & ->).
    repeat split. rewrite <- app_assoc. f_equal.
    by destruct (cmd heap ol).
Qed.

(** X8.  Actuating a body, in torque mode or in velocity mode, adds one
    command per adapter other than the root's whose link is a rotational or
    a slide joint, in adapter order, carrying the link's [u] or [dq]; the
    root link and links of any other joint type get none, and the solver's
    bodies, joints and geometries are left alone. *)
Theorem actuation_commands (ob : ODEBody) (heap : LinkHeap) (W W' : dxWorld) :
  (ODEBody_setTorqueToODE ob heap W = Some W' ->
   commands W' = commands W ++ omap (torqueCommand heap) (drop 1 (odeLinks ob))
   /\ bodies W' = bodies W /\ joints W' = joints W /\ geoms W' = geoms W)
  /\ (ODEBody_setVelocityToODE ob heap W = Some W' ->
      commands W' = commands W ++ omap (velocityCommand heap) (drop 1 (odeLinks ob))
      /\ bodies W' = bodies W /\ joints W' = joints W /\ geoms W' = geoms W).
Proof.
  split; intros Hrun.
  - apply (actuateLinks_commands _ torqueCommand) in Hrun as (? & ? & ? & _ & ?); [done|].
    intros ol l W0 Hl. unfold setTorqueToODE, torqueCommand. rewrite Hl. simpl.
    destruct (isRotationalJoint l); [done|]. destruct (isSlideJoint l); [done|].
    by rewrite app_nil_r.
  - apply (actuateLinks_commands _ velocityCommand) in Hrun as (? & ? & ? & _ & ?); [done|].
    intros ol l W0 Hl. unfold setVelocityToODE, velocityCommand. rewrite Hl. simpl.
    destruct (isRotationalJoint l); [done|]. destruct (isSlideJoint l); [done|].
    by rewrite app_nil_r.
Qed.

End ActuationFacts.

(** ** The plane joint of 2D mode *)

Section ImplFrameFacts.
Context `{Solver} `{Devices} `{Model}.

Lemma set_crawlerLinks_same (s : ODESimulatorItemImpl) :
  s = set_crawlerLinks (crawlerLinks s) s.
Proof. by destruct s. Qed.

(** The construction of the adapters writes nothing of the simulator item
    but [crawlerLinks]. *)
Lemma createLinkBody_impl (simImpl : ODESimulatorItemImpl) (parent : option ODELink)
    (origin : Vector3) (this : ODELink) (l : Link) (W : dxWorld) :
  forall me simImpl' W',
  createLinkBody simImpl parent origin this l W = (me, simImpl', W') ->
  simImpl' = set_crawlerLinks (crawlerLinks simImpl') simImpl.
Proof.
  intros me simImpl' W'. unfold createLinkBody, dBodyCreate, dJointCreate. simpl.
  destruct (link_jointType l); simpl;
    repeat match goal with |- context [if ?b then _ else _] => destruct b end; simpl;
    intros [= <- <- <-]; (apply set_crawlerLinks_same || reflexivity).
Qed.

Lemma ODELink_chain_impl (heap : LinkHeap) (t : LinkTree) :
  forall (parent : option nat) (parentOrigin : Vector3) (st st' : Build),
  ODELink_chain heap t parent parentOrigin st = Some st' ->
  b_impl st' = set_crawlerLinks (crawlerLinks (b_impl st')) (b_impl st)
  /\ ob_worldID (b_body st') = ob_worldID (b_body st).
Proof.
  induction t as [|lp child IHc sibling IHs]; intros parent parentOrigin st st'.
  - simpl. intros [= <-]. split; [apply set_crawlerLinks_same|done].
  - simpl. destruct (heap !! lp) as [l|] eqn:Hl; simpl; [|done].
    destruct (ODELink_createLinkBody _ _ _ _ _) as [st1|] eqn:E1; simpl; [|done].
    destruct (ODELink_createGeometry _ _ _) as [st2|] eqn:E2; simpl; [|done].
    destruct (ODELink_chain heap child _ _ st2) as [st3|] eqn:E3; simpl; [|done].
    intros E4.
    apply IHc in E3 as [E3 Hw3]. apply IHs in E4 as [E4 Hw4].
    assert (H2 : b_impl st2 = b_impl st1 /\ ob_worldID (b_body st2) = ob_worldID (b_body st1)).
    { unfold ODELink_createGeometry in E2. destruct (useWorldCollision (b_impl st1)).
      - by injection E2 as <-.
      - simpl in E2. apply bind_Some in E2 as (me & _ & E2).
        destruct (createGeometry _ _ _ _). by injection E2 as <-. }
    assert (H1' : b_impl st1 = set_crawlerLinks (crawlerLinks (b_impl st1)) (b_impl st)
                  /\ ob_worldID (b_body st1) = ob_worldID (b_body st)).
    { unfold ODELink_createLinkBody in E1. case_bool_decide.
      - apply bind_Some in E1 as (me & _ & E1). apply bind_Some in E1 as (par & _ & E1).
        destruct (createLinkBody _ _ _ _ _ _) as [[me1 impl1] W1] eqn:E.
        injection E1 as <-. simpl. split; [|done].
        by apply createLinkBody_impl in E.
      - injection E1 as <-. split; [apply set_crawlerLinks_same|done]. }
    destruct H2 as [H2 Hw2], H1' as [H1' Hw1].
    split; [|congruence].
    rewrite E4, E3, H2, H1'. reflexivity.
Qed.

(** X15.  In 2D mode [createBody] ends by tying the root body of a body that
    is not static to the world with a plane joint: the last handle the call
    creates is a [Plane2D] joint between the body of the first adapter and
    the static environment. *)
Theorem createBody_plane2D (simImpl simImpl' : ODESimulatorItemImpl) (B : Body)
    (ob' : ODEBody) (heap : LinkHeap) (W W' : dxWorld) :
  isStaticModel B = false -> worldID simImpl <> 0%nat -> is2Dmode simImpl = true ->
  createBody simImpl (ODEBody_new B) heap W = Some (simImpl', ob', W') ->
  exists root,
    head (odeLinks ob') = Some root
    /\ bodyID root <> 0%nat
    /\ joints W' !! last_handle W'
       = Some (mkdxJoint dJointTypePlane2D (bodyID root) 0 None None).
Proof.
  intros Hstatic Hworld H2d Hrun.
  revert Hrun. unfold createBody.
  cbn [body odeLinks ODEBody_new geometryId ob_spaceID]. rewrite Hstatic.
  set (ob0 := mkODEBody B [] _ _ _).
  set (W0 := if useWorldCollision simImpl then W else _).
  set (impl0 := if useWorldCollision simImpl then _ else simImpl).
  assert (Hi0 : is2Dmode impl0 = true).
  { unfold impl0. by destruct (useWorldCollision simImpl). }
  unfold ODELink_new.
  destruct (body_tree B) as [|root child sib] eqn:Htree; [done|].
  destruct (ODELink_chain heap _ None Vector3_Zero _) as [st|] eqn:Ech;
    cbn [mbind option_bind]; [|done].
  pose proof (ODELink_chain_impl _ _ _ _ _ _ Ech) as [Himpl Hw].
  assert (Hw' : ob_worldID (b_body st) <> 0%nat) by (rewrite Hw; exact Hworld).
  assert (Hw0 : ob_worldID (b_body (mkBuild impl0 ob0 W0)) <> 0%nat) by exact Hworld.
  pose proof (ODELink_chain_bodies heap _ None Vector3_Zero _ st Hw0 Ech)
    as (ols & Hols & _ & Hlk & _ & _ & Hall & _).
  simpl in Hols, Hlk. destruct ols as [|x ols]; [done|].
  apply Forall_cons in Hall as [[Hx _] _]. simpl in Hx.
  destruct (ODEBody_setKinematicStateToODE _ _ _ _) as [W1|] eqn:E1;
    cbn [mbind option_bind]; [|done].
  destruct (enterGeometryIds _ _ _) as [impl1|] eqn:Eg; cbn [mbind option_bind]; [|done].
  destruct (setExtraJoints _ _ _ _) as [W2|] eqn:E2; cbn [mbind option_bind]; [|done].
  destruct (attachPlane2D _ _ _ _) as [W3|] eqn:E3; cbn [mbind option_bind]; [|done].
  destruct (ODEBody_setTorqueToODE _ _ _) as [W4|] eqn:E4; cbn [mbind option_bind]; [|done].
  intros [= <- <- <-].
  assert (Hi1 : is2Dmode impl1 = true).
  { assert (is2Dmode (b_impl st) = true) as Hst by (rewrite Himpl; exact Hi0).
    unfold enterGeometryIds in Eg. destruct (useWorldCollision (b_impl st)).
    - apply bind_Some in Eg as (v & _ & [= <-]). done.
    - by injection Eg as <-. }
  exists x. rewrite Hols. split; [done|]. split; [lia|].
  unfold attachPlane2D in E3. rewrite Hi1, (bool_decide_eq_true_2 _ Hw') in E3.
  simpl in E3. rewrite Hols in E3. simpl in E3. injection E3 as <-.
  apply (actuateLinks_commands _ torqueCommand) in E4 as (_ & -> & _ & -> & _).
  - simpl. by rewrite lookup_insert_eq.
  - intros ol l W5 Hl. unfold setTorqueToODE, torqueCommand. rewrite Hl. simpl.
    destruct (isRotationalJoint l); [done|]. destruct (isSlideJoint l); [done|].
    by rewrite app_nil_r.
Qed.

End ImplFrameFacts.

(** ** From the solver to the links and back *)

Section PullPushFacts.
Context `{Solver}.

Open Scope R_scope.

(** X9.  Pulling a solver body into its link and pushing the link back, under
    the same convention, leaves the position, the rotation matrix (its
    padding column being zero) and the linear and angular velocity of the
    solver body as they were. *)
Theorem pull_then_push_restores (flipYZ : bool) (ol : ODELink) (l0 l : Link) (W : dxWorld)
    (B : dxBody) :
  bodyID ol <> 0%nat ->
  bodies W !! bodyID ol = Some B ->
  d3 (posr_R B) = 0 -> d7 (posr_R B) = 0 -> d11 (posr_R B) = 0 ->
  pullLink flipYZ ol W l0 = Some l ->
  exists B', bodies (pushLink flipYZ ol l W) !! bodyID ol = Some B'
    /\ posr_pos B' = posr_pos B /\ posr_R B' = posr_R B
    /\ lvel B' = lvel B /\ avel B' = avel B.
Proof.
  intros Hb HB H3 H7 H11 Hpull.
  rewrite pushLink_bodies by done. rewrite lookup_alter_eq, HB. simpl.
  eexists. split; [reflexivity|].
  unfold pullLink, getKinematicStateFromODE, getKinematicStateFromODEflip,
    dBodyGetRotation, dBodyGetPosition, dBodyGetAngularVel, dBodyGetLinearVel in Hpull.
  rewrite HB in Hpull. simpl in Hpull.
  set (l1 := getJointStateFromODE ol W l0) in *.
  assert (Hc : link_c l1 = link_c l0).
  { unfold l1, getJointStateFromODE.
    repeat match goal with |- context [if ?b then _ else _] => destruct b end; done. }
  destruct B as [pos Rm q lv av dat kin].
  destruct Rm as [r0 r1 r2 r3 r4 r5 r6 r7 r8 r9 r10 r11].
  destruct pos as [px py pz], lv as [lx ly lz], av as [ax ay az].
  simpl in *. subst r3 r7 r11.
  destruct (link_c l1) as [cx cy cz] eqn:Ec1.
  destruct flipYZ; simpl in Hpull; injection Hpull as <-;
    unfold pushed, dMatrix3_of, link_T, toInternal, vadd, vsub, cross, mulMV; simpl;
    rewrite ?Ec1; simpl;
    (split; [f_equal; ring|]); (split; [f_equal; ring|]);
    (split; [f_equal; ring|]); f_equal; ring.
Qed.

Close Scope R_scope.

End PullPushFacts.

Section PullFrameFacts.
Context `{Solver}.

Lemma pull_keeps_refl (l : Link) : pull_keeps l l.
Proof. repeat split. Qed.

Lemma pull_keeps_trans (l1 l2 l3 : Link) :
  pull_keeps l1 l2 -> pull_keeps l2 l3 -> pull_keeps l1 l3.
Proof.
  unfold pull_keeps. intros (?&?&?&?&?&?&?&?&?&?&?&?&?&?) (?&?&?&?&?&?&?&?&?&?&?&?&?&?).
  repeat split; congruence.
Qed.

Lemma getJointStateFromODE_keeps (ol : ODELink) (W : dxWorld) (l : Link) :
  pull_keeps l (getJointStateFromODE ol W l).
Proof.
  unfold getJointStateFromODE.
  repeat match goal with |- context [if ?b then _ else _] => destruct b end;
    repeat split.
Qed.

Lemma pullLink_keeps (flipYZ : bool) (ol : ODELink) (W : dxWorld) (l l' : Link) :
  pullLink flipYZ ol W l = Some l' -> pull_keeps l l'.
Proof.
  unfold pullLink, getKinematicStateFromODE, getKinematicStateFromODEflip.
  intros Hpull. eapply pull_keeps_trans; [apply (getJointStateFromODE_keeps ol W)|].
  set (l1 := getJointStateFromODE ol W l) in *.
  destruct flipYZ; simpl in Hpull;
    apply bind_Some in Hpull as (Rm & _ & Hpull);
    apply bind_Some in Hpull as (pos & _ & Hpull);
    apply bind_Some in Hpull as (w & _ & Hpull);
    apply bind_Some in Hpull as (lv & _ & Hpull);
    injection Hpull as <-; repeat split.
Qed.

(** X10.  A pull of a body writes nothing but the pose, the velocities and
    the joint displacement and velocity of the links its adapters wrap: every
    other field of those links, every other link on the heap, and the set of
    links on the heap stay as they were. *)
Theorem pull_frame (flipYZ : bool) (ols : list ODELink) (W : dxWorld) :
  forall heap heap' : LinkHeap,
  pullLinks flipYZ ols W heap = Some heap' ->
  (forall p, p ∉ link <$> ols -> heap' !! p = heap !! p)
  /\ (forall p l, heap !! p = Some l ->
        exists l', heap' !! p = Some l' /\ pull_keeps l l')
  /\ (forall p, heap !! p = None -> heap' !! p = None).
Proof.
  induction ols as [|ol rest IH]; intros heap heap'; simpl.
  - intros [= <-]. split; [done|]. split; [|done].
    intros p l Hl. exists l. split; [done|apply pull_keeps_refl].
  - intros Hrun.
    apply bind_Some in Hrun as (l0 & Hl0 & Hrun).
    apply bind_Some in Hrun as (l0' & Hpull & Hrun).
    destruct (IH _ _ Hrun) as (Hout & Hkeep & Hnone).
    apply pullLink_keeps in Hpull.
    split; [|split].
    + intros p Hp. rewrite ?fmap_cons in Hp. apply not_elem_of_cons in Hp as [Hne Hp].
      rewrite Hout by done. by rewrite lookup_insert_ne.
    + intros p l Hl. destruct (decide (p = link ol)) as [->|Hne].
      * destruct (Hkeep (link ol) l0') as (l' & Hl' & Hk); [by rewrite lookup_insert_eq|].
        exists l'. split; [done|]. eapply pull_keeps_trans; [|exact Hk]. congruence.
      * apply Hkeep. by rewrite lookup_insert_ne.
    + intros p Hp. apply Hnone. rewrite lookup_insert_ne; [done|]. congruence.
Qed.

End PullFrameFacts.

(** ** Pairs without a track, with two tracks, and under a gripper *)

Section MoreContactFacts.
Context `{Solver} `{Devices} `{Model}.

Open Scope R_scope.

Lemma findCrawlerLink_none (m : gmap nat nat) (body1ID body2ID : dBodyID) :
  m !! body1ID = None -> m !! body2ID = None ->
  findCrawlerLink m body1ID body2ID = (None, 1).
Proof.
  intros H1' H2'. unfold findCrawlerLink. rewrite H1', H2'. by case_bool_decide.
Qed.

Lemma omap_created_untracked (mu : R) (body1ID body2ID : dBodyID)
    (process : dContact -> option (option dContact)) (contacts : list dContact) :
  (forall c, process c = Some (Some (set_mu mu (set_mode dContactApprox1 c)))) ->
  omap (created_joint process body1ID body2ID) contacts
  = (fun c => mkContactJoint (set_mu mu (set_mode dContactApprox1 c)) body1ID body2ID)
      <$> contacts.
Proof.
  intros Hp. induction contacts as [|c rest IH]; [done|].
  csimpl. unfold created_joint at 1. rewrite Hp. by rewrite IH.
Qed.

(** X5.  A pair without a tracked link gets one joint per reported contact,
    whatever the depth, each with isotropic friction of the global
    coefficient: in the near callback for the first [MaxNumContacts] contacts
    (when no vacuum gripper claims the pair), in the callback of the external
    detector for every collision of the pair. *)
Theorem untracked_contacts_isotropic :
  (forall (data : Machine) (g1 g2 : dGeomID) (collided : list dContactGeom)
          (G1 G2 : dxGeom),
     geoms (ode data) !! g1 = Some G1 -> geoms (ode data) !! g2 = Some G2 ->
     crawlerLinks (impl data) !! geom_body G1 = None ->
     crawlerLinks (impl data) !! geom_body G2 = None ->
     fst (vacuumGripperNearCallback data (geom_body G1) (geom_body G2)
            (dContact_of <$> take MaxNumContacts collided)) = false ->
     exists data',
       nearCallback data g1 g2 collided = Some data'
       /\ contactJointGroup (impl data')
          = contactJointGroup (impl data)
            ++ ((fun g => mkContactJoint
                            (set_mu (friction (impl data))
                               (set_mode dContactApprox1 (dContact_of g)))
                            (geom_body G1) (geom_body G2))
                  <$> take MaxNumContacts collided)
       /\ forall g, isotropic (friction (impl data))
                      (set_mu (friction (impl data))
                         (set_mode dContactApprox1 (dContact_of g))))
  /\ (forall (M : Machine) (collisionPair : CollisionPair) (link1 link2 : ODELink),
        geometryIdToLink (impl M) !! fst (cp_geometryId collisionPair) = Some (Some link1) ->
        geometryIdToLink (impl M) !! snd (cp_geometryId collisionPair) = Some (Some link2) ->
        crawlerLinks (impl M) !! bodyID link1 = None ->
        crawlerLinks (impl M) !! bodyID link2 = None ->
        exists M',
          collisionCallback M collisionPair = Some M'
          /\ contactJointGroup (impl M')
             = contactJointGroup (impl M)
               ++ ((fun col => mkContactJoint
                                 (set_mu (friction (impl M))
                                    (set_mode dContactApprox1 (contact_of_collision col)))
                                 (bodyID link1) (bodyID link2))
                     <$> collisions collisionPair)).
Proof.
  split.
  - intros data g1 g2 collided G1 G2 HG1 HG2 Hn1 Hn2 Hskip.
    pose proof (findCrawlerLink_none _ _ _ Hn1 Hn2) as Hf.
    destruct (nearCallback_spec data g1 g2 collided G1 G2 HG1 HG2 Hskip)
      as (data' & Hrun & Hgrp).
    { rewrite Hf. simpl. done. }
    exists data'. split; [done|]. split; [|intros g; repeat split].
    rewrite Hgrp, Hf. simpl. f_equal.
    rewrite (omap_created_untracked (friction (impl data))) by done.
    by rewrite <- list_fmap_compose.
  - intros M collisionPair link1 link2 Hl1 Hl2 Hn1 Hn2.
    pose proof (findCrawlerLink_none _ _ _ Hn1 Hn2) as Hf.
    destruct (collisionCallback_total M collisionPair link1 link2 Hl1 Hl2) as [M' Hrun].
    { rewrite Hf. simpl. done. }
    exists M'. split; [done|].
    rewrite (collisionCallback_inv _ _ _ _ _ Hrun Hl1 Hl2), Hf. simpl. f_equal.
    rewrite (omap_created_untracked (friction (impl M))) by done.
    by rewrite <- list_fmap_compose.
Qed.

Lemma findCrawlerLink_both (m : gmap nat nat) (body1ID body2ID : dBodyID) (p2 : LinkPtr) :
  m !! body2ID = Some p2 -> findCrawlerLink m body1ID body2ID = (Some p2, -1).
Proof.
  intros H2'. unfold findCrawlerLink. rewrite H2'. case_bool_decide as Hne; [done|].
  by rewrite Hne, lookup_empty in H2'.
Qed.

Lemma findMecanumWheel_second (simImpl : ODESimulatorItemImpl) (body1ID body2ID : dBodyID)
    (p2 : LinkPtr) :
  crawlerLinks simImpl !! body2ID = Some p2 ->
  findMecanumWheel simImpl body1ID body2ID = getMecanumWheelSetting simImpl body2ID.
Proof.
  intros H2'. unfold findMecanumWheel. rewrite H2'. case_bool_decide as Hne.
  - by destruct (match crawlerLinks simImpl !! body1ID with Some _ => _ | None => _ end).
  - by rewrite Hne, lookup_empty in H2'.
Qed.

(** X6.  When the second body of a pair is tracked, its track decides,
    whether or not the first body is tracked too: a contact that is neither
    too deep nor parallel to that track gets the rolling direction, the
    commanded rate and the mecanum setting of the second body's link, with
    the sign negated; a track or a mecanum setting of the first body is not
    looked at. *)
Theorem second_track_decides (data : Machine) (g1 g2 : dGeomID)
    (collided : list dContactGeom) (G1 G2 : dxGeom) (p2 : LinkPtr) (cl : Link)
    (g : dContactGeom) :
  geoms (ode data) !! g1 = Some G1 -> geoms (ode data) !! g2 = Some G2 ->
  crawlerLinks (impl data) !! geom_body G2 = Some p2 ->
  heap data !! p2 = Some cl ->
  fst (vacuumGripperNearCallback data (geom_body G1) (geom_body G2)
         (dContact_of <$> take MaxNumContacts collided)) = false ->
  g ∈ take MaxNumContacts collided ->
  ~ (cg_depth g > 0.001) ->
  let wheel := getMecanumWheelSetting (impl data) (geom_body G2) in
  let dir := if fst wheel then barrelDirection (snd wheel) cl (cg_normal g)
             else rollingDirection cl (cg_normal g) in
  ~ (norm dir < 1.0e-5) ->
  exists data' c,
    nearCallback data g1 g2 collided = Some data'
    /\ mkContactJoint c (geom_body G1) (geom_body G2) ∈ contactJointGroup (impl data')
    /\ geom c = g
    /\ anisotropic (friction (impl data)) 0.5 (commandedRate cl)
         (normalize (vscale (-1) dir)) c.
Proof.
  intros HG1 HG2 H2' Hcl Hskip Hg Hdepth wheel dir Hdir.
  pose proof (findCrawlerLink_both _ (geom_body G1) _ _ H2') as Hf.
  pose proof (findMecanumWheel_second _ (geom_body G1) _ _ H2') as Hw.
  set (c := set_mu2 0.5
              (set_mu (friction (impl data))
                 (set_motion1 (commandedRate cl)
                    (set_fdir1 (normalize (vscale (-1) dir))
                       (set_mode anisotropicMode (dContact_of g)))))).
  assert (Hc : nearCallback_contact (friction (impl data)) (heap data) (Some p2) (-1)
                 (fst wheel) (snd wheel) (dContact_of g) = Some (Some c)).
  { rewrite (nearCallback_contact_tracked _ _ _ cl) by done.
    cbv zeta. cbn [geom dContact_of]. fold dir.
    destruct (Rgt_dec (cg_depth g) 0.001) as [Hd|_]; [done|].
    destruct (Rlt_dec (norm dir) 1.0e-5) as [Hn|_]; [done|]. done. }
  destruct (nearCallback_joint data g1 g2 collided G1 G2 g c HG1 HG2 Hskip)
    as (data' & Hrun & Hin).
  { rewrite Hf. simpl. intros p [= <-]. by eexists. }
  { done. }
  { rewrite Hf, Hw. simpl. exact Hc. }
  exists data', c. split; [done|]. split; [exact Hin|]. repeat split.
Qed.

Close Scope R_scope.

End MoreContactFacts.

Section GripperFacts.
Context `{Solver} `{Devices} `{Model}.

(** X7.  While a vacuum gripper that is switched on holds something, a pair
    of bodies one of which is the gripper's gets no contact joint at all,
    whatever the other body is, and the nail driver is not consulted: the
    contact group, the nail drivers and the nailed-object registry stay as
    they are. *)
Theorem gripping_pair_skipped (data : Machine) (g1 g2 : dGeomID)
    (collided : list dContactGeom) (G1 G2 : dxGeom) (vg : VacuumGripper) :
  geoms (ode data) !! g1 = Some G1 -> geoms (ode data) !! g2 = Some G2 ->
  geom_body G1 <> 0%nat -> geom_body G2 <> 0%nat ->
  isVacuumGripper (impl data) (geom_body G1) = Some vg
  \/ (isVacuumGripper (impl data) (geom_body G1) = None
      /\ isVacuumGripper (impl data) (geom_body G2) = Some vg) ->
  vg_on vg = true -> vg_isGripping vg = true ->
  exists data',
    nearCallback data g1 g2 collided = Some data'
    /\ contactJointGroup (impl data') = contactJointGroup (impl data)
    /\ nailDriverDevs (impl data') = nailDriverDevs (impl data)
    /\ nailedObjects data' = nailedObjects data.
Proof.
  intros HG1 HG2 Hb1 Hb2 Hvg Hon Hgrip. unfold nearCallback.
  case_bool_decide; [|by eexists].
  rewrite HG1, HG2. simpl.
  destruct (findCrawlerLink _ _ _) as [crawlerlink sign].
  destruct (findMecanumWheel _ _ _) as [isM angle].
  unfold vacuumGripperNearCallback.
  rewrite !bool_decide_eq_false_2 by done. simpl.
  assert (Hne : vacuumGripperDevs (impl data) <> ∅).
  { intros He. unfold isVacuumGripper in Hvg. rewrite He, !lookup_empty in Hvg.
    by destruct Hvg as [?|[_ ?]]. }
  rewrite bool_decide_eq_false_2 by done.
  destruct Hvg as [Hvg|[Hn Hvg]]; rewrite ?Hn, Hvg; simpl; rewrite Hon, Hgrip; simpl;
    destruct (_ && _); by eexists.
Qed.

End GripperFacts.

(** ** The limit check and the registration of nailed objects *)

Section LimitCheckFacts.
Context `{Solver} `{Devices}.

(** The erasure the limit check does for one entry, and the lookup in what
    is left after a list of entries. *)
Lemma limit_erase_lookup (erased : NailedObject -> bool)
    (kvs : list (dBodyID * option NailedObject)) (m0 : gmap nat (option NailedObject))
    (b : dBodyID) :
  foldr (fun kv acc =>
           match kv.2 with
           | Some o => if erased o then delete kv.1 acc else acc
           | None => acc
           end) m0 kvs !! b
  = if existsb (fun kv => bool_decide (kv.1 = b)
                          && match kv.2 with Some o => erased o | None => false end) kvs
    then None else m0 !! b.
Proof.
  induction kvs as [|[k v] kvs IH]; [done|]. simpl.
  destruct v as [o|]; simpl.
  - destruct (erased o); simpl.
    + case_bool_decide as Hk; simpl.
      * subst k. by rewrite lookup_delete_eq.
      * rewrite lookup_delete_ne by done. exact IH.
    + by rewrite andb_false_r.
  - by rewrite andb_false_r.
Qed.

Lemma limit_check_fold (simImpl : ODESimulatorItemImpl) (W : dxWorld)
    (kvs : list (dBodyID * option NailedObject)) (m0 : gmap nat (option NailedObject)) :
  Forall (fun kv => is_Some kv.2) kvs ->
  foldr (fun kv acc =>
           reg ← acc;
           nobj ← snd kv;
           if isLimited W nobj && negb (nailedObjectGripCheck simImpl nobj)
           then Some (mkNailedObjectManager (delete (fst kv) (objectMap reg)))
           else Some reg)
        (Some (mkNailedObjectManager m0)) kvs
  = Some (mkNailedObjectManager
            (foldr (fun kv acc =>
                      match kv.2 with
                      | Some o =>
                          if isLimited W o && negb (nailedObjectGripCheck simImpl o)
                          then delete kv.1 acc else acc
                      | None => acc
                      end) m0 kvs)).
Proof.
  induction kvs as [|[k v] kvs IH]; intros Hall; [done|].
  apply Forall_cons in Hall as [Hv Hall]. simpl in Hv. destruct Hv as [o ->].
  simpl. rewrite (IH Hall). simpl.
  by destruct (_ && _).
Qed.

(** X12.  The limit check of the nailed objects, on a registry the program
    can reach: it ends, erases exactly the entries whose fastening force is
    over the limit while no vacuum gripper holds the body, and leaves every
    other entry as it is. *)
Theorem nailedObjectLimitCheck_erases (simImpl : ODESimulatorItemImpl) (W : dxWorld)
    (reg : NailedObjectManager) :
  registry_reachable reg ->
  exists reg',
    nailedObjectLimitCheck simImpl W reg = Some reg'
    /\ forall b,
         objectMap reg' !! b =
         match objectMap reg !! b with
         | Some (Some o) =>
             if isLimited W o && negb (nailedObjectGripCheck simImpl o)
             then None else Some (Some o)
         | other => other
         end.
Proof.
  intros Hreach. pose proof (registry_no_null reg Hreach) as Hnn.
  unfold nailedObjectLimitCheck. destruct reg as [m]. simpl in *.
  rewrite limit_check_fold.
  2:{ apply Forall_forall. intros [k v] Hin. apply elem_of_map_to_list in Hin.
      simpl. destruct (Hnn k v Hin) as [o ->]. by eexists. }
  eexists. split; [reflexivity|]. intros b. simpl.
  rewrite (limit_erase_lookup
             (fun o => isLimited W o && negb (nailedObjectGripCheck simImpl o))).
  destruct (m !! b) as [v|] eqn:Hb.
  - destruct (Hnn b v Hb) as [o ->].
    destruct (isLimited W o && negb (nailedObjectGripCheck simImpl o)) eqn:Hc.
    + rewrite (proj2 (existsb_exists _ _)); [done|].
      exists (b, Some o). split; [|simpl; by rewrite bool_decide_eq_true_2].
      apply list_elem_of_In. by apply elem_of_map_to_list.
    + destruct (existsb _ _) eqn:He; [|done].
      apply existsb_exists in He as ([k v] & Hin & Hkv). simpl in Hkv.
      apply andb_true_iff in Hkv as [Hk Hv]. apply bool_decide_eq_true in Hk. subst k.
      apply list_elem_of_In, elem_of_map_to_list in Hin.
      assert (v = Some o) as -> by congruence. congruence.
  - destruct (existsb _ _) eqn:He; [|done].
    apply existsb_exists in He as ([k v] & Hin & Hkv). simpl in Hkv.
    apply andb_true_iff in Hkv as [Hk Hv]. apply bool_decide_eq_true in Hk. subst k.
    apply list_elem_of_In, elem_of_map_to_list in Hin. congruence.
Qed.

End LimitCheckFacts.

(** X13.  [addObject] follows [std::map::insert]: the object is registered
    under its body handle only when that handle has no entry yet, an entry
    already there is kept and the new object dropped; either way the handle
    is found afterwards and every other handle is left as it was.  On a null
    pointer there is no result. *)
Theorem addObject_keeps_first (o : NailedObject) (M : NailedObjectManager) :
  addObject None M = None
  /\ exists M',
       addObject (Some o) M = Some M'
       /\ fst (NailedObjectManager_find (getBodyID o) M') = true
       /\ fst (NailedObjectManager_get (getBodyID o) M')
          = match objectMap M !! getBodyID o with
            | Some old => old
            | None => Some o
            end
       /\ (is_Some (objectMap M !! getBodyID o) -> M' = M)
       /\ forall b, b <> getBodyID o -> objectMap M' !! b = objectMap M !! b.
Proof.
  split; [done|]. unfold addObject. simpl. eexists. split; [reflexivity|].
  unfold NailedObjectManager_find, NailedObjectManager_get, map_insert. simpl.
  destruct (objectMap M !! getBodyID o) as [old|] eqn:Hold; simpl.
  - rewrite Hold. split; [done|]. split; [done|]. split; [|done].
    intros _. by destruct M.
  - rewrite lookup_insert_eq. split; [done|]. split; [done|]. split.
    + intros Hs. by apply is_Some_None in Hs.
    + intros b Hb. by rewrite lookup_insert_ne.
Qed.

Section NailDriverFacts.
Context `{Solver} `{Devices} `{Model}.

(** X18.  A nail driver in a pair of bodies: when it reports a contact and
    is ready, the other body is registered as a nailed object afterwards (a
    new object at the first hit, the registered one after [fire] at later
    hits) and no other entry of the registry changes; when it reports no
    contact or is not ready, the registry stays as it is.  The nailed object
    keeps the body it was made for through the constructor and [fire]. *)
Theorem nail_driver_registers (M : Machine) (body1ID body2ID : dBodyID)
    (contacts : list dContact) (nd : NailDriver) (objId : dBodyID) :
  (forall obj d W, getBodyID (nd_fire obj d W).1.1 = getBodyID obj) ->
  (forall w b W, getBodyID (NailedObject_new w b W).1 = b) ->
  registry_reachable (nailedObjects M) ->
  body1ID <> 0%nat -> body2ID <> 0%nat ->
  (isNailDriver (impl M) body1ID = Some nd /\ objId = body2ID)
  \/ (isNailDriver (impl M) body1ID = None
      /\ isNailDriver (impl M) body2ID = Some nd /\ objId = body1ID) ->
  let fired :=
    (0 <? nd_checkContact (nd_contact nd) (geom <$> contacts) (nailDriverDot (impl M))
            (nailDriverDistance (impl M)))%Z
    && nd_ready (nd_contact nd) in
  exists M',
    nailDriverNearCallback M body1ID body2ID contacts = Some M'
    /\ (fired = true ->
        fst (NailedObjectManager_find objId (nailedObjects M')) = true
        /\ forall b, b <> objId ->
             objectMap (nailedObjects M') !! b = objectMap (nailedObjects M) !! b)
    /\ (fired = false -> nailedObjects M' = nailedObjects M).
Proof.
  intros Hfire Hnew Hreach Hb1 Hb2 Hnd fired.
  pose proof (registry_no_null _ Hreach) as Hnn.
  unfold nailDriverNearCallback.
  rewrite !bool_decide_eq_false_2 by done. simpl.
  assert (Hne : nailDriverDevs (impl M) <> ∅).
  { intros He. unfold isNailDriver in Hnd. rewrite He, !lookup_empty in Hnd.
    by destruct Hnd as [[? _]|(_ & ? & _)]. }
  rewrite bool_decide_eq_false_2 by done.
  assert (Hfound : match isNailDriver (impl M) body1ID with
                   | Some nd0 => Some (body1ID, nd0, body2ID)
                   | None =>
                       match isNailDriver (impl M) body2ID with
                       | Some nd0 => Some (body2ID, nd0, body1ID)
                       | None => None
                       end
                   end = Some (match isNailDriver (impl M) body1ID with
                               | Some _ => body1ID
                               | None => body2ID
                               end, nd, objId)).
  { destruct Hnd as [[-> ->]|(-> & -> & ->)]; done. }
  rewrite Hfound. clear Hfound. fold fired.
  destruct fired eqn:Hf.
  - unfold NailedObjectManager_get.
    destruct (objectMap (nailedObjects M) !! objId) as [[obj|]|] eqn:Eget.
    + destruct (nd_fire _ _ _) as [[obj' nd'] W']. eexists. split; [reflexivity|].
      split; [|done]. intros _. simpl. unfold NailedObjectManager_find. simpl.
      rewrite lookup_insert_eq. split; [done|]. intros b Hb. by rewrite lookup_insert_ne.
    + destruct (Hnn objId None Eget) as [? ?]. done.
    + destruct (NailedObject_new _ _ _) as [obj W0] eqn:En.
      pose proof (Hnew (worldID (impl M)) objId (ode M)) as Hid. rewrite En in Hid.
      simpl in Hid.
      destruct (nd_fire _ _ _) as [[obj' nd'] W'] eqn:Ef.
      pose proof (Hfire obj (nd_contact nd) W0) as Hid'. rewrite Ef in Hid'.
      simpl in Hid'. simpl. eexists. split; [reflexivity|]. split; [|done].
      intros _. simpl. unfold NailedObjectManager_find, map_insert. simpl.
      rewrite Hid', Hid, Eget. rewrite lookup_insert_eq. split; [done|].
      intros b Hb. by rewrite lookup_insert_ne.
  - eexists. split; [reflexivity|]. split; [done|]. done.
Qed.

End NailDriverFacts.

(** ** Realignment twice *)

Section AlignIdempotence.
Context `{Solver}.

Open Scope R_scope.

(** Aligning an orientation that is already aligned changes nothing. *)
Lemma alignQuat_idempotent (q : Quat) :
  let q2 := qmul alignToZAxis_r q in
  0 < qw q2 * qw q2 + qy q2 * qy q2 ->
  alignQuat (alignQuat q) = alignQuat q.
Proof.
  intros q2 Hpos. unfold alignQuat. fold q2.
  set (u := qnormalize (mkQuat (qw q2) 0 (qy q2) 0)).
  assert (Hu : qsquaredNorm u = 1).
  { apply qnormalize_unit. unfold qsquaredNorm. cbn [qw qx qy qz]. lra. }
  assert (Hx : qx u = 0) by (unfold u, qnormalize; cbn [qw qx qy qz]; unfold Rdiv; ring).
  assert (Hz : qz u = 0) by (unfold u, qnormalize; cbn [qw qx qy qz]; unfold Rdiv; ring).
  rewrite (qmul_qinverse_unit alignToZAxis_r u alignToZAxis_r_unit).
  f_equal.
  assert (Heta : mkQuat (qw u) 0 (qy u) 0 = u).
  { destruct u as [uw ux uy uz]. simpl in *. by subst. }
  rewrite Heta. unfold qnormalize, qnorm. rewrite Hu, sqrt_1.
  destruct u as [uw ux uy uz]. simpl. f_equal; field.
Qed.

(** X14.  The realignment of 2D mode is idempotent: run again on the solver
    state it has just left (the in-plane part of the orientation first read
    not being zero), it ends and leaves that state as it is. *)
Theorem alignToZAxisIn2Dmode_idempotent (ob : ODEBody) (W W1 : dxWorld) (front : ODELink)
    (B : dxBody) :
  head (odeLinks ob) = Some front ->
  bodies W !! bodyID front = Some B ->
  (let q2 := qmul alignToZAxis_r (body_q B) in
   0 < qw q2 * qw q2 + qy q2 * qy q2) ->
  alignToZAxisIn2Dmode ob W = Some W1 ->
  alignToZAxisIn2Dmode ob W1 = Some W1.
Proof.
  intros Hfront HB Hpos. unfold alignToZAxisIn2Dmode. rewrite Hfront. simpl.
  unfold dBodyGetQuaternion, dBodyGetAngularVel, dBodySetQuaternion, dBodySetAngularVel,
    with_bodies. simpl.
  rewrite HB. simpl. rewrite lookup_alter_eq, HB. simpl.
  intros [= <-]. simpl.
  rewrite !lookup_alter_eq, HB. simpl. rewrite !lookup_alter_eq, HB. simpl.
  rewrite (alignQuat_idempotent (body_q B) Hpos).
  f_equal. f_equal. rewrite !alter_alter_eq. apply alter_ext.
  intros B0 HB0. rewrite HB in HB0. injection HB0 as <-. reflexivity.
Qed.

Close Scope R_scope.

End AlignIdempotence.

(** ** Which links get a mecanum setting, which bodies a device *)

Section MecanumEntryFacts.
Context `{Devices} `{Model}.

Lemma findODELink_Some (p : LinkPtr) (ols : list ODELink) (ol : ODELink) :
  findODELink p ols = Some ol -> ol ∈ ols /\ link ol = p.
Proof.
  induction ols as [|x rest IH]; simpl; [done|].
  case_bool_decide as Hp.
  - intros [= <-]. split; [apply elem_of_cons; auto|done].
  - intros Hf. destruct (IH Hf) as [Hin Hl]. split; [apply elem_of_cons; auto|done].
Qed.

Lemma preserveMecanumWheel_entries (odeBody : ODEBody) (heap : LinkHeap)
    (angles : option (list ValueNode)) (i : nat) (node : ValueNode)
    (setting : gmap dBodyID R) :
  mecanum_entries_of odeBody heap setting
    (preserveMecanumWheel odeBody heap angles i node setting).
Proof.
  assert (Hrefl : mecanum_entries_of odeBody heap setting setting).
  { split; [done|]. auto. }
  unfold preserveMecanumWheel.
  destruct (toString node) as [s|]; [|done].
  destruct (Body_link _ _ _) as [p|]; [|done].
  destruct (heap !! p) as [pl|] eqn:Hp; [|done].
  case_bool_decide as Hty; [done|].
  destruct (barrelAngleSetting angles i) as [d|]; [|done].
  destruct (findODELink p (odeLinks odeBody)) as [ol|] eqn:Hf; [|done].
  apply findODELink_Some in Hf as [Hin Hl].
  unfold map_insert. destruct (setting !! bodyID ol) as [d0|] eqn:Hd0; [done|].
  split.
  - intros b d' Hb. rewrite lookup_insert_ne; [done|]. congruence.
  - intros b d' Hb. destruct (decide (bodyID ol = b)) as [<-|Hne].
    + right. exists ol, pl. rewrite Hl. done.
    + left. by rewrite lookup_insert_ne in Hb.
Qed.

Lemma preserveMecanumWheels_entries (odeBody : ODEBody) (heap : LinkHeap)
    (angles : option (list ValueNode)) (links : list ValueNode) :
  forall (i : nat) (setting : gmap dBodyID R),
  mecanum_entries_of odeBody heap setting
    (preserveMecanumWheels odeBody heap angles i links setting).
Proof.
  induction links as [|node rest IH]; intros i setting; simpl.
  - split; [done|]. auto.
  - destruct (preserveMecanumWheel_entries odeBody heap angles i node setting) as [Hk1 Hn1].
    destruct (IH (S i) (preserveMecanumWheel odeBody heap angles i node setting))
      as [Hk2 Hn2].
    split; [auto|]. intros b d Hb.
    destruct (Hn2 b d Hb) as [Hold|Hnew]; [|by right]. by apply Hn1.
Qed.

(** X16.  [preserveMecanumWheelSetting] never overwrites or removes a stored
    barrel angle, and every entry it adds is keyed by the body of an adapter
    of this body whose link is a crawler joint: links of any other joint
    type (pseudo continuous tracks among them), links that are not found and
    entries that are not scalars get no setting.  Nothing else of the
    simulator item is written. *)
Theorem preserveMecanumWheelSetting_entries (odeBody : ODEBody) (heap : LinkHeap)
    (simImpl : ODESimulatorItemImpl) :
  let simImpl' := preserveMecanumWheelSetting odeBody heap simImpl in
  (forall b d, mecanumWheelSetting simImpl !! b = Some d ->
               mecanumWheelSetting simImpl' !! b = Some d)
  /\ (forall b d, mecanumWheelSetting simImpl' !! b = Some d ->
        mecanumWheelSetting simImpl !! b = Some d
        \/ exists ol pl, ol ∈ odeLinks odeBody /\ bodyID ol = b
             /\ heap !! link ol = Some pl /\ link_jointType pl = CRAWLER_JOINT)
  /\ simImpl' = set_mecanumWheelSetting (mecanumWheelSetting simImpl') simImpl.
Proof.
  unfold preserveMecanumWheelSetting.
  assert (Hsame : simImpl = set_mecanumWheelSetting (mecanumWheelSetting simImpl) simImpl)
    by (by destruct simImpl).
  destruct (body_mecanumWheelSetting (body odeBody)) as [m|]; [|split; [done|split; [auto|done]]].
  destruct (mi_links m) as [links|]; [|split; [done|split; [auto|done]]].
  case_bool_decide; [split; [done|split; [auto|done]]|].
  simpl.
  destruct (preserveMecanumWheels_entries odeBody heap (mi_barrelAngles m) links 0
              (mecanumWheelSetting simImpl)) as [Hk Hn].
  split; [exact Hk|]. split; [exact Hn|done].
Qed.

End MecanumEntryFacts.

Section DeviceRegistrationFacts.
Context `{Solver} `{Devices} `{Model}.

(** The two device loops of [addBody] as loops over a map alone: the entry
    for the device [dev] on the link of [ol] is [entry ol dev]. *)
Lemma register_devices_lookup {D E : Type} (entry : ODELink -> D -> E)
    (devs : list (LinkPtr * D)) (ols : list ODELink) :
  forall (m : gmap dBodyID E) (b : dBodyID),
  let m' := foldl (fun m ol =>
                     foldl (fun m dev =>
                              if bool_decide (link ol = fst dev)
                              then map_insert (bodyID ol) (entry ol (snd dev)) m
                              else m) m devs) m ols in
  (forall e, m !! b = Some e -> m' !! b = Some e)
  /\ (forall e, m' !! b = Some e ->
        m !! b = Some e
        \/ exists ol dev, ol ∈ ols /\ bodyID ol = b /\ (link ol, dev) ∈ devs
             /\ e = entry ol dev)
  /\ (forall ol dev, ol ∈ ols -> bodyID ol = b -> (link ol, dev) ∈ devs ->
        is_Some (m' !! b)).
Proof.
  assert (Hinner : forall (ol : ODELink) (ds : list (LinkPtr * D)) (m : gmap dBodyID E)
                     (b : dBodyID),
    let m' := foldl (fun m dev =>
                       if bool_decide (link ol = fst dev)
                       then map_insert (bodyID ol) (entry ol (snd dev)) m
                       else m) m ds in
    (forall e, m !! b = Some e -> m' !! b = Some e)
    /\ (forall e, m' !! b = Some e ->
          m !! b = Some e
          \/ exists dev, bodyID ol = b /\ (link ol, dev) ∈ ds /\ e = entry ol dev)
    /\ (forall dev, bodyID ol = b -> (link ol, dev) ∈ ds -> is_Some (m' !! b))).
  { intros ol ds. induction ds as [|[lp d] ds IH]; intros m b; simpl.
    - split; [done|]. split; [auto|]. intros dev _ Hin. by apply elem_of_nil in Hin.
    - set (m1 := if bool_decide (link ol = lp)
                 then map_insert (bodyID ol) (entry ol d) m else m).
      destruct (IH m1 b) as (Hk & Hn & Hd).
      assert (Hk1 : forall e, m !! b = Some e -> m1 !! b = Some e).
      { intros e He. unfold m1. case_bool_decide; [|done].
        rewrite map_insert_lookup, He. done. }
      assert (Hn1 : forall e, m1 !! b = Some e ->
                m !! b = Some e \/ (link ol = lp /\ bodyID ol = b /\ e = entry ol d)).
      { intros e He. unfold m1 in He. case_bool_decide; [|auto].
        rewrite map_insert_lookup in He. destruct (m !! b); [auto|].
        case_decide; [|done]. injection He as <-. auto. }
      split; [auto|]. split.
      + intros e He. destruct (Hn e He) as [Hm1|(dev & Hb & Hin & ->)].
        * destruct (Hn1 e Hm1) as [?|(<- & Hb & ->)]; [auto|]. right.
          exists d. split; [done|]. split; [apply elem_of_cons; auto|done].
        * right. exists dev. split; [done|]. split; [apply elem_of_cons; auto|done].
      + intros dev Hb Hin. apply elem_of_cons in Hin as [[= <- <-]|Hin]; [|by eapply Hd].
        assert (Hs : is_Some (m1 !! b)).
        { unfold m1. rewrite bool_decide_eq_true_2 by done.
          rewrite map_insert_lookup. destruct (m !! b); [by eexists|].
          rewrite decide_True by done. by eexists. }
        destruct Hs as [e He]. exists e. by apply Hk. }
  induction ols as [|ol ols IH]; intros m b; simpl.
  - split; [done|]. split; [auto|]. intros ol dev Hin. by apply elem_of_nil in Hin.
  - set (m1 := foldl _ m devs).
    destruct (Hinner ol devs m b) as (Hk1 & Hn1 & Hd1). fold m1 in Hk1, Hn1, Hd1.
    destruct (IH m1 b) as (Hk & Hn & Hd).
    split; [auto|]. split.
    + intros e He. destruct (Hn e He) as [Hm1|(ol' & dev & Hin & Hrest)].
      * destruct (Hn1 e Hm1) as [?|(dev & Hb & Hin & ->)]; [auto|]. right.
        exists ol, dev. split; [apply elem_of_cons; auto|done].
      * right. exists ol', dev. split; [apply elem_of_cons; auto|done].
    + intros ol' dev Hin Hb Hdev. apply elem_of_cons in Hin as [->|Hin]; [|by eapply Hd].
      destruct (Hd1 dev Hb Hdev) as [e He]. exists e. by apply Hk.
Qed.

Lemma registerNailDrivers_map (odeBody : ODEBody) (simImpl : ODESimulatorItemImpl) :
  registerNailDrivers odeBody simImpl
  = set_nailDriverDevs
      (foldl (fun m ol =>
                foldl (fun m dev =>
                         if bool_decide (link ol = fst dev)
                         then map_insert (bodyID ol) (snd dev) m else m)
                      m (body_nailDrivers (body odeBody)))
             (nailDriverDevs simImpl) (odeLinks odeBody))
      simImpl.
Proof.
  unfold registerNailDrivers. generalize (body_nailDrivers (body odeBody)) as devs.
  intros devs. generalize (odeLinks odeBody) as ols. intros ols. revert simImpl.
  assert (Hinner : forall (ol : ODELink) (ds : list (LinkPtr * NailDriver)) simImpl,
    foldl (fun simImpl dev =>
             if bool_decide (link ol = fst dev)
             then set_nailDriverDevs
                    (map_insert (bodyID ol) (snd dev) (nailDriverDevs simImpl)) simImpl
             else simImpl) simImpl ds
    = set_nailDriverDevs
        (foldl (fun m dev =>
                  if bool_decide (link ol = fst dev)
                  then map_insert (bodyID ol) (snd dev) m else m)
               (nailDriverDevs simImpl) ds) simImpl).
  { intros ol ds. induction ds as [|d ds IH]; intros simImpl; simpl.
    - by destruct simImpl.
    - rewrite IH. by case_bool_decide. }
  induction ols as [|ol ols IH]; intros simImpl; simpl.
  - by destruct simImpl.
  - rewrite Hinner, IH. done.
Qed.

Lemma registerVacuumGrippers_map (odeBody : ODEBody) (simImpl : ODESimulatorItemImpl) :
  registerVacuumGrippers odeBody simImpl
  = set_vacuumGripperDevs
      (foldl (fun m ol =>
                foldl (fun m dev =>
                         if bool_decide (link ol = fst dev)
                         then map_insert (bodyID ol) (vg_set_gripper (bodyID ol) (snd dev)) m
                         else m)
                      m (body_vacuumGrippers (body odeBody)))
             (vacuumGripperDevs simImpl) (odeLinks odeBody))
      simImpl.
Proof.
  unfold registerVacuumGrippers. generalize (body_vacuumGrippers (body odeBody)) as devs.
  intros devs. generalize (odeLinks odeBody) as ols. intros ols. revert simImpl.
  assert (Hinner : forall (ol : ODELink) (ds : list (LinkPtr * VacuumGripper)) simImpl,
    foldl (fun simImpl dev =>
             if bool_decide (link ol = fst dev)
             then set_vacuumGripperDevs
                    (map_insert (bodyID ol) (vg_set_gripper (bodyID ol) (snd dev))
                       (vacuumGripperDevs simImpl)) simImpl
             else simImpl) simImpl ds
    = set_vacuumGripperDevs
        (foldl (fun m dev =>
                  if bool_decide (link ol = fst dev)
                  then map_insert (bodyID ol) (vg_set_gripper (bodyID ol) (snd dev)) m
                  else m)
               (vacuumGripperDevs simImpl) ds) simImpl).
  { intros ol ds. induction ds as [|d ds IH]; intros simImpl; simpl.
    - by destruct simImpl.
    - rewrite IH. by case_bool_decide. }
  induction ols as [|ol ols IH]; intros simImpl; simpl.
  - by destruct simImpl.
  - rewrite Hinner, IH. done.
Qed.

(** X17.  The device loops of [addBody]: a nail driver or a vacuum gripper of
    the body is registered under the body handle of the adapter that wraps
    the link it is mounted on (the gripper with that handle written into
    it); a handle that already has a device keeps it, so of two devices on
    one link the first is kept; and every mounted device finds its handle
    registered afterwards. *)
Theorem addBody_registers_devices (odeBody : ODEBody) (simImpl : ODESimulatorItemImpl)
    (b : dBodyID) :
  let withDrivers := registerNailDrivers odeBody simImpl in
  let withGrippers := registerVacuumGrippers odeBody simImpl in
  ((forall nd, nailDriverDevs simImpl !! b = Some nd ->
               nailDriverDevs withDrivers !! b = Some nd)
   /\ (forall nd, nailDriverDevs withDrivers !! b = Some nd ->
         nailDriverDevs simImpl !! b = Some nd
         \/ exists ol, ol ∈ odeLinks odeBody /\ bodyID ol = b
              /\ (link ol, nd) ∈ body_nailDrivers (body odeBody))
   /\ (forall ol nd, ol ∈ odeLinks odeBody -> bodyID ol = b ->
         (link ol, nd) ∈ body_nailDrivers (body odeBody) ->
         is_Some (nailDriverDevs withDrivers !! b)))
  /\ ((forall vg, vacuumGripperDevs simImpl !! b = Some vg ->
                  vacuumGripperDevs withGrippers !! b = Some vg)
      /\ (forall vg, vacuumGripperDevs withGrippers !! b = Some vg ->
            vacuumGripperDevs simImpl !! b = Some vg
            \/ exists ol dev, ol ∈ odeLinks odeBody /\ bodyID ol = b
                 /\ (link ol, dev) ∈ body_vacuumGrippers (body odeBody)
                 /\ vg = vg_set_gripper b dev)
      /\ (forall ol dev, ol ∈ odeLinks odeBody -> bodyID ol = b ->
            (link ol, dev) ∈ body_vacuumGrippers (body odeBody) ->
            is_Some (vacuumGripperDevs withGrippers !! b))).
Proof.
  intros withDrivers withGrippers. split.
  - unfold withDrivers. rewrite registerNailDrivers_map. simpl.
    destruct (register_devices_lookup (fun _ nd => nd) (body_nailDrivers (body odeBody))
                (odeLinks odeBody) (nailDriverDevs simImpl) b) as (Hk & Hn & Hd).
    split; [exact Hk|]. split; [|exact Hd].
    intros nd Hnd. destruct (Hn nd Hnd) as [?|(ol & dev & Hin & Hb & Hdev & ->)]; [auto|].
    right. by exists ol.
  - unfold withGrippers. rewrite registerVacuumGrippers_map. simpl.
    destruct (register_devices_lookup (fun ol dev => vg_set_gripper (bodyID ol) dev)
                (body_vacuumGrippers (body odeBody))
                (odeLinks odeBody) (vacuumGripperDevs simImpl) b) as (Hk & Hn & Hd).
    split; [exact Hk|]. split; [|exact Hd].
    intros vg Hvg. destruct (Hn vg Hvg) as [?|(ol & dev & Hin & Hb & Hdev & ->)]; [auto|].
    right. exists ol, dev. by rewrite Hb.
Qed.

End DeviceRegistrationFacts.

(** ** Geometries of static links, loop-closure joints and geometry identifiers *)

Section StaticPlacementFacts.
Context `{Solver}.

Open Scope R_scope.

(** A loop that places the geometries of a list, each by a rule of its own,
    leaves each listed geometry where its rule puts it and the others where
    they were. *)
Lemma place_geoms_spec (place : dGeomID -> dxGeom -> dxGeom) (gs : list dGeomID) :
  forall W : dxWorld,
  let W' := foldl (fun W it => with_geoms (alter (place it) it) W) W gs in
  bodies W' = bodies W /\ joints W' = joints W /\ commands W' = commands W
  /\ last_handle W' = last_handle W
  /\ (forall g, g ∉ gs -> geoms W' !! g = geoms W !! g)
  /\ ((forall g G, place g (place g G) = place g G) ->
      forall g, g ∈ gs -> geoms W' !! g = place g <$> geoms W !! g).
Proof.
  induction gs as [|it rest IH]; intros W; cbn [foldl].
  - repeat split; try done. intros _ g Hin. by apply elem_of_nil in Hin.
  - destruct (IH (with_geoms (alter (place it) it) W)) as (Hb & Hj & Hc & Hh & Hout & Hin).
    cbn zeta in *. rewrite Hb, Hj, Hc, Hh. repeat split; try done.
    + intros g Hg. apply not_elem_of_cons in Hg as [Hne Hg].
      rewrite (Hout g Hg). simpl. by rewrite lookup_alter_ne.
    + intros Hidem g Hg.
      destruct (decide (g ∈ rest)) as [Hr|Hr].
      * rewrite (Hin Hidem g Hr). simpl.
        destruct (decide (it = g)) as [->|Hne].
        -- rewrite lookup_alter_eq. destruct (geoms W !! g); simpl; [|done].
           by rewrite Hidem.
        -- by rewrite lookup_alter_ne.
      * apply elem_of_cons in Hg as [->|Hg]; [|done].
        rewrite (Hout _ Hr). simpl. by rewrite lookup_alter_eq.
Qed.

(** X19.  Pushing the state of a link without a solver body (a link of a
    static model) places its geometries and touches nothing else.  In the
    direct convention every geometry goes to the link's pose composed with
    the geometry's own offset (the identity when none is kept), the centre of
    mass added to the position.  In the flipped convention every geometry
    goes to the same place, [(c.x, c.y, -c.z)] with [c] the centre of mass in
    world coordinates, under the flipped rotation of the link: the offsets are
    not applied, and the position is not the [(c.x, c.z, -c.y)] a body
    gets. *)
Theorem static_link_places_geometries (ol : ODELink) (l : Link) (W : dxWorld) :
  bodyID ol = 0%nat ->
  (forall flip,
     bodies (pushLink flip ol l W) = bodies W
     /\ joints (pushLink flip ol l W) = joints W
     /\ forall g, g ∉ geomID ol -> geoms (pushLink flip ol l W) !! g = geoms W !! g)
  /\ forall g G, g ∈ geomID ol -> geoms W !! g = Some G ->
       (let T_ := mulPP (link_T l) (default Position_Identity (offsetMap ol !! g)) in
        geoms (pushLink false ol l W) !! g
        = Some (mkdxGeom (geom_body G) (vadd (translation T_) (link_c l)) (dMatrix3_of T_)))
       /\ (let c := vadd (link_p l) (mulMV (link_R l) (link_c l)) in
           let T := link_R l in
           geoms (pushLink true ol l W) !! g
           = Some (mkdxGeom (geom_body G) (mkVector3 (vx c) (vy c) (- vz c))
                     (mkdMatrix3 (m00 T) (m01 T) (m02 T) 0
                                 (m20 T) (m21 T) (m22 T) 0
                                 (- m10 T) (- m11 T) (- m12 T) 0))).
Proof.
  intros Hb.
  set (placeD := fun (it : dGeomID) (G : dxGeom) =>
         let T_ := mulPP (link_T l) (default Position_Identity (offsetMap ol !! it)) in
         mkdxGeom (geom_body G) (vadd (translation T_) (link_c l)) (dMatrix3_of T_)).
  set (placeF := fun (it : dGeomID) (G : dxGeom) =>
         let c := vadd (link_p l) (mulMV (link_R l) (link_c l)) in
         let T := link_R l in
         mkdxGeom (geom_body G) (mkVector3 (vx c) (vy c) (- vz c))
           (mkdMatrix3 (m00 T) (m01 T) (m02 T) 0
                       (m20 T) (m21 T) (m22 T) 0
                       (- m10 T) (- m11 T) (- m12 T) 0)).
  assert (HD : pushLink false ol l W
               = foldl (fun W it => with_geoms (alter (placeD it) it) W) W (geomID ol)).
  { unfold pushLink, setKinematicStateToODE. simpl. rewrite Hb.
    rewrite bool_decide_eq_false_2 by (intros Hne; by apply Hne).
    generalize (geomID ol) W. intros gs. induction gs as [|it rest IH]; intros W0; [done|].
    cbn [foldl]. rewrite <- IH. f_equal.
    unfold dGeomSetRotation, dGeomSetPosition, with_geoms. simpl. f_equal.
    rewrite alter_alter_eq. apply alter_ext. intros G _. done. }
  assert (HF : pushLink true ol l W
               = foldl (fun W it => with_geoms (alter (placeF it) it) W) W (geomID ol)).
  { unfold pushLink, setKinematicStateToODEflip. simpl. rewrite Hb.
    rewrite bool_decide_eq_false_2 by (intros Hne; by apply Hne).
    generalize (geomID ol) W. intros gs. induction gs as [|it rest IH]; intros W0; [done|].
    cbn [foldl]. rewrite <- IH. f_equal.
    unfold dGeomSetRotation, dGeomSetPosition, with_geoms. simpl. f_equal.
    rewrite alter_alter_eq. apply alter_ext. intros G _. done. }
  pose proof (place_geoms_spec placeD (geomID ol) W) as (HbD & HjD & _ & _ & HoD & HiD).
  pose proof (place_geoms_spec placeF (geomID ol) W) as (HbF & HjF & _ & _ & HoF & HiF).
  cbn zeta in *. rewrite <- HD in *. rewrite <- HF in *.
  split.
  - intros [|]; repeat split; done.
  - intros g G Hg HG. split.
    + rewrite HiD by done. by rewrite HG.
    + rewrite HiF by done. by rewrite HG.
Qed.

Close Scope R_scope.

End StaticPlacementFacts.

Section ExtraJointFacts.
Context `{Solver} `{Devices} `{Model}.

Lemma index_aligned_NoDup (ols : list ODELink) (heap : LinkHeap) :
  index_aligned ols heap -> NoDup (link <$> ols).
Proof.
  intros Hal. apply NoDup_alt. intros i j p Hi Hj.
  rewrite list_lookup_fmap in Hi, Hj.
  apply fmap_Some in Hi as (a & Hi & ->). apply fmap_Some in Hj as (b & Hj & Hab).
  destruct (Hal i a Hi) as (l & Hl & <-). destruct (Hal j b Hj) as (l' & Hl' & <-).
  rewrite Hab in Hl. rewrite Hl in Hl'. by injection Hl' as <-.
Qed.

(** The joint one loop-closure entry becomes, between the bodies [b0] and
    [b1], for the link [l0] of its first end. *)
Lemma setExtraJoint_aligned (flipYZ : bool) (ob : ODEBody) (heap : LinkHeap)
    (ej : ExtraJoint) (W : dxWorld) :
  index_aligned (odeLinks ob) heap ->
  fst (ej_link ej) ∈ link <$> odeLinks ob ->
  snd (ej_link ej) ∈ link <$> odeLinks ob ->
  exists a0 a1 l0,
    a0 ∈ odeLinks ob /\ a1 ∈ odeLinks ob
    /\ link a0 = fst (ej_link ej) /\ link a1 = snd (ej_link ej)
    /\ heap !! link a0 = Some l0
    /\ setExtraJoint flipYZ ob heap ej W
       = Some (snd (dJointCreate
            (let conv := fun v => if flipYZ then makeInternal v else v in
             let p := conv (vadd (mulMV (link_attitude l0) (fst (ej_point ej))) (link_p l0)) in
             let a := conv (mulMV (link_attitude l0) (ej_axis ej)) in
             match ej_type ej with
             | EJ_PISTON => mkdxJoint dJointTypePiston (bodyID a0) (bodyID a1) (Some p) (Some a)
             | EJ_BALL => mkdxJoint dJointTypeBall (bodyID a0) (bodyID a1) (Some p) None
             end) W)).
Proof.
  intros Hal H0' H1'.
  assert (Hfind : forall lp, lp ∈ link <$> odeLinks ob ->
            exists ol l, ol ∈ odeLinks ob /\ link ol = lp /\ heap !! lp = Some l
              /\ extraJointLink (odeLinks ob) heap lp = Some (Some ol, Some ol)).
  { intros lp Hin. apply list_elem_of_fmap in Hin as (ol & -> & Hin).
    pose proof Hin as Hin'. apply list_elem_of_lookup in Hin as [i Hi].
    destruct (Hal i ol Hi) as (l & Hl & Hidx).
    exists ol, l. split; [done|]. split; [done|]. split; [done|].
    unfold extraJointLink. rewrite Hl. simpl. rewrite Hidx.
    rewrite bool_decide_eq_true_2 by (by eapply lookup_lt_Some).
    rewrite Hi. simpl. by rewrite bool_decide_eq_true_2. }
  destruct (Hfind _ H0') as (a0 & l0 & Ha0 & Hl0 & Hh0 & E0).
  destruct (Hfind _ H1') as (a1 & l1 & Ha1 & Hl1 & Hh1 & E1).
  exists a0, a1, l0. rewrite Hl0. repeat split; try done.
  unfold setExtraJoint. rewrite E0. cbn [mbind option_bind fst snd]. rewrite E1.
  cbn [mbind option_bind fst snd]. rewrite Hl0, Hh0. cbn [mbind option_bind].
  destruct flipYZ, (ej_type ej); reflexivity.
Qed.

(** X20.  The loop-closure joints of a body that has a world, whose adapters
    are index-aligned with its links and whose loop-closure entries name links
    of the body:
    [setExtraJoints] creates exactly one joint per entry, in the order of the
    entries, between the bodies of the adapters that wrap the two links of the
    entry: a piston with anchor and axis or a ball with an anchor, the anchor
    being the first point of the entry and the axis the entry's axis, both
    taken from the frame of the first link to the world (and flipped when the
    simulation is).  Bodies, geometries, pending commands and the joints that
    were there are untouched. *)
Theorem setExtraJoints_one_joint_each (flipYZ : bool) (ob : ODEBody) (heap : LinkHeap)
    (W : dxWorld) :
  ob_worldID ob <> 0%nat ->
  index_aligned (odeLinks ob) heap ->
  Forall (fun ej => fst (ej_link ej) ∈ link <$> odeLinks ob
                    /\ snd (ej_link ej) ∈ link <$> odeLinks ob)
    (body_extraJoints (body ob)) ->
  exists W',
    setExtraJoints flipYZ ob heap W = Some W'
    /\ bodies W' = bodies W /\ geoms W' = geoms W /\ commands W' = commands W
    /\ last_handle W' = (last_handle W + length (body_extraJoints (body ob)))%nat
    /\ (forall id, (id <= last_handle W)%nat -> joints W' !! id = joints W !! id)
    /\ forall j ej, body_extraJoints (body ob) !! j = Some ej ->
         exists a0 a1 l0,
           a0 ∈ odeLinks ob /\ a1 ∈ odeLinks ob
           /\ link a0 = fst (ej_link ej) /\ link a1 = snd (ej_link ej)
           /\ heap !! link a0 = Some l0
           /\ joints W' !! (last_handle W + 1 + j)%nat
              = Some (let conv := fun v => if flipYZ then makeInternal v else v in
                      let p := conv (vadd (mulMV (link_attitude l0) (fst (ej_point ej)))
                                       (link_p l0)) in
                      let a := conv (mulMV (link_attitude l0) (ej_axis ej)) in
                      match ej_type ej with
                      | EJ_PISTON =>
                          mkdxJoint dJointTypePiston (bodyID a0) (bodyID a1) (Some p) (Some a)
                      | EJ_BALL =>
                          mkdxJoint dJointTypeBall (bodyID a0) (bodyID a1) (Some p) None
                      end).
Proof.
  intros _ Hal. unfold setExtraJoints.
  generalize (body_extraJoints (body ob)). intros ejs. revert W.
  induction ejs as [|ej rest IH]; intros W Hall.
  - exists W. simpl. split; [done|]. split; [done|]. split; [done|]. split; [done|].
    split; [lia|]. split; [done|]. intros j ej Hj. done.
  - apply Forall_cons in Hall as [[H0' H1'] Hall].
    destruct (setExtraJoint_aligned flipYZ ob heap ej W Hal H0' H1')
      as (a0 & a1 & l0 & Ha0 & Ha1 & Hl0 & Hl1 & Hh0 & Eone).
    cbn [setExtraJoints_from]. rewrite Eone. cbn [mbind option_bind].
    match goal with |- context [dJointCreate ?J W] => set (J0 := J) in * end.
    destruct (IH (snd (dJointCreate J0 W)) Hall)
      as (W' & Erest & Hb & Hg & Hc & Hh & Hold & Hnew).
    exists W'. split; [exact Erest|]. simpl in Hb, Hg, Hc, Hh, Hold, Hnew.
    split; [done|]. split; [done|]. split; [done|].
    split; [rewrite Hh; simpl; lia|]. split.
    + intros id Hid. rewrite Hold by lia. simpl. rewrite lookup_insert_ne by lia. done.
    + intros j ej' Hj. destruct j as [|j].
      * injection Hj as <-. exists a0, a1, l0. repeat split; try done.
        replace (last_handle W + 1 + 0)%nat with (S (last_handle W)) by lia.
        rewrite Hold by lia. simpl. by rewrite lookup_insert_eq.
      * simpl in Hj. destruct (Hnew j ej' Hj) as (b0 & b1 & m0 & ? & ? & ? & ? & ? & Hjoint).
        exists b0, b1, m0. repeat split; try done.
        replace (last_handle W + 1 + S j)%nat with (S (last_handle W) + 1 + j)%nat by lia.
        exact Hjoint.
Qed.

End ExtraJointFacts.

Section GeometryIdFacts.
Context `{Solver} `{Devices} `{Model}.

Lemma lookup_resize_vec {A : Type} (n : nat) (x : A) (v : list A) (k : nat) :
  (k < n)%nat -> resize_vec n x v !! k = Some (default x (v !! k)).
Proof.
  intros Hk. unfold resize_vec.
  destruct (decide (k < length v)%nat) as [Hlt|Hge].
  - rewrite lookup_app_l by (rewrite length_take; lia).
    rewrite lookup_take_lt by lia.
    destruct (lookup_lt_is_Some_2 v k Hlt) as [y Hy]. by rewrite Hy.
  - rewrite lookup_app_r by (rewrite length_take; lia).
    rewrite length_take. rewrite (lookup_ge_None_2 v k) by lia. simpl.
    apply lookup_replicate_2. lia.
Qed.

Lemma length_resize_vec {A : Type} (n : nat) (x : A) (v : list A) :
  length (resize_vec n x v) = n.
Proof. unfold resize_vec. rewrite length_app, length_take, length_replicate. lia. Qed.

(** The loop that enters the adapters: an adapter whose link has index [k + j]
    lands at [gid + k + j], and nothing else moves. *)
Lemma registerGeometryIds_spec (gid : nat) (heap : LinkHeap) (ols : list ODELink) :
  forall (k : nat) (v : list (option ODELink)),
  (forall j ol, ols !! j = Some ol ->
     exists l, heap !! link ol = Some l /\ link_index l = (k + j)%nat) ->
  (gid + k + length ols <= length v)%nat ->
  exists v',
    registerGeometryIds gid ols heap v = Some v'
    /\ length v' = length v
    /\ (forall j ol, ols !! j = Some ol -> v' !! (gid + k + j)%nat = Some (Some ol))
    /\ (forall i, (i < gid + k)%nat -> v' !! i = v !! i).
Proof.
  induction ols as [|ol rest IH]; intros k v Hal Hlen.
  - exists v. simpl. repeat split; try done.
  - destruct (Hal 0%nat ol eq_refl) as (l & Hl & Hidx). simpl. rewrite Hl. simpl.
    simpl in Hlen.
    destruct (IH (S k) (<[(gid + link_index l)%nat := Some ol]> v)) as (v' & -> & Hlen' & Hin & Hout).
    { intros j o Hj. destruct (Hal (S j) o Hj) as (l' & Hl' & Hi'). exists l'.
      split; [done|lia]. }
    { rewrite length_insert. lia. }
    exists v'. split; [done|]. rewrite length_insert in Hlen'. split; [done|]. split.
    + intros j o Hj. destruct j as [|j].
      * injection Hj as <-. rewrite Hout by lia. rewrite Hidx.
        replace (gid + k + 0)%nat with (gid + (k + 0))%nat by lia.
        apply list_lookup_insert_eq. lia.
      * simpl in Hj. replace (gid + k + S j)%nat with (gid + S k + j)%nat by lia. by apply Hin.
    + intros i Hi. rewrite Hout by lia. rewrite list_lookup_insert_ne by lia. done.
Qed.

(** X21.  With the external collision detector, [createBody] enters every
    adapter of the body in [geometryIdToLink] at the body's first geometry
    identifier plus the index of its link: afterwards the vector ends with the
    adapters of this body in link order, and the places below the body's
    first identifier hold what they held (null where the vector was
    shorter). *)
Theorem createBody_enters_geometry_ids (simImpl simImpl' : ODESimulatorItemImpl) (B : Body)
    (ob' : ODEBody) (heap0 : LinkHeap) (W W' : dxWorld) :
  Body_wf B heap0 -> useWorldCollision simImpl = true ->
  createBody simImpl (ODEBody_new B) (updateLinkTree B heap0) W = Some (simImpl', ob', W') ->
  length (geometryIdToLink simImpl') = (geometryId ob' + numLinks B)%nat
  /\ (forall i ol, odeLinks ob' !! i = Some ol ->
        geometryIdToLink simImpl' !! (geometryId ob' + i)%nat = Some (Some ol))
  /\ (forall k, (k < geometryId ob')%nat ->
        geometryIdToLink simImpl' !! k
        = Some (default None (geometryIdToLink simImpl !! k))).
Proof.
  intros Hwf Huse Hrun.
  destruct (updateLinkTree_spec B heap0 Hwf) as [Hidx Hdom].
  destruct Hwf as (Hroot & Hnd & Hheap & Hej).
  set (heap := updateLinkTree B heap0) in *.
  revert Hrun. unfold createBody. cbn [body odeLinks ODEBody_new geometryId ob_spaceID].
  rewrite Huse.
  set (ob0 := mkODEBody B [] _ _ _).
  set (impl0 := set_geometryIdToLink _ _ simImpl).
  assert (Hlinks : body_links B = match body_tree B with
                                  | LNil => []
                                  | LNode l child _ => tree_links (LNode l child LNil)
                                  end).
  { unfold body_links. destruct (body_tree B); simpl; [done|]. by rewrite app_nil_r. }
  unfold ODELink_new. destruct (body_tree B) as [|root child sib] eqn:Htree; [done|].
  destruct (ODELink_chain_spec heap (LNode root child LNil) None Vector3_Zero
              (mkBuild impl0 ob0 W))
    as (st & ols & -> & Hols & Hlk & (Hb1 & Hb2 & Hb3 & Hb4) & Hset).
  { intros p Hp. apply Hdom, Hheap. by rewrite Hlinks. }
  { done. }
  simpl in Hols, Hb4. rewrite <- Hlinks in Hlk.
  destruct Hset as (_ & _ & _ & Huse' & Hvec & _). simpl in Huse', Hvec.
  cbn [mbind option_bind].
  destruct (ODEBody_setKinematicStateToODE _ _ _ _) as [W1|] eqn:E1;
    cbn [mbind option_bind]; [|done].
  destruct (enterGeometryIds _ _ _) as [impl1|] eqn:Eg; cbn [mbind option_bind]; [|done].
  destruct (setExtraJoints _ _ _ _) as [W2|] eqn:E2; cbn [mbind option_bind]; [|done].
  destruct (attachPlane2D _ _ _ _) as [W3|] eqn:E3; cbn [mbind option_bind]; [|done].
  destruct (ODEBody_setTorqueToODE _ _ _) as [W4|] eqn:E4; cbn [mbind option_bind]; [|done].
  intros [= <- <- <-].
  unfold enterGeometryIds in Eg. rewrite Huse', Huse in Eg. rewrite Hols in Eg.
  set (g := geometryId (b_body st)) in *.
  set (v0 := resize_vec (g + length ols) None (geometryIdToLink (b_impl st))) in *.
  destruct (registerGeometryIds_spec g heap ols 0 v0) as (v' & Ev & Hlen & Hin & Hout).
  { intros j ol Hj. simpl. apply Hidx. rewrite <- Hlk. by rewrite list_lookup_fmap, Hj. }
  { unfold v0. rewrite length_resize_vec. lia. }
  rewrite Ev in Eg. cbn [mbind option_bind] in Eg. injection Eg as <-. simpl.
  assert (Hn : numLinks B = length ols).
  { unfold numLinks. by rewrite <- Hlk, length_fmap. }
  split; [|split].
  - rewrite Hlen. unfold v0. by rewrite length_resize_vec, Hn.
  - intros i ol Hi. rewrite Hols in Hi. rewrite <- (Hin i ol Hi). f_equal. lia.
  - intros k Hk. rewrite Hout by lia. unfold v0. rewrite lookup_resize_vec by lia.
    by rewrite Hvec.
Qed.

End GeometryIdFacts.

(** ** What the callbacks and a step keep *)

Section GripperSkipFacts.
Context `{Solver} `{Devices} `{Model}.

(** X22.  When the vacuum-gripper hook makes [nearCallback] skip a pair, and
    what the hook can change.  The pair is skipped exactly when both bodies
    are non-null and the gripper of the pair (the one registered for the
    first body, or else the one for the second) is switched on and already
    holds something; the gripper of the second body is not consulted when the
    first body carries one.  A pair with a null body or without a gripper
    leaves the machine as it is.  In every case the hook keeps the contact
    group, the friction, the tracks, the mecanum settings, the links, the nail
    drivers and the registry of nailed objects, and it neither adds nor
    removes a registered gripper. *)
Theorem vacuum_gripper_skip (M : Machine) (body1ID body2ID : dBodyID)
    (contacts : list dContact) :
  (fst (vacuumGripperNearCallback M body1ID body2ID contacts) = true <->
   body1ID <> 0%nat /\ body2ID <> 0%nat
   /\ exists vg,
        (isVacuumGripper (impl M) body1ID = Some vg
         \/ (isVacuumGripper (impl M) body1ID = None
             /\ isVacuumGripper (impl M) body2ID = Some vg))
        /\ vg_on vg = true /\ vg_isGripping vg = true)
  /\ (body1ID = 0%nat \/ body2ID = 0%nat
      \/ (isVacuumGripper (impl M) body1ID = None
          /\ isVacuumGripper (impl M) body2ID = None) ->
      snd (vacuumGripperNearCallback M body1ID body2ID contacts) = M)
  /\ same_contact_view M (snd (vacuumGripperNearCallback M body1ID body2ID contacts))
  /\ nailedObjects (snd (vacuumGripperNearCallback M body1ID body2ID contacts))
     = nailedObjects M
  /\ nailDriverDevs (impl (snd (vacuumGripperNearCallback M body1ID body2ID contacts)))
     = nailDriverDevs (impl M)
  /\ forall b,
       is_Some (vacuumGripperDevs
                  (impl (snd (vacuumGripperNearCallback M body1ID body2ID contacts))) !! b)
       <-> is_Some (vacuumGripperDevs (impl M) !! b).
Proof.
  split; [|split; [|split; [apply vacuumGripperNearCallback_keeps|]]].
  - unfold vacuumGripperNearCallback, isVacuumGripper.
    destruct (decide (body1ID = 0%nat)) as [->|Hb1].
    { simpl. split; [done|]. by intros [? _]. }
    destruct (decide (body2ID = 0%nat)) as [->|Hb2].
    { rewrite (bool_decide_eq_false_2 _ Hb1). simpl. split; [done|]. by intros (_ & ? & _). }
    rewrite (bool_decide_eq_false_2 _ Hb1), (bool_decide_eq_false_2 _ Hb2). simpl.
    case_bool_decide as Hempty.
    { rewrite Hempty, !lookup_empty. simpl. split; [done|].
      intros (_ & _ & vg & [?|[_ ?]] & _); done. }
    destruct (vacuumGripperDevs (impl M) !! body1ID) as [vg1|] eqn:E1.
    + destruct (vg_on vg1) eqn:Eon; simpl.
      * destruct (vg_isGripping vg1) eqn:Egr; simpl.
        -- split.
           ++ intros _. split; [done|]. split; [done|]. exists vg1. auto.
           ++ intros _. by destruct (_ && _).
        -- split.
           ++ by destruct (0 <? _)%Z.
           ++ intros (_ & _ & vg & [[= <-]|[? _]] & _ & Hg); congruence.
      * split.
        -- by destruct (vg_isGripping vg1).
        -- intros (_ & _ & vg & [[= <-]|[? _]] & Ho & _); congruence.
    + destruct (vacuumGripperDevs (impl M) !! body2ID) as [vg2|] eqn:E2.
      * destruct (vg_on vg2) eqn:Eon; simpl.
        -- destruct (vg_isGripping vg2) eqn:Egr; simpl.
           ++ split.
              ** intros _. split; [done|]. split; [done|]. exists vg2. auto.
              ** intros _. by destruct (_ && _).
           ++ split.
              ** by destruct (0 <? _)%Z.
              ** intros (_ & _ & vg & [?|[_ [= <-]]] & _ & Hg); congruence.
        -- split.
           ++ by destruct (vg_isGripping vg2).
           ++ intros (_ & _ & vg & [?|[_ [= <-]]] & Ho & _); congruence.
      * split; [done|]. intros (_ & _ & vg & [?|[_ ?]] & _); done.
  - unfold vacuumGripperNearCallback, isVacuumGripper.
    intros [->|[->|[E1 E2]]].
    + done.
    + by destruct (bool_decide _).
    + destruct (bool_decide _ || bool_decide _); [done|].
      destruct (bool_decide _); [done|]. by rewrite E1, E2.
  - unfold vacuumGripperNearCallback, isVacuumGripper.
    destruct (bool_decide _ || bool_decide _); [done|].
    destruct (bool_decide _); [done|].
    assert (Hput : forall (key : nat) (vg vg' : VacuumGripper) (b : nat),
              vacuumGripperDevs (impl M) !! key = Some vg ->
              is_Some (<[key := vg']> (vacuumGripperDevs (impl M)) !! b)
              <-> is_Some (vacuumGripperDevs (impl M) !! b)).
    { intros key vg vg' b Hk. rewrite lookup_insert_is_Some'.
      split; [intros [->|?]; [by eexists|done]|auto]. }
    destruct (vacuumGripperDevs (impl M) !! body1ID) as [vg1|] eqn:E1;
      [|destruct (vacuumGripperDevs (impl M) !! body2ID) as [vg2|] eqn:E2];
      repeat match goal with
             | |- context [if ?b then _ else _] => destruct b
             end; simpl; (split; [done|]); (split; [done|]); intros b;
      solve [done | eapply Hput; eassumption].
Qed.

End GripperSkipFacts.

Section ContactBoundFacts.
Context `{Solver} `{Devices} `{Model}.

Lemma nearCallback_contact_geom (mu : R) (heap : LinkHeap) (crawlerlink : option LinkPtr)
    (sign : R) (isMecanumWheel : bool) (barrelAngle : R) (contact c : dContact) :
  nearCallback_contact mu heap crawlerlink sign isMecanumWheel barrelAngle contact
    = Some (Some c) ->
  geom c = geom contact.
Proof.
  destruct crawlerlink as [p|].
  - intros Hc. by apply nearCallback_contact_created in Hc as [_ ?].
  - simpl. by intros [= <-].
Qed.

Lemma collisionCallback_contact_geom (mu : R) (heap : LinkHeap)
    (crawlerlink : option LinkPtr) (sign : R) (contact c : dContact) :
  collisionCallback_contact mu heap crawlerlink sign contact = Some (Some c) ->
  geom c = geom contact.
Proof.
  destruct crawlerlink as [p|].
  - intros Hc. by apply collisionCallback_contact_created in Hc as [_ ?].
  - simpl. by intros [= <-].
Qed.

(** The joints of a contact loop: at most one per contact, each between the
    two bodies of the pair and at one of the contacts. *)
Lemma created_joints_bound (process : dContact -> option (option dContact))
    (body1ID body2ID : dBodyID) (contacts : list dContact) :
  (forall contact c, process contact = Some (Some c) -> geom c = geom contact) ->
  let js := omap (created_joint process body1ID body2ID) contacts in
  (length js <= length contacts)%nat
  /\ Forall (fun j => cj_body1 j = body1ID /\ cj_body2 j = body2ID
                      /\ geom (cj_contact j) ∈ geom <$> contacts) js.
Proof.
  intros Hp js. split.
  - subst js. induction contacts as [|c rest IH]; [done|].
    csimpl. destruct (created_joint process body1ID body2ID c); simpl; lia.
  - apply Forall_forall. intros j Hj.
    apply list_elem_of_omap in Hj as (contact & Hin & Hj).
    unfold created_joint in Hj.
    destruct (process contact) as [[c|]|] eqn:E; try done. injection Hj as <-. simpl.
    split; [done|]. split; [done|]. rewrite (Hp _ _ E). apply list_elem_of_fmap. eauto.
Qed.

(** X24.  What one callback can do to the contact group: it never removes or
    changes a joint that is there, and what it appends is bounded by what was
    reported.  [nearCallback] appends at most [MaxNumContacts] joints, one
    for some of the first [MaxNumContacts] reported contacts, each between
    the bodies of the two geometries and with the position, normal and depth
    of a reported contact; [collisionCallback] appends at most one joint per
    collision of the pair, each between the bodies of the two adapters and at
    a reported collision with the normal reversed. *)
Theorem contact_group_grows_by_reports :
  (forall (data data' : Machine) (g1 g2 : dGeomID) (collided : list dContactGeom),
     nearCallback data g1 g2 collided = Some data' ->
     exists js,
       contactJointGroup (impl data') = contactJointGroup (impl data) ++ js
       /\ (length js <= MaxNumContacts)%nat /\ (length js <= length collided)%nat
       /\ Forall (fun j => geom_body <$> geoms (ode data) !! g1 = Some (cj_body1 j)
                           /\ geom_body <$> geoms (ode data) !! g2 = Some (cj_body2 j)
                           /\ geom (cj_contact j) ∈ take MaxNumContacts collided) js)
  /\ (forall (M M' : Machine) (collisionPair : CollisionPair),
        collisionCallback M collisionPair = Some M' ->
        exists js,
          contactJointGroup (impl M') = contactJointGroup (impl M) ++ js
          /\ (length js <= length (collisions collisionPair))%nat
          /\ Forall (fun j =>
                       bodyID <$> mjoin (geometryIdToLink (impl M)
                                           !! fst (cp_geometryId collisionPair))
                       = Some (cj_body1 j)
                       /\ bodyID <$> mjoin (geometryIdToLink (impl M)
                                              !! snd (cp_geometryId collisionPair))
                          = Some (cj_body2 j)
                       /\ exists col, col ∈ collisions collisionPair
                            /\ geom (cj_contact j) = geom (contact_of_collision col)) js).
Proof.
  split.
  - intros data data' g1 g2 collided Hrun.
    assert (Hnone : exists js : list ContactJoint,
              contactJointGroup (impl data) = contactJointGroup (impl data) ++ js
              /\ (length js <= MaxNumContacts)%nat /\ (length js <= length collided)%nat
              /\ Forall (fun j => geom_body <$> geoms (ode data) !! g1 = Some (cj_body1 j)
                           /\ geom_body <$> geoms (ode data) !! g2 = Some (cj_body2 j)
                           /\ geom (cj_contact j) ∈ take MaxNumContacts collided) js).
    { exists []. rewrite app_nil_r. simpl. split; [done|]. split; [lia|]. split; [lia|].
      constructor. }
    pose proof Hrun as Hrun'. unfold nearCallback in Hrun'.
    case_bool_decide as Hlen; [|injection Hrun' as <-; exact Hnone].
    destruct (geoms (ode data) !! g1) as [G1|] eqn:HG1; [|done].
    destruct (geoms (ode data) !! g2) as [G2|] eqn:HG2; [|done].
    clear Hrun'.
    destruct (nearCallback_inv _ _ _ _ _ G1 G2 Hrun HG1 HG2) as [Hsame|[_ Hgrp]].
    { rewrite Hsame. exact Hnone. }
    eexists. split; [exact Hgrp|].
    match goal with
    | |- context [omap (created_joint ?p ?b1 ?b2) ?cs] =>
        destruct (created_joints_bound p b1 b2 cs) as [Hle Hall]
    end.
    { intros contact c. apply nearCallback_contact_geom. }
    cbn zeta in Hle, Hall. rewrite length_fmap, length_take in Hle.
    split; [lia|]. split; [lia|].
    eapply Forall_impl; [exact Hall|]. cbv beta. intros j (-> & -> & Hin).
    split; [done|]. split; [done|].
    rewrite <- list_fmap_compose in Hin.
    apply list_elem_of_fmap in Hin as (g & -> & Hin). exact Hin.
  - intros M M' collisionPair Hrun.
    pose proof Hrun as Hrun'. unfold collisionCallback in Hrun'.
    destruct (mjoin (geometryIdToLink (impl M) !! fst (cp_geometryId collisionPair)))
      as [link1|] eqn:E1; [|done].
    destruct (mjoin (geometryIdToLink (impl M) !! snd (cp_geometryId collisionPair)))
      as [link2|] eqn:E2; [|done].
    clear Hrun'.
    assert (H1' : geometryIdToLink (impl M) !! fst (cp_geometryId collisionPair)
                  = Some (Some link1)).
    { destruct (geometryIdToLink (impl M) !! _) as [[a|]|]; simpl in E1; congruence. }
    assert (H2' : geometryIdToLink (impl M) !! snd (cp_geometryId collisionPair)
                  = Some (Some link2)).
    { destruct (geometryIdToLink (impl M) !! (cp_geometryId collisionPair).2) as [[a|]|];
        simpl in E2; congruence. }
    pose proof (collisionCallback_inv _ _ _ _ _ Hrun H1' H2') as Hgrp. cbn zeta in Hgrp.
    eexists. split; [exact Hgrp|].
    match goal with
    | |- context [omap (created_joint ?p ?b1 ?b2) ?cs] =>
        destruct (created_joints_bound p b1 b2 cs) as [Hle Hall]
    end.
    { intros contact c. apply collisionCallback_contact_geom. }
    cbn zeta in Hle, Hall. rewrite length_fmap in Hle. split; [lia|].
    eapply Forall_impl; [exact Hall|]. cbv beta. intros j (-> & -> & Hin).
    split; [done|]. split; [done|].
    rewrite <- list_fmap_compose in Hin.
    apply list_elem_of_fmap in Hin as (col & -> & Hin). exists col. done.
Qed.

End ContactBoundFacts.

Section StepFrameFacts.
Context `{Solver} `{Devices} `{Model}.
Variable detectCollisions : list (nat * Position) -> list CollisionPair.

Lemma impl_kept_refl (s : ODESimulatorItemImpl) : impl_kept s s.
Proof. split; [by destruct s|]. by split. Qed.

Lemma impl_kept_trans (s1 s2 s3 : ODESimulatorItemImpl) :
  impl_kept s1 s2 -> impl_kept s2 s3 -> impl_kept s1 s3.
Proof.
  intros [Hc1 [Hv1 Hn1]] [Hc2 [Hv2 Hn2]]. split; [|split].
  - unfold same_configuration in *. rewrite Hc2. rewrite Hc1. by destruct s1.
  - intros b. by rewrite Hv2, Hv1.
  - intros b. by rewrite Hn2, Hn1.
Qed.

Lemma lookup_put_is_Some {V : Type} (m : gmap nat V) (key : nat) (v v' : V) (b : nat) :
  m !! key = Some v -> is_Some (<[key := v']> m !! b) <-> is_Some (m !! b).
Proof.
  intros Hk. rewrite lookup_insert_is_Some'.
  split; [intros [->|?]; [by eexists|done]|auto].
Qed.

Lemma vacuumGripperNearCallback_impl (M : Machine) (body1ID body2ID : dBodyID)
    (contacts : list dContact) :
  impl_kept (impl M) (impl (snd (vacuumGripperNearCallback M body1ID body2ID contacts))).
Proof.
  unfold vacuumGripperNearCallback, isVacuumGripper.
  destruct (bool_decide _ || bool_decide _); [apply impl_kept_refl|].
  destruct (bool_decide _); [apply impl_kept_refl|].
  destruct (vacuumGripperDevs (impl M) !! body1ID) as [vg1|] eqn:E1;
    [|destruct (vacuumGripperDevs (impl M) !! body2ID) as [vg2|] eqn:E2];
    repeat match goal with
           | |- context [if ?b then _ else _] => destruct b
           end; simpl; try apply impl_kept_refl;
    (split; [by destruct (impl M)|]); (split; [|done]); intros b; simpl;
    eapply lookup_put_is_Some; eassumption.
Qed.

Lemma nailDriverNearCallback_impl (M M' : Machine) (body1ID body2ID : dBodyID)
    (contacts : list dContact) :
  nailDriverNearCallback M body1ID body2ID contacts = Some M' ->
  impl_kept (impl M) (impl M').
Proof.
  unfold nailDriverNearCallback, isNailDriver.
  destruct (_ || _ || _); [intros [= <-]; apply impl_kept_refl|].
  assert (Hput : forall key nd nd' W reg,
            nailDriverDevs (impl M) !! key = Some nd ->
            impl_kept (impl M)
              (impl (mkMachine _ (set_nailDriverDevs (<[key := nd']> (nailDriverDevs (impl M)))
                                    (impl M)) W (heap M) reg))).
  { intros key nd nd' W reg Hk. split; [by destruct (impl M)|]. split; [done|].
    intros b. simpl. eapply lookup_put_is_Some; eassumption. }
  destruct (nailDriverDevs (impl M) !! body1ID) as [nd1|] eqn:E1;
    [|destruct (nailDriverDevs (impl M) !! body2ID) as [nd2|] eqn:E2];
    try (intros [= <-]; apply impl_kept_refl);
    (destruct (_ && _); [|intros [= <-]; eapply Hput; eassumption]);
    unfold NailedObjectManager_get, addObject;
    repeat match goal with
           | |- context [match ?x with Some _ => _ | None => _ end] => destruct x
           | |- context [let '(_, _) := ?x in _] => destruct x
           end; simpl; intros [= <-]; eapply Hput; eassumption.
Qed.

Lemma nearCallback_impl (data data' : Machine) (g1 g2 : dGeomID)
    (collided : list dContactGeom) :
  nearCallback data g1 g2 collided = Some data' -> impl_kept (impl data) (impl data').
Proof.
  unfold nearCallback. case_bool_decide; [|intros [= <-]; apply impl_kept_refl].
  destruct (geoms (ode data) !! g1) as [G1|]; simpl; [|done].
  destruct (geoms (ode data) !! g2) as [G2|]; simpl; [|done].
  destruct (findCrawlerLink _ _ _) as [crawlerlink sign].
  destruct (findMecanumWheel _ _ _) as [isM angle].
  pose proof (vacuumGripperNearCallback_impl data (geom_body G1) (geom_body G2)
                (dContact_of <$> take MaxNumContacts collided)) as Hv.
  destruct (vacuumGripperNearCallback _ _ _ _) as [skip data1]. simpl in Hv.
  destruct skip; [by intros [= <-]|].
  destruct (nailDriverNearCallback _ _ _ _) as [data2|] eqn:End; simpl; [|done].
  apply nailDriverNearCallback_impl in End.
  destruct (createContactJoints _ _ _ _ _) as [group|]; simpl; [|done].
  intros [= <-]. simpl.
  eapply impl_kept_trans; [exact Hv|]. eapply impl_kept_trans; [exact End|].
  split; [by destruct (impl data2)|]. by split.
Qed.

Lemma collisionCallback_impl (M M' : Machine) (collisionPair : CollisionPair) :
  collisionCallback M collisionPair = Some M' -> impl_kept (impl M) (impl M').
Proof.
  unfold collisionCallback. intros Hrun.
  apply bind_Some in Hrun as (link1 & _ & Hrun).
  apply bind_Some in Hrun as (link2 & _ & Hrun).
  destruct (findCrawlerLink _ _ _) as [crawlerlink sign].
  apply bind_Some in Hrun as (group & _ & Hrun). injection Hrun as <-. simpl.
  split; [by destruct (impl M)|]. by split.
Qed.

Lemma actuate_impl (activeSimBodies : list ODEBody) :
  forall M M' : Machine, actuate activeSimBodies M = Some M' -> impl M' = impl M.
Proof.
  induction activeSimBodies as [|odeBody rest IH]; intros M M'; simpl.
  - by intros [= <-].
  - intros Hrun. apply bind_Some in Hrun as (W & _ & Hrun).
    by rewrite (IH _ _ Hrun).
Qed.

Lemma collide_impl (activeSimBodies : list ODEBody) (M M' : Machine) :
  collide detectCollisions activeSimBodies M = Some M' -> impl_kept (impl M) (impl M').
Proof.
  unfold collide. destruct (useWorldCollision _).
  - intros Hc. apply bind_Some in Hc as (poses & _ & Hc). revert Hc.
    apply (forEachM_invariant (fun M0 => impl_kept (impl M) (impl M0))).
    + intros s x s' Hs Hx. eapply impl_kept_trans; [exact Hs|].
      by eapply collisionCallback_impl.
    + apply impl_kept_refl.
  - apply (forEachM_invariant (fun M0 => impl_kept (impl M) (impl M0))).
    + intros s x s' Hs Hx. eapply impl_kept_trans; [exact Hs|].
      by eapply nearCallback_impl.
    + apply impl_kept_refl.
Qed.

(** The phases of a step, taken apart. *)
Lemma stepSimulation_phases (M M' : Machine) (activeSimBodies : list ODEBody) (r : bool) :
  stepSimulation detectCollisions M activeSimBodies = Some (r, M') ->
  exists M1 M2,
    actuate activeSimBodies M = Some M1
    /\ collide detectCollisions activeSimBodies (dJointGroupEmpty M1) = Some M2
    /\ forEachM postStep activeSimBodies (integrate M2) = Some M'
    /\ impl_kept (impl M) (impl M2) /\ impl M' = impl M2.
Proof.
  unfold stepSimulation, beforeCollision. intros Hstep.
  apply bind_Some in Hstep as (M1 & Hbefore & Hstep).
  apply bind_Some in Hstep as (M2 & Hcollide & Hstep).
  apply bind_Some in Hstep as (M3 & Hpost & Hstep).
  injection Hstep as _ <-.
  apply fmap_Some in Hbefore as (M0 & Hact & ->).
  exists M0, M2. split; [done|]. split; [done|]. split; [done|].
  split; [|by rewrite (forEachM_postStep_impl _ _ _ Hpost)].
  eapply impl_kept_trans; [|by eapply collide_impl].
  rewrite <- (actuate_impl _ _ _ Hact). simpl.
  split; [by destruct (impl M0)|]. by split.
Qed.

(** X26.  A simulation step keeps the configuration of the simulator item:
    whatever bodies are active and whatever the devices do, the conventions,
    the world and space handles, the time step, the step mode, the friction,
    the collision backend, the velocity mode, the tracks, the geometry table,
    the mecanum settings and the device thresholds are as before (of what
    the item holds here, only the contact group and the states of the
    registered devices may differ), and the step neither registers nor
    unregisters a vacuum gripper or a nail driver. *)
Theorem stepSimulation_keeps_configuration (M M' : Machine)
    (activeSimBodies : list ODEBody) (r : bool) :
  stepSimulation detectCollisions M activeSimBodies = Some (r, M') ->
  same_configuration (impl M) (impl M') /\ same_devices (impl M) (impl M').
Proof.
  intros Hstep.
  destruct (stepSimulation_phases _ _ _ _ Hstep) as (M1 & M2 & _ & _ & _ & Hk & ->).
  exact Hk.
Qed.

End StepFrameFacts.

(** ** The model and the solver in step *)

Section CreatedStateFacts.
Context `{Solver} `{Devices} `{Model}.

(** X25.  [createBody] leaves the solver in step with the model: for a body
    that is not static, the solver body of every adapter holds the pushed
    state of the link the adapter wraps (pose of the centre of mass and the
    velocities there, in the convention of the simulation), so that a pull
    right after the creation gives back the pose and the velocities of the
    link. *)
Theorem createBody_bodies_hold_links (simImpl simImpl' : ODESimulatorItemImpl) (B : Body)
    (ob' : ODEBody) (heap : LinkHeap) (W W' : dxWorld) :
  isStaticModel B = false -> worldID simImpl <> 0%nat ->
  createBody simImpl (ODEBody_new B) heap W = Some (simImpl', ob', W') ->
  forall ol l, ol ∈ odeLinks ob' -> heap !! link ol = Some l ->
    (exists B0, bodies W' !! bodyID ol = Some (pushed (flipYZ simImpl) l B0))
    /\ exists l', pullLink (flipYZ simImpl) ol W' l = Some l'
         /\ link_R l' = link_R l /\ link_p l' = link_p l
         /\ link_v l' = link_v l /\ link_w l' = link_w l.
Proof.
  intros Hstatic Hworld. unfold createBody.
  cbn [body odeLinks ODEBody_new geometryId ob_spaceID]. rewrite Hstatic.
  set (ob0 := mkODEBody B [] _ _ _).
  set (W0 := if useWorldCollision simImpl then W else _).
  set (impl0 := if useWorldCollision simImpl then _ else simImpl).
  assert (Hf0 : flipYZ impl0 = flipYZ simImpl).
  { unfold impl0. by destruct (useWorldCollision simImpl). }
  unfold ODELink_new.
  destruct (body_tree B) as [|root child sib] eqn:Htree; [done|].
  destruct (ODELink_chain heap _ None Vector3_Zero _) as [st|] eqn:Ech;
    cbn [mbind option_bind]; [|done].
  pose proof (ODELink_chain_impl _ _ _ _ _ _ Ech) as [Himpl _].
  assert (Hf : flipYZ (b_impl st) = flipYZ simImpl) by (rewrite Himpl; exact Hf0).
  assert (Hw0 : ob_worldID (b_body (mkBuild impl0 ob0 W0)) <> 0%nat) by exact Hworld.
  pose proof (ODELink_chain_bodies heap _ None Vector3_Zero _ st Hw0 Ech)
    as (ols & Hols & _ & Hlk & Hheap & _ & Hown & Hndb).
  simpl in Hols.
  destruct (ODEBody_setKinematicStateToODE _ _ _ _) as [W1|] eqn:E1;
    cbn [mbind option_bind]; [|done].
  destruct (enterGeometryIds _ _ _) as [impl1|]; cbn [mbind option_bind]; [|done].
  destruct (setExtraJoints _ _ _ _) as [W2|] eqn:E2; cbn [mbind option_bind]; [|done].
  destruct (attachPlane2D _ _ _ _) as [W3|] eqn:E3; cbn [mbind option_bind]; [|done].
  destruct (ODEBody_setTorqueToODE _ _ _) as [W4|] eqn:E4; cbn [mbind option_bind]; [|done].
  intros [= <- <- <-] ol l Hin Hl.
  apply setTorqueToODE_bodies in E4. apply attachPlane2D_bodies in E3.
  apply setExtraJoints_from_bodies in E2.
  unfold ODEBody_setKinematicStateToODE in E1. rewrite Hols, Hf in E1. rewrite Hols in Hin.
  destruct (pushLinks_spec (flipYZ simImpl) ols heap (b_ode st)) as (W1' & E1' & Hpushed & _).
  { apply Forall_forall. intros o Ho.
    destruct (proj1 (Forall_forall _ _) Hown o Ho) as [Hr _].
    split; [lia|]. exact (proj1 (Forall_forall _ _) Hheap o Ho). }
  { exact Hndb. }
  rewrite E1 in E1'. injection E1' as <-.
  destruct (proj1 (Forall_forall _ _) Hown ol Hin) as [_ [B0 HB0]].
  assert (HB : bodies W4 !! bodyID ol = Some (pushed (flipYZ simImpl) l B0)).
  { rewrite E4, E3, E2. by apply Hpushed. }
  split; [by exists B0|].
  destruct (pullLink_pushed (flipYZ simImpl) ol l l W4 B0 HB eq_refl)
    as (l' & Hpull & HR & Hp & Hv & Hw' & _).
  by exists l'.
Qed.

End CreatedStateFacts.

Section StepMirrorFacts.
Context `{Solver} `{Devices} `{Model}.
Variable detectCollisions : list (nat * Position) -> list CollisionPair.

Lemma same_configuration_modes (s s' : ODESimulatorItemImpl) :
  same_configuration s s' -> is2Dmode s' = is2Dmode s /\ flipYZ s' = flipYZ s.
Proof. unfold same_configuration. intros ->. by destruct s. Qed.

(** A pull of a body gives every link it wraps what [pullLink] reads for it,
    and leaves the other links alone. *)
Lemma pullLinks_pulled (flipYZ : bool) (ols : list ODELink) (W : dxWorld) :
  forall heap heap' : LinkHeap,
  NoDup (link <$> ols) ->
  pullLinks flipYZ ols W heap = Some heap' ->
  (forall ol, ol ∈ ols ->
     exists l0 l', heap !! link ol = Some l0 /\ pullLink flipYZ ol W l0 = Some l'
                   /\ heap' !! link ol = Some l')
  /\ (forall p, p ∉ link <$> ols -> heap' !! p = heap !! p).
Proof.
  induction ols as [|ol rest IH]; intros heap heap' Hnd; simpl.
  - intros [= <-]. split; [|done]. intros ol Hin. by apply elem_of_nil in Hin.
  - intros Hrun.
    apply bind_Some in Hrun as (l0 & Hl0 & Hrun).
    apply bind_Some in Hrun as (l0' & Hpull & Hrun).
    rewrite fmap_cons in Hnd. apply NoDup_cons in Hnd as [Hnotin Hnd].
    destruct (IH _ _ Hnd Hrun) as (Hin & Hout). split.
    + intros ol' Hol. apply elem_of_cons in Hol as [->|Hol].
      * exists l0, l0'. split; [done|]. split; [done|].
        rewrite Hout by done. by rewrite lookup_insert_eq.
      * destruct (Hin ol' Hol) as (m0 & m' & Hm0 & Hm & Hm').
        exists m0, m'. split; [|done]. rewrite lookup_insert_ne in Hm0; [done|].
        intros E. apply Hnotin. rewrite E. apply list_elem_of_fmap. eauto.
    + intros p Hp. rewrite ?fmap_cons in Hp. apply not_elem_of_cons in Hp as [Hne Hp].
      rewrite Hout by done. by rewrite lookup_insert_ne.
Qed.

(** The last loop of a step outside 2D mode: the solver is only read, and
    every link of every active body gets what [pullLink] reads for it. *)
Lemma forEachM_postStep_pulled (bs : list ODEBody) :
  forall M M' : Machine,
  is2Dmode (impl M) = false ->
  NoDup (link <$> (bs ≫= odeLinks)) ->
  forEachM postStep bs M = Some M' ->
  ode M' = ode M
  /\ (forall ob ol, ob ∈ bs -> ol ∈ odeLinks ob ->
        exists l0 l', heap M !! link ol = Some l0
          /\ pullLink (flipYZ (impl M)) ol (ode M) l0 = Some l'
          /\ heap M' !! link ol = Some l')
  /\ (forall p, p ∉ link <$> (bs ≫= odeLinks) -> heap M' !! p = heap M !! p).
Proof.
  induction bs as [|ob rest IH]; intros M M' H2d Hnd; simpl.
  - intros [= <-]. split; [done|]. split; [|done].
    intros ob ol Hin. by apply elem_of_nil in Hin.
  - intros Hrun. apply bind_Some in Hrun as (M1 & Hone & Hrest).
    unfold postStep in Hone. rewrite H2d in Hone. simpl in Hone.
    apply bind_Some in Hone as (heap1 & Hpull & Hone). injection Hone as <-.
    rewrite bind_cons, fmap_app in Hnd. apply NoDup_app in Hnd as (Hnd1 & Hdisj & Hnd2).
    destruct (pullLinks_pulled _ _ _ _ _ Hnd1 Hpull) as (Hin1 & Hout1).
    destruct (IH (mkMachine _ (impl M) (ode M) heap1 (nailedObjects M)) M' H2d Hnd2 Hrest)
      as (Hode & Hin2 & Hout2). simpl in Hode, Hin2, Hout2.
    split; [done|]. split.
    + intros ob' ol Hob Hol. apply elem_of_cons in Hob as [->|Hob].
      * destruct (Hin1 ol Hol) as (l0 & l' & Hl0 & Hl & Hl').
        exists l0, l'. split; [done|]. split; [done|].
        rewrite Hout2; [done|]. apply Hdisj. apply list_elem_of_fmap. eauto.
      * destruct (Hin2 ob' ol Hob Hol) as (l0 & l' & Hl0 & Hl & Hl').
        exists l0, l'. split; [|done]. rewrite <- Hl0. symmetry. apply Hout1.
        intros Hin. apply (Hdisj _ Hin). apply list_elem_of_fmap. exists ol.
        split; [done|]. apply list_elem_of_bind. eauto.
    + intros p Hp. rewrite ?bind_cons, fmap_app in Hp.
      apply not_elem_of_app in Hp as [Hp1 Hp2].
      rewrite Hout2 by done. by apply Hout1.
Qed.

Open Scope R_scope.

(** What the direct pull leaves in a link, read against the solver body. *)
Lemma getKinematicStateFromODE_mirror (ol : ODELink) (W : dxWorld) (l0 l' : Link) :
  getKinematicStateFromODE ol W l0 = Some l' ->
  exists B, bodies W !! bodyID ol = Some B
    /\ link_R l' = mkMatrix3 (d0 (posr_R B)) (d1 (posr_R B)) (d2 (posr_R B))
                             (d4 (posr_R B)) (d5 (posr_R B)) (d6 (posr_R B))
                             (d8 (posr_R B)) (d9 (posr_R B)) (d10 (posr_R B))
    /\ vadd (link_p l') (mulMV (link_R l') (link_c l')) = posr_pos B
    /\ link_w l' = avel B
    /\ vadd (link_v l') (cross (link_w l') (mulMV (link_R l') (link_c l'))) = lvel B.
Proof.
  unfold getKinematicStateFromODE, dBodyGetRotation, dBodyGetPosition,
    dBodyGetAngularVel, dBodyGetLinearVel.
  destruct (bodies W !! bodyID ol) as [B|]; simpl; [|done].
  intros [= <-]. exists B. split; [done|]. simpl.
  assert (Hc : link_c (getJointStateFromODE ol W l0) = link_c l0).
  { unfold getJointStateFromODE.
    repeat match goal with |- context [if ?b then _ else _] => destruct b end; done. }
  rewrite Hc. split; [done|].
  destruct (posr_pos B) as [px py pz]. destruct (lvel B) as [ux uy uz].
  destruct (avel B) as [wx wy wz]. destruct (link_c l0) as [cx cy cz].
  unfold vadd, vsub, cross, mulMV. simpl.
  split; [f_equal; ring|]. split; [done|]. f_equal; ring.
Qed.

Close Scope R_scope.

(** X23.  After a step outside 2D mode the model mirrors the solver: every
    link of every active body holds what a pull reads for it from the solver
    state the step ends in.  In the direct convention this is the rotation
    and the angular velocity of the solver body of its adapter, the position
    that puts the link's centre of mass at the position of that body, and the
    velocity that gives the centre of mass the linear velocity of that body.
    (The links of the active bodies are distinct objects.) *)
Theorem step_links_mirror_solver (M M' : Machine) (activeSimBodies : list ODEBody)
    (r : bool) :
  is2Dmode (impl M) = false ->
  NoDup (link <$> (activeSimBodies ≫= odeLinks)) ->
  stepSimulation detectCollisions M activeSimBodies = Some (r, M') ->
  forall ob ol, ob ∈ activeSimBodies -> ol ∈ odeLinks ob ->
    exists l0 l',
      pullLink (flipYZ (impl M)) ol (ode M') l0 = Some l'
      /\ heap M' !! link ol = Some l'
      /\ (flipYZ (impl M) = false ->
          exists B, bodies (ode M') !! bodyID ol = Some B
            /\ link_R l' = mkMatrix3 (d0 (posr_R B)) (d1 (posr_R B)) (d2 (posr_R B))
                                     (d4 (posr_R B)) (d5 (posr_R B)) (d6 (posr_R B))
                                     (d8 (posr_R B)) (d9 (posr_R B)) (d10 (posr_R B))
            /\ vadd (link_p l') (mulMV (link_R l') (link_c l')) = posr_pos B
            /\ link_w l' = avel B
            /\ vadd (link_v l') (cross (link_w l') (mulMV (link_R l') (link_c l')))
               = lvel B).
Proof.
  intros H2d Hnd Hstep ob ol Hob Hol.
  destruct (stepSimulation_phases detectCollisions _ _ _ _ Hstep)
    as (M1 & M2 & _ & _ & Hpost & [Hk _] & _).
  apply same_configuration_modes in Hk as [Hk2 Hkf].
  destruct (forEachM_postStep_pulled activeSimBodies (integrate M2) M') as (Hode & Hin & _).
  { simpl. by rewrite Hk2. }
  { exact Hnd. }
  { exact Hpost. }
  destruct (Hin ob ol Hob Hol) as (l0 & l' & _ & Hpull & Hl').
  rewrite <- Hode in Hpull. change (impl (integrate M2)) with (impl M2) in Hpull.
  rewrite Hkf in Hpull.
  exists l0, l'. split; [done|]. split; [done|].
  intros Hflip. rewrite Hflip in Hpull. unfold pullLink in Hpull. simpl in Hpull.
  by apply getKinematicStateFromODE_mirror in Hpull.
Qed.

End StepMirrorFacts.

(** ** The joints of the adapters *)

Section JointFacts.
Context `{Solver} `{Devices} `{Model}.

Lemma joints_kept_refl (W : dxWorld) : joints_kept W W.
Proof. split; [lia|done]. Qed.

Lemma joints_kept_trans (W1 W2 W3 : dxWorld) :
  joints_kept W1 W2 -> joints_kept W2 W3 -> joints_kept W1 W3.
Proof.
  intros [Hle1 Hk1] [Hle2 Hk2]. split; [lia|].
  intros id Hid. rewrite Hk2 by lia. by apply Hk1.
Qed.

Lemma joints_kept_eq (W W' : dxWorld) :
  joints W' = joints W -> (last_handle W <= last_handle W')%nat -> joints_kept W W'.
Proof. intros Hj Hle. split; [done|]. intros id _. by rewrite Hj. Qed.

Lemma link_joint_mono (heap : LinkHeap) (W W' : dxWorld) (others others' : list dBodyID)
    (ol : ODELink) :
  joints_kept W W' -> others ⊆ others' ->
  link_joint heap W others ol -> link_joint heap W' others' ol.
Proof.
  intros [Hle Hk] Hsub (l & Hl & Hj & Hcase). exists l. split; [done|]. split; [lia|].
  destruct (joint_type_of (link_jointType l)) as [ty|]; [|done].
  destruct Hcase as [?|(Hne & J & HJ & Hty & Hb1 & Hb2)]; [by left|].
  right. split; [done|]. exists J. rewrite Hk by lia. auto.
Qed.

(** The joint [createLinkBody] makes for a link. *)
Lemma createLinkBody_joint (simImpl : ODESimulatorItemImpl) (parent : option ODELink)
    (origin : Vector3) (this : ODELink) (l : Link) (W : dxWorld) :
  forall me simImpl' W',
  createLinkBody simImpl parent origin this l W = (me, simImpl', W') ->
  joints_kept W W'
  /\ (jointID me <= last_handle W')%nat
  /\ match joint_type_of (link_jointType l) with
     | None => jointID me = 0%nat
     | Some ty =>
         (jointID me = 0%nat /\ ty = dJointTypeFixed)
         \/ (jointID me <> 0%nat
             /\ exists J, joints W' !! jointID me = Some J
                  /\ joint_type J = ty /\ joint_body1 J = bodyID me
                  /\ joint_body2 J = match parent with
                                     | Some par => bodyID par
                                     | None => 0%nat
                                     end)
     end.
Proof.
  intros me simImpl' W'.
  unfold createLinkBody, dBodyCreate, dJointCreate, dBodySetKinematic, dBodySetPosition,
    dBodySetRotation, with_bodies. simpl.
  destruct (link_jointType l); simpl;
    repeat match goal with |- context [if ?b then _ else _] => destruct b end; simpl;
    intros [= <- <- <-]; simpl;
    (split; [split; [simpl; lia|intros id Hid; simpl; rewrite ?lookup_insert_ne by lia; done]|]);
    (split; [lia|]);
    first [ done
          | by left
          | right; split; [lia|]; eexists; rewrite lookup_insert_eq; repeat split ].
Qed.

Lemma ODELink_createLinkBody_joint (this : nat) (parent : option nat) (o : Vector3)
    (l : Link) (st st' : Build) (ols0 : list ODELink) (x : ODELink) (pb : dBodyID) :
  odeLinks (b_body st) = ols0 ++ [x] -> length ols0 = this ->
  ob_worldID (b_body st) <> 0%nat ->
  (forall i, parent = Some i -> (i < this)%nat) ->
  match parent with
  | Some i => bodyID <$> ols0 !! i
  | None => Some 0%nat
  end = Some pb ->
  ODELink_createLinkBody this parent o l st = Some st' ->
  exists x', odeLinks (b_body st') = ols0 ++ [x']
    /\ joints_kept (b_ode st) (b_ode st')
    /\ (jointID x' <= last_handle (b_ode st'))%nat
    /\ match joint_type_of (link_jointType l) with
       | None => jointID x' = 0%nat
       | Some ty =>
           (jointID x' = 0%nat /\ ty = dJointTypeFixed)
           \/ (jointID x' <> 0%nat
               /\ exists J, joints (b_ode st') !! jointID x' = Some J
                    /\ joint_type J = ty /\ joint_body1 J = bodyID x'
                    /\ joint_body2 J = pb)
       end.
Proof.
  intros Hols Hlen Hw Hparent Hpb. unfold ODELink_createLinkBody.
  rewrite bool_decide_eq_true_2 by done.
  rewrite Hols. rewrite lookup_app_r by lia.
  replace (this - length ols0)%nat with 0%nat by lia. simpl.
  assert (Hpar : exists par,
            match parent with
            | Some i => Some <$> (ols0 ++ [x]) !! i
            | None => Some None
            end = Some par
            /\ match par with Some p => bodyID p | None => 0%nat end = pb).
  { destruct parent as [i|].
    - rewrite lookup_app_l by (specialize (Hparent i eq_refl); lia).
      destruct (ols0 !! i) as [p|]; simpl in *; [|done].
      injection Hpb as <-. by exists (Some p).
    - injection Hpb as <-. by exists None. }
  destruct Hpar as (par & -> & Hparb). simpl.
  destruct (createLinkBody _ _ _ _ _ _) as [[me1 impl1] W1] eqn:E.
  intros [= <-]. simpl.
  pose proof (createLinkBody_joint _ _ _ _ _ _ _ _ _ E) as (Hk & Hle & Hcase).
  exists me1. rewrite Hparb in Hcase.
  split; [|done].
  rewrite insert_app_r_alt by lia.
  replace (this - length ols0)%nat with 0%nat by lia. done.
Qed.

(** The adapters the constructor appends for a chain of siblings below the
    body [pb]: each has the joint of its link, to [pb] or to the body of
    another adapter of the chain. *)
Lemma ODELink_chain_joints (heap : LinkHeap) (t : LinkTree) :
  forall (parent : option nat) (parentOrigin : Vector3) (st st' : Build) (pb : dBodyID),
  ob_worldID (b_body st) <> 0%nat ->
  (forall i, parent = Some i -> (i < length (odeLinks (b_body st)))%nat) ->
  match parent with
  | Some i => bodyID <$> odeLinks (b_body st) !! i
  | None => Some 0%nat
  end = Some pb ->
  ODELink_chain heap t parent parentOrigin st = Some st' ->
  exists ols,
    odeLinks (b_body st') = odeLinks (b_body st) ++ ols
    /\ joints_kept (b_ode st) (b_ode st')
    /\ Forall (link_joint heap (b_ode st') (pb :: (bodyID <$> ols))) ols.
Proof.
  induction t as [|lp child IHc sibling IHs]; intros parent parentOrigin st st' pb Hw Hlt Hpb.
  - simpl. intros [= <-]. exists []. rewrite app_nil_r.
    split; [done|]. split; [apply joints_kept_refl|constructor].
  - simpl. destruct (heap !! lp) as [l|] eqn:Hl; simpl; [|done].
    set (ols0 := odeLinks (b_body st)) in *.
    set (new := mkODELink lp 0 0 [] ∅ 0).
    destruct (ODELink_createLinkBody _ _ _ _ _) as [st1|] eqn:E1; simpl; [|done].
    destruct (ODELink_createGeometry _ _ _) as [st2|] eqn:E2; simpl; [|done].
    destruct (ODELink_chain heap child _ _ st2) as [st3|] eqn:E3; simpl; [|done].
    intros E4.
    pose proof (ODELink_createLinkBody_joint (length ols0) parent
                  (vadd parentOrigin (link_b l)) l (ODELink_push_back lp st) st1 ols0 new pb
                  eq_refl eq_refl Hw Hlt Hpb E1) as (x1 & Ho1j & Hk1 & Hj1 & Hcase).
    apply (ODELink_createLinkBody_bodies _ _ _ _ _ _ ols0 new) in E1
      as (x1' & Ho1 & Hw1 & _ & Hx1 & Hb1 & _); [|done|done|exact Hw].
    rewrite Ho1j in Ho1. apply app_inj_tail in Ho1 as [_ <-].
    pose proof (ODELink_createGeometry_frame (length ols0) l st1 st2 ols0 x1 Ho1j eq_refl E2)
      as (_ & HJ2 & _ & x2' & Ho2' & Hj2).
    apply (ODELink_createGeometry_bodies _ _ _ _ ols0 x1 Ho1j eq_refl) in E2
      as (x2 & Ho2 & Hw2 & _ & Hx2 & Hb2 & _ & Hle2).
    rewrite Ho2 in Ho2'. apply app_inj_tail in Ho2' as [_ <-].
    simpl in Hw1, Hx1, Hk1.
    assert (Hw3 : ob_worldID (b_body st2) <> 0%nat) by (rewrite Hw2, Hw1; exact Hw).
    assert (Hk2 : joints_kept (b_ode st1) (b_ode st2)) by (by apply joints_kept_eq).
    pose proof (ODELink_chain_bodies _ _ _ _ _ _ Hw3 E3) as (olsc0 & Hoc0 & Hwc & _).
    apply (IHc _ _ _ _ (bodyID x2)) in E3 as (olsc & Hoc & Hkc & Hfc).
    2:{ exact Hw3. }
    2:{ intros i [= <-]. rewrite Ho2, length_app. simpl. lia. }
    2:{ rewrite Ho2. by rewrite lookup_app_r, Nat.sub_diag by lia. }
    apply (IHs _ _ _ _ pb) in E4 as (olss & Hos & Hks & Hfs).
    2:{ by rewrite Hwc. }
    2:{ intros i Hi. specialize (Hlt i Hi). rewrite Hoc, Ho2, !length_app. lia. }
    2:{ destruct parent as [i|]; [|done]. specialize (Hlt i eq_refl).
        rewrite Hoc, Ho2. rewrite !lookup_app_l; [done|lia|rewrite length_app; lia]. }
    exists (x2 :: olsc ++ olss).
    split; [rewrite Hos, Hoc, Ho2; by rewrite <- !app_assoc|].
    assert (Hk13 : joints_kept (b_ode st1) (b_ode st')).
    { eapply joints_kept_trans; [exact Hk2|].
      eapply joints_kept_trans; [exact Hkc|exact Hks]. }
    split; [eapply joints_kept_trans; [exact Hk1|exact Hk13]|].
    constructor; [|apply Forall_app; split].
    + apply (link_joint_mono heap (b_ode st1) _ [pb]); [exact Hk13| |].
      { intros y Hy. apply list_elem_of_singleton in Hy as ->. apply elem_of_cons. by left. }
      exists l. rewrite Hx2, Hx1. simpl. split; [done|]. rewrite Hj2, Hb2.
      split; [done|].
      destruct (joint_type_of (link_jointType l)) as [ty|]; [|done].
      destruct Hcase as [?|(Hne & J & HJ & Hty & Hb1' & Hb2')]; [by left|].
      right. split; [done|]. exists J. rewrite Hb2'.
      split; [done|]. split; [done|]. split; [done|]. by apply list_elem_of_singleton.
    + eapply Forall_impl; [exact Hfc|]. intros ol Hol. cbv beta.
      eapply link_joint_mono; [exact Hks| |exact Hol].
      intros y Hy. rewrite fmap_cons, fmap_app.
      rewrite !elem_of_cons, elem_of_app. rewrite elem_of_cons in Hy. tauto.
    + eapply Forall_impl; [exact Hfs|]. intros ol Hol. cbv beta.
      eapply link_joint_mono; [apply joints_kept_refl| |exact Hol].
      intros y Hy. rewrite fmap_cons, fmap_app.
      rewrite !elem_of_cons, elem_of_app. rewrite elem_of_cons in Hy. tauto.
Qed.

Lemma setExtraJoints_from_joints_kept (flipYZ : bool) (ob : ODEBody) (heap : LinkHeap)
    (ejs : list ExtraJoint) :
  forall W W' : dxWorld,
  setExtraJoints_from flipYZ ob heap ejs W = Some W' -> joints_kept W W'.
Proof.
  induction ejs as [|ej rest IH]; intros W W'; simpl.
  - intros [= <-]. apply joints_kept_refl.
  - destruct (setExtraJoint flipYZ ob heap ej W) as [W1|] eqn:E; simpl; [|done].
    intros Hr. eapply joints_kept_trans; [|exact (IH _ _ Hr)]. clear Hr IH.
    unfold setExtraJoint in E.
    destruct (extraJointLink (odeLinks ob) heap (ej_link ej).1) as [first|];
      cbn [mbind option_bind] in E; [|done].
    destruct (match first.1 with Some _ => _ | None => _ end) as [second|];
      cbn [mbind option_bind] in E; [|done].
    destruct (second.2); [|injection E as <-; apply joints_kept_refl].
    destruct (first.2) as [pair0|]; cbn [mbind option_bind] in E; [|done].
    destruct (heap !! link pair0); cbn [mbind option_bind] in E; [|done].
    destruct (ej_type ej); injection E as <-; (split; [simpl; lia|]);
      intros id Hid; simpl; by rewrite lookup_insert_ne by lia.
Qed.

Lemma pushLinks_joints (flipYZ : bool) (ols : list ODELink) (heap : LinkHeap) :
  forall W W' : dxWorld,
  pushLinks flipYZ ols heap W = Some W' ->
  joints W' = joints W /\ last_handle W' = last_handle W.
Proof.
  assert (Hgeoms : forall (f : dxWorld -> dGeomID -> dxWorld) (gs : list dGeomID),
            (forall W0 g, joints (f W0 g) = joints W0
                          /\ last_handle (f W0 g) = last_handle W0) ->
            forall W0, joints (foldl f W0 gs) = joints W0
                       /\ last_handle (foldl f W0 gs) = last_handle W0).
  { intros f gs Hf. induction gs as [|g gs IH]; intros W0; simpl; [done|].
    destruct (IH (f W0 g)) as [-> ->]. apply Hf. }
  induction ols as [|ol rest IH]; intros W W'; simpl.
  - by intros [= <-].
  - destruct (heap !! link ol) as [l|]; simpl; [|done].
    intros Hp. destruct (IH _ _ Hp) as [-> ->].
    unfold pushLink, setKinematicStateToODEflip, setKinematicStateToODE.
    destruct flipYZ; simpl; case_bool_decide; try done;
      apply Hgeoms; intros W0 g; done.
Qed.

(** X27.  The joints [createBody] gives a body that is not static.  Every
    adapter whose link is a rotational joint has a hinge, and every adapter
    whose link is a slide joint has a slider, under a non-null handle that
    names a live joint of the solver; the joint holds the solver body of the
    adapter on one side and, on the other, the body of an adapter of the same
    body or the static environment.  The adapter of a free link has no
    joint, and the adapter of any other link has a fixed joint or none. *)
Theorem createBody_joints (simImpl simImpl' : ODESimulatorItemImpl) (B : Body)
    (ob' : ODEBody) (heap : LinkHeap) (W W' : dxWorld) :
  isStaticModel B = false -> worldID simImpl <> 0%nat ->
  createBody simImpl (ODEBody_new B) heap W = Some (simImpl', ob', W') ->
  Forall (link_joint heap W' (0%nat :: (bodyID <$> odeLinks ob'))) (odeLinks ob').
Proof.
  intros Hstatic Hworld. unfold createBody.
  cbn [body odeLinks ODEBody_new geometryId ob_spaceID]. rewrite Hstatic.
  set (ob0 := mkODEBody B [] _ _ _).
  set (W0 := if useWorldCollision simImpl then W else _).
  set (impl0 := if useWorldCollision simImpl then _ else simImpl).
  unfold ODELink_new.
  destruct (body_tree B) as [|root child sib] eqn:Htree; [done|].
  destruct (ODELink_chain heap _ None Vector3_Zero _) as [st|] eqn:Ech;
    cbn [mbind option_bind]; [|done].
  assert (Hw0 : ob_worldID (b_body (mkBuild impl0 ob0 W0)) <> 0%nat) by exact Hworld.
  destruct (ODELink_chain_joints heap _ None Vector3_Zero _ st 0%nat Hw0
              ltac:(done) eq_refl Ech) as (ols & Hols & _ & Hall).
  simpl in Hols.
  destruct (ODEBody_setKinematicStateToODE _ _ _ _) as [W1|] eqn:E1;
    cbn [mbind option_bind]; [|done].
  destruct (enterGeometryIds _ _ _) as [impl1|]; cbn [mbind option_bind]; [|done].
  destruct (setExtraJoints _ _ _ _) as [W2|] eqn:E2; cbn [mbind option_bind]; [|done].
  destruct (attachPlane2D _ _ _ _) as [W3|] eqn:E3; cbn [mbind option_bind]; [|done].
  destruct (ODEBody_setTorqueToODE _ _ _) as [W4|] eqn:E4; cbn [mbind option_bind]; [|done].
  intros [= <- <- <-]. rewrite Hols.
  apply pushLinks_joints in E1 as [HJ1 Hh1].
  apply setExtraJoints_from_joints_kept in E2.
  assert (Hk3 : joints_kept W2 W3).
  { unfold attachPlane2D in E3. destruct (is2Dmode impl1 && _).
    - destruct (odeLinks (b_body st) !! _); simpl in E3; [|done]. injection E3 as <-.
      split; [simpl; lia|]. intros id Hid. simpl. by rewrite lookup_insert_ne by lia.
    - injection E3 as <-. apply joints_kept_refl. }
  assert (Hk4 : joints_kept W3 W4).
  { apply (actuateLinks_commands _ torqueCommand) in E4 as (_ & HJ4 & _ & Hh4 & _).
    - apply joints_kept_eq; [done|lia].
    - intros ol l W5 Hl. unfold setTorqueToODE, torqueCommand. rewrite Hl. simpl.
      destruct (isRotationalJoint l); [done|]. destruct (isSlideJoint l); [done|].
      by rewrite app_nil_r. }
  eapply Forall_impl; [exact Hall|]. intros ol Hol. cbv beta.
  eapply link_joint_mono; [| |exact Hol]; [|done].
  eapply joints_kept_trans; [apply (joints_kept_eq _ _ HJ1); lia|].
  eapply joints_kept_trans; [exact E2|].
  eapply joints_kept_trans; [exact Hk3|exact Hk4].
Qed.

End JointFacts.

(** ** The statements at work on the example cart *)

Section Examples.

#[local] Existing Instance idleSolver.
#[local] Existing Instance noDevices.
#[local] Existing Instance plainModel.


Lemma createBody_cart :
  exists simImpl' ob' W',
    createBody (cartImpl false ∅) (ODEBody_new cart)
      (updateLinkTree cart cartHeap) cartWorld = Some (simImpl', ob', W')
    /\ length (odeLinks ob') = numLinks cart
    /\ forall i ol, odeLinks ob' !! i = Some ol ->
         exists l, updateLinkTree cart cartHeap !! link ol = Some l /\ link_index l = i.
Proof.
  apply (createBody_adapters_index_aligned
           (cartImpl false ∅) cart cartHeap cartWorld).
  split; [discriminate|]. split; [|split].
  - apply (bool_decide_unpack _). vm_compute. reflexivity.
  - intros p Hp. change (body_links cart) with [10%nat; 11%nat] in Hp.
    apply elem_of_cons in Hp as [->|Hp]; [by eexists|].
    apply elem_of_cons in Hp as [->|Hp]; [by eexists|].
    by apply elem_of_nil in Hp.
  - constructor.
Defined.

Lemma find_iff_get_oneNail :
  (fst (NailedObjectManager_find 2 oneNail) = true
   <-> is_Some (fst (NailedObjectManager_get 2 oneNail)))
  /\ (fst (NailedObjectManager_get 2 oneNail) = None <-> objectMap oneNail !! 2%nat = None)
  /\ snd (NailedObjectManager_find 2 oneNail) = oneNail
  /\ snd (NailedObjectManager_get 2 oneNail) = oneNail.
Proof.
  apply (find_iff_get oneNail 2).
  apply (reach_addObject (Some nailedBoard) NailedObjectManager_new oneNail reach_new).
  reflexivity.
Defined.

Lemma addBody_resets_first_cart :
  exists reset,
    resetActuation cart cartHeap = Some reset
    /\ (exists root, reset !! 10%nat = Some root /\ link_at_rest root)
    /\ (forall j, j ∈ body_joints cart -> exists l, reset !! j = Some l /\ joint_at_rest l)
    /\ addBody (cartImpl false ∅) (ODEBody_new cart)
         cartHeap cartWorld =
       (let fk := calcForwardKinematics true true cart
                    (clearExternalForces cart reset) in
        '(simImpl', odeBody', W') ← createBody
                                       (cartImpl false ∅) (ODEBody_new cart) fk cartWorld;
        Some (registerNailDrivers odeBody'
                (registerVacuumGrippers odeBody'
                   (preserveMecanumWheelSetting odeBody' fk simImpl')),
              odeBody', fk, W')).
Proof.
  apply (addBody_resets_first (cartImpl false ∅)
           (ODEBody_new cart) cartHeap cartWorld 10).
  - reflexivity.
  - by eexists.
  - intros j Hj. change (body_joints (body (ODEBody_new cart))) with [11%nat] in Hj.
    apply elem_of_cons in Hj as [->|Hj]; [by eexists|]. by apply elem_of_nil in Hj.
Defined.

Lemma contact_group_empty_cart :
  contactJointGroup (impl (dJointGroupEmpty (cartMachine false ∅))) = []
  /\ (forall g, beforeCollision [cartODEBody]
                  (with_contactJointGroup g (cartMachine false ∅))
                = Some (dJointGroupEmpty (cartMachine false ∅)))
  /\ (forall g, stepSimulation (fun _ => [])
                  (with_contactJointGroup g (cartMachine false ∅)) [cartODEBody]
                = stepSimulation (fun _ => [])
                    (cartMachine false ∅) [cartODEBody])
  /\ (forall M', stepSimulation (fun _ => [])
                   (cartMachine false ∅) [cartODEBody] = Some (true, M') ->
        exists M3, collide (fun _ => []) [cartODEBody]
                     (dJointGroupEmpty (cartMachine false ∅)) = Some M3
          /\ contactJointGroup (impl M') = contactJointGroup (impl M3)).
Proof.
  apply (contact_group_empty_before_collision
           (fun _ => []) (cartMachine false ∅) (dJointGroupEmpty (cartMachine false ∅))
           [cartODEBody]).
  reflexivity.
Defined.


(** The length of a vector whose square length is a known square. *)
Lemma norm_of_square (v : Vector3) (x : R) :
  (0 <= x)%R -> dot v v = (x * x)%R -> norm v = x.
Proof. intros Hx Hv. unfold norm. rewrite Hv. by apply sqrt_square. Qed.

Lemma rollingDirection_across :
  rollingDirection cartTrack (cg_normal contactAcross) = mkVector3 1 0 0.
Proof.
  unfold rollingDirection, cross, mulMV. simpl. f_equal; ring.
Qed.

Lemma rollingDirection_along :
  norm (rollingDirection cartTrack (mkVector3 0 1 0)) = 0%R.
Proof.
  apply norm_of_square; [lra|]. unfold rollingDirection, cross, mulMV, dot. simpl. ring.
Qed.

Lemma deep_tracked_contact_discarded_cart :
  (exists data' joints,
     nearCallback (cartMachine false ∅) 1 2 [contactDeep] = Some data'
     /\ contactJointGroup (impl data') = contactJointGroup (impl (cartMachine false ∅)) ++ joints
     /\ Forall (fun j => ~ (cg_depth (geom (cj_contact j)) > 0.001)%R
                         /\ geom (cj_contact j) ∈ [contactDeep]) joints)
  /\ (exists M' joints,
        collisionCallback (cartMachine false ∅) (cartCollisionPair collisionDeep) = Some M'
        /\ contactJointGroup (impl M')
           = contactJointGroup (impl (cartMachine false ∅)) ++ joints
        /\ Forall (fun j => ~ (cg_depth (geom (cj_contact j)) > 0.001)%R
                            /\ geom (cj_contact j)
                               ∈ geom ∘ contact_of_collision
                                 <$> collisions (cartCollisionPair collisionDeep))
             joints).
Proof.
  split.
  - destruct (nearCallback_spec (cartMachine false ∅) 1 2 [contactDeep]
                (mkdxGeom 1 Vector3_Zero identity) (mkdxGeom 2 Vector3_Zero identity)
                eq_refl eq_refl eq_refl) as (data' & Hrun & _).
    { intros p [= <-]. by eexists. }
    exists data'.
    destruct (proj1 deep_tracked_contact_discarded (cartMachine false ∅) data' 1%nat 2%nat
                [contactDeep] (mkdxGeom 1 Vector3_Zero identity)
                (mkdxGeom 2 Vector3_Zero identity) Hrun eq_refl eq_refl) as (joints & Hj).
    { right. by eexists. }
    exists joints. split; [exact Hrun|exact Hj].
  - destruct (collisionCallback_total (cartMachine false ∅) (cartCollisionPair collisionDeep)
                (mkODELink 10 1 0 [] ∅ 0) (mkODELink 11 2 3 [] ∅ 0) eq_refl eq_refl)
      as [M' Hrun].
    { intros p [= <-]. by eexists. }
    exists M'.
    destruct (proj2 deep_tracked_contact_discarded (cartMachine false ∅) M'
                (cartCollisionPair collisionDeep) (mkODELink 10 1 0 [] ∅ 0)
                (mkODELink 11 2 3 [] ∅ 0) Hrun eq_refl eq_refl) as (joints & Hj).
    { right. by eexists. }
    exists joints. split; [exact Hrun|exact Hj].
Defined.

Lemma parallel_tracked_contact_isotropic_cart :
  (exists data' c,
     nearCallback (cartMachine false ∅) 1 2 [contactAlong] = Some data'
     /\ mkContactJoint c 1 2 ∈ contactJointGroup (impl data')
     /\ geom c = contactAlong
     /\ isotropic (friction (impl (cartMachine false ∅))) c)
  /\ (exists M' c,
        collisionCallback (cartMachine false ∅) (cartCollisionPair collisionAlong) = Some M'
        /\ mkContactJoint c 1 2 ∈ contactJointGroup (impl M')
        /\ geom c = geom (contact_of_collision collisionAlong)
        /\ isotropic (friction (impl (cartMachine false ∅))) c).
Proof.
  split.
  - apply (proj1 parallel_tracked_contact_isotropic (cartMachine false ∅) 1%nat 2%nat
             [contactAlong] (mkdxGeom 1 Vector3_Zero identity)
             (mkdxGeom 2 Vector3_Zero identity) 11%nat cartTrack contactAlong);
      try reflexivity.
    + apply list_elem_of_here.
    + simpl. lra.
    + intros [=].
    + simpl. rewrite rollingDirection_along. lra.
  - apply (proj2 parallel_tracked_contact_isotropic (cartMachine false ∅)
             (cartCollisionPair collisionAlong) (mkODELink 10 1 0 [] ∅ 0)
             (mkODELink 11 2 3 [] ∅ 0) 11%nat cartTrack collisionAlong);
      try reflexivity.
    + apply list_elem_of_here.
    + simpl. lra.
    + simpl.
      replace (mkVector3 (- 0) (- -1) (- 0)) with (mkVector3 0 1 0) by (f_equal; lra).
      rewrite rollingDirection_along. lra.
Defined.

(** A contact of the track along the track axis that is deeper than 0.001
    gets no joint at all, isotropic or other. *)
Lemma parallel_deep_contact_dropped :
  (norm (rollingDirection cartTrack (cg_normal contactDeep)) < 1.0e-5)%R
  /\ (cg_depth contactDeep > 0.001)%R
  /\ exists data',
       nearCallback (cartMachine false ∅) 1 2 [contactDeep] = Some data'
       /\ contactJointGroup (impl data') = [].
Proof.
  split; [simpl; rewrite rollingDirection_along; lra|]. split; [simpl; lra|].
  destruct (nearCallback_spec (cartMachine false ∅) 1 2 [contactDeep]
              (mkdxGeom 1 Vector3_Zero identity) (mkdxGeom 2 Vector3_Zero identity)
              eq_refl eq_refl eq_refl) as (data' & Hrun & Hgrp).
  { intros p [= <-]. by eexists. }
  exists data'. split; [exact Hrun|]. rewrite Hgrp.
  assert (Hnone : created_joint
                    (nearCallback_contact 1 cartHeap (Some 11%nat) (-1) false 0) 1 2
                    (dContact_of contactDeep) = None).
  { unfold created_joint.
    rewrite (nearCallback_contact_tracked _ _ _ cartTrack) by reflexivity.
    simpl. destruct (Rgt_dec (1 / 500) 0.001); [done|lra]. }
  transitivity ([] ++ omap (created_joint
                              (nearCallback_contact 1 cartHeap (Some 11%nat) (-1) false 0)
                              1 2) [dContact_of contactDeep]); [reflexivity|].
  cbn [omap list_omap app]. by rewrite Hnone.
Qed.

Lemma norm_across : norm (mkVector3 1 0 0) = 1%R.
Proof. apply norm_of_square; [lra|]. unfold dot. simpl. ring. Qed.

Lemma tracked_contact_anisotropic_cart :
  (exists data' c,
     nearCallback (cartMachine false ∅) 1 2 [contactAcross] = Some data'
     /\ mkContactJoint c 1 2 ∈ contactJointGroup (impl data')
     /\ geom c = contactAcross
     /\ anisotropic (friction (impl (cartMachine false ∅))) 0.5 (commandedRate cartTrack)
          (normalize (vscale (-1) (rollingDirection cartTrack (cg_normal contactAcross)))) c)
  /\ (exists M' c motion,
        collisionCallback (cartMachine false ∅) (cartCollisionPair collisionAcross) = Some M'
        /\ mkContactJoint c 1 2 ∈ contactJointGroup (impl M')
        /\ geom c = geom (contact_of_collision collisionAcross)
        /\ anisotropic (friction (impl (cartMachine false ∅))) 0.5 motion
             (normalize
                (vscale (-1)
                   (rollingDirection cartTrack
                      (cg_normal (geom (contact_of_collision collisionAcross)))))) c
        /\ (link_jointType cartTrack <> PSEUDO_CONTINUOUS_TRACK ->
            motion = commandedRate cartTrack)).
Proof.
  split.
  - refine (proj1 tracked_contact_anisotropic (cartMachine false ∅) 1%nat 2%nat
              [contactAcross] (mkdxGeom 1 Vector3_Zero identity)
              (mkdxGeom 2 Vector3_Zero identity) 11%nat cartTrack contactAcross
              _ _ _ _ _ _ _ _ _); try reflexivity.
    + right. split; reflexivity.
    + apply list_elem_of_here.
    + simpl. lra.
    + intros [=].
    + rewrite rollingDirection_across, norm_across. lra.
  - refine (proj2 tracked_contact_anisotropic (cartMachine false ∅)
              (cartCollisionPair collisionAcross) (mkODELink 10 1 0 [] ∅ 0)
              (mkODELink 11 2 3 [] ∅ 0) 11%nat cartTrack collisionAcross
              _ _ _ _ _ _ _); try reflexivity.
    + right. split; reflexivity.
    + apply list_elem_of_here.
    + simpl. lra.
    + simpl.
      replace (mkVector3 (- 0) (- 0) (- -1)) with (cg_normal contactAcross)
        by (simpl; f_equal; lra).
      rewrite rollingDirection_across, norm_across. lra.
Defined.

Lemma barrelDirection_across :
  barrelDirection PI_2 cartTrack (cg_normal contactAcross) = mkVector3 0 (-1) 0.
Proof.
  rewrite barrelDirection_PI_2, rollingDirection_across.
  unfold cross. simpl. f_equal; ring.
Qed.

Lemma norm_turned (s : R) :
  (s = 1 \/ s = -1)%R -> norm (vscale s (mkVector3 0 (-1) 0)) = 1%R.
Proof.
  intros Hs. apply norm_of_square; [lra|]. unfold dot, vscale. simpl.
  destruct Hs as [-> | ->]; ring.
Qed.

(** The track of the cart with the stored barrel angle pi/2 (what a barrel
    angle configured as 0 stores): the friction direction of the joint is
    (0, 1, 0), not the normalised track axis x contact normal with the sign of
    the second body, which is (-1, 0, 0). *)
Lemma mecanum_track_direction_turned :
  (exists data' c,
     nearCallback (cartMachine false (<[2%nat := PI_2]> ∅)) 1 2 [contactAcross] = Some data'
     /\ mkContactJoint c 1 2 ∈ contactJointGroup (impl data')
     /\ fdir1 c = Some (mkVector3 0 1 0))
  /\ normalize (vscale (-1) (rollingDirection cartTrack (cg_normal contactAcross)))
     = mkVector3 (-1) 0 0.
Proof.
  split.
  - destruct (nearCallback_joint (cartMachine false (<[2%nat := PI_2]> ∅)) 1 2
                [contactAcross] (mkdxGeom 1 Vector3_Zero identity)
                (mkdxGeom 2 Vector3_Zero identity) contactAcross
                (set_mu2 0.5
                   (set_mu 1
                      (set_motion1 (commandedRate cartTrack)
                         (set_fdir1 (mkVector3 0 1 0)
                            (set_mode anisotropicMode (dContact_of contactAcross))))))
                eq_refl eq_refl eq_refl) as (data' & Hrun & Hin).
    + intros p [= <-]. by eexists.
    + apply list_elem_of_here.
    + change (nearCallback_contact 1 cartHeap (Some 11%nat) (-1) true PI_2
                (dContact_of contactAcross) = Some (Some (set_mu2 0.5
                   (set_mu 1
                      (set_motion1 (commandedRate cartTrack)
                         (set_fdir1 (mkVector3 0 1 0)
                            (set_mode anisotropicMode (dContact_of contactAcross)))))))).
      rewrite (nearCallback_contact_tracked _ _ _ cartTrack) by reflexivity.
      cbn [geom dContact_of cg_depth cg_normal contactAcross].
      change (mkVector3 0 0 1) with (cg_normal contactAcross).
      rewrite barrelDirection_across.
      destruct (Rgt_dec (1 / 2000) 0.001); [lra|].
      assert (norm (mkVector3 0 (-1) 0) = 1%R) as Hn.
      { replace (mkVector3 0 (-1) 0) with (vscale 1 (mkVector3 0 (-1) 0))
          by (unfold vscale; simpl; f_equal; ring).
        apply norm_turned. by left. }
      destruct (Rlt_dec (norm (mkVector3 0 (-1) 0)) 1.0e-5) as [Hlt|_];
        [rewrite Hn in Hlt; lra|].
      do 6 f_equal. unfold normalize. rewrite norm_turned by (by right).
      unfold vdiv, vscale. simpl. f_equal; field.
    + exists data'. eexists. split; [exact Hrun|]. split; [exact Hin|]. reflexivity.
  - rewrite rollingDirection_across. unfold normalize.
    assert (norm (vscale (-1) (mkVector3 1 0 0)) = 1%R) as ->.
    { apply norm_of_square; [lra|]. unfold dot, vscale. simpl. ring. }
    unfold vdiv, vscale. simpl. f_equal; field.
Qed.

(** A barrel angle configured as 0 is stored as pi/2: on the track of the
    cart the near callback then takes (0, -1, 0) as friction direction, where
    the rotation by the angle 0 would have left (1, 0, 0). *)
Lemma barrel_angle_zero_is_quarter_turn :
  barrelAngleSetting (Some [ScalarNumber "0" 0]) 0 = Some PI_2
  /\ barrelDirection PI_2 cartTrack (cg_normal contactAcross) = mkVector3 0 (-1) 0
  /\ barrelDirection 0 cartTrack (cg_normal contactAcross) = mkVector3 1 0 0
  /\ mkVector3 0 (-1) 0 <> mkVector3 1 0 0
  /\ exists c,
       nearCallback_contact 1 cartHeap (Some 11%nat) 1 true PI_2 (dContact_of contactAcross)
       = Some (Some c)
       /\ fdir1 c = Some (mkVector3 0 (-1) 0).
Proof.
  split; [|split; [|split; [|split]]].
  - unfold barrelAngleSetting. simpl. destruct (Req_dec_T 0 0); done.
  - apply barrelDirection_across.
  - rewrite barrelDirection_0. apply rollingDirection_across.
  - intros [= E _]. lra.
  - rewrite (nearCallback_contact_tracked _ _ _ cartTrack) by reflexivity.
    cbn [geom dContact_of cg_depth cg_normal contactAcross].
    change (mkVector3 0 0 1) with (cg_normal contactAcross).
    rewrite barrelDirection_across.
    destruct (Rgt_dec (1 / 2000) 0.001); [lra|].
    assert (norm (mkVector3 0 (-1) 0) = 1%R) as Hn.
    { replace (mkVector3 0 (-1) 0) with (vscale 1 (mkVector3 0 (-1) 0))
        by (unfold vscale; simpl; f_equal; ring).
      apply norm_turned. by left. }
    destruct (Rlt_dec (norm (mkVector3 0 (-1) 0)) 1.0e-5) as [Hlt|_];
      [rewrite Hn in Hlt; lra|].
    eexists. split; [reflexivity|]. simpl. f_equal.
    unfold normalize. rewrite norm_turned by (by left).
    unfold vdiv, vscale. simpl. f_equal; field.
Qed.

End Examples.

(** ** Further statements at work on the examples *)

Section MoreExamples.

#[local] Existing Instance idleSolver.
#[local] Existing Instance noDevices.
#[local] Existing Instance plainModel.

Lemma createBody_nonstatic_adapters_cart :
  exists simImpl' ob' W',
    createBody (cartImpl false ∅) (ODEBody_new cart) cartHeap cartWorld
      = Some (simImpl', ob', W')
    /\ adapters_own_bodies (odeLinks ob') cartHeap W'.
Proof.
  destruct (createBody (cartImpl false ∅) (ODEBody_new cart) cartHeap cartWorld)
    as [[[simImpl' ob'] W']|] eqn:E; [|vm_compute in E; discriminate].
  exists simImpl', ob', W'. split; [reflexivity|].
  apply (createBody_nonstatic_adapters (cartImpl false ∅) simImpl' cart ob' cartHeap
           cartWorld W'); [reflexivity|discriminate| |exact E].
  apply (bool_decide_unpack _). vm_compute. reflexivity.
Defined.

Lemma createBody_static_wall :
  exists simImpl' ob' W',
    createBody (cartImpl false ∅) (ODEBody_new wall) wallHeap cartWorld
      = Some (simImpl', ob', W')
    /\ Forall (fun ol => bodyID ol = 0%nat /\ jointID ol = 0%nat) (odeLinks ob')
    /\ ob_worldID ob' = 0%nat
    /\ bodies W' = bodies cartWorld
    /\ crawlerLinks simImpl' = crawlerLinks (cartImpl false ∅).
Proof.
  destruct (createBody (cartImpl false ∅) (ODEBody_new wall) wallHeap cartWorld)
    as [[[simImpl' ob'] W']|] eqn:E; [|vm_compute in E; discriminate].
  exists simImpl', ob', W'. split; [reflexivity|].
  apply (createBody_static (cartImpl false ∅) simImpl' wall ob' wallHeap cartWorld W');
    [reflexivity|exact E].
Defined.

Lemma createBody_registers_tracks_cart :
  exists simImpl' ob' W',
    createBody (cartImpl false ∅) (ODEBody_new cart) cartHeap cartWorld
      = Some (simImpl', ob', W')
    /\ (forall b p, crawlerLinks (cartImpl false ∅) !! b = Some p ->
                    crawlerLinks simImpl' !! b = Some p)
    /\ (forall b p, crawlerLinks (cartImpl false ∅) !! b = None ->
          (crawlerLinks simImpl' !! b = Some p <->
           exists i ol l, odeLinks ob' !! S i = Some ol /\ bodyID ol = b /\ link ol = p
                          /\ cartHeap !! p = Some l /\ isTrack l = true)).
Proof.
  destruct (createBody (cartImpl false ∅) (ODEBody_new cart) cartHeap cartWorld)
    as [[[simImpl' ob'] W']|] eqn:E; [|vm_compute in E; discriminate].
  exists simImpl', ob', W'. split; [reflexivity|].
  apply (createBody_registers_tracks (cartImpl false ∅) simImpl' cart ob' cartHeap
           cartWorld W'); [reflexivity|discriminate|exact E].
Defined.

Lemma createBody_geometries_attached_cart :
  exists simImpl' ob' W',
    createBody (cartImpl false ∅) (ODEBody_new cart) cartHeap cartWorld
      = Some (simImpl', ob', W')
    /\ Forall (fun ol => geoms_attached (last_handle cartWorld) W' (bodyID ol) (geomID ol))
         (odeLinks ob').
Proof.
  destruct (createBody (cartImpl false ∅) (ODEBody_new cart) cartHeap cartWorld)
    as [[[simImpl' ob'] W']|] eqn:E; [|vm_compute in E; discriminate].
  exists simImpl', ob', W'. split; [reflexivity|].
  apply (createBody_geometries_attached (cartImpl false ∅) simImpl' cart ob' cartHeap
           cartWorld W' E).
Defined.

Lemma createBody_plane2D_cart :
  exists simImpl' ob' W' root,
    createBody (cartImpl true ∅) (ODEBody_new cart) cartHeap cartWorld
      = Some (simImpl', ob', W')
    /\ head (odeLinks ob') = Some root
    /\ bodyID root <> 0%nat
    /\ joints W' !! last_handle W'
       = Some (mkdxJoint dJointTypePlane2D (bodyID root) 0 None None).
Proof.
  destruct (createBody (cartImpl true ∅) (ODEBody_new cart) cartHeap cartWorld)
    as [[[simImpl' ob'] W']|] eqn:E; [|vm_compute in E; discriminate].
  destruct (createBody_plane2D (cartImpl true ∅) simImpl' cart ob' cartHeap cartWorld W')
    as (root & Hroot); [reflexivity|discriminate|reflexivity|exact E|].
  exists simImpl', ob', W', root. split; [reflexivity|exact Hroot].
Defined.

Lemma actuation_commands_cart :
  exists W',
    ODEBody_setTorqueToODE cartODEBody cartHeap cartWorld = Some W'
    /\ commands W' = commands cartWorld
                     ++ omap (torqueCommand cartHeap) (drop 1 (odeLinks cartODEBody))
    /\ bodies W' = bodies cartWorld /\ joints W' = joints cartWorld
    /\ geoms W' = geoms cartWorld.
Proof.
  exists cartWorld. split; [reflexivity|].
  apply (proj1 (actuation_commands cartODEBody cartHeap cartWorld cartWorld)).
  reflexivity.
Defined.

Lemma pull_then_push_restores_cart :
  exists l B',
    pullLink true (mkODELink 10 1 0 [1%nat] ∅ 0) cartWorld cartRoot = Some l
    /\ bodies (pushLink true (mkODELink 10 1 0 [1%nat] ∅ 0) l cartWorld) !! 1%nat = Some B'
    /\ posr_pos B' = posr_pos (restingBody 10) /\ posr_R B' = posr_R (restingBody 10)
    /\ lvel B' = lvel (restingBody 10) /\ avel B' = avel (restingBody 10).
Proof.
  destruct (pullLink true (mkODELink 10 1 0 [1%nat] ∅ 0) cartWorld cartRoot)
    as [l|] eqn:E; [|vm_compute in E; discriminate].
  destruct (pull_then_push_restores true (mkODELink 10 1 0 [1%nat] ∅ 0) cartRoot l
              cartWorld (restingBody 10)) as (B' & HB');
    [discriminate|reflexivity|reflexivity|reflexivity|reflexivity|exact E|].
  exists l, B'. split; [reflexivity|exact HB'].
Defined.

Lemma pull_frame_cart :
  exists heap',
    pullLinks false cartAdapters cartWorld cartHeap = Some heap'
    /\ (forall p, p ∉ link <$> cartAdapters -> heap' !! p = cartHeap !! p)
    /\ (forall p l, cartHeap !! p = Some l ->
          exists l', heap' !! p = Some l' /\ pull_keeps l l')
    /\ (forall p, cartHeap !! p = None -> heap' !! p = None).
Proof.
  destruct (pullLinks false cartAdapters cartWorld cartHeap)
    as [heap'|] eqn:E; [|vm_compute in E; discriminate].
  exists heap'. split; [reflexivity|].
  apply (pull_frame false cartAdapters cartWorld cartHeap heap' E).
Defined.

Lemma stepSimulation_keeps_registry_cart :
  exists r M',
    stepSimulation (fun _ => []) (cartMachine false ∅) [cartODEBody] = Some (r, M')
    /\ r = true
    /\ registry_reachable (nailedObjects M')
    /\ forall b p, objectMap (nailedObjects M') !! b = Some p -> is_Some p.
Proof.
  destruct (stepSimulation (fun _ => []) (cartMachine false ∅) [cartODEBody])
    as [[r M']|] eqn:E; [|vm_compute in E; discriminate].
  exists r, M'. split; [reflexivity|].
  apply (stepSimulation_keeps_registry (fun _ => []) (cartMachine false ∅) M'
           [cartODEBody] r); [apply reach_new|exact E].
Defined.

Lemma nailedObjectLimitCheck_erases_oneNail :
  exists reg',
    nailedObjectLimitCheck (cartImpl false ∅) cartWorld oneNail = Some reg'
    /\ forall b,
         objectMap reg' !! b =
         match objectMap oneNail !! b with
         | Some (Some o) =>
             if isLimited cartWorld o && negb (nailedObjectGripCheck (cartImpl false ∅) o)
             then None else Some (Some o)
         | other => other
         end.
Proof.
  apply (nailedObjectLimitCheck_erases (cartImpl false ∅) cartWorld oneNail).
  apply (reach_addObject (Some nailedBoard) NailedObjectManager_new oneNail reach_new).
  reflexivity.
Defined.

Lemma untracked_contacts_isotropic_cart :
  exists data',
    nearCallback (with_crawlerLinks ∅ (cartMachine false ∅)) 1 2 [contactDeep] = Some data'
    /\ contactJointGroup (impl data')
       = [mkContactJoint (set_mu 1 (set_mode dContactApprox1 (dContact_of contactDeep))) 1 2].
Proof.
  destruct (proj1 untracked_contacts_isotropic (with_crawlerLinks ∅ (cartMachine false ∅))
              1%nat 2%nat [contactDeep] (mkdxGeom 1 Vector3_Zero identity)
              (mkdxGeom 2 Vector3_Zero identity) eq_refl eq_refl
              (lookup_empty _) (lookup_empty _) eq_refl)
    as (data' & Hrun & Hgrp & _).
  exists data'. split; [exact Hrun|exact Hgrp].
Defined.

Lemma second_track_decides_cart :
  exists data' c,
    nearCallback (cartMachine false ∅) 1 2 [contactAcross] = Some data'
    /\ mkContactJoint c 1 2 ∈ contactJointGroup (impl data')
    /\ geom c = contactAcross
    /\ anisotropic 1 0.5 (commandedRate cartTrack)
         (normalize (vscale (-1) (rollingDirection cartTrack (cg_normal contactAcross)))) c.
Proof.
  refine (second_track_decides (cartMachine false ∅) 1%nat 2%nat [contactAcross]
            (mkdxGeom 1 Vector3_Zero identity) (mkdxGeom 2 Vector3_Zero identity)
            11%nat cartTrack contactAcross _ _ _ _ _ _ _ _); try reflexivity.
  - apply list_elem_of_here.
  - simpl. lra.
  - change (~ (norm (rollingDirection cartTrack (cg_normal contactAcross)) < 1.0e-5)%R).
    rewrite rollingDirection_across, norm_across. lra.
Defined.

Lemma alignToZAxisIn2Dmode_idempotent_cart :
  exists W1,
    alignToZAxisIn2Dmode cartODEBody cartWorld = Some W1
    /\ alignToZAxisIn2Dmode cartODEBody W1 = Some W1.
Proof.
  destruct (alignToZAxisIn2Dmode cartODEBody cartWorld) as [W1|] eqn:E;
    [|vm_compute in E; discriminate].
  exists W1. split; [reflexivity|].
  apply (alignToZAxisIn2Dmode_idempotent cartODEBody cartWorld W1
           (mkODELink 10 1 0 [1%nat] ∅ 0) (restingBody 10));
    [reflexivity|reflexivity| |exact E].
  cbv zeta. unfold alignToZAxis_r, Quat_of_AngleAxis, qmul. simpl.
  replace (PI / 2 / 2)%R with (PI / 4)%R by lra. rewrite cos_PI4.
  assert (Hs : (0 < 1 / sqrt 2)%R).
  { apply Rdiv_lt_0_compat; [lra|]. apply sqrt_lt_R0. lra. }
  nra.
Defined.

End MoreExamples.

Section BusyExamples.

#[local] Existing Instance idleSolver.
#[local] Existing Instance busyDevices.
#[local] Existing Instance plainModel.

Lemma gripping_pair_skipped_cart :
  exists data',
    nearCallback (busyMachine (<[2%nat := tt]> ∅) ∅) 1 2 [contactAcross] = Some data'
    /\ contactJointGroup (impl data') = []
    /\ nailDriverDevs (impl data') = ∅
    /\ nailedObjects data' = NailedObjectManager_new.
Proof.
  apply (gripping_pair_skipped (busyMachine (<[2%nat := tt]> ∅) ∅) 1%nat 2%nat
           [contactAcross] (mkdxGeom 1 Vector3_Zero identity)
           (mkdxGeom 2 Vector3_Zero identity) tt); try reflexivity; try discriminate.
  right. split; reflexivity.
Defined.

Lemma nail_driver_registers_cart :
  exists M',
    nailDriverNearCallback (busyMachine ∅ (<[2%nat := tt]> ∅)) 1 2
      [dContact_of contactAcross] = Some M'
    /\ fst (NailedObjectManager_find 1 (nailedObjects M')) = true.
Proof.
  destruct (nail_driver_registers (busyMachine ∅ (<[2%nat := tt]> ∅)) 1%nat 2%nat
              [dContact_of contactAcross] tt 1%nat) as (M' & Hrun & Hfired & _);
    try reflexivity; try discriminate.
  - apply reach_new.
  - right. repeat split; reflexivity.
  - exists M'. split; [exact Hrun|]. apply Hfired. reflexivity.
Defined.

End BusyExamples.

Section LaterExamples.

#[local] Existing Instance idleSolver.
#[local] Existing Instance noDevices.
#[local] Existing Instance plainModel.

Lemma static_link_places_geometries_wall :
  (forall flip,
     bodies (pushLink flip wallAdapter wallLink cartWorld) = bodies cartWorld
     /\ joints (pushLink flip wallAdapter wallLink cartWorld) = joints cartWorld
     /\ forall g, g ∉ geomID wallAdapter ->
          geoms (pushLink flip wallAdapter wallLink cartWorld) !! g = geoms cartWorld !! g)
  /\ forall g G, g ∈ geomID wallAdapter -> geoms cartWorld !! g = Some G ->
       (let T_ := mulPP (link_T wallLink)
                    (default Position_Identity (offsetMap wallAdapter !! g)) in
        geoms (pushLink false wallAdapter wallLink cartWorld) !! g
        = Some (mkdxGeom (geom_body G) (vadd (translation T_) (link_c wallLink))
                  (dMatrix3_of T_)))
       /\ (let c := vadd (link_p wallLink) (mulMV (link_R wallLink) (link_c wallLink)) in
           let T := link_R wallLink in
           geoms (pushLink true wallAdapter wallLink cartWorld) !! g
           = Some (mkdxGeom (geom_body G) (mkVector3 (vx c) (vy c) (- vz c))
                     (mkdMatrix3 (m00 T) (m01 T) (m02 T) 0
                                 (m20 T) (m21 T) (m22 T) 0
                                 (- m10 T) (- m11 T) (- m12 T) 0))).
Proof.
  apply (static_link_places_geometries wallAdapter wallLink cartWorld). reflexivity.
Defined.

Lemma cartAdapters_aligned : index_aligned cartAdapters cartHeap.
Proof.
  intros i ol Hi. destruct i as [|[|i]]; simpl in Hi; [| |done].
  - injection Hi as <-. by exists cartRoot.
  - injection Hi as <-. by exists cartTrack.
Qed.

Lemma setExtraJoints_one_joint_each_loopCart :
  exists W',
    setExtraJoints false loopODEBody cartHeap cartWorld = Some W'
    /\ bodies W' = bodies cartWorld /\ geoms W' = geoms cartWorld
    /\ commands W' = commands cartWorld
    /\ last_handle W'
       = (last_handle cartWorld + length (body_extraJoints (body loopODEBody)))%nat
    /\ (forall id, (id <= last_handle cartWorld)%nat ->
          joints W' !! id = joints cartWorld !! id)
    /\ forall j ej, body_extraJoints (body loopODEBody) !! j = Some ej ->
         exists a0 a1 l0,
           a0 ∈ odeLinks loopODEBody /\ a1 ∈ odeLinks loopODEBody
           /\ link a0 = fst (ej_link ej) /\ link a1 = snd (ej_link ej)
           /\ cartHeap !! link a0 = Some l0
           /\ joints W' !! (last_handle cartWorld + 1 + j)%nat
              = Some (let conv := fun v => if false then makeInternal v else v in
                      let p := conv (vadd (mulMV (link_attitude l0) (fst (ej_point ej)))
                                       (link_p l0)) in
                      let a := conv (mulMV (link_attitude l0) (ej_axis ej)) in
                      match ej_type ej with
                      | EJ_PISTON =>
                          mkdxJoint dJointTypePiston (bodyID a0) (bodyID a1) (Some p) (Some a)
                      | EJ_BALL =>
                          mkdxJoint dJointTypeBall (bodyID a0) (bodyID a1) (Some p) None
                      end).
Proof.
  apply (setExtraJoints_one_joint_each false loopODEBody cartHeap cartWorld).
  - discriminate.
  - exact cartAdapters_aligned.
  - repeat constructor; simpl; set_solver.
Defined.

Lemma cart_wf : Body_wf cart cartHeap.
Proof.
  split; [discriminate|]. split; [|split].
  - apply (bool_decide_unpack _). vm_compute. reflexivity.
  - intros p Hp. change (body_links cart) with [10%nat; 11%nat] in Hp.
    apply elem_of_cons in Hp as [->|Hp]; [by eexists|].
    apply elem_of_cons in Hp as [->|Hp]; [by eexists|].
    by apply elem_of_nil in Hp.
  - constructor.
Qed.

Lemma createBody_enters_geometry_ids_cart :
  exists simImpl' ob' W',
    createBody detectorImpl (ODEBody_new cart) (updateLinkTree cart cartHeap) cartWorld
      = Some (simImpl', ob', W')
    /\ length (geometryIdToLink simImpl') = (geometryId ob' + numLinks cart)%nat
    /\ (forall i ol, odeLinks ob' !! i = Some ol ->
          geometryIdToLink simImpl' !! (geometryId ob' + i)%nat = Some (Some ol))
    /\ (forall k, (k < geometryId ob')%nat ->
          geometryIdToLink simImpl' !! k
          = Some (default None (geometryIdToLink detectorImpl !! k))).
Proof.
  destruct (createBody detectorImpl (ODEBody_new cart) (updateLinkTree cart cartHeap)
              cartWorld) as [[[simImpl' ob'] W']|] eqn:E; [|vm_compute in E; discriminate].
  exists simImpl', ob', W'. split; [reflexivity|].
  apply (createBody_enters_geometry_ids detectorImpl simImpl' cart ob' cartHeap
           cartWorld W' cart_wf eq_refl E).
Defined.

Lemma createBody_bodies_hold_links_cart :
  exists simImpl' ob' W',
    createBody (cartImpl false ∅) (ODEBody_new cart) cartHeap cartWorld
      = Some (simImpl', ob', W')
    /\ forall ol l, ol ∈ odeLinks ob' -> cartHeap !! link ol = Some l ->
         (exists B0, bodies W' !! bodyID ol
                     = Some (pushed (flipYZ (cartImpl false ∅)) l B0))
         /\ exists l', pullLink (flipYZ (cartImpl false ∅)) ol W' l = Some l'
              /\ link_R l' = link_R l /\ link_p l' = link_p l
              /\ link_v l' = link_v l /\ link_w l' = link_w l.
Proof.
  destruct (createBody (cartImpl false ∅) (ODEBody_new cart) cartHeap cartWorld)
    as [[[simImpl' ob'] W']|] eqn:E; [|vm_compute in E; discriminate].
  exists simImpl', ob', W'. split; [reflexivity|].
  apply (createBody_bodies_hold_links (cartImpl false ∅) simImpl' cart ob' cartHeap
           cartWorld W'); [reflexivity|discriminate|exact E].
Defined.

Lemma cartAdapters_links_NoDup : NoDup (link <$> ([cartODEBody] ≫= odeLinks)).
Proof. apply (bool_decide_unpack _). vm_compute. reflexivity. Qed.

Lemma stepSimulation_keeps_configuration_cart :
  exists r M',
    stepSimulation (fun _ => []) (cartMachine false ∅) [cartODEBody] = Some (r, M')
    /\ same_configuration (impl (cartMachine false ∅)) (impl M')
    /\ same_devices (impl (cartMachine false ∅)) (impl M').
Proof.
  destruct (stepSimulation (fun _ => []) (cartMachine false ∅) [cartODEBody])
    as [[r M']|] eqn:E; [|vm_compute in E; discriminate].
  exists r, M'. split; [reflexivity|].
  apply (stepSimulation_keeps_configuration (fun _ => []) (cartMachine false ∅) M'
           [cartODEBody] r E).
Defined.

Lemma step_links_mirror_solver_cart :
  exists r M',
    stepSimulation (fun _ => []) (cartMachine false ∅) [cartODEBody] = Some (r, M')
    /\ forall ob ol, ob ∈ [cartODEBody] -> ol ∈ odeLinks ob ->
         exists l0 l',
           pullLink (flipYZ (impl (cartMachine false ∅))) ol (ode M') l0 = Some l'
           /\ heap M' !! link ol = Some l'
           /\ (flipYZ (impl (cartMachine false ∅)) = false ->
               exists B, bodies (ode M') !! bodyID ol = Some B
                 /\ link_R l' = mkMatrix3 (d0 (posr_R B)) (d1 (posr_R B)) (d2 (posr_R B))
                                          (d4 (posr_R B)) (d5 (posr_R B)) (d6 (posr_R B))
                                          (d8 (posr_R B)) (d9 (posr_R B)) (d10 (posr_R B))
                 /\ vadd (link_p l') (mulMV (link_R l') (link_c l')) = posr_pos B
                 /\ link_w l' = avel B
                 /\ vadd (link_v l') (cross (link_w l') (mulMV (link_R l') (link_c l')))
                    = lvel B).
Proof.
  destruct (stepSimulation (fun _ => []) (cartMachine false ∅) [cartODEBody])
    as [[r M']|] eqn:E; [|vm_compute in E; discriminate].
  exists r, M'. split; [reflexivity|].
  apply (step_links_mirror_solver (fun _ => []) (cartMachine false ∅) M'
           [cartODEBody] r eq_refl cartAdapters_links_NoDup E).
Defined.

Lemma createBody_joints_cart :
  exists simImpl' ob' W',
    createBody (cartImpl false ∅) (ODEBody_new cart) cartHeap cartWorld
      = Some (simImpl', ob', W')
    /\ Forall (link_joint cartHeap W' (0%nat :: (bodyID <$> odeLinks ob'))) (odeLinks ob').
Proof.
  destruct (createBody (cartImpl false ∅) (ODEBody_new cart) cartHeap cartWorld)
    as [[[simImpl' ob'] W']|] eqn:E; [|vm_compute in E; discriminate].
  exists simImpl', ob', W'. split; [reflexivity|].
  apply (createBody_joints (cartImpl false ∅) simImpl' cart ob' cartHeap cartWorld W');
    [reflexivity|discriminate|exact E].
Defined.

End LaterExamples.
